(** * QEx mesh extractor: a shallow embedding of [MeshExtractorT.cc]

    The development follows the pipeline of [MeshExtractorT<TMeshT>::extract]:
    transition functions, consistent truncation, grid-vertex generation,
    local edge construction, the connector, the incomplete-fan repair and
    the face assembler.

    Conventions.
    - OpenMesh handles ([HEH], [EH], [VH], [FH]) are integers, [-1] being
      the invalid handle.
    - [int] values are modelled by [Z]; vector positions by [nat].
    - [double] values are modelled by exact rationals [Q].  Every [double]
      is a rational, and the operations embedded here (comparison, sign
      tests, subtraction of a nearby integer, halving of an integer) are
      exact on the values they are used on, so no rounding is lost by the
      embedding of these parts.  Parts of the source whose result depends
      on IEEE rounding or on libm ([std::log], [std::acos], [pow]) are
      taken as inputs of the embedded functions; where a run of the
      rounding itself is needed, they are instantiated with binary64
      arithmetic (primitive floats). *)

From Stdlib Require Import ZArith QArith Qround Qabs Qminmax Lqa Lia List Bool.
From Stdlib Require Floats Uint63.
From stdpp Require Import base tactics list.
Import ListNotations.

Local Open Scope Z_scope.

(** ** Numeric helpers *)

(** C's conversion [int(x)] of a [double]: truncation toward zero. *)
Definition Qtrunc (x : Q) : Z :=
  if Qlt_le_dec x 0 then Qceiling x else Qfloor x.

(** [#define ROUND_QME(x) ((x)<0?int((x)-0.5):int((x)+0.5))] *)
Definition ROUND_QME (x : Q) : Z :=
  if Qlt_le_dec x 0 then Qtrunc (x - (1#2))%Q else Qtrunc (x + (1#2))%Q.

(** C's [%] on [int]: the remainder of the truncating division. *)
Definition c_rem (a b : Z) : Z := Z.rem a b.

(** Points of the parameter domain ([Point_2], [Vector_2]). *)
Definition Point_2 : Type := (Q * Q)%type.

Definition Peq (p q : Point_2) : Prop :=
  (fst p == fst q)%Q /\ (snd p == snd q)%Q.

Definition Peqb (p q : Point_2) : bool :=
  Qeq_bool (fst p) (fst q) && Qeq_bool (snd p) (snd q).

(** ** Transition functions *)

Module TF.

(** Modelled from the spec: the class [TransitionFunction] ([TF]) is declared
    in a header that is not part of the sources.  The spec gives it as a
    triple [(r, tu, tv)] with [r] in [{0,1,2,3}]; it acts on a point by
    rotating it by [r] quarter turns about the origin (multiplication by
    [i^r]) and then adding [(tu, tv)]; composition is function composition,
    the identity is [(0,0,0)] and inverses are exact. *)
Record t : Type := mk { r : Z; tu : Z; tv : Z }.

Definition identity : t := mk 0 0 0.
Definition IDENTITY : t := identity.

Definition eqb (a b : t) : bool :=
  (r a =? r b) && (tu a =? tu b) && (tv a =? tv b).

(** Multiplication by [i^k] on integer vectors. *)
Definition rotZ (k : Z) (p : Z * Z) : Z * Z :=
  let '(x, y) := p in
  match k mod 4 with
  | 1 => (- y, x)
  | 2 => (- x, - y)
  | 3 => (y, - x)
  | _ => (x, y)
  end.

(** Multiplication by [i^k] on points of the parameter domain. *)
Definition rotQ (k : Z) (p : Point_2) : Point_2 :=
  let '(x, y) := p in
  match k mod 4 with
  | 1 => (- y, x)%Q
  | 2 => (- x, - y)%Q
  | 3 => (y, - x)%Q
  | _ => (x, y)
  end.

(** [tf.transform_point(p)] *)
Definition transform_point (f : t) (p : Point_2) : Point_2 :=
  let '(x, y) := rotQ (r f) p in
  (x + inject_Z (tu f), y + inject_Z (tv f))%Q.

(** [a * b]: apply [b], then [a]. *)
Definition mul (a b : t) : t :=
  let '(x, y) := rotZ (r a) (tu b, tv b) in
  mk ((r a + r b) mod 4) (x + tu a) (y + tv a).

(** [a.inverse()] *)
Definition inverse (a : t) : t :=
  let k := (- r a) mod 4 in
  let '(x, y) := rotZ k (tu a, tv a) in
  mk k (- x) (- y).

(** The data-model invariant of a transition function. *)
Definition wf (a : t) : Prop := 0 <= r a < 4.

End TF.

Notation "a ** b" := (TF.mul a b) (at level 40, left associativity).

(** ** Step 2 of [extract]: [extract_transition_functions] *)

(** What the loop body reads for one edge.  The three numbers of an
    interior edge are the results of the floating-point expressions of the
    source before their normalisation: [raw_r] is
    [ROUND_QME(2.0*std::log((r0-r1)/(l0-l1)).imag()/M_PI)], and
    [(raw_tu, raw_tv)] are [ROUND_QME(t.real())] and [ROUND_QME(t.imag())]
    for the [t] computed from the normalised rotation, which is why they
    are given as a function of it. *)
Record EdgeInput : Type := mkEdgeInput {
  edge_is_boundary : bool;
  raw_r : Z;
  raw_t : Z -> Z * Z
}.

(** [r = ((r % 4) + 4) % 4; // assure that r is between 0 and 3] *)
Definition normalize_r (r : Z) : Z := c_rem (c_rem r 4 + 4) 4.

(** The body of the loop over the edges. *)
Definition extract_edge (e : EdgeInput) : TF.t :=
  if edge_is_boundary e then TF.mk 0 0 0
  else
    let r := normalize_r (raw_r e) in
    let '(a, b) := raw_t e r in
    TF.mk r a b.

(** [extract_transition_functions]: the table [tf_], indexed by edge. *)
Definition extract_transition_functions (es : list EdgeInput) : list TF.t :=
  map extract_edge es.

(** *** The group of transition functions *)

Lemma mod4_cases (k : Z) :
  k mod 4 = 0 \/ k mod 4 = 1 \/ k mod 4 = 2 \/ k mod 4 = 3.
Proof. pose proof (Z.mod_pos_bound k 4); lia. Qed.

Ltac mod4 k :=
  let H := fresh "Hm" in
  destruct (mod4_cases k) as [H | [H | [H | H]]].

Lemma rotZ_mod (k : Z) (p : Z * Z) : TF.rotZ (k mod 4) p = TF.rotZ k p.
Proof. unfold TF.rotZ. now rewrite Z.mod_mod. Qed.

Lemma rotZ_add (a b : Z) (p : Z * Z) :
  TF.rotZ (a + b) p = TF.rotZ a (TF.rotZ b p).
Proof.
  destruct p as [x y]. unfold TF.rotZ.
  rewrite (Z.add_mod a b 4) by lia.
  mod4 a; mod4 b; rewrite Hm, Hm0; cbn; f_equal; lia.
Qed.

Lemma rotZ_plus (k : Z) (x y x' y' : Z) :
  TF.rotZ k (x + x', y + y') =
  (fst (TF.rotZ k (x, y)) + fst (TF.rotZ k (x', y')),
   snd (TF.rotZ k (x, y)) + snd (TF.rotZ k (x', y'))).
Proof. unfold TF.rotZ. mod4 k; rewrite Hm; cbn; f_equal; lia. Qed.

Lemma rotZ_opp (k : Z) (x y : Z) :
  TF.rotZ k (- x, - y) = (- fst (TF.rotZ k (x, y)), - snd (TF.rotZ k (x, y))).
Proof. unfold TF.rotZ. mod4 k; rewrite Hm; cbn; f_equal; lia. Qed.

Lemma rotZ_0 (p : Z * Z) : TF.rotZ 0 p = p.
Proof. now destruct p. Qed.

Lemma wf_identity : TF.wf TF.identity.
Proof. unfold TF.wf; cbn; lia. Qed.

Lemma wf_mul (a b : TF.t) : TF.wf (a ** b).
Proof.
  unfold TF.wf, TF.mul. destruct (TF.rotZ _ _); cbn.
  apply Z.mod_pos_bound; lia.
Qed.

Lemma wf_inverse (a : TF.t) : TF.wf (TF.inverse a).
Proof.
  unfold TF.wf, TF.inverse. destruct (TF.rotZ _ _); cbn.
  apply Z.mod_pos_bound; lia.
Qed.

Lemma mul_unfold (a b : TF.t) :
  a ** b =
  TF.mk ((TF.r a + TF.r b) mod 4)
        (fst (TF.rotZ (TF.r a) (TF.tu b, TF.tv b)) + TF.tu a)
        (snd (TF.rotZ (TF.r a) (TF.tu b, TF.tv b)) + TF.tv a).
Proof. unfold TF.mul. now destruct (TF.rotZ _ _). Qed.

Lemma inverse_unfold (a : TF.t) :
  TF.inverse a =
  TF.mk ((- TF.r a) mod 4)
        (- fst (TF.rotZ (- TF.r a) (TF.tu a, TF.tv a)))
        (- snd (TF.rotZ (- TF.r a) (TF.tu a, TF.tv a))).
Proof. unfold TF.inverse. rewrite rotZ_mod. now destruct (TF.rotZ _ _). Qed.

Lemma mul_assoc (a b c : TF.t) : a ** (b ** c) = (a ** b) ** c.
Proof.
  rewrite !mul_unfold; cbn [TF.r TF.tu TF.tv].
  rewrite rotZ_mod, rotZ_add, rotZ_plus.
  rewrite Zplus_mod_idemp_r, Zplus_mod_idemp_l, Z.add_assoc.
  destruct (TF.rotZ (TF.r b) _) as [x y]; cbn [fst snd].
  f_equal; lia.
Qed.

Lemma mul_identity_l (a : TF.t) : TF.wf a -> TF.identity ** a = a.
Proof.
  intros Ha. rewrite mul_unfold; cbn [TF.identity TF.r TF.tu TF.tv].
  destruct a as [r u v]; unfold TF.wf in Ha; cbn [TF.r TF.tu TF.tv] in *.
  rewrite rotZ_0, Z.add_0_l, Z.mod_small by lia. cbn [fst snd]. f_equal; lia.
Qed.

Lemma mul_identity_r (a : TF.t) : TF.wf a -> a ** TF.identity = a.
Proof.
  intros Ha. rewrite mul_unfold; cbn [TF.identity TF.r TF.tu TF.tv].
  destruct a as [r u v]; unfold TF.wf in Ha; cbn [TF.r TF.tu TF.tv] in *.
  rewrite Z.add_0_r, Z.mod_small by lia.
  unfold TF.rotZ. mod4 r; rewrite Hm; cbn [fst snd]; f_equal; lia.
Qed.

Lemma mul_inverse_l (a : TF.t) : TF.inverse a ** a = TF.identity.
Proof.
  rewrite mul_unfold, inverse_unfold; cbn [TF.r TF.tu TF.tv].
  rewrite rotZ_mod, Zplus_mod_idemp_l.
  replace (- TF.r a + TF.r a) with 0 by lia.
  unfold TF.identity; f_equal; try reflexivity; lia.
Qed.

Lemma mul_inverse_r (a : TF.t) : a ** TF.inverse a = TF.identity.
Proof.
  rewrite mul_unfold, inverse_unfold; cbn [TF.r TF.tu TF.tv].
  rewrite Zplus_mod_idemp_r.
  replace (TF.r a + - TF.r a) with 0 by lia.
  pose proof (rotZ_add (TF.r a) (- TF.r a) (TF.tu a, TF.tv a)) as H.
  replace (TF.r a + - TF.r a) with 0 in H by lia. rewrite rotZ_0 in H.
  destruct (TF.rotZ (- TF.r a) _) as [x y]; cbn [fst snd].
  rewrite rotZ_opp, <- H; cbn [fst snd].
  unfold TF.identity; f_equal; try reflexivity; lia.
Qed.


Lemma inverse_inverse (a : TF.t) : TF.wf a -> TF.inverse (TF.inverse a) = a.
Proof.
  intros Ha.
  rewrite <- (mul_identity_r (TF.inverse (TF.inverse a))) by apply wf_inverse.
  rewrite <- (mul_inverse_l a), mul_assoc, mul_inverse_l.
  now apply mul_identity_l.
Qed.

(** *** Claim C5 *)

Lemma normalize_r_range (r : Z) : 0 <= normalize_r r < 4.
Proof.
  unfold normalize_r, c_rem.
  pose proof (Z.rem_bound_abs r 4 ltac:(lia)) as Hb.
  assert (H0 : 0 <= Z.rem r 4 + 4) by lia.
  pose proof (Z.rem_bound_pos (Z.rem r 4 + 4) 4 H0 ltac:(lia)). lia.
Qed.

Lemma normalize_r_mod (r : Z) : normalize_r r = r mod 4.
Proof.
  unfold normalize_r, c_rem.
  pose proof (Z.rem_bound_abs r 4 ltac:(lia)) as Hb.
  rewrite (Z.rem_mod_nonneg (Z.rem r 4 + 4) 4) by lia.
  pose proof (Z.quot_rem' r 4) as Hq.
  replace (Z.rem r 4 + 4) with (r + (1 - r ÷ 4) * 4) by lia.
  apply Z.mod_add; lia.
Qed.

(** C5.  After [extract_transition_functions], the table has one entry per
    edge; the entry of a boundary edge is exactly [(0,0,0)], and the
    rotation of the entry of an interior edge is the raw rotation
    normalised by [((r % 4) + 4) % 4], which lies in [{0,1,2,3}]
    whatever the raw value is. *)
Theorem extract_transition_functions_rotation (es : list EdgeInput) :
  Forall2
    (fun e f =>
       (edge_is_boundary e = true -> f = TF.mk 0 0 0) /\
       (edge_is_boundary e = false ->
          TF.r f = c_rem (c_rem (raw_r e) 4 + 4) 4 /\
          (TF.r f = 0 \/ TF.r f = 1 \/ TF.r f = 2 \/ TF.r f = 3)))
    es (extract_transition_functions es).
Proof.
  unfold extract_transition_functions.
  induction es as [| e es IH]; cbn [map]; constructor; [| exact IH].
  unfold extract_edge. split; intros Hb; rewrite Hb; [reflexivity |].
  destruct (raw_t e _) as [a b]; cbn [TF.r].
  split; [reflexivity |].
  pose proof (normalize_r_range (raw_r e)); lia.
Qed.

(** ** The input triangle mesh *)

Definition HEH : Type := Z.
Definition EH : Type := Z.
Definition VH : Type := Z.
Definition FH : Type := Z.

(** [handle.is_valid()] *)
Definition is_valid (h : Z) : bool := 0 <=? h.

(** The operations of the half-edge container ([TMeshT], an OpenMesh
    triangle mesh) that the extractor calls.  The container is an external
    collaborator; the extractor is written against this interface. *)
Record TriMesh : Type := mkTriMesh {
  mesh_edges : list EH;        (* edges_sbegin() .. edges_end() *)
  mesh_vertices : list VH;     (* vertices_sbegin() .. vertices_end() *)
  mesh_faces : list FH;        (* faces_sbegin() .. faces_end() *)
  has_edge_status : bool;
  edge_selected : EH -> bool;
  edge_feature : EH -> bool;
  is_boundary_e : EH -> bool;
  is_boundary_h : HEH -> bool;
  is_boundary_v : VH -> bool;
  halfedge_handle_e : EH -> Z -> HEH;
  halfedge_handle_f : FH -> HEH;
  halfedge_handle_v : VH -> HEH;
  opposite_halfedge_handle : HEH -> HEH;
  next_halfedge_handle : HEH -> HEH;
  prev_halfedge_handle : HEH -> HEH;
  to_vertex_handle : HEH -> VH;
  face_handle : HEH -> FH;
  edge_handle : HEH -> EH;
  cvih : VH -> list HEH        (* the incoming halfedges, in circulator order *)
}.

(** The vector [_uv_coords]: entry [2*heh.idx()+i] is coordinate [i] of the
    parameter point at the head of halfedge [heh].  Reading outside the
    vector is undefined in the source; the embedding reads [0] there and a
    write outside is dropped. *)
Definition uv_at (uv : list Q) (k : Z) : Q := default 0%Q (uv !! Z.to_nat k).
Definition uv_set (uv : list Q) (k : Z) (x : Q) : list Q := <[Z.to_nat k := x]> uv.

Definition uv_point (uv : list Q) (h : HEH) : Point_2 :=
  (uv_at uv (2 * h), uv_at uv (2 * h + 1)).

Definition uv_set_point (uv : list Q) (h : HEH) (p : Point_2) : list Q :=
  uv_set (uv_set uv (2 * h) (fst p)) (2 * h + 1) (snd p).

(** ** Step 3 of [extract]: [consistent_truncation] *)

(** The literal [1e-4] of the source is the [double] nearest to one ten
    thousandth, which is this rational (the denominator is [2^66]). *)
Definition snap_eps : Q := 7378697629483821 # 73786976294838206464.

(** One round of [for (unsigned int i = 0; i < 2; ++i)] in the boundary
    loop: the test on coordinate [i] of both halfedges, and the two
    assignments. *)
Definition snap_axis (uv : list Q) (heh0 heh1 : HEH) (i : Z) : list Q :=
  let a := uv_at uv (2 * heh0 + i) in
  let b := uv_at uv (2 * heh1 + i) in
  if Qlt_le_dec (Qabs (a - inject_Z (ROUND_QME a))) snap_eps then
    if Qlt_le_dec (Qabs (b - inject_Z (ROUND_QME b))) snap_eps then
      let uv1 := uv_set uv (2 * heh0 + i)
                   (inject_Z (ROUND_QME (uv_at uv (2 * heh0 + i)))) in
      uv_set uv1 (2 * heh1 + i)
             (inject_Z (ROUND_QME (uv_at uv1 (2 * heh1 + i))))
    else uv
  else uv.

(** The body of the loop over the edges ("correct integer values at
    boundaries"). *)
Definition snap_edge (m : TriMesh) (uv : list Q) (e : EH) : list Q :=
  if is_boundary_e m e then
    if edge_selected m e || edge_feature m e then
      let heh0 := halfedge_handle_e m e 0 in
      let heh1 := halfedge_handle_e m e 1 in
      snap_axis (snap_axis uv heh0 heh1 0) heh0 heh1 1
    else uv
  else uv.

(** The first phase of [consistent_truncation]: the per-edge boundary snap. *)
Definition boundary_snap (m : TriMesh) (uv : list Q) : list Q :=
  if has_edge_status m then fold_left (snap_edge m) (mesh_edges m) uv
  else uv.

(** Modelled from the spec: [transition(HEH)] is declared in a header that is
    not part of the sources.  The table stores, for an interior edge, the
    function that maps the chart of its first ("left") halfedge to the chart
    of the second; the other halfedge gets the inverse.  A missing table entry
    reads as the identity. *)
Definition transition_h (m : TriMesh) (tf_ : list TF.t) (h : HEH) : TF.t :=
  let e := edge_handle m h in
  let f := default TF.identity (tf_ !! Z.to_nat e) in
  if h =? halfedge_handle_e m e 0 then f else TF.inverse f.

(** [transition(const VH&)]: the composition of the edge transitions around
    a vertex.  The source dereferences the circulator of the vertex
    unconditionally; for a vertex without incoming halfedge, where that is
    undefined, the embedding returns the identity. *)
Definition transition_v (m : TriMesh) (tf_ : list TF.t) (v : VH) : TF.t :=
  if is_boundary_v m v then TF.identity
  else
    match cvih m v with
    | [] => TF.identity
    | h :: rest =>
        let tf_first := transition_h m tf_ (opposite_halfedge_handle m h) in
        let tf :=
          fold_left
            (fun tf h' => transition_h m tf_ (opposite_halfedge_handle m h') ** tf)
            rest (TF.mk 0 0 0) in
        tf_first ** tf
    end.

(** "correct dependency between coordinates of irregular vertices": the
    [if] and its [switch] in the loop over the vertices.  The [default]
    branch only reports. *)
Definition fix_irregular (v_is_boundary : bool) (vtrans : TF.t) (p : Point_2)
  : Point_2 :=
  if negb v_is_boundary && negb (TF.eqb vtrans TF.identity) then
    match TF.r vtrans with
    | 1 => (inject_Z (TF.tu vtrans - TF.tv vtrans) / 2,
            inject_Z (TF.tu vtrans + TF.tv vtrans) / 2)%Q
    | 2 => (inject_Z (TF.tu vtrans) / 2, inject_Z (TF.tv vtrans) / 2)%Q
    | 3 => (inject_Z (TF.tu vtrans + TF.tv vtrans) / 2,
            inject_Z (TF.tv vtrans - TF.tu vtrans) / 2)%Q
    | _ => p
    end
  else p.

Section Truncation.

(** The two places of [consistent_truncation] whose result is decided by
    IEEE rounding and by libm: [pow2_scale x] stands for
    [pow(2.0, std::ceil(log(x) / log(2.0)) + 1)], and [clear_bits s x] for the
    value left in [x] by [x += s; x -= s;]. *)
Variable pow2_scale : Q -> Q.
Variable clear_bits : Q -> Q -> Q.

Variable m : TriMesh.
Variable tf_ : list TF.t.

(** The loop "for all incoming halfedges" that computes [max_u_abs] and
    [max_trans_abs]. *)
Definition max_abs_step (uv : list Q) (acc : Q * Q) (heh : HEH) : Q * Q :=
  let '(max_u_abs, max_trans_abs) := acc in
  if is_boundary_h m heh then acc
  else
    let max_u_abs := Qmax max_u_abs (Qabs (uv_at uv (2 * heh))) in
    let max_u_abs := Qmax max_u_abs (Qabs (uv_at uv (2 * heh + 1))) in
    if is_boundary_h m (opposite_halfedge_handle m heh) then
      (max_u_abs, max_trans_abs)
    else
      let f := default TF.identity (tf_ !! Z.to_nat (edge_handle m heh)) in
      let max_trans_abs := Qmax max_trans_abs (inject_Z (Z.abs (TF.tu f))) in
      let max_trans_abs := Qmax max_trans_abs (inject_Z (Z.abs (TF.tv f))) in
      (max_u_abs, max_trans_abs).

(** The scale [max_v] of a vertex. *)
Definition vertex_scale (uv : list Q) (v : VH) : Q :=
  let '(max_u_abs, max_trans_abs) :=
    fold_left (max_abs_step uv) (cvih m v) (0, 0)%Q in
  pow2_scale (max_u_abs + max_trans_abs + 1)%Q.

(** "propagate in one-ring": the state is the vector and [(u_cur, v_cur)]. *)
Definition propagate_step (st : list Q * Point_2) (heh_cur : HEH)
  : list Q * Point_2 :=
  let '(uv, cur) := st in
  if is_boundary_h m heh_cur then st
  else
    let heh_opp := opposite_halfedge_handle m heh_cur in
    let cur := TF.transform_point (transition_h m tf_ heh_opp) cur in
    (uv_set_point uv heh_cur cur, cur).

(** The body of the loop over the vertices.  For a vertex without incoming
    halfedge the source indexes the vector with an invalid handle; the
    embedding leaves the vector unchanged there. *)
Definition truncate_vertex (uv : list Q) (v : VH) : list Q :=
  match cvih m v with
  | [] => uv
  | heh :: rest =>
      let max_v := vertex_scale uv v in
      let uv := uv_set uv (2 * heh) (clear_bits max_v (uv_at uv (2 * heh))) in
      let uv := uv_set uv (2 * heh + 1)
                       (clear_bits max_v (uv_at uv (2 * heh + 1))) in
      let vtrans := transition_v m tf_ v in
      let uv := uv_set_point uv heh
                  (fix_irregular (is_boundary_v m v) vtrans (uv_point uv heh)) in
      fst (fold_left propagate_step rest (uv, uv_point uv heh))
  end.

(** [consistent_truncation] *)
Definition consistent_truncation (uv : list Q) : list Q :=
  fold_left truncate_vertex (mesh_vertices m) (boundary_snap m uv).

End Truncation.

(** *** Reading and writing the coordinate vector *)

Lemma length_uv_set (uv : list Q) (k : Z) (x : Q) :
  length (uv_set uv k x) = length uv.
Proof. apply length_insert. Qed.

Lemma uv_at_set_eq (uv : list Q) (k : Z) (x : Q) :
  (Z.to_nat k < length uv)%nat -> uv_at (uv_set uv k x) k = x.
Proof.
  intros Hk. unfold uv_at, uv_set.
  now rewrite list_lookup_insert_eq.
Qed.

Lemma uv_at_set_ne (uv : list Q) (k k' : Z) (x : Q) :
  0 <= k -> 0 <= k' -> k <> k' -> uv_at (uv_set uv k x) k' = uv_at uv k'.
Proof.
  intros Hk Hk' Hne. unfold uv_at, uv_set.
  rewrite list_lookup_insert_ne; [reflexivity | lia].
Qed.

Lemma length_uv_set_point (uv : list Q) (h : HEH) (p : Point_2) :
  length (uv_set_point uv h p) = length uv.
Proof. unfold uv_set_point. now rewrite !length_uv_set. Qed.

Lemma uv_point_set_point_eq (uv : list Q) (h : HEH) (p : Point_2) :
  0 <= h -> (Z.to_nat (2 * h + 1) < length uv)%nat ->
  uv_point (uv_set_point uv h p) h = p.
Proof.
  intros Hh Hlen. unfold uv_point, uv_set_point. destruct p as [x y]; cbn [fst snd].
  rewrite uv_at_set_eq by (rewrite length_uv_set; lia).
  rewrite uv_at_set_ne by lia.
  rewrite uv_at_set_eq by lia. reflexivity.
Qed.

Lemma uv_point_set_point_ne (uv : list Q) (h h' : HEH) (p : Point_2) :
  0 <= h -> 0 <= h' -> h <> h' ->
  uv_point (uv_set_point uv h p) h' = uv_point uv h'.
Proof.
  intros Hh Hh' Hne. unfold uv_point, uv_set_point.
  now rewrite !uv_at_set_ne by lia.
Qed.

(** *** Claim C3 *)








(** A vertex with three incoming halfedges [0], [1], [2]; every halfedge is
    its own edge, so that [transition_h] reads the table at the halfedge. *)
Definition ring_mesh : TriMesh :=
  {| mesh_edges := [0; 1; 2];
     mesh_vertices := [0];
     mesh_faces := [0; 1; 2];
     has_edge_status := false;
     edge_selected := fun _ => false;
     edge_feature := fun _ => false;
     is_boundary_e := fun _ => false;
     is_boundary_h := fun _ => false;
     is_boundary_v := fun _ => false;
     halfedge_handle_e := fun e _ => e;
     halfedge_handle_f := fun f => f;
     halfedge_handle_v := fun _ => 0;
     opposite_halfedge_handle := fun h => h;
     next_halfedge_handle := fun h => h;
     prev_halfedge_handle := fun h => h;
     to_vertex_handle := fun _ => 0;
     face_handle := fun h => h;
     edge_handle := fun h => h;
     cvih := fun _ => [0; 1; 2] |}.



(** *** Rounding to the nearest integer *)

Lemma Qfloor_unique (y : Q) (n : Z) :
  (inject_Z n <= y)%Q -> (y < inject_Z n + 1)%Q -> Qfloor y = n.
Proof.
  intros Hlo Hhi. apply Z.le_antisymm.
  - assert (H : (inject_Z (Qfloor y) < inject_Z (n + 1))%Q).
    { rewrite inject_Z_plus. pose proof (Qfloor_le y). change (inject_Z 1) with 1%Q. lra. }
    rewrite <- Zlt_Qlt in H. lia.
  - rewrite <- (Qfloor_Z n). now apply Qfloor_resp_le.
Qed.

Lemma Qceiling_unique (y : Q) (n : Z) :
  (inject_Z n - 1 < y)%Q -> (y <= inject_Z n)%Q -> Qceiling y = n.
Proof.
  intros Hlo Hhi. apply Z.le_antisymm.
  - rewrite <- (Qceiling_Z n). now apply Qceiling_resp_le.
  - assert (H : (inject_Z (n - 1) < inject_Z (Qceiling y))%Q).
    { unfold Z.sub. rewrite inject_Z_plus, inject_Z_opp.
      pose proof (Qle_ceiling y). change (inject_Z 1) with 1%Q. lra. }
    rewrite <- Zlt_Qlt in H. lia.
Qed.

Lemma ROUND_QME_near (x : Q) (n : Z) :
  (Qabs (x - inject_Z n) < 1 # 2)%Q -> ROUND_QME x = n.
Proof.
  intros H. apply Qabs_Qlt_condition in H. destruct H as [Hlo Hhi].
  unfold ROUND_QME, Qtrunc.
  destruct (Qlt_le_dec x 0) as [Hx | Hx].
  - destruct (Qlt_le_dec (x - (1 # 2)) 0) as [_ | Hc]; [| lra].
    apply Qceiling_unique; lra.
  - destruct (Qlt_le_dec (x + (1 # 2)) 0) as [Hc | _]; [lra |].
    apply Qfloor_unique; lra.
Qed.

Lemma ROUND_QME_inject_Z (n : Z) : ROUND_QME (inject_Z n) = n.
Proof.
  apply ROUND_QME_near. apply Qabs_Qlt_condition. split; lra.
Qed.

Lemma snap_eps_bounds : (1 # 10000 < snap_eps)%Q /\ (snap_eps < 2 # 10000)%Q.
Proof. split; reflexivity. Qed.


(** *** The boundary snap on one axis *)

Lemma snap_axis_length (uv : list Q) (h0 h1 : HEH) (i : Z) :
  length (snap_axis uv h0 h1 i) = length uv.
Proof.
  unfold snap_axis.
  repeat destruct (Qlt_le_dec _ _); rewrite ?length_uv_set; reflexivity.
Qed.





(** *** The boundary snap over all edges *)




Section SnapPhase.

Variable m : TriMesh.
Variable e : EH.
Variables i n : Z.
Variable L : nat.

Let h0 : HEH := halfedge_handle_e m e 0.
Let h1 : HEH := halfedge_handle_e m e 1.

Hypothesis Hi : i = 0 \/ i = 1.
Hypothesis Hbnd : is_boundary_e m e = true.
Hypothesis Hsel : edge_selected m e || edge_feature m e = true.
Hypothesis Hh0 : 0 <= h0.
Hypothesis Hh1 : 0 <= h1.
Hypothesis Hne : h0 <> h1.
Hypothesis Hl0 : (Z.to_nat (2 * h0 + 1) < L)%nat.
Hypothesis Hl1 : (Z.to_nat (2 * h1 + 1) < L)%nat.









End SnapPhase.


(** A single boundary edge [0], flagged selected, with halfedges [0] and [1]. *)
Definition boundary_edge_mesh : TriMesh :=
  {| mesh_edges := [0];
     mesh_vertices := [];
     mesh_faces := [];
     has_edge_status := true;
     edge_selected := fun _ => true;
     edge_feature := fun _ => false;
     is_boundary_e := fun _ => true;
     is_boundary_h := fun h => h =? 1;
     is_boundary_v := fun _ => true;
     halfedge_handle_e := fun e j => 2 * e + j;
     halfedge_handle_f := fun f => f;
     halfedge_handle_v := fun _ => 0;
     opposite_halfedge_handle := fun h => 1 - h;
     next_halfedge_handle := fun h => h;
     prev_halfedge_handle := fun h => h;
     to_vertex_handle := fun h => h;
     face_handle := fun h => if h =? 0 then 0 else -1;
     edge_handle := fun _ => 0;
     cvih := fun v => [v] |}.

(** *** The snap loop on a single edge *)

(** The first axis ([3.00005] and [2.99995]) snaps to [3] on both halfedges,
    the second axis ([0.5] and [0.7]) is left alone. *)
Example boundary_snap_run :
  boundary_snap boundary_edge_mesh
                [600001 # 200000; 1 # 2; 599999 # 200000; 7 # 10]%Q
  = [3; 1 # 2; 3; 7 # 10]%Q.
Proof. vm_compute. reflexivity. Qed.

(** At the [double] nearest to [3.0002], against [3], nothing is snapped. *)
Example boundary_snap_run_far :
  boundary_snap boundary_edge_mesh
                [6755849801018481 # 2251799813685248; 0; 3; 0]%Q
  = [6755849801018481 # 2251799813685248; 0; 3; 0]%Q.
Proof. vm_compute. reflexivity. Qed.

(** ** Grid vertices and local edge infos *)

(** Modelled from the spec: the reserved values of [connected_to_idx]
    ([LocalEdgeInfo::LECI_...]) are declared in a header that is not part of
    the sources.  The spec gives the field as a grid-vertex index or one of
    the reserved sentinels; a value at or above the "connected threshold" is
    a real peer index.  The embedding keeps the two apart by a tag. *)
Inductive Sentinel : Type :=
| LECI_Unconnected
| LECI_No_Connection
| LECI_Traced_Into_Boundary
| LECI_Traced_Into_Degeneracy
| LECI_Tracing_Error.

Inductive ConnIdx : Type :=
| Reserved (s : Sentinel)
| Connected (idx : nat).

(** [struct LocalEdgeInfo] *)
Record LocalEdgeInfo : Type := mkLEI {
  fh_from : FH;
  uv_from : Point_2;
  uv_intended_to : Point_2;
  uv_to : Point_2;
  connected_to_idx : ConnIdx;
  orientation_idx : Z;
  accumulated_tf : TF.t;
  halfedgeIndex : Z;
  face_constructed : bool
}.

(** Modelled from the spec: the constructor [LocalEdgeInfo(fh, uv_from,
    uv_to)] (header not in the sources) gives an unconnected slot with
    [halfedge_index = -1], the identity as accumulated transition and no
    face constructed. *)
Definition new_LEI (fh : FH) (from to : Point_2) : LocalEdgeInfo :=
  mkLEI fh from to to (Reserved LECI_Unconnected) (-1) TF.IDENTITY (-1) false.

(** [lei.isConnected()]: [connected_to_idx >= LECI_Connected_Thresh]. *)
Definition isConnected (l : LocalEdgeInfo) : bool :=
  match connected_to_idx l with Connected _ => true | Reserved _ => false end.

(** [lei.isUnconnected()] *)
Definition isUnconnected (l : LocalEdgeInfo) : bool :=
  match connected_to_idx l with
  | Reserved LECI_Unconnected => true
  | _ => false
  end.

Inductive GridVertexType : Type := OnFace | OnEdge | OnVertex.

(** [struct GridVertex] (the 3D position plays no role in what follows and
    is kept as an opaque triple). *)
Record GridVertex : Type := mkGV {
  gv_type : GridVertexType;
  gv_heh : HEH;
  position_uv : Point_2;
  position_3d : Q * Q * Q;
  is_boundary : bool;
  missing_leis : Z;
  local_edges : list LocalEdgeInfo
}.

Definition set_local_edges (g : GridVertex) (ls : list LocalEdgeInfo)
  : GridVertex :=
  mkGV (gv_type g) (gv_heh g) (position_uv g) (position_3d g)
       (is_boundary g) (missing_leis g) ls.

Definition set_is_boundary (g : GridVertex) (b : bool) : GridVertex :=
  mkGV (gv_type g) (gv_heh g) (position_uv g) (position_3d g)
       b (missing_leis g) (local_edges g).

Definition set_missing_leis (g : GridVertex) (k : Z) : GridVertex :=
  mkGV (gv_type g) (gv_heh g) (position_uv g) (position_3d g)
       (is_boundary g) k (local_edges g).

(** ** Local edge construction at a vertex: the expected count *)

(** Conversions between the 32-bit integer types of the source, with the
    wrap-around written out. *)
Definition to_unsigned (z : Z) : Z := z mod 2 ^ 32.
Definition to_int (z : Z) : Z := (z + 2 ^ 31) mod 2 ^ 32 - 2 ^ 31.

(** [expected_lei_count]: the external valence of the vertex when the table
    is supplied, else the rounded [ninetyJump] (that is
    [pos_angleSum / M_PI_2], computed in floating point and given here as
    its value).  A read outside the supplied table reads [0]. *)
Definition expected_lei_count (external_valences : option (list Z)) (vh : VH)
           (ninetyJump : Q) : Z :=
  to_int
    match external_valences with
    | Some ev => default 0 (ev !! Z.to_nat vh)
    | None => to_unsigned (ROUND_QME ninetyJump)
    end.

(** The end of [construct_local_edge_information_vertex] (from
    "const double ninetyJump" on): [_gv] holds the local edges built by the
    loop over the incoming halfedges and its boundary tag. *)
Definition assign_missing_leis (external_valences : option (list Z)) (vh : VH)
           (ninetyJump : Q) (gv : GridVertex) : GridVertex :=
  let expected := expected_lei_count external_valences vh ninetyJump in
  let gv :=
    set_missing_leis gv
      (to_int (expected - to_int (Z.of_nat (length (local_edges gv))))) in
  if is_boundary gv then set_missing_leis gv 0 else gv.

(** *** Claim C7 *)

Lemma to_int_small (z : Z) : - 2 ^ 31 <= z < 2 ^ 31 -> to_int z = z.
Proof.
  unfold to_int. change (2 ^ 32) with 4294967296.
  change (2 ^ 31) with 2147483648. intros H. rewrite Z.mod_small; lia.
Qed.

(** An interior grid vertex on an input vertex, with the four local edges
    of a regular vertex built. *)
Definition regular_gvertex : GridVertex :=
  mkGV OnVertex 0 (0, 0)%Q (0, 0, 0)%Q false 0
       [new_LEI 0 (0, 0)%Q (1, 0)%Q; new_LEI 1 (0, 0)%Q (0, 1)%Q;
        new_LEI 2 (0, 0)%Q (-1, 0)%Q; new_LEI 3 (0, 0)%Q (0, -1)%Q].

(** C7, as the code has it.  [missing_leis] is the expected count minus the
    number of local edges built, and [0] at a boundary grid vertex; away
    from the boundary it is negative exactly when more local edges were
    built than expected. *)
Theorem missing_leis_is_expected_minus_built
        (external_valences : option (list Z)) (vh : VH) (ninetyJump : Q)
        (gv : GridVertex) :
  let gv' := assign_missing_leis external_valences vh ninetyJump gv in
  let expected := expected_lei_count external_valences vh ninetyJump in
  let built := Z.of_nat (length (local_edges gv)) in
  (is_boundary gv = true -> missing_leis gv' = 0) /\
  (is_boundary gv = false -> built < 2 ^ 30 ->
   - 2 ^ 30 <= expected < 2 ^ 30 ->
     missing_leis gv' = expected - built /\
     (missing_leis gv' < 0 <-> expected < built)).
Proof.
  intros gv' expected built. subst gv'. unfold assign_missing_leis.
  fold expected. cbn [set_missing_leis is_boundary missing_leis local_edges].
  fold built. split.
  - intros ->. reflexivity.
  - intros -> Hb He. cbn [missing_leis].
    assert (Hm : to_int (expected - to_int built) = expected - built).
    { change (2 ^ 30) with 1073741824 in Hb, He.
      assert (Hr : forall z, - 1073741824 * 2 <= z < 1073741824 * 2 -> to_int z = z).
      { intros z Hz. apply to_int_small. change (2 ^ 31) with 2147483648. lia. }
      rewrite (Hr built) by lia. apply Hr; lia. }
    rewrite Hm. cbn [set_missing_leis missing_leis]. split; [reflexivity | lia].
Qed.

(** C7 as stated fails: with an external valence of [3] at an interior
    vertex where four local edges were built, [missing_leis] is [-1]. *)
Lemma missing_leis_negative :
  missing_leis (assign_missing_leis (Some [3]) 0 4 regular_gvertex) = -1 /\
  ~ 0 <= missing_leis (assign_missing_leis (Some [3]) 0 4 regular_gvertex).
Proof. split; [reflexivity | vm_compute; intros H; now apply H]. Qed.

(** ** The geometry kernel *)

Inductive ORIENTATION : Type := ORI_NEGATIVE | ORI_ZERO | ORI_POSITIVE.

Definition ORI_CW : ORIENTATION := ORI_NEGATIVE.
Definition ORI_CCW : ORIENTATION := ORI_POSITIVE.
Definition ORI_COLLINEAR : ORIENTATION := ORI_ZERO.

Definition ORIENTATION_eqb (a b : ORIENTATION) : bool :=
  match a, b with
  | ORI_NEGATIVE, ORI_NEGATIVE | ORI_ZERO, ORI_ZERO
  | ORI_POSITIVE, ORI_POSITIVE => true
  | _, _ => false
  end.

(** Twice the signed area of the triangle [a b c]. *)
Definition det3 (a b c : Point_2) : Q :=
  ((fst b - fst a) * (snd c - snd a) - (snd b - snd a) * (fst c - fst a))%Q.

Definition sign_of (d : Q) : ORIENTATION :=
  if Qlt_le_dec 0 d then ORI_POSITIVE
  else if Qlt_le_dec d 0 then ORI_NEGATIVE else ORI_ZERO.

(** Modelled from the spec: the kernel ([Triangle_2], [Segment_2],
    [orient2d], ...) is declared in headers that are not part of the
    sources.  The spec requires exact predicates: the orientation is the
    sign of the signed area, a point is on the bounded side of a triangle
    when it is strictly inside, and the bounding box is the box of the
    extreme coordinates. *)
Definition orient2d (a b c : Point_2) : ORIENTATION := sign_of (det3 a b c).

Record Triangle_2 : Type := mkTriangle { tri0 : Point_2; tri1 : Point_2; tri2 : Point_2 }.

Definition tri_orientation (t : Triangle_2) : ORIENTATION :=
  orient2d (tri0 t) (tri1 t) (tri2 t).

Definition has_on_bounded_side (t : Triangle_2) (p : Point_2) : bool :=
  let o := tri_orientation t in
  negb (ORIENTATION_eqb o ORI_ZERO) &&
  ORIENTATION_eqb (orient2d (tri0 t) (tri1 t) p) o &&
  ORIENTATION_eqb (orient2d (tri1 t) (tri2 t) p) o &&
  ORIENTATION_eqb (orient2d (tri2 t) (tri0 t) p) o.

(** A point of the closed segment [a b]. *)
Definition segment_has_on (a b p : Point_2) : Prop :=
  (det3 a b p == 0)%Q /\
  (Qmin (fst a) (fst b) <= fst p <= Qmax (fst a) (fst b))%Q /\
  (Qmin (snd a) (snd b) <= snd p <= Qmax (snd a) (snd b))%Q.

Definition bbox_xmin (t : Triangle_2) : Q :=
  Qmin (fst (tri0 t)) (Qmin (fst (tri1 t)) (fst (tri2 t))).
Definition bbox_xmax (t : Triangle_2) : Q :=
  Qmax (fst (tri0 t)) (Qmax (fst (tri1 t)) (fst (tri2 t))).
Definition bbox_ymin (t : Triangle_2) : Q :=
  Qmin (snd (tri0 t)) (Qmin (snd (tri1 t)) (snd (tri2 t))).
Definition bbox_ymax (t : Triangle_2) : Q :=
  Qmax (snd (tri0 t)) (Qmax (snd (tri1 t)) (snd (tri2 t))).

(** ** Step 5 of [extract]: [generate_vertices], the faces *)

(** The values of [for (int x = lo; x <= hi; ++x)]. *)
Definition int_range (lo hi : Z) : list Z :=
  map (fun k => lo + Z.of_nat k) (seq 0 (Z.to_nat (hi - lo + 1))).

(** [Point_2(x, y)] for integers [x], [y]. *)
Definition lattice_point (x y : Z) : Point_2 := (inject_Z x, inject_Z y).

(** The two nested loops over the integer bounding box of a face: the
    lattice points at which a grid vertex is pushed, in the order of the
    pushes. *)
Definition face_lattice_points (t : Triangle_2) : list (Z * Z) :=
  match tri_orientation t with
  | ORI_ZERO => []
  | _ =>
      let x_min := Qceiling (bbox_xmin t) in
      let x_max := Qfloor (bbox_xmax t) in
      let y_min := Qceiling (bbox_ymin t) in
      let y_max := Qfloor (bbox_ymax t) in
      flat_map
        (fun x =>
           flat_map
             (fun y =>
                if has_on_bounded_side t (lattice_point x y) then [(x, y)]
                else [])
             (int_range y_min y_max))
        (int_range x_min x_max)
  end.

(** [triangleUvOrientation] and the triangle of a face. *)
Definition face_triangle (m : TriMesh) (uv : list Q) (fh : FH) : Triangle_2 :=
  let heh0 := halfedge_handle_f m fh in
  let heh1 := next_halfedge_handle m heh0 in
  let heh2 := next_halfedge_handle m heh1 in
  mkTriangle (uv_point uv heh0) (uv_point uv heh1) (uv_point uv heh2).

Definition triangleUvOrientation (m : TriMesh) (uv : list Q) (fh : FH)
  : ORIENTATION :=
  tri_orientation (face_triangle m uv fh).

(** [cartesian_orientations_]: [du], [dv], [-du], [-dv]. *)
Definition cartesian_orientations_ : list Point_2 :=
  [(1, 0); (0, 1); (-1, 0); (0, -1)]%Q.

Definition padd (p d : Point_2) : Point_2 :=
  (fst p + fst d, snd p + snd d)%Q.

(** [construct_local_edge_information_face] *)
Definition construct_local_edge_information_face (m : TriMesh) (uv : list Q)
           (gv : GridVertex) : GridVertex :=
  let gv := set_local_edges gv [] in
  if is_valid (gv_heh gv) && negb (is_boundary_h m (gv_heh gv)) then
    let fh := face_handle m (gv_heh gv) in
    let p := position_uv gv in
    let les := map (fun d => new_LEI fh p (padd p d)) cartesian_orientations_ in
    match triangleUvOrientation m uv fh with
    | ORI_NEGATIVE => set_local_edges gv (rev les)
    | _ => set_local_edges gv les
    end
  else gv.

(** The body of the loop "extract vertices within faces" for one face: the
    grid vertices appended to [gvertices_].  [p3d x y] stands for
    [applyMapping(M, x, y)], the 3D point of the lattice point. *)
Definition face_grid_vertices (m : TriMesh) (uv : list Q)
           (p3d : Z -> Z -> Q * Q * Q) (fh : FH) : list GridVertex :=
  let heh0 := halfedge_handle_f m fh in
  map (fun xy =>
         construct_local_edge_information_face m uv
           (mkGV OnFace heh0 (lattice_point (fst xy) (snd xy))
                 (p3d (fst xy) (snd xy)) false 0 []))
      (face_lattice_points (face_triangle m uv fh)).

(** *** Facts about the kernel *)

Lemma ORIENTATION_eqb_eq (a b : ORIENTATION) :
  ORIENTATION_eqb a b = true <-> a = b.
Proof. destruct a, b; cbn; split; congruence. Qed.

Lemma sign_of_pos (d : Q) : sign_of d = ORI_POSITIVE <-> (0 < d)%Q.
Proof.
  unfold sign_of. destruct (Qlt_le_dec 0 d); [tauto |].
  destruct (Qlt_le_dec d 0); split; try discriminate; lra.
Qed.

Lemma sign_of_neg (d : Q) : sign_of d = ORI_NEGATIVE <-> (d < 0)%Q.
Proof.
  unfold sign_of. destruct (Qlt_le_dec 0 d); [split; [discriminate | lra] |].
  destruct (Qlt_le_dec d 0); split; try discriminate; try tauto; lra.
Qed.

Lemma sign_of_zero (d : Q) : sign_of d = ORI_ZERO <-> (d == 0)%Q.
Proof.
  unfold sign_of. destruct (Qlt_le_dec 0 d); [split; [discriminate | lra] |].
  destruct (Qlt_le_dec d 0); split; try discriminate; try tauto; lra.
Qed.







Lemma In_int_range (lo hi k : Z) : In k (int_range lo hi) <-> lo <= k <= hi.
Proof.
  unfold int_range. rewrite in_map_iff. split.
  - intros (j & <- & Hj). apply in_seq in Hj. lia.
  - intros Hk. exists (Z.to_nat (k - lo)). split; [lia |].
    apply in_seq. lia.
Qed.







(** *** Claim C4 *)


(** The triangle [(0,0), (3,0), (0,3)]: the only lattice point strictly
    inside is [(1,1)]; [(1,2)] and [(2,1)] lie on the hypotenuse. *)
Example face_lattice_points_run :
  face_lattice_points (mkTriangle (0, 0)%Q (3, 0)%Q (0, 3)%Q) = [(1, 1)].
Proof. vm_compute. reflexivity. Qed.

(** The same triangle with reversed (negative) orientation. *)
Example face_lattice_points_run_negative :
  face_lattice_points (mkTriangle (0, 0)%Q (0, 3)%Q (3, 0)%Q) = [(1, 1)].
Proof. vm_compute. reflexivity. Qed.

(** ** The vector [gvertices_] *)

(** Modelled from the spec: [GridVertex::local_edge(int)] is declared in a
    header that is not part of the sources; the spec reads an index into the
    local edges modulo the valence of the grid vertex.  [lei_pos] is the
    position that is read; with no local edge there is nothing to read. *)
Definition lei_pos (g : GridVertex) (i : Z) : nat :=
  Z.to_nat (i mod Z.of_nat (length (local_edges g))).

Definition local_edge (g : GridVertex) (i : Z) : option LocalEdgeInfo :=
  local_edges g !! lei_pos g i.

(** A pointer [LocalEdgeInfo*] into the local edges of a grid vertex: the
    index of the grid vertex and the position of the slot. *)
Definition LeiRef : Type := (nat * nat)%type.

Definition get_lei (gvs : list GridVertex) (r : LeiRef) : option LocalEdgeInfo :=
  match gvs !! fst r with
  | Some g => local_edges g !! snd r
  | None => None
  end.

Definition update_lei (gvs : list GridVertex) (r : LeiRef)
           (f : LocalEdgeInfo -> LocalEdgeInfo) : list GridVertex :=
  alter (fun g => set_local_edges g (alter f (snd r) (local_edges g)))
        (fst r) gvs.

Definition set_face_constructed (l : LocalEdgeInfo) (b : bool) : LocalEdgeInfo :=
  mkLEI (fh_from l) (uv_from l) (uv_intended_to l) (uv_to l)
        (connected_to_idx l) (orientation_idx l) (accumulated_tf l)
        (halfedgeIndex l) b.

Definition set_halfedgeIndex (l : LocalEdgeInfo) (h : Z) : LocalEdgeInfo :=
  mkLEI (fh_from l) (uv_from l) (uv_intended_to l) (uv_to l)
        (connected_to_idx l) (orientation_idx l) (accumulated_tf l)
        h (face_constructed l).

(** ** Step 7 of [extract]: the cycle walk of the face assembler *)

(** How the loop [for (unsigned int k = 0; k < 100; ++k)] of
    [generate_faces_and_store_quadmesh] is left: at the call of [add_face]
    with the collected vertex handles and local edge infos, without a face,
    or by an access the source leaves undefined (an index outside
    [gvertices_], a grid vertex without local edges). *)
Inductive WalkOutcome : Type :=
| AddFace (face_vhs : list nat) (outgoing_he_info : list LeiRef)
| NoFace
| WalkUndefined.

(** The loop, with [fuel] the number of iterations that remain. *)
Fixpoint walk_loop (fuel : nat) (i : nat) (gvs : list GridVertex)
         (face_vhs : list nat) (outgoing_he_info : list LeiRef)
         (current_gvertex_idx : ConnIdx) (current_orientation_idx : Z)
  : list GridVertex * WalkOutcome :=
  match fuel with
  | O => (gvs, NoFace)
  | S fuel' =>
      match current_gvertex_idx with
      | Reserved _ => (gvs, NoFace)
      | Connected c =>
          if (c =? i)%nat && negb (length face_vhs =? 0)%nat then
            if (2 <? length face_vhs)%nat
            then (gvs, AddFace face_vhs outgoing_he_info)
            else (gvs, NoFace)
          else
            match gvs !! c with
            | None => (gvs, WalkUndefined)
            | Some g =>
                let pos := lei_pos g current_orientation_idx in
                match local_edges g !! pos with
                | None => (gvs, WalkUndefined)
                | Some lei =>
                    if face_constructed lei then (gvs, NoFace)
                    else
                      let gvs' :=
                        update_lei gvs (c, pos)
                                   (fun l => set_face_constructed l true) in
                      walk_loop fuel' i gvs'
                                (face_vhs ++ [c])
                                (outgoing_he_info ++ [(c, pos)])
                                (connected_to_idx lei)
                                (orientation_idx lei - 1)
                end
            end
      end
  end.

(** The walk started for local edge [j] of grid vertex [i]. *)
Definition walk_cycle (gvs : list GridVertex) (i j : nat)
  : list GridVertex * WalkOutcome :=
  walk_loop 100 i gvs [] [] (Connected i) (Z.of_nat j).

(** *** Updating a local edge info in place *)

Lemma get_lei_update (gvs : list GridVertex) (r r0 : LeiRef)
      (f : LocalEdgeInfo -> LocalEdgeInfo) (l : LocalEdgeInfo) :
  get_lei gvs r = Some l ->
  get_lei (update_lei gvs r0 f) r = Some (if decide (r = r0) then f l else l).
Proof.
  destruct r as [g p], r0 as [g0 p0]. unfold get_lei, update_lei; cbn [fst snd].
  destruct (gvs !! g) as [gv |] eqn:Hg; [| discriminate]. intros Hl.
  destruct (decide (g = g0)) as [-> | Hng].
  - rewrite list_lookup_alter_eq, Hg. cbn.
    destruct (decide (p = p0)) as [-> | Hnp].
    + rewrite list_lookup_alter_eq, Hl. cbn.
      destruct (decide _) as [_ | Hc]; [reflexivity | now contradiction Hc].
    + rewrite list_lookup_alter_ne by congruence. rewrite Hl.
      destruct (decide _) as [Hc | _]; [congruence | reflexivity].
  - rewrite list_lookup_alter_ne by congruence. rewrite Hg, Hl.
    destruct (decide _) as [Hc | _]; [congruence | reflexivity].
Qed.

Lemma get_lei_mark_connected (gvs : list GridVertex) (r r0 : LeiRef)
      (l : LocalEdgeInfo) :
  get_lei gvs r = Some l ->
  exists l', get_lei (update_lei gvs r0 (fun l => set_face_constructed l true)) r
             = Some l' /\
             connected_to_idx l' = connected_to_idx l.
Proof.
  intros H. rewrite (get_lei_update _ _ _ _ _ H).
  destruct (decide _); eexists; split; reflexivity.
Qed.

(** *** Claim C10 *)

(** What links the walk state: the current grid vertex is the peer recorded
    in the local edge info collected last, or the start when nothing has
    been collected. *)
Definition walk_linked (i : nat) (gvs : list GridVertex)
           (outgoing_he_info : list LeiRef) (cur : ConnIdx) : Prop :=
  match last outgoing_he_info with
  | None => cur = Connected i
  | Some r => exists l, get_lei gvs r = Some l /\ connected_to_idx l = cur
  end.

Lemma walk_loop_add_face (fuel : nat) :
  forall (i : nat) (gvs : list GridVertex) (vhs : list nat)
         (out : list LeiRef) (cur : ConnIdx) (ori : Z)
         (gvs' : list GridVertex) (vhs' : list nat) (out' : list LeiRef),
    walk_loop fuel i gvs vhs out cur ori = (gvs', AddFace vhs' out') ->
    map fst out = vhs ->
    walk_linked i gvs out cur ->
    (3 <= length vhs')%nat /\
    (length vhs' + 1 <= length vhs + fuel)%nat /\
    map fst out' = vhs' /\
    (exists tl, vhs' = vhs ++ tl) /\
    (vhs = [] -> hd_error vhs' = Some i) /\
    walk_linked i gvs' out' (Connected i).
Proof.
  induction fuel as [| fuel IH]; intros i gvs vhs out cur ori gvs' vhs' out'.
  - cbn. discriminate.
  - cbn [walk_loop]. destruct cur as [s | c]; [discriminate |].
    destruct ((c =? i)%nat && negb (length vhs =? 0)%nat) eqn:Hback.
    + destruct (2 <? length vhs)%nat eqn:Hlen; [| discriminate].
      intros Heq Hmap Hlink. inversion Heq; subst gvs' vhs' out'.
      apply andb_true_iff in Hback. destruct Hback as [Hc _].
      apply Nat.eqb_eq in Hc. subst c. apply Nat.ltb_lt in Hlen.
      repeat split; try lia; try assumption.
      * exists []. now rewrite app_nil_r.
      * intros ->. cbn in Hlen. lia.
    + destruct (gvs !! c) as [g |] eqn:Hg; [| discriminate].
      destruct (local_edges g !! lei_pos g ori) as [lei |] eqn:Hl; [| discriminate].
      destruct (face_constructed lei); [discriminate |].
      intros Heq Hmap Hlink.
      apply IH in Heq.
      * destruct Heq as (H3 & Hle & Hmap' & [tl Htl] & _ & Hlink').
        rewrite length_app in Hle. cbn in Hle.
        repeat split; try lia; try assumption.
        -- exists (c :: tl). now rewrite Htl, <- app_assoc.
        -- intros ->. destruct out; [| discriminate].
           unfold walk_linked in Hlink. cbn in Hlink.
           inversion Hlink; subst c. now rewrite Htl.
      * rewrite <- Hmap. apply List.map_app.
      * unfold walk_linked. rewrite last_snoc.
        assert (Hget : get_lei gvs (c, lei_pos g ori) = Some lei).
        { unfold get_lei; cbn [fst snd]. now rewrite Hg. }
        destruct (get_lei_mark_connected gvs _ (c, lei_pos g ori) lei Hget)
          as (l' & Hl' & Hc').
        exists l'. split; [exact Hl' | exact Hc'].
Qed.

(** Four grid vertices on the corners of one quad: local edge [0] of a
    corner leads to the next corner, local edge [1] to the previous one. *)
Definition corner (next prev : nat) : GridVertex :=
  mkGV OnVertex 0 (0, 0)%Q (0, 0, 0)%Q false 0
       [mkLEI 0 (0, 0)%Q (0, 0)%Q (0, 0)%Q (Connected next) 1 TF.IDENTITY (-1) false;
        mkLEI 0 (0, 0)%Q (0, 0)%Q (0, 0)%Q (Connected prev) 0 TF.IDENTITY (-1) false].

Definition quad_corners : list GridVertex :=
  [corner 1 3; corner 2 0; corner 3 1; corner 0 2].

(** C10.  Whenever the cycle walk started at a (grid vertex, local edge)
    pair reaches the call of [add_face], the face has at least 3 and at most
    100 vertices (indeed at most 99: the closing iteration is one of the
    100), one local edge info per vertex, the first vertex is the start,
    and the local edge info collected last leads back to the start. *)
Theorem walk_cycle_face_size
        (gvs : list GridVertex) (i j : nat)
        (gvs' : list GridVertex) (face_vhs : list nat)
        (outgoing_he_info : list LeiRef) :
  walk_cycle gvs i j = (gvs', AddFace face_vhs outgoing_he_info) ->
  (3 <= length face_vhs <= 100)%nat /\
  (length face_vhs < 100)%nat /\
  length outgoing_he_info = length face_vhs /\
  map fst outgoing_he_info = face_vhs /\
  hd_error face_vhs = Some i /\
  exists r l, last outgoing_he_info = Some r /\
              get_lei gvs' r = Some l /\
              connected_to_idx l = Connected i.
Proof.
  unfold walk_cycle. intros H.
  apply walk_loop_add_face in H; [| reflexivity | reflexivity].
  destruct H as (H3 & Hle & Hmap & _ & Hfirst & Hlink). cbn in Hle.
  specialize (Hfirst eq_refl).
  assert (Hlen : length outgoing_he_info = length face_vhs).
  { now rewrite <- Hmap, length_map. }
  repeat split; try lia; try assumption.
  unfold walk_linked in Hlink.
  destruct (last outgoing_he_info) as [r |] eqn:Hlast.
  - destruct Hlink as (l & Hl & Hc). eauto.
  - apply last_None in Hlast. subst outgoing_he_info. cbn in Hlen. lia.
Qed.

(** The walk around the quad, started at corner [0] along local edge [0]. *)
Lemma walk_cycle_face_size_witness :
  (3 <= length [0; 1; 2; 3]%nat <= 100)%nat /\
  (length [0; 1; 2; 3]%nat < 100)%nat /\
  length [(0, 0); (1, 0); (2, 0); (3, 0)]%nat = length [0; 1; 2; 3]%nat /\
  map fst [(0, 0); (1, 0); (2, 0); (3, 0)]%nat = [0; 1; 2; 3]%nat /\
  hd_error [0; 1; 2; 3]%nat = Some 0%nat /\
  exists r l, last [(0, 0); (1, 0); (2, 0); (3, 0)]%nat = Some r /\
              get_lei (fst (walk_cycle quad_corners 0 0)) r = Some l /\
              connected_to_idx l = Connected 0.
Proof.
  apply (walk_cycle_face_size quad_corners 0 0
           (fst (walk_cycle quad_corners 0 0))).
  vm_compute. reflexivity.
Defined.

(** ** The face assembler: [add_face] *)

(** The operations of the output container ([PolyMeshT], an OpenMesh
    polygonal mesh) that [add_face] calls.  Vertex [i] of the output is the
    one added for grid vertex [i]; a halfedge handle is its index. *)
Class PolyMeshOps (M : Type) : Type := {
  pm_face_handle : M -> HEH -> FH;
  pm_halfedge_handle_v : M -> nat -> HEH;
  pm_opposite_halfedge_handle : M -> HEH -> HEH;
  pm_new_face : M -> M * FH;
  pm_new_edge : M -> nat -> nat -> M * HEH;
  pm_set_halfedge_handle_v : M -> nat -> HEH -> M;
  pm_set_halfedge_handle_f : M -> FH -> HEH -> M;
  pm_set_next_halfedge_handle : M -> HEH -> HEH -> M;
  pm_set_face_handle : M -> HEH -> FH -> M;
  pm_adjust_outgoing_halfedge : M -> nat -> M
}.

(** The position reached by the loop of [getNextConnectedLeiWithHE], which
    steps [orientation_idx] by [direction] until it is back at the slot it
    started from or at a connected slot that has a halfedge.  [fuel] bounds
    the number of steps. *)
Fixpoint next_connected_pos (fuel : nat) (g : GridVertex) (last : nat)
         (orientation_idx direction : Z) : option nat :=
  let pos := lei_pos g orientation_idx in
  if (pos =? last)%nat then Some pos
  else
    match local_edges g !! pos with
    | None => None
    | Some lei =>
        if isConnected lei && negb (halfedgeIndex lei =? -1) then Some pos
        else
          match fuel with
          | O => None
          | S fuel' =>
              next_connected_pos fuel' g last
                                 (orientation_idx + direction) direction
          end
    end.

(** [getNextConnectedLeiWithHE]; [None] where the source indexes outside
    [gvertices_] or reads a grid vertex without local edges. *)
Definition getNextConnectedLeiWithHE (gvs : list GridVertex)
           (connected_to : ConnIdx) (orientation_idx direction : Z)
  : option LeiRef :=
  match connected_to with
  | Reserved _ => None
  | Connected c =>
      g ← gvs !! c;
      _ ← local_edge g orientation_idx;
      pos ← next_connected_pos (length (local_edges g)) g
                               (lei_pos g orientation_idx)
                               (orientation_idx + direction) direction;
      Some (c, pos)
  end.

(** [&gvertices_[idx].local_edge(orientation_idx)] *)
Definition peer_ref (gvs : list GridVertex) (connected_to : ConnIdx)
           (orientation_idx : Z) : option LeiRef :=
  match connected_to with
  | Reserved _ => None
  | Connected c =>
      g ← gvs !! c;
      _ ← local_edge g orientation_idx;
      Some (c, lei_pos g orientation_idx)
  end.

Section AddFace.

Context {M : Type} `{PolyMeshOps M}.

(** [lei->halfedgeIndex != -1 &&
     qmesh.face_handle(qmesh.halfedge_handle(lei->halfedgeIndex)).is_valid()] *)
Definition has_face (qmesh : M) (lei : LocalEdgeInfo) : bool :=
  negb (halfedgeIndex lei =? -1) &&
  is_valid (pm_face_handle qmesh (halfedgeIndex lei)).

(** The two local edge infos around the opposite grid vertex that
    [add_face] looks up for a local edge info without halfedge:
    [opposite_next_lei] and [opposite_prev_lei]. *)
Definition opposite_neighbours (gvs : list GridVertex) (lei : LocalEdgeInfo)
  : option (LeiRef * LeiRef) :=
  opp ← peer_ref gvs (connected_to_idx lei) (orientation_idx lei);
  opposite_lei ← get_lei gvs opp;
  opposite_next ← getNextConnectedLeiWithHE gvs
                    (connected_to_idx opposite_lei)
                    (orientation_idx opposite_lei) (-1);
  opposite_opp_prev ← getNextConnectedLeiWithHE gvs
                        (connected_to_idx lei) (orientation_idx lei) 1;
  opp_opp_prev_lei ← get_lei gvs opposite_opp_prev;
  opposite_prev ← peer_ref gvs (connected_to_idx opp_opp_prev_lei)
                    (orientation_idx opp_opp_prev_lei);
  Some (opposite_next, opposite_prev).

(** The body of the first loop of [add_face] ("check if operation will
    yield manifold result") for one element of [leis]: [Some true] when the
    body returns the invalid face handle, [Some false] when it goes on to
    the next element. *)
Definition would_be_non_manifold (qmesh : M) (gvs : list GridVertex)
           (r : LeiRef) : option bool :=
  lei ← get_lei gvs r;
  if has_face qmesh lei then Some true
  else if halfedgeIndex lei =? -1 then
    '(opposite_next, opposite_prev) ← opposite_neighbours gvs lei;
    opposite_next_lei ← get_lei gvs opposite_next;
    opposite_prev_lei ← get_lei gvs opposite_prev;
    if has_face qmesh opposite_next_lei then Some true
    else if has_face qmesh opposite_prev_lei then Some true
    else Some false
  else Some false.

(** The first loop of [add_face]. *)
Fixpoint manifold_check (qmesh : M) (gvs : list GridVertex)
         (leis : list LeiRef) : option bool :=
  match leis with
  | [] => Some true
  | r :: rest =>
      match would_be_non_manifold qmesh gvs r with
      | None => None
      | Some true => Some false
      | Some false => manifold_check qmesh gvs rest
      end
  end.

(** [qmesh.vertex_handle(idx)] for the index stored in a local edge info. *)
Definition vertex_of (c : ConnIdx) : option nat :=
  match c with Connected v => Some v | Reserved _ => None end.

(** The branch for a local edge info without halfedge in the second loop: a
    new edge, its two halfedge indices stored in the two local edge infos,
    and the links of the opposite halfedge. *)
Definition new_halfedge (qmesh : M) (gvs : list GridVertex) (r : LeiRef)
           (lei : LocalEdgeInfo) : option (M * list GridVertex * HEH) :=
  opp ← peer_ref gvs (connected_to_idx lei) (orientation_idx lei);
  opposite_lei ← get_lei gvs opp;
  from_vh ← vertex_of (connected_to_idx opposite_lei);
  to_vh ← vertex_of (connected_to_idx lei);
  let '(qmesh, heh0) := pm_new_edge qmesh from_vh to_vh in
  let heh1 := pm_opposite_halfedge_handle qmesh heh0 in
  let qmesh :=
    if is_valid (pm_halfedge_handle_v qmesh from_vh) then qmesh
    else pm_set_halfedge_handle_v qmesh from_vh heh0 in
  let qmesh :=
    if is_valid (pm_halfedge_handle_v qmesh to_vh) then qmesh
    else pm_set_halfedge_handle_v qmesh to_vh heh1 in
  let gvs := update_lei gvs r (fun l => set_halfedgeIndex l heh0) in
  let gvs := update_lei gvs opp (fun l => set_halfedgeIndex l heh1) in
  lei ← get_lei gvs r;
  '(opposite_next, opposite_prev) ← opposite_neighbours gvs lei;
  opposite_next_lei ← get_lei gvs opposite_next;
  opposite_prev_lei ← get_lei gvs opposite_prev;
  let qmesh :=
    pm_set_next_halfedge_handle qmesh heh1
                                (halfedgeIndex opposite_next_lei) in
  let qmesh :=
    pm_set_next_halfedge_handle qmesh
                                (halfedgeIndex opposite_prev_lei) heh1 in
  Some (qmesh, gvs, heh0).

(** The body of the second loop of [add_face] ("add halfedges"). *)
Definition add_halfedge (newFh : FH) (first : bool)
           (st : M * list GridVertex) (r : LeiRef)
  : option (M * list GridVertex) :=
  let '(qmesh, gvs) := st in
  lei ← get_lei gvs r;
  '(qmesh, gvs, heh0) ←
    (if halfedgeIndex lei =? -1 then new_halfedge qmesh gvs r lei
     else Some (qmesh, gvs, halfedgeIndex lei));
  let qmesh :=
    if first then pm_set_halfedge_handle_f qmesh newFh heh0 else qmesh in
  Some (pm_set_face_handle qmesh heh0 newFh, gvs).

Fixpoint add_halfedges (newFh : FH) (first : bool)
         (st : M * list GridVertex) (leis : list LeiRef)
  : option (M * list GridVertex) :=
  match leis with
  | [] => Some st
  | r :: rest =>
      st ← add_halfedge newFh first st r;
      add_halfedges newFh false st rest
  end.

(** The loop that links each halfedge of the face to the next one. *)
Fixpoint link_halfedges (newFh : FH) (qmesh : M) (gvs : list GridVertex)
         (prev : LocalEdgeInfo) (leis : list LeiRef) : option M :=
  match leis with
  | [] => Some qmesh
  | r :: rest =>
      lei ← get_lei gvs r;
      let qmesh :=
        pm_set_next_halfedge_handle qmesh (halfedgeIndex prev)
                                    (halfedgeIndex lei) in
      let qmesh := pm_set_face_handle qmesh (halfedgeIndex lei) newFh in
      link_halfedges newFh qmesh gvs lei rest
  end.

(** The last loop: [adjust_outgoing_halfedge] at the head of every edge. *)
Fixpoint adjust_vertices (qmesh : M) (gvs : list GridVertex)
         (leis : list LeiRef) : option M :=
  match leis with
  | [] => Some qmesh
  | r :: rest =>
      lei ← get_lei gvs r;
      v ← vertex_of (connected_to_idx lei);
      adjust_vertices (pm_adjust_outgoing_halfedge qmesh v) gvs rest
  end.

(** What a call of [add_face] leaves: the returned face handle, the output
    mesh and [gvertices_]; or nothing where the source is undefined. *)
Inductive AddFaceResult : Type :=
| Returned (fh : FH) (qmesh : M) (gvs : list GridVertex)
| AddFaceUndefined.

(** [add_face] *)
Definition add_face (qmesh : M) (gvs : list GridVertex) (leis : list LeiRef)
  : AddFaceResult :=
  match manifold_check qmesh gvs leis with
  | None => AddFaceUndefined
  | Some false => Returned (-1) qmesh gvs
  | Some true =>
      let '(qmesh1, newFh) := pm_new_face qmesh in
      match
        '(qmesh2, gvs2) ← add_halfedges newFh true (qmesh1, gvs) leis;
        front ← (r ← head leis; get_lei gvs2 r);
        back ← (r ← last leis; get_lei gvs2 r);
        let qmesh3 :=
          pm_set_next_halfedge_handle qmesh2 (halfedgeIndex back)
                                      (halfedgeIndex front) in
        let qmesh3 := pm_set_face_handle qmesh3 (halfedgeIndex front) newFh in
        qmesh4 ← link_halfedges newFh qmesh3 gvs2 front (tail leis);
        qmesh5 ← adjust_vertices qmesh4 gvs2 leis;
        Some (qmesh5, gvs2)
      with
      | Some (qmesh5, gvs2) => Returned newFh qmesh5 gvs2
      | None => AddFaceUndefined
      end
  end.

End AddFace.

(** *** Claim C2 *)

Section AddFaceAtomic.

Context {M : Type} `{PolyMeshOps M}.

(** The two conditions under which the first loop of [add_face] gives up at
    the local edge info [r]: its own halfedge exists and has a face; or it
    has no halfedge yet and the next or the previous halfedge found around
    the opposite grid vertex has a face. *)
Definition face_attached (qmesh : M) (gvs : list GridVertex) (r : LeiRef)
  : Prop :=
  exists lei,
    get_lei gvs r = Some lei /\
    (has_face qmesh lei = true \/
     (halfedgeIndex lei = -1 /\
      exists opposite_next opposite_prev opposite_next_lei opposite_prev_lei,
        opposite_neighbours gvs lei = Some (opposite_next, opposite_prev) /\
        get_lei gvs opposite_next = Some opposite_next_lei /\
        get_lei gvs opposite_prev = Some opposite_prev_lei /\
        (has_face qmesh opposite_next_lei = true \/
         has_face qmesh opposite_prev_lei = true))).

Lemma face_attached_check (qmesh : M) (gvs : list GridVertex) (r : LeiRef) :
  face_attached qmesh gvs r <-> would_be_non_manifold qmesh gvs r = Some true.
Proof.
  unfold face_attached, would_be_non_manifold. split.
  - intros (lei & -> & Hc). cbn.
    destruct (has_face qmesh lei) eqn:Hf; [reflexivity |].
    destruct Hc as [Hc | (Hidx & n & p & nl & pl & Hn & Hnl & Hpl & Hc)];
      [discriminate |].
    rewrite Hidx. cbn. rewrite Hn. cbn. rewrite Hnl. cbn. rewrite Hpl. cbn.
    destruct (has_face qmesh nl); [reflexivity |].
    destruct Hc as [Hc | ->]; [discriminate | reflexivity].
  - destruct (get_lei gvs r) as [lei |]; cbn; [| discriminate].
    intros Hc. exists lei. split; [reflexivity |].
    destruct (has_face qmesh lei) eqn:Hf; [now left | right].
    destruct (halfedgeIndex lei =? -1) eqn:Hidx; [| discriminate].
    apply Z.eqb_eq in Hidx. split; [exact Hidx |].
    destruct (opposite_neighbours gvs lei) as [[n p] |] eqn:Hn; cbn in Hc;
      [| discriminate].
    destruct (get_lei gvs n) as [nl |] eqn:Hnl; cbn in Hc; [| discriminate].
    destruct (get_lei gvs p) as [pl |] eqn:Hpl; cbn in Hc; [| discriminate].
    exists n, p, nl, pl. do 3 (split; [assumption || reflexivity |]).
    destruct (has_face qmesh nl); [now left |].
    destruct (has_face qmesh pl); [now right | discriminate].
Qed.

Lemma manifold_check_fails (qmesh : M) (gvs : list GridVertex)
      (leis : list LeiRef) :
  (forall r, In r leis -> would_be_non_manifold qmesh gvs r <> None) ->
  (exists r, In r leis /\ would_be_non_manifold qmesh gvs r = Some true) ->
  manifold_check qmesh gvs leis = Some false.
Proof.
  induction leis as [| r0 rest IH]; intros Hdef (r & Hin & Hbad).
  - destruct Hin.
  - cbn [manifold_check].
    destruct (would_be_non_manifold qmesh gvs r0) as [[|] |] eqn:H0.
    + reflexivity.
    + apply IH.
      * intros r' Hr'. apply Hdef. now right.
      * destruct Hin as [-> | Hin]; [congruence | eauto].
    + exfalso. apply (Hdef r0); [now left | exact H0].
Qed.

(** C2.  When some local edge info of the cycle passed to [add_face]
    already has a halfedge attached to a face, or has no halfedge and the
    previous or next halfedge looked up around the opposite grid vertex is
    attached to a face, [add_face] returns the invalid face handle and
    leaves the output mesh and every local edge info as they were.  (The
    checks of the cycle are assumed to stay inside [gvertices_], where the
    source is defined.) *)
Theorem add_face_atomic (qmesh : M) (gvs : list GridVertex)
        (leis : list LeiRef) :
  (forall r, In r leis -> would_be_non_manifold qmesh gvs r <> None) ->
  (exists r, In r leis /\ face_attached qmesh gvs r) ->
  add_face qmesh gvs leis = Returned (-1) qmesh gvs /\ is_valid (-1) = false.
Proof.
  intros Hdef (r & Hin & Hbad). split; [| reflexivity].
  unfold add_face. rewrite (manifold_check_fails qmesh gvs leis Hdef).
  - reflexivity.
  - exists r. split; [exact Hin | now apply face_attached_check].
Qed.

End AddFaceAtomic.

(** A container that only records the face of each halfedge, enough to run
    the manifold check: halfedge [h] is attached to face [m !! h]. *)
Definition face_table_new_edge (m : list FH) : list FH * HEH :=
  (m ++ [-1; -1], Z.of_nat (length m)).

#[local] Instance face_table_ops : PolyMeshOps (list FH) := {
  pm_face_handle m h := default (-1) (m !! Z.to_nat h);
  pm_halfedge_handle_v _ _ := -1;
  pm_opposite_halfedge_handle _ h := Z.lxor h 1;
  pm_new_face m := (m, 0);
  pm_new_edge m _ _ := face_table_new_edge m;
  pm_set_halfedge_handle_v m _ _ := m;
  pm_set_halfedge_handle_f m _ _ := m;
  pm_set_next_halfedge_handle m _ _ := m;
  pm_set_face_handle m h f := <[Z.to_nat h := f]> m;
  pm_adjust_outgoing_halfedge m _ := m
}.

(** Three grid vertices on the corners of a triangle, as [corner], where the
    edge from corner [0] to corner [1] already has halfedge [0]. *)
Definition corner_with_halfedge (next prev : nat) (h0 h1 : Z) : GridVertex :=
  mkGV OnVertex 0 (0, 0)%Q (0, 0, 0)%Q false 0
       [mkLEI 0 (0, 0)%Q (0, 0)%Q (0, 0)%Q (Connected next) 1 TF.IDENTITY h0 false;
        mkLEI 0 (0, 0)%Q (0, 0)%Q (0, 0)%Q (Connected prev) 0 TF.IDENTITY h1 false].

Definition triangle_corners : list GridVertex :=
  [corner_with_halfedge 1 2 0 (-1); corner_with_halfedge 2 0 (-1) 1;
   corner_with_halfedge 0 1 (-1) (-1)].

(** With halfedge [0] attached to face [7], the cycle around the triangle
    is refused and nothing changes. *)
Lemma add_face_atomic_witness :
  add_face [7; -1] triangle_corners [(0, 0); (1, 0); (2, 0)]%nat
  = Returned (-1) [7; -1] triangle_corners /\ is_valid (-1) = false.
Proof.
  apply (add_face_atomic [7; -1] triangle_corners [(0, 0); (1, 0); (2, 0)]%nat).
  - intros r [<- | [<- | [<- | []]]]; vm_compute; discriminate.
  - exists (0, 0)%nat. split; [now left |].
    apply face_attached_check. vm_compute. reflexivity.
Defined.

(** The same cycle on a mesh where no halfedge has a face is accepted: face
    [0] is created on three new edges. *)
Example add_face_run :
  exists gvs,
    add_face [-1; -1] triangle_corners [(0, 0); (1, 0); (2, 0)]%nat
    = Returned 0 [0; -1; 0; -1; 0; -1] gvs.
Proof. eexists. vm_compute. reflexivity. Qed.

(** ** Step 6 of [extract]: the connector *)

Inductive BOUNDEDNESS : Type :=
| BND_ON_BOUNDED_SIDE
| BND_ON_BOUNDARY
| BND_ON_UNBOUNDED_SIDE.

Definition Qle_dec_bool (x y : Q) : bool :=
  if Qlt_le_dec y x then false else true.

(** Modelled from the spec (exact kernel predicates, headers not in the
    sources): [Segment_2::has_on], [Segment_2::intersects] and
    [Triangle_2::boundedness]. *)
Definition segment_has_onb (a b p : Point_2) : bool :=
  ORIENTATION_eqb (orient2d a b p) ORI_ZERO &&
  Qle_dec_bool (Qmin (fst a) (fst b)) (fst p) &&
  Qle_dec_bool (fst p) (Qmax (fst a) (fst b)) &&
  Qle_dec_bool (Qmin (snd a) (snd b)) (snd p) &&
  Qle_dec_bool (snd p) (Qmax (snd a) (snd b)).

Definition segments_intersect (a b c d : Point_2) : bool :=
  let o1 := orient2d a b c in
  let o2 := orient2d a b d in
  let o3 := orient2d c d a in
  let o4 := orient2d c d b in
  (negb (ORIENTATION_eqb o1 ORI_ZERO) && negb (ORIENTATION_eqb o2 ORI_ZERO) &&
   negb (ORIENTATION_eqb o3 ORI_ZERO) && negb (ORIENTATION_eqb o4 ORI_ZERO) &&
   negb (ORIENTATION_eqb o1 o2) && negb (ORIENTATION_eqb o3 o4))
  || segment_has_onb a b c || segment_has_onb a b d
  || segment_has_onb c d a || segment_has_onb c d b.

Definition boundedness (t : Triangle_2) (p : Point_2) : BOUNDEDNESS :=
  if has_on_bounded_side t p then BND_ON_BOUNDED_SIDE
  else if segment_has_onb (tri0 t) (tri1 t) p
          || segment_has_onb (tri1 t) (tri2 t) p
          || segment_has_onb (tri2 t) (tri0 t) p
       then BND_ON_BOUNDARY
       else BND_ON_UNBOUNDED_SIDE.

(** [struct FindPathResult] *)
Record FindPathResult : Type := mkFPR {
  fpr_connected_to_idx : ConnIdx;
  fpr_orientation_idx : Z;
  fpr_uv_from : Point_2;
  fpr_uv_to : Point_2;
  fpr_accumulated_tf : TF.t
}.

(** Modelled from the spec: [FindPathResult::Signal] and
    [FindPathResult::Error] (header not in the sources) carry a reserved
    value of [connected_to_idx] and nothing else; the error is the reserved
    value for a failed trace. *)
Definition FPR_Signal (s : Sentinel) : FindPathResult :=
  mkFPR (Reserved s) (-1) (0, 0)%Q (0, 0)%Q TF.IDENTITY.

Definition FPR_Error : FindPathResult := FPR_Signal LECI_Tracing_Error.

(** The local variables of [find_path] that live across the iterations of
    the main walking loop. *)
Record WalkState : Type := mkWalkState {
  ws_cur_heh : HEH;
  ws_uv_from : Point_2;
  ws_uv_original_from : Point_2;
  ws_uv_to : Point_2;
  ws_accumulated_tf : TF.t;
  ws_inverted : bool
}.

Section FindPath.

Variable m : TriMesh.
Variable uv : list Q.
Variable edge_valid_ : list bool.
Variable tf_ : list TF.t.

(** [find_local_connection], called when the end point of the path lies in
    the current triangle; its arguments are those of the source, the
    coordinate vector excepted. *)
Variable find_local_connection :
  Point_2 -> Point_2 -> Point_2 -> Triangle_2 -> HEH -> HEH -> HEH ->
  BOUNDEDNESS -> TF.t -> FindPathResult.

Definition edge_valid (h : HEH) : bool :=
  default false (edge_valid_ !! Z.to_nat (edge_handle m h)).

(** "walk to next face" through halfedge [heh]: stop at a degenerate edge,
    else move the three points and the accumulated transition into the
    chart of the opposite face. *)
Definition cross_edge (st : WalkState) (heh : HEH)
  : FindPathResult + WalkState :=
  if negb (edge_valid heh) then inl (FPR_Signal LECI_Traced_Into_Degeneracy)
  else
    let tf := transition_h m tf_ heh in
    inr (mkWalkState (opposite_halfedge_handle m heh)
                     (TF.transform_point tf (ws_uv_from st))
                     (TF.transform_point tf (ws_uv_original_from st))
                     (TF.transform_point tf (ws_uv_to st))
                     (tf ** ws_accumulated_tf st)
                     (ws_inverted st)).

(** The choice of [heh_upd] in the "move forward" branch; [None] is the
    branch that reports and returns the error. *)
Definition pick_exit (uv_from uv_to uv0 uv1 uv2 : Point_2)
           (tri_ori : ORIENTATION) (heh1 heh2 : HEH) : option HEH :=
  let is1 := segments_intersect uv_from uv_to uv0 uv1 in
  let is2 := segments_intersect uv_from uv_to uv2 uv1 in
  if is1 && negb is2 then Some heh1
  else if negb is1 && is2 then Some heh2
  else if is1 && is2 then
    let vis0 := segment_has_onb uv_from uv_to uv0 in
    let vis1 := segment_has_onb uv_from uv_to uv1 in
    let vis2 := segment_has_onb uv_from uv_to uv2 in
    if negb vis0 && negb vis1 && vis2 then Some heh1
    else if vis0 && vis2 then
      if ORIENTATION_eqb (orient2d uv_from uv_to uv1) tri_ori
      then Some heh1 else Some heh2
    else Some heh2
  else None.

(** One iteration of the main walking loop: the loop is left with a result
    ([inl]) or goes on with the next state ([inr]). *)
Definition walk_body (st : WalkState) : FindPathResult + WalkState :=
  let cur_heh := ws_cur_heh st in
  if is_boundary_h m cur_heh
  then inl (FPR_Signal LECI_Traced_Into_Boundary)
  else
    let heh0 := cur_heh in
    let heh1 := next_halfedge_handle m heh0 in
    let heh2 := next_halfedge_handle m heh1 in
    let uv0 := uv_point uv heh0 in
    let uv1 := uv_point uv heh1 in
    let uv2 := uv_point uv heh2 in
    let tri := mkTriangle uv0 uv1 uv2 in
    let tri_ori := tri_orientation tri in
    if ORIENTATION_eqb tri_ori ORI_ZERO &&
       negb (negb (Peqb uv0 uv1) && negb (Peqb uv1 uv2) && negb (Peqb uv2 uv0))
    then inl (FPR_Signal LECI_Traced_Into_Degeneracy)
    else
      let currentlyInverted := ORIENTATION_eqb tri_ori ORI_NEGATIVE in
      let swap := negb (eqb currentlyInverted (ws_inverted st)) in
      let uv_from := if swap then ws_uv_to st else ws_uv_from st in
      let uv_to := if swap then ws_uv_from st else ws_uv_to st in
      let st := mkWalkState cur_heh uv_from (ws_uv_original_from st) uv_to
                            (ws_accumulated_tf st) currentlyInverted in
      match boundedness tri uv_to with
      | BND_ON_UNBOUNDED_SIDE =>
          match pick_exit uv_from uv_to uv0 uv1 uv2 tri_ori heh1 heh2 with
          | None => inl FPR_Error
          | Some heh_upd =>
              if negb (is_valid heh_upd) then inl FPR_Error
              else cross_edge st heh_upd
          end
      | bs =>
          inl (find_local_connection uv_from (ws_uv_original_from st) uv_to
                                     tri heh0 heh1 heh2 bs
                                     (ws_accumulated_tf st))
      end.

(** [for (; walk_iterations < 100000; ++walk_iterations)], with [fuel] the
    number of iterations that remain, followed by the [return] after the
    loop. *)
Fixpoint main_walking_loop (fuel : nat) (st : WalkState) : FindPathResult :=
  match fuel with
  | O => FPR_Error
  | S fuel' =>
      match walk_body st with
      | inl result => result
      | inr st' => main_walking_loop fuel' st'
      end
  end.

(** The number of times the loop body is run. *)
Fixpoint walk_iterations (fuel : nat) (st : WalkState) : nat :=
  match fuel with
  | O => O
  | S fuel' =>
      match walk_body st with
      | inl _ => 1
      | inr st' => S (walk_iterations fuel' st')
      end
  end.

(** The first step of [find_path], which depends on the type of the grid
    vertex: the halfedge through which the path leaves the first triangle;
    [None] where the source returns the error. *)
Definition first_exit (gv : GridVertex) (cur_fh : FH) (uv_from uv_to : Point_2)
           (heh0 heh1 heh2 : HEH) (uv0 uv1 uv2 : Point_2) : option HEH :=
  match gv_type gv with
  | OnFace =>
      if segments_intersect uv_from uv_to uv2 uv0 then Some heh0
      else if segments_intersect uv_from uv_to uv0 uv1 then Some heh1
      else if segments_intersect uv_from uv_to uv1 uv2 then Some heh2
      else None
  | OnEdge =>
      let cur_heh := gv_heh gv in
      let cur_heh :=
        if is_boundary_h m cur_heh || negb (face_handle m cur_heh =? cur_fh)
        then opposite_halfedge_handle m cur_heh else cur_heh in
      let prev_heh := prev_halfedge_handle m cur_heh in
      let next_heh := next_halfedge_handle m cur_heh in
      let uv1l := uv_point uv cur_heh in
      let uv2l := uv_point uv next_heh in
      if segments_intersect uv_from uv_to uv1l uv2l then Some next_heh
      else Some prev_heh
  | OnVertex =>
      let vh := to_vertex_handle m (gv_heh gv) in
      if to_vertex_handle m heh0 =? vh then Some heh2
      else if to_vertex_handle m heh1 =? vh then Some heh0
      else if to_vertex_handle m heh2 =? vh then Some heh1
      else None
  end.

(** [find_path] *)
Definition find_path (gv : GridVertex) (lei : LocalEdgeInfo) : FindPathResult :=
  let cur_fh := fh_from lei in
  let uv_from := uv_from lei in
  let uv_original_from := uv_from in
  let uv_to := uv_intended_to lei in
  let heh0 := halfedge_handle_f m cur_fh in
  let heh1 := next_halfedge_handle m heh0 in
  let heh2 := next_halfedge_handle m heh1 in
  let uv0 := uv_point uv heh0 in
  let uv1 := uv_point uv heh1 in
  let uv2 := uv_point uv heh2 in
  let tri := mkTriangle uv0 uv1 uv2 in
  let inverted := ORIENTATION_eqb (tri_orientation tri) ORI_NEGATIVE in
  let accumulated_tf := TF.IDENTITY in
  match boundedness tri uv_to with
  | BND_ON_UNBOUNDED_SIDE =>
      match first_exit gv cur_fh uv_from uv_to heh0 heh1 heh2 uv0 uv1 uv2 with
      | None => FPR_Error
      | Some cur_heh =>
          if negb (is_valid cur_heh) then FPR_Error
          else
            match cross_edge (mkWalkState cur_heh uv_from uv_original_from
                                          uv_to accumulated_tf inverted)
                             cur_heh with
            | inl result => result
            | inr st => main_walking_loop (Z.to_nat 100000) st
            end
      end
  | bs =>
      find_local_connection uv_from uv_original_from uv_to tri
                            heh0 heh1 heh2 bs accumulated_tf
  end.

End FindPath.

(** *** Transitions inside a grid vertex *)

Fixpoint find_index {A : Type} (P : A -> bool) (l : list A) : option nat :=
  match l with
  | [] => None
  | x :: l' => if P x then Some O else S <$> find_index P l'
  end.

(** The [do ... while] of [intra_gv_transition] at [cur], with [rest] the
    incoming halfedges that the circulator still reaches before it is back
    at its starting point.  When the target face is not met in a full turn
    the source circulates for ever: no result. *)
Fixpoint circulate_to (m : TriMesh) (tf_ : list TF.t) (to_fh : FH)
         (cur : HEH) (rest : list HEH) (result : TF.t) : option TF.t :=
  let result := transition_h m tf_ (next_halfedge_handle m cur) ** result in
  match rest with
  | [] => None
  | h :: rest' =>
      if face_handle m h =? to_fh then Some result
      else circulate_to m tf_ to_fh h rest' result
  end.

(** [intra_gv_transition]; no result where the source throws, circulates
    for ever, or dereferences a circulator at its end. *)
Definition intra_gv_transition (m : TriMesh) (tf_ : list TF.t)
           (from_fh to_fh : FH) (gv : GridVertex)
           (returnIdentityIfSameFh : bool) : option TF.t :=
  if returnIdentityIfSameFh && (from_fh =? to_fh) then Some TF.IDENTITY
  else
    match gv_type gv with
    | OnFace => Some TF.IDENTITY
    | OnEdge =>
        let heh := gv_heh gv in
        let heh_opp := opposite_halfedge_handle m heh in
        if face_handle m heh =? from_fh then
          Some ((if from_fh =? to_fh then transition_h m tf_ heh_opp
                 else TF.IDENTITY) ** transition_h m tf_ heh)
        else if face_handle m heh_opp =? from_fh then
          Some ((if from_fh =? to_fh then transition_h m tf_ heh
                 else TF.IDENTITY) ** transition_h m tf_ heh_opp)
        else None
    | OnVertex =>
        let pivot := to_vertex_handle m (gv_heh gv) in
        let ring := cvih m pivot in
        k ← find_index (fun h => face_handle m h =? from_fh) ring;
        match drop k ring ++ take k ring with
        | [] => None
        | cur :: rest => circulate_to m tf_ to_fh cur (rest ++ [cur]) TF.IDENTITY
        end
    end.

(** *** [generate_connections] *)

(** Modelled from the spec: [FindPathResult::applyToLocalEdgeInfo] and
    [LocalEdgeInfo::completeInformation] are declared in a header that is
    not part of the sources.  Both store a connection in a local edge info:
    the peer index, the index of the reciprocal slot, the final parameter
    point and the accumulated transition. *)
Definition completeInformation (l : LocalEdgeInfo) (idx : ConnIdx) (ori : Z)
           (to : Point_2) (tf : TF.t) : LocalEdgeInfo :=
  mkLEI (fh_from l) (uv_from l) (uv_intended_to l) to idx ori tf
        (halfedgeIndex l) (face_constructed l).

Definition applyToLocalEdgeInfo (target : FindPathResult) (l : LocalEdgeInfo)
  : LocalEdgeInfo :=
  completeInformation l (fpr_connected_to_idx target)
                      (fpr_orientation_idx target) (fpr_uv_to target)
                      (fpr_accumulated_tf target).

Definition set_connected_to_idx (l : LocalEdgeInfo) (idx : ConnIdx)
  : LocalEdgeInfo :=
  mkLEI (fh_from l) (uv_from l) (uv_intended_to l) (uv_to l) idx
        (orientation_idx l) (accumulated_tf l)
        (halfedgeIndex l) (face_constructed l).

Section Connector.

Variable m : TriMesh.
Variable tf_ : list TF.t.

(** Which reserved values are "signals" is decided in the header of
    [LocalEdgeInfo]; every choice is covered. *)
Variable is_signal : Sentinel -> bool.

(** The tracer: [find_path] run on the current [gvertices_]. *)
Variable trace : list GridVertex -> GridVertex -> LocalEdgeInfo -> FindPathResult.

(** [lei.isUnconnectedOrSignal()] *)
Definition isUnconnectedOrSignal (l : LocalEdgeInfo) : bool :=
  match connected_to_idx l with
  | Reserved LECI_Unconnected => true
  | Reserved s => is_signal s
  | Connected _ => false
  end.

(** [intra_gv_transition(fh, tri_mesh_.face_handle(gv.heh), gv, true)] *)
Definition to_canonical (gv : GridVertex) (fh : FH) : option TF.t :=
  intra_gv_transition m tf_ fh (face_handle m (gv_heh gv)) gv true.

(** The body of the two nested loops of [generate_connections] for local
    edge [j] of grid vertex [i].  No result where an assertion of the source
    fails or [intra_gv_transition] gives none. *)
Definition connect_lei (gvs : list GridVertex) (i j : nat)
  : option (list GridVertex) :=
  gv_i ← gvs !! i;
  lei ← local_edges gv_i !! j;
  if isUnconnected lei && is_valid (fh_from lei) then
    let target := trace gvs gv_i lei in
    let gvs := update_lei gvs (i, j) (applyToLocalEdgeInfo target) in
    let gvs :=
      match fpr_connected_to_idx target with
      | Reserved LECI_Traced_Into_Boundary =>
          alter (fun g => set_is_boundary g true) i gvs
      | _ => gvs
      end in
    match fpr_connected_to_idx target with
    | Reserved _ => Some gvs
    | Connected c =>
        if fpr_orientation_idx target <? 0 then None
        else
          let o := Z.to_nat (fpr_orientation_idx target) in
          gv_c ← gvs !! c;
          peer ← local_edges gv_c !! o;
          if isUnconnectedOrSignal peer then
            gv_i ← gvs !! i;
            lei ← local_edges gv_i !! j;
            a ← to_canonical gv_c (fh_from peer);
            b ← to_canonical gv_i (fh_from lei);
            let reverse_tf :=
              TF.inverse a ** accumulated_tf lei ** TF.inverse b in
            let opposite_to :=
              TF.transform_point reverse_tf (position_uv gv_i) in
            let reverse_tf := TF.inverse reverse_tf in
            Some (update_lei gvs (c, o)
                    (fun p => completeInformation p (Connected i)
                                (Z.of_nat j) opposite_to reverse_tf))
          else
            Some (update_lei gvs (i, j)
                    (fun l => set_connected_to_idx l
                                (Reserved LECI_No_Connection)))
    end
  else Some gvs.

(** The inner loop, over the local edges of grid vertex [i]. *)
Fixpoint connect_leis (gvs : list GridVertex) (i : nat) (js : list nat)
  : option (list GridVertex) :=
  match js with
  | [] => Some gvs
  | j :: js' => gvs ← connect_lei gvs i j; connect_leis gvs i js'
  end.

(** The outer loop, over the grid vertices. *)
Fixpoint connect_gvertices (gvs : list GridVertex) (idxs : list nat)
  : option (list GridVertex) :=
  match idxs with
  | [] => Some gvs
  | i :: idxs' =>
      gv ← gvs !! i;
      gvs ← connect_leis gvs i (seq 0 (length (local_edges gv)));
      connect_gvertices gvs idxs'
  end.

(** [generate_connections] *)
Definition generate_connections (gvs : list GridVertex)
  : option (list GridVertex) :=
  connect_gvertices gvs (seq 0 (length gvs)).

End Connector.

(** *** Claim C8 *)

Section FindPathBound.

Variable m : TriMesh.
Variable uv : list Q.
Variable edge_valid_ : list bool.
Variable tf_ : list TF.t.
Variable find_local_connection :
  Point_2 -> Point_2 -> Point_2 -> Triangle_2 -> HEH -> HEH -> HEH ->
  BOUNDEDNESS -> TF.t -> FindPathResult.

Let body := walk_body m uv edge_valid_ tf_ find_local_connection.
Let loop := main_walking_loop m uv edge_valid_ tf_ find_local_connection.
Let iterations := walk_iterations m uv edge_valid_ tf_ find_local_connection.

(** The state after [k] iterations, none of which left the loop. *)
Fixpoint walk_continues (k : nat) (st : WalkState) : option WalkState :=
  match k with
  | O => Some st
  | S k' =>
      match walk_body m uv edge_valid_ tf_ find_local_connection st with
      | inl _ => None
      | inr st' => walk_continues k' st'
      end
  end.

(** [find_path] up to its main walking loop: the result, where the
    function returns before the loop, or the state with which the loop is
    entered. *)
Definition find_path_start (gv : GridVertex) (lei : LocalEdgeInfo)
  : FindPathResult + WalkState :=
  let cur_fh := fh_from lei in
  let uv_from := uv_from lei in
  let uv_original_from := uv_from in
  let uv_to := uv_intended_to lei in
  let heh0 := halfedge_handle_f m cur_fh in
  let heh1 := next_halfedge_handle m heh0 in
  let heh2 := next_halfedge_handle m heh1 in
  let uv0 := uv_point uv heh0 in
  let uv1 := uv_point uv heh1 in
  let uv2 := uv_point uv heh2 in
  let tri := mkTriangle uv0 uv1 uv2 in
  let inverted := ORIENTATION_eqb (tri_orientation tri) ORI_NEGATIVE in
  let accumulated_tf := TF.IDENTITY in
  match boundedness tri uv_to with
  | BND_ON_UNBOUNDED_SIDE =>
      match first_exit m uv gv cur_fh uv_from uv_to heh0 heh1 heh2
                       uv0 uv1 uv2 with
      | None => inl FPR_Error
      | Some cur_heh =>
          if negb (is_valid cur_heh) then inl FPR_Error
          else
            cross_edge m edge_valid_ tf_
                       (mkWalkState cur_heh uv_from uv_original_from
                                    uv_to accumulated_tf inverted)
                       cur_heh
      end
  | bs =>
      inl (find_local_connection uv_from uv_original_from uv_to tri
                                 heh0 heh1 heh2 bs accumulated_tf)
  end.

(** [find_path] is its start followed by the loop, which is given 100000
    iterations. *)
Lemma find_path_enters_loop (gv : GridVertex) (lei : LocalEdgeInfo) :
  find_path m uv edge_valid_ tf_ find_local_connection gv lei
  = match find_path_start gv lei with
    | inl result => result
    | inr st => loop (Z.to_nat 100000) st
    end.
Proof.
  subst loop. unfold find_path, find_path_start. cbv zeta.
  destruct (boundedness _ _); try reflexivity.
  destruct (first_exit _ _ _ _ _ _ _ _ _ _ _ _) as [cur_heh |];
    [| reflexivity].
  destruct (negb (is_valid cur_heh)); [reflexivity |].
  destruct (cross_edge _ _ _ _ _) as [r | st]; [reflexivity |].
  match goal with |- ?a = ?b => constr_eq a b end. reflexivity.
Qed.

Lemma walk_iterations_le (fuel : nat) (st : WalkState) :
  (iterations fuel st <= fuel)%nat.
Proof.
  subst iterations. revert st. induction fuel as [| fuel IH]; intros st; cbn.
  - lia.
  - destruct (walk_body _ _ _ _ _ st) as [r | st']; [lia |].
    specialize (IH st'). lia.
Qed.

Lemma walk_exhausted (fuel : nat) (st st' : WalkState) :
  walk_continues fuel st = Some st' ->
  loop fuel st = FPR_Error /\ iterations fuel st = fuel.
Proof.
  subst loop iterations. revert st.
  induction fuel as [| fuel IH]; intros st; cbn.
  - intros _. split; reflexivity.
  - destruct (walk_body _ _ _ _ _ st) as [r | st1]; [discriminate |].
    intros Hc. destruct (IH st1 Hc) as [-> ->]. split; reflexivity.
Qed.

Lemma walk_resolved (fuel k : nat) (st st' : WalkState) (r : FindPathResult) :
  (k < fuel)%nat ->
  walk_continues k st = Some st' ->
  body st' = inl r ->
  loop fuel st = r /\ iterations fuel st = S k.
Proof.
  subst body loop iterations. revert k st.
  induction fuel as [| fuel IH]; intros k st Hk; [lia |].
  destruct k as [| k]; cbn.
  - intros Hc Hr. inversion Hc; subst st'. rewrite Hr. split; reflexivity.
  - destruct (walk_body _ _ _ _ _ st) as [r0 | st1]; [discriminate |].
    intros Hc Hr. destruct (IH k st1 ltac:(lia) Hc Hr) as [-> ->].
    split; reflexivity.
Qed.

Lemma walk_continues_fixed (st : WalkState) :
  body st = inr st -> forall k, walk_continues k st = Some st.
Proof.
  subst body. intros Hb k. induction k as [| k IH]; cbn; [reflexivity |].
  now rewrite Hb.
Qed.

End FindPathBound.

(** **** The one call of [find_local_connection] *)

(** The arguments of a call of [find_local_connection]. *)
Definition Call : Type :=
  (Point_2 * Point_2 * Point_2 * Triangle_2 * HEH * HEH * HEH
   * BOUNDEDNESS * TF.t)%type.

(** How [find_path] comes to its result: it is a signal or the error, or it
    is whatever [find_local_connection] returns for the given arguments. *)
Definition answer
           (find_local_connection :
              Point_2 -> Point_2 -> Point_2 -> Triangle_2 -> HEH -> HEH ->
              HEH -> BOUNDEDNESS -> TF.t -> FindPathResult)
           (o : FindPathResult + Call) : FindPathResult :=
  match o with
  | inl result => result
  | inr (p_from, p_original_from, p_to, tri, heh0, heh1, heh2, bs, acc) =>
      find_local_connection p_from p_original_from p_to tri heh0 heh1 heh2
                            bs acc
  end.

Section FindPathCalls.

Variable m : TriMesh.
Variable uv : list Q.
Variable edge_valid_ : list bool.
Variable tf_ : list TF.t.

Lemma walk_body_one_call (st : WalkState) :
  exists o : (FindPathResult + Call) + WalkState,
    forall find_local_connection,
      walk_body m uv edge_valid_ tf_ find_local_connection st
      = match o with
        | inl o' => inl (answer find_local_connection o')
        | inr st' => inr st'
        end.
Proof.
  unfold walk_body. cbv zeta.
  destruct (is_boundary_h m (ws_cur_heh st));
    [now exists (inl (inl (FPR_Signal LECI_Traced_Into_Boundary))) |].
  destruct (_ && _);
    [now exists (inl (inl (FPR_Signal LECI_Traced_Into_Degeneracy))) |].
  destruct (boundedness _ _) eqn:Hbs.
  - eexists (inl (inr (_, _, _, _, _, _, _, _, _))). intros f. reflexivity.
  - eexists (inl (inr (_, _, _, _, _, _, _, _, _))). intros f. reflexivity.
  - destruct (pick_exit _ _ _ _ _ _ _ _) as [heh_upd |];
      [| now exists (inl (inl FPR_Error))].
    destruct (negb (is_valid heh_upd)); [now exists (inl (inl FPR_Error)) |].
    destruct (cross_edge m edge_valid_ tf_ _ heh_upd) as [r | st'].
    + now exists (inl (inl r)).
    + now exists (inr st').
Qed.

Lemma main_walking_loop_one_call (fuel : nat) :
  forall st : WalkState,
  exists o : FindPathResult + Call,
    forall find_local_connection,
      main_walking_loop m uv edge_valid_ tf_ find_local_connection fuel st
      = answer find_local_connection o.
Proof.
  induction fuel as [| fuel IH]; intros st; cbn [main_walking_loop].
  - now exists (inl FPR_Error).
  - destruct (walk_body_one_call st) as [[o | st'] Ho].
    + exists o. intros f. now rewrite Ho.
    + destruct (IH st') as [o Hloop]. exists o. intros f.
      now rewrite Ho, Hloop.
Qed.

Lemma find_path_one_call (gv : GridVertex) (lei : LocalEdgeInfo) :
  exists o : FindPathResult + Call,
    forall find_local_connection,
      find_path m uv edge_valid_ tf_ find_local_connection gv lei
      = answer find_local_connection o.
Proof.
  unfold find_path. cbv zeta.
  destruct (boundedness _ _).
  - eexists (inr (_, _, _, _, _, _, _, _, _)). intros f. reflexivity.
  - eexists (inr (_, _, _, _, _, _, _, _, _)). intros f. reflexivity.
  - destruct (first_exit _ _ _ _ _ _ _ _ _ _ _ _) as [cur_heh |];
      [| now exists (inl FPR_Error)].
    destruct (negb (is_valid cur_heh)); [now exists (inl FPR_Error) |].
    destruct (cross_edge m edge_valid_ tf_ _ cur_heh) as [r | st].
    + now exists (inl r).
    + apply main_walking_loop_one_call.
Qed.

End FindPathCalls.

(** C8.  [find_path] has no loop but its main walking loop, and calls
    [find_local_connection] at most once, as its last action: its result is
    a signal or the error, or the value of [find_local_connection] at
    arguments that do not depend on what that function returns; so it
    returns whenever that one call does.  Where [find_path] returns before
    the loop, that is its result.  Where it enters the loop, the loop runs
    its body at most 100000 times: if one of the first 100000 iterations
    resolves the trace, [find_path] returns the result of that iteration;
    if all 100000 iterations go on to a next triangle, [find_path] returns
    the error result and runs no further iteration.  The connector stores
    the error in the traced local edge info without connecting it and
    without touching any other. *)
Theorem find_path_walk_bounded
        (m : TriMesh) (uv : list Q) (edge_valid_ : list bool) (tf_ : list TF.t)
        (find_local_connection :
           Point_2 -> Point_2 -> Point_2 -> Triangle_2 -> HEH -> HEH -> HEH ->
           BOUNDEDNESS -> TF.t -> FindPathResult)
        (gv : GridVertex) (lei : LocalEdgeInfo) :
  let continues := walk_continues m uv edge_valid_ tf_ find_local_connection in
  let start := find_path_start m uv edge_valid_ tf_ find_local_connection in
  let result := find_path m uv edge_valid_ tf_ find_local_connection gv lei in
  (exists o : FindPathResult + Call,
      forall callee,
        find_path m uv edge_valid_ tf_ callee gv lei = answer callee o) /\
  (forall r, start gv lei = inl r -> result = r) /\
  (forall st, start gv lei = inr st ->
     (forall k st' r,
         (k < Z.to_nat 100000)%nat -> continues k st = Some st' ->
         walk_body m uv edge_valid_ tf_ find_local_connection st' = inl r ->
         result = r) /\
     (forall st', continues (Z.to_nat 100000) st = Some st' ->
                  result = FPR_Error)) /\
  (forall (is_signal : Sentinel -> bool) (gvs : list GridVertex) (i j : nat),
     gvs !! i = Some gv -> local_edges gv !! j = Some lei ->
     isUnconnected lei = true -> is_valid (fh_from lei) = true ->
     result = FPR_Error ->
     connect_lei m tf_ is_signal
                 (fun _ => find_path m uv edge_valid_ tf_ find_local_connection)
                 gvs i j
     = Some (update_lei gvs (i, j) (applyToLocalEdgeInfo FPR_Error)) /\
     isConnected (applyToLocalEdgeInfo FPR_Error lei) = false).
Proof.
  intros continues start result.
  split; [apply find_path_one_call |]. split; [| split].
  - intros r Hstart. subst result start.
    now rewrite find_path_enters_loop, Hstart.
  - intros st Hstart.
    assert (Hloop : result
                    = main_walking_loop m uv edge_valid_ tf_
                        find_local_connection (Z.to_nat 100000) st).
    { subst result start. now rewrite find_path_enters_loop, Hstart. }
    split.
    + intros k st' r Hk Hc Hr. rewrite Hloop.
      exact (proj1 (walk_resolved m uv edge_valid_ tf_ find_local_connection
                      (Z.to_nat 100000) k st st' r Hk Hc Hr)).
    + intros st' Hc. rewrite Hloop.
      exact (proj1 (walk_exhausted m uv edge_valid_ tf_ find_local_connection
                      (Z.to_nat 100000) st st' Hc)).
  - intros is_signal gvs i j Hi Hj Hun Hv Herr. subst result.
    unfold connect_lei. rewrite Hi. cbn. rewrite Hj. cbn. rewrite Hun, Hv. cbn.
    rewrite Herr. split; reflexivity.
Qed.

(** A triangle whose halfedge [1] is glued back to its halfedge [0] by the
    identity: a path that leaves through halfedge [1] enters the same
    triangle again, for ever. *)
Definition looping_mesh : TriMesh :=
  {| mesh_edges := [0];
     mesh_vertices := [0; 1; 2];
     mesh_faces := [0];
     has_edge_status := false;
     edge_selected := fun _ => false;
     edge_feature := fun _ => false;
     is_boundary_e := fun _ => false;
     is_boundary_h := fun _ => false;
     is_boundary_v := fun _ => false;
     halfedge_handle_e := fun _ _ => 1;
     halfedge_handle_f := fun _ => 0;
     halfedge_handle_v := fun v => v;
     opposite_halfedge_handle := fun _ => 0;
     next_halfedge_handle := fun h => (h + 1) mod 3;
     prev_halfedge_handle := fun h => (h + 2) mod 3;
     to_vertex_handle := fun h => h;
     face_handle := fun _ => 0;
     edge_handle := fun _ => 0;
     cvih := fun v => [v] |}.

Definition looping_state : WalkState :=
  mkWalkState 0 (1 # 4, 1 # 4)%Q (1 # 4, 1 # 4)%Q (1 # 4, -1)%Q TF.IDENTITY false.

(** A grid vertex inside the triangle and its local edge that points
    straight down, out of the triangle. *)
Definition looping_lei : LocalEdgeInfo :=
  new_LEI 0 (1 # 4, 1 # 4)%Q (1 # 4, -1)%Q.

Definition looping_gvertex : GridVertex :=
  mkGV OnFace 0 (1 # 4, 1 # 4)%Q (0, 0, 0)%Q false 0 [looping_lei].

(** On that mesh [find_path] enters the loop, every iteration leaves the
    triangle through the glued edge, and the error is returned although
    [find_local_connection] never returns it. *)
Lemma find_path_walk_bounded_witness :
  find_path looping_mesh [0; 0; 1; 0; 0; 1]%Q [true] [TF.IDENTITY]
            (fun _ _ _ _ _ _ _ _ _ => FPR_Signal LECI_Traced_Into_Boundary)
            looping_gvertex looping_lei
  = FPR_Error.
Proof.
  refine (proj2 (proj1 (proj2 (proj2
            (find_path_walk_bounded looping_mesh [0; 0; 1; 0; 0; 1]%Q [true]
               [TF.IDENTITY]
               (fun _ _ _ _ _ _ _ _ _ => FPR_Signal LECI_Traced_Into_Boundary)
               looping_gvertex looping_lei))) looping_state _)
            looping_state _).
  - vm_compute. reflexivity.
  - apply walk_continues_fixed. vm_compute. reflexivity.
Defined.

(** The walk on that mesh uses up the 100000 iterations and returns the
    error. *)
Example main_walking_loop_exhausted :
  main_walking_loop looping_mesh [0; 0; 1; 0; 0; 1]%Q [true] [TF.IDENTITY]
                    (fun _ _ _ _ _ _ _ _ _ => FPR_Error)
                    (Z.to_nat 100000) looping_state
  = FPR_Error /\
  walk_iterations looping_mesh [0; 0; 1; 0; 0; 1]%Q [true] [TF.IDENTITY]
                  (fun _ _ _ _ _ _ _ _ _ => FPR_Error)
                  (Z.to_nat 100000) looping_state
  = Z.to_nat 100000.
Proof.
  apply (walk_exhausted _ _ _ _ _ _ looping_state looping_state).
  apply walk_continues_fixed. vm_compute. reflexivity.
Qed.

(** ** Reciprocity of connections *)

Lemma get_lei_update_lei (gvs : list GridVertex) (r r0 : LeiRef)
      (f : LocalEdgeInfo -> LocalEdgeInfo) :
  get_lei (update_lei gvs r0 f) r
  = if decide (r = r0) then f <$> get_lei gvs r else get_lei gvs r.
Proof.
  destruct (get_lei gvs r) as [l |] eqn:Hl.
  - rewrite (get_lei_update _ _ _ _ _ Hl). now destruct (decide _).
  - assert (Hn : get_lei (update_lei gvs r0 f) r = None).
    { destruct r as [g p], r0 as [g0 p0].
      unfold get_lei, update_lei in *; cbn [fst snd] in *.
      destruct (decide (g = g0)) as [-> | Hng].
      - rewrite list_lookup_alter_eq.
        destruct (gvs !! g0) as [gv |]; cbn; [| reflexivity].
        destruct (decide (p = p0)) as [-> | Hnp].
        + rewrite list_lookup_alter_eq, Hl. reflexivity.
        + rewrite list_lookup_alter_ne by congruence. exact Hl.
      - rewrite list_lookup_alter_ne by congruence. exact Hl. }
    rewrite Hn. now destruct (decide _).
Qed.


Section Reciprocity.

Variable m : TriMesh.
Variable tf_ : list TF.t.

















End Reciprocity.

Arguments update_lei : simpl never.

Section ConnectorReciprocity.

Variable m : TriMesh.
Variable tf_ : list TF.t.
Variable is_signal : Sentinel -> bool.
Variable trace : list GridVertex -> GridVertex -> LocalEdgeInfo -> FindPathResult.




Lemma isUnconnected_not_connected (l : LocalEdgeInfo) :
  isUnconnected l = true -> isConnected l = false.
Proof.
  unfold isUnconnected, isConnected. now destruct (connected_to_idx l).
Qed.

Lemma isUnconnectedOrSignal_not_connected (l : LocalEdgeInfo) :
  isUnconnectedOrSignal is_signal l = true -> isConnected l = false.
Proof.
  unfold isUnconnectedOrSignal, isConnected.
  destruct (connected_to_idx l); [reflexivity | discriminate].
Qed.






End ConnectorReciprocity.

(** ** The incomplete-fan repair: [try_connect_incomplete_gvertices] *)

Definition set_orientation_idx (l : LocalEdgeInfo) (o : Z) : LocalEdgeInfo :=
  mkLEI (fh_from l) (uv_from l) (uv_intended_to l) (uv_to l)
        (connected_to_idx l) o (accumulated_tf l)
        (halfedgeIndex l) (face_constructed l).

(** The body of the loop of [increment_opposite_connected_to_idx] for the
    local edge info at [(g, pos)]. *)
Definition increment_opposite_at (gvs : list GridVertex) (g pos : nat)
  : option (list GridVertex) :=
  first ← get_lei gvs (g, pos);
  match connected_to_idx first with
  | Reserved _ => Some gvs
  | Connected c =>
      gv_c ← gvs !! c;
      _ ← local_edge gv_c (orientation_idx first);
      Some (update_lei gvs (c, lei_pos gv_c (orientation_idx first))
                       (fun l => set_orientation_idx l (orientation_idx l + 1)))
  end.

(** [increment_opposite_connected_to_idx(first, last)] for the local edge
    infos of grid vertex [g] at the positions [poss]. *)
Fixpoint increment_opposite_connected_to_idx (gvs : list GridVertex) (g : nat)
         (poss : list nat) : option (list GridVertex) :=
  match poss with
  | [] => Some gvs
  | pos :: poss' =>
      gvs ← increment_opposite_at gvs g pos;
      increment_opposite_connected_to_idx gvs g poss'
  end.

(** [notConnected(gv1, gv2)], with [gv2] given by its index. *)
Definition notConnected (gv1 : GridVertex) (idx2 : nat) : bool :=
  forallb (fun l => match connected_to_idx l with
                    | Connected c => negb (c =? idx2)%nat
                    | Reserved _ => true
                    end)
          (local_edges gv1).

(** [v.insert(v.begin() + k, x)] *)
Definition insert_at {A : Type} (k : nat) (x : A) (l : list A) : list A :=
  take k l ++ x :: drop k l.

Definition insert_lei (gvs : list GridVertex) (g k : nat) (x : LocalEdgeInfo)
  : list GridVertex :=
  alter (fun gv => set_local_edges gv (insert_at k x (local_edges gv))) g gvs.

Section Repair.

Variable m : TriMesh.
Variable tf_ : list TF.t.

(** The branch of the repair walk that inserts a pair of local edge infos:
    one after position [p] of the start grid vertex [s], one before the
    incoming slot [q] of grid vertex [n], and connects the two.
    [current_outgoing] is the pointer [current_outgoing_lei], which the
    source reads again after the insertions; where an insertion has moved
    the slot it points to, that read is undefined and there is no result.
    (A reallocation of the vector by [insert], which would invalidate the
    pointer wherever it points into that vector, is not modelled.) *)
Definition insert_connection (gvs : list GridVertex) (s p n : nat) (q : Z)
           (current_outgoing : LeiRef) (acc_tf : TF.t)
  : option (list GridVertex) :=
  gv_s ← gvs !! s;
  gv_n ← gvs !! n;
  start_lei ← local_edges gv_s !! p;
  let final_pos := lei_pos gv_s (Z.of_nat p + 1) in
  final_lei ← local_edges gv_s !! final_pos;
  let in_pos := lei_pos gv_n q in
  next_incoming_lei ← local_edges gv_n !! in_pos;
  gvs ← increment_opposite_connected_to_idx gvs s
          (seq (S p) (length (local_edges gv_s) - S p));
  gvs ← increment_opposite_connected_to_idx gvs n
          (seq in_pos (length (local_edges gv_n) - in_pos));
  x ← intra_gv_transition m tf_ (fh_from final_lei) (fh_from start_lei) gv_s true;
  y ← intra_gv_transition m tf_ (fh_from final_lei) (fh_from start_lei) gv_s
        (negb (final_pos =? p)%nat);
  let new_incoming_lei_tf :=
    TF.inverse (x ** TF.inverse y ** TF.inverse acc_tf) in
  a ← to_canonical m tf_ gv_n (fh_from next_incoming_lei);
  b ← to_canonical m tf_ gv_s (fh_from start_lei);
  let new_outgoing_lei_tf :=
    TF.inverse (TF.inverse a ** acc_tf ** TF.inverse b) in
  let gvs := insert_lei gvs s (S p)
               (new_LEI (fh_from start_lei) (uv_from start_lei)
                        (uv_from start_lei)) in
  let gvs := insert_lei gvs n in_pos
               (new_LEI (fh_from next_incoming_lei) (uv_from next_incoming_lei)
                        (uv_from next_incoming_lei)) in
  if ((fst current_outgoing =? s)%nat && (p <? snd current_outgoing)%nat)
     || ((fst current_outgoing =? n)%nat && (in_pos <=? snd current_outgoing)%nat)
  then None
  else
    cur ← get_lei gvs current_outgoing;
    start_lei ← get_lei gvs (s, p);
    gv_n ← gvs !! n;
    next_incoming_lei ← local_edge gv_n (q + 1);
    let gvs := update_lei gvs (s, S p)
                 (fun l => completeInformation l (connected_to_idx cur)
                             (Z.of_nat in_pos) (uv_from start_lei)
                             new_incoming_lei_tf) in
    Some (update_lei gvs (n, in_pos)
            (fun l => completeInformation l (Connected s) (Z.of_nat (S p))
                        (uv_from next_incoming_lei) new_outgoing_lei_tf)).

(** The [do ... while] of the repair: the walk around the face that starts
    with local edge [p] of grid vertex [s].  The source does not bound the
    walk; [fuel] does, and running out of it gives no result. *)
Fixpoint repair_walk (fuel : nat) (s p : nat) (pivot_uv : Point_2)
         (gvs : list GridVertex) (acc_tf : TF.t)
         (current_outgoing : LeiRef) (edgeCreated : bool)
  : option (list GridVertex) :=
  match fuel with
  | O => None
  | S fuel' =>
      cur ← get_lei gvs current_outgoing;
      match connected_to_idx cur with
      | Reserved _ => Some gvs
      | Connected n =>
          next_gv ← gvs !! n;
          let q := orientation_idx cur in
          let in_pos := lei_pos next_gv q in
          let out_pos := lei_pos next_gv (q - 1) in
          next_incoming_lei ← local_edges next_gv !! in_pos;
          next_outgoing_lei ← local_edges next_gv !! out_pos;
          let acc_tf := accumulated_tf cur ** acc_tf in
          t1 ← intra_gv_transition m tf_ (fh_from next_incoming_lei)
                 (fh_from next_outgoing_lei) next_gv
                 (negb (in_pos =? out_pos)%nat);
          t2 ← to_canonical m tf_ next_gv (fh_from next_incoming_lei);
          let intra_face_tf := t1 ** TF.inverse t2 in
          let next_uv :=
            TF.transform_point (TF.inverse (intra_face_tf ** acc_tf))
                               (uv_from next_outgoing_lei) in
          '(gvs, next_outgoing, edgeCreated) ←
            (if negb edgeCreated && Peqb next_uv pivot_uv
                && negb (n =? s)%nat && notConnected next_gv s
             then
               gvs ← insert_connection gvs s p n q current_outgoing
                                       acc_tf;
               next_gv ← gvs !! n;
               Some (gvs, (n, lei_pos next_gv q), true)
             else Some (gvs, (n, out_pos), edgeCreated));
          let acc_tf := intra_face_tf ** acc_tf in
          if (n =? s)%nat then Some gvs
          else repair_walk fuel' s p pivot_uv gvs acc_tf
                           next_outgoing edgeCreated
      end
  end.

(** The loop over the local edges of the start grid vertex [s], from
    position [p] on; its end is read again in every round because the walk
    may have inserted a local edge. *)
Fixpoint repair_leis (fuel : nat) (gvs : list GridVertex) (s p : nat)
  : option (list GridVertex) :=
  match fuel with
  | O => None
  | S fuel' =>
      gv_s ← gvs !! s;
      match local_edges gv_s !! p with
      | None => Some gvs
      | Some start_lei =>
          gvs ← repair_walk fuel' s p (uv_from start_lei) gvs TF.IDENTITY
                            (s, p) false;
          repair_leis fuel' gvs s (S p)
      end
  end.

(** The loop over the grid vertices. *)
Fixpoint repair_gvertices (fuel : nat) (gvs : list GridVertex)
         (idxs : list nat) : option (list GridVertex) :=
  match idxs with
  | [] => Some gvs
  | s :: idxs' =>
      gv_s ← gvs !! s;
      gvs ← (if missing_leis gv_s =? 0 then Some gvs
             else repair_leis fuel gvs s 0);
      repair_gvertices fuel gvs idxs'
  end.

(** [try_connect_incomplete_gvertices] *)
Definition try_connect_incomplete_gvertices (fuel : nat)
           (gvs : list GridVertex) : option (list GridVertex) :=
  repair_gvertices fuel gvs (seq 0 (length gvs)).

End Repair.

(** *** What the increments and insertions of the repair preserve *)




















Section RepairReciprocity.

Variable m : TriMesh.
Variable tf_ : list TF.t.



End RepairReciprocity.

(** *** What the index shifts of the repair do to the other connections *)













Section RepairPreserves.

Variable m : TriMesh.
Variable tf_ : list TF.t.








Lemma insert_connection_inv (gvs gvs' : list GridVertex) (s p n : nat)
      (q : Z) (current_outgoing : LeiRef) (acc_tf : TF.t) :
  insert_connection m tf_ gvs s p n q current_outgoing acc_tf = Some gvs' ->
  exists gv_s gv_n start_lei nin gvs1 gvs2 newS newN f1 f2,
    gvs !! s = Some gv_s /\ gvs !! n = Some gv_n /\
    local_edges gv_s !! p = Some start_lei /\
    local_edges gv_n !! lei_pos gv_n q = Some nin /\
    increment_opposite_connected_to_idx gvs s
      (seq (S p) (length (local_edges gv_s) - S p)) = Some gvs1 /\
    increment_opposite_connected_to_idx gvs1 n
      (seq (lei_pos gv_n q) (length (local_edges gv_n) - lei_pos gv_n q))
    = Some gvs2 /\
    gvs' = update_lei
             (update_lei
                (insert_lei (insert_lei gvs2 s (S p) newS)
                            n (lei_pos gv_n q) newN)
                (s, S p) f1)
             (n, lei_pos gv_n q) f2.
Proof.
  unfold insert_connection.
  destruct (gvs !! s) as [gv_s |] eqn:Hs; cbn [mbind option_bind];
    [| discriminate].
  destruct (gvs !! n) as [gv_n |] eqn:Hn; cbn [mbind option_bind];
    [| discriminate].
  destruct (local_edges gv_s !! p) as [start_lei |] eqn:Hstart;
    cbn [mbind option_bind]; [| discriminate].
  destruct (local_edges gv_s !! lei_pos gv_s (Z.of_nat p + 1))
    as [final_lei |] eqn:Hfinal; cbn [mbind option_bind]; [| discriminate].
  destruct (local_edges gv_n !! lei_pos gv_n q) as [nin |] eqn:Hnin;
    cbn [mbind option_bind]; [| discriminate].
  destruct (increment_opposite_connected_to_idx gvs s _) as [gvs1 |] eqn:Hi1;
    cbn [mbind option_bind]; [| discriminate].
  destruct (increment_opposite_connected_to_idx gvs1 n _) as [gvs2 |] eqn:Hi2;
    cbn [mbind option_bind]; [| discriminate].
  destruct (intra_gv_transition m tf_ (fh_from final_lei) (fh_from start_lei)
                                gv_s true) as [x |];
    cbn [mbind option_bind]; [| discriminate].
  destruct (intra_gv_transition m tf_ (fh_from final_lei) (fh_from start_lei)
              gv_s (negb (lei_pos gv_s (Z.of_nat p + 1) =? p)%nat))
    as [y |]; cbn [mbind option_bind]; [| discriminate].
  destruct (to_canonical m tf_ gv_n (fh_from nin)) as [a |];
    cbn [mbind option_bind]; [| discriminate].
  destruct (to_canonical m tf_ gv_s (fh_from start_lei)) as [b |];
    cbn [mbind option_bind]; [| discriminate].
  set (newS := new_LEI (fh_from start_lei) (uv_from start_lei)
                       (uv_from start_lei)).
  set (newN := new_LEI (fh_from nin) (uv_from nin) (uv_from nin)).
  set (gvs4 := insert_lei (insert_lei gvs2 s (S p) newS)
                          n (lei_pos gv_n q) newN).
  destruct (_ || _); [discriminate |].
  destruct (get_lei gvs4 current_outgoing) as [cur4 |];
    cbn [mbind option_bind]; [| discriminate].
  destruct (get_lei gvs4 (s, p)) as [start4 |];
    cbn [mbind option_bind]; [| discriminate].
  destruct (gvs4 !! n) as [gv_n4 |]; cbn [mbind option_bind];
    [| discriminate].
  destruct (local_edge gv_n4 (q + 1)) as [nin4 |];
    cbn [mbind option_bind]; [| discriminate].
  intros [= <-].
  do 10 eexists. repeat split; eassumption.
Qed.
















End RepairPreserves.

(** *** Claim C1 *)

(** A grid vertex inside a face, with the given local edge infos. *)
Definition face_point (ls : list LocalEdgeInfo) : GridVertex :=
  mkGV OnFace 0 (0, 0)%Q (0, 0, 0)%Q false 1 ls.

Definition link (c : nat) (o : Z) (tf : TF.t) : LocalEdgeInfo :=
  mkLEI 0 (0, 0)%Q (0, 0)%Q (0, 0)%Q (Connected c) o tf (-1) false.



(** A path [0 -> 1 -> 2] whose ends each have one more, unconnected, local
    edge info.  In the chart of grid vertex [2] the three grid vertices sit
    at [(2, 3)], the image of [(0, 0)] under the transition [(1, 2, 3)] of
    the connection from [1] to [2]. *)
Definition open_fan : list GridVertex :=
  [face_point [link 1 0 TF.IDENTITY; new_LEI 0 (0, 0)%Q (0, 0)%Q];
   face_point [link 0 0 TF.IDENTITY; link 2 0 (TF.mk 1 2 3)];
   face_point [mkLEI 0 (2, 3)%Q (0, 0)%Q (0, 0)%Q (Connected 1) 1
                     (TF.mk 3 (-3) 2) (-1) false;
               new_LEI 0 (2, 3)%Q (2, 3)%Q]].






(** *** Where the fan repair gives reciprocity up *)







(** ** Running [consistent_truncation] on its own output *)

(** Halfedge [h] has its two entries inside a coordinate vector of length
    [n]. *)
Definition in_range (n : nat) (h : HEH) : Prop :=
  0 <= h /\ (Z.to_nat (2 * h + 1) < n)%nat.

(** A sequence of assignments [_uv_coords[2*h], _uv_coords[2*h+1] = p]. *)
Definition apply_writes (ws : list (HEH * Point_2)) (uv : list Q) : list Q :=
  fold_left (fun uv w => uv_set_point uv (fst w) (snd w)) ws uv.

Lemma length_apply_writes (ws : list (HEH * Point_2)) :
  forall uv, length (apply_writes ws uv) = length uv.
Proof.
  induction ws as [| w ws IH]; intros uv; [reflexivity |].
  cbn [apply_writes fold_left]. fold (apply_writes ws).
  now rewrite IH, length_uv_set_point.
Qed.

Lemma uv_set_point_id (uv : list Q) (h : HEH) (p : Point_2) :
  in_range (length uv) h -> uv_point uv h = p -> uv_set_point uv h p = uv.
Proof.
  intros [Hh Hlen] <-. unfold uv_set_point, uv_point, uv_set, uv_at.
  cbn [fst snd].
  destruct (lookup_lt_is_Some_2 uv (Z.to_nat (2 * h))) as [x Hx]; [lia |].
  destruct (lookup_lt_is_Some_2 uv (Z.to_nat (2 * h + 1))) as [y Hy]; [lia |].
  rewrite Hx, Hy. cbn [default from_option]. unfold id.
  rewrite (list_insert_id uv _ x Hx). now apply list_insert_id.
Qed.

Lemma uv_set_point_twice (uv : list Q) (h : HEH) (p q : Point_2) :
  0 <= h -> uv_set_point (uv_set_point uv h q) h p = uv_set_point uv h p.
Proof.
  intros Hh. unfold uv_set_point, uv_set.
  rewrite (list_insert_insert_ne _ (Z.to_nat (2 * h + 1)) (Z.to_nat (2 * h)))
    by lia.
  rewrite list_insert_insert_eq.
  rewrite (list_insert_insert_ne _ (Z.to_nat (2 * h)) (Z.to_nat (2 * h + 1)))
    by lia.
  now rewrite list_insert_insert_eq.
Qed.

Lemma apply_writes_frame (ws : list (HEH * Point_2)) (h : HEH) :
  0 <= h ->
  Forall (fun w => 0 <= fst w /\ fst w <> h) ws ->
  forall uv, uv_point (apply_writes ws uv) h = uv_point uv h.
Proof.
  intros Hh Hws. induction Hws as [| w ws [Hw Hne] _ IH]; intros uv.
  - reflexivity.
  - cbn [apply_writes fold_left]. fold (apply_writes ws).
    rewrite IH. now apply uv_point_set_point_ne.
Qed.

Lemma apply_writes_read (ws : list (HEH * Point_2)) :
  forall uv,
    NoDup (map fst ws) ->
    Forall (fun w => in_range (length uv) (fst w)) ws ->
    Forall (fun w => uv_point (apply_writes ws uv) (fst w) = snd w) ws.
Proof.
  induction ws as [| [h p] ws IH]; intros uv Hnd Hr; [constructor |].
  cbn [map fst] in Hnd. apply NoDup_cons in Hnd. destruct Hnd as [Hnot Hnd].
  inversion Hr as [| w ws' [Hh Hlen] Hr' ]; subst.
  cbn [fst snd] in *. cbn [apply_writes fold_left]. fold (apply_writes ws).
  constructor.
  - cbn [fst snd]. rewrite apply_writes_frame.
    + now apply uv_point_set_point_eq.
    + exact Hh.
    + apply Forall_forall. intros w Hw.
      rewrite Forall_forall in Hr'. split; [apply (Hr' w Hw) |].
      intros E. apply Hnot. rewrite <- E.
      apply list_elem_of_fmap. now exists w.
  - apply IH; [exact Hnd |].
    now rewrite length_uv_set_point.
Qed.

Lemma apply_writes_fixed (ws : list (HEH * Point_2)) (uv : list Q) :
  Forall (fun w => in_range (length uv) (fst w)
                   /\ uv_point uv (fst w) = snd w) ws ->
  apply_writes ws uv = uv.
Proof.
  induction 1 as [| w ws [Hr Hw] _ IH]; [reflexivity |].
  cbn [apply_writes fold_left]. fold (apply_writes ws).
  now rewrite uv_set_point_id.
Qed.

Lemma fix_irregular_idempotent (b : bool) (vtrans : TF.t) (p : Point_2) :
  fix_irregular b vtrans (fix_irregular b vtrans p) = fix_irregular b vtrans p.
Proof.
  unfold fix_irregular.
  destruct (negb b && negb (TF.eqb vtrans TF.identity)); [| reflexivity].
  destruct (TF.r vtrans) as [| [[| |] | [| |] |] |]; reflexivity.
Qed.

Section TruncationTwice.

Variable pow2_scale : Q -> Q.
Variable clear_bits : Q -> Q -> Q.
Variable m : TriMesh.
Variable tf_ : list TF.t.

(** The assignments made by "propagate in one-ring", in order. *)
Fixpoint propagate_writes (rest : list HEH) (cur : Point_2)
  : list (HEH * Point_2) :=
  match rest with
  | [] => []
  | h :: rest' =>
      if is_boundary_h m h then propagate_writes rest' cur
      else
        let cur := TF.transform_point
                     (transition_h m tf_ (opposite_halfedge_handle m h)) cur in
        (h, cur) :: propagate_writes rest' cur
  end.

Lemma propagate_as_writes (rest : list HEH) :
  forall uv cur,
    fst (fold_left (propagate_step m tf_) rest (uv, cur))
    = apply_writes (propagate_writes rest cur) uv.
Proof.
  induction rest as [| h rest IH]; intros uv cur; [reflexivity |].
  cbn [fold_left propagate_writes]. unfold propagate_step at 2.
  destruct (is_boundary_h m h); [apply IH |].
  rewrite IH. reflexivity.
Qed.

Lemma propagate_writes_sublist (rest : list HEH) :
  forall cur, map fst (propagate_writes rest cur) `sublist_of` rest.
Proof.
  induction rest as [| h rest IH]; intros cur; cbn [propagate_writes].
  - constructor.
  - destruct (is_boundary_h m h).
    + apply sublist_cons. apply IH.
    + cbn [map fst]. apply sublist_skip. apply IH.
Qed.

Lemma propagate_writes_handles (P : HEH -> Prop) (rest : list HEH)
      (cur : Point_2) :
  Forall P rest -> Forall (fun w => P (fst w)) (propagate_writes rest cur).
Proof.
  intros Hrest. apply Forall_forall. intros w Hw.
  rewrite Forall_forall in Hrest. apply Hrest.
  eapply elem_of_sublist; [| apply (propagate_writes_sublist rest cur)].
  apply list_elem_of_fmap. now exists w.
Qed.

(** The value left at the anchor halfedge by the body of the vertex loop. *)
Definition anchor_value (uv : list Q) (v : VH) (heh : HEH) : Point_2 :=
  let max_v := vertex_scale pow2_scale m tf_ uv v in
  fix_irregular (is_boundary_v m v) (transition_v m tf_ v)
                (clear_bits max_v (uv_at uv (2 * heh)),
                 clear_bits max_v (uv_at uv (2 * heh + 1))).

(** All the assignments of the body of the vertex loop. *)
Definition vertex_writes (uv : list Q) (v : VH) : list (HEH * Point_2) :=
  match cvih m v with
  | [] => []
  | heh :: rest =>
      (heh, anchor_value uv v heh)
        :: propagate_writes rest (anchor_value uv v heh)
  end.

Lemma truncate_vertex_as_writes (uv : list Q) (v : VH) :
  Forall (in_range (length uv)) (cvih m v) ->
  truncate_vertex pow2_scale clear_bits m tf_ uv v
  = apply_writes (vertex_writes uv v) uv.
Proof.
  intros Hr. unfold truncate_vertex, vertex_writes.
  destruct (cvih m v) as [| heh rest]; [reflexivity |].
  inversion Hr as [| h0 r0 [Hh Hlen] _]; subst.
  cbv zeta. rewrite propagate_as_writes.
  set (max_v := vertex_scale pow2_scale m tf_ uv v).
  rewrite (uv_at_set_ne uv (2 * heh) (2 * heh + 1)) by lia.
  set (c0 := clear_bits max_v (uv_at uv (2 * heh))).
  set (c1 := clear_bits max_v (uv_at uv (2 * heh + 1))).
  change (uv_set (uv_set uv (2 * heh) c0) (2 * heh + 1) c1)
    with (uv_set_point uv heh (c0, c1)).
  rewrite (uv_point_set_point_eq uv heh (c0, c1)) by assumption.
  rewrite uv_set_point_twice by assumption.
  rewrite uv_point_set_point_eq by assumption.
  reflexivity.
Qed.

Lemma vertex_writes_handles (P : HEH -> Prop) (uv : list Q) (v : VH) :
  Forall P (cvih m v) ->
  Forall (fun w => P (fst w)) (vertex_writes uv v).
Proof.
  unfold vertex_writes. destruct (cvih m v) as [| heh rest]; [constructor |].
  intros Hall. apply Forall_cons in Hall. destruct Hall as [Hh Hrest].
  constructor; [exact Hh |]. now apply propagate_writes_handles.
Qed.

Lemma length_truncate_vertex (uv : list Q) (v : VH) :
  Forall (in_range (length uv)) (cvih m v) ->
  length (truncate_vertex pow2_scale clear_bits m tf_ uv v) = length uv.
Proof.
  intros Hr. rewrite truncate_vertex_as_writes by assumption.
  apply length_apply_writes.
Qed.

(** The body of the vertex loop for [w] leaves the halfedges that do not
    come into [w] alone. *)
Lemma truncate_vertex_frame (uv : list Q) (w : VH) (h : HEH) :
  Forall (in_range (length uv)) (cvih m w) ->
  0 <= h -> h ∉ cvih m w ->
  uv_point (truncate_vertex pow2_scale clear_bits m tf_ uv w) h
  = uv_point uv h.
Proof.
  intros Hr Hh Hnot. rewrite truncate_vertex_as_writes by assumption.
  apply apply_writes_frame; [exact Hh |].
  apply (vertex_writes_handles (fun h' => 0 <= h' /\ h' <> h)).
  apply Forall_forall. intros h' Hin.
  rewrite Forall_forall in Hr. split; [apply (Hr h' Hin) |].
  intros ->. now apply Hnot.
Qed.

(** The coordinates around [v] are what the loop body would write from the
    anchor as it stands. *)
Definition consistent_at (uv : list Q) (v : VH) : Prop :=
  match cvih m v with
  | [] => True
  | heh :: rest =>
      let p := fix_irregular (is_boundary_v m v) (transition_v m tf_ v)
                             (uv_point uv heh) in
      Forall (fun w => uv_point uv (fst w) = snd w)
             ((heh, p) :: propagate_writes rest p)
  end.

(** Adding and subtracting the scale of [v] leaves its anchor as it is. *)
Definition anchor_stable (uv : list Q) (v : VH) : Prop :=
  match cvih m v with
  | [] => True
  | heh :: _ =>
      let max_v := vertex_scale pow2_scale m tf_ uv v in
      clear_bits max_v (uv_at uv (2 * heh)) = uv_at uv (2 * heh) /\
      clear_bits max_v (uv_at uv (2 * heh + 1)) = uv_at uv (2 * heh + 1)
  end.

Lemma truncate_vertex_stable (uv : list Q) (v : VH) :
  Forall (in_range (length uv)) (cvih m v) ->
  consistent_at uv v -> anchor_stable uv v ->
  truncate_vertex pow2_scale clear_bits m tf_ uv v = uv.
Proof.
  intros Hr Hc Hs. rewrite truncate_vertex_as_writes by assumption.
  apply apply_writes_fixed. apply Forall_and. split.
  - now apply (vertex_writes_handles (in_range (length uv))).
  - unfold vertex_writes, consistent_at, anchor_stable, anchor_value in *.
    destruct (cvih m v) as [| heh rest]; [constructor |].
    cbv zeta in *. destruct Hs as [-> ->]. exact Hc.
Qed.

Lemma truncate_vertex_consistent (uv : list Q) (v : VH) :
  Forall (in_range (length uv)) (cvih m v) ->
  NoDup (cvih m v) ->
  consistent_at (truncate_vertex pow2_scale clear_bits m tf_ uv v) v.
Proof.
  intros Hr Hnd. rewrite truncate_vertex_as_writes by assumption.
  pose proof (apply_writes_read (vertex_writes uv v) uv) as Hread.
  pose proof (vertex_writes_handles (in_range (length uv)) uv v Hr) as Hin.
  unfold vertex_writes, consistent_at in *.
  destruct (cvih m v) as [| heh rest]; [exact I |].
  cbv zeta.
  assert (Hnd' : NoDup (map fst ((heh, anchor_value uv v heh)
                    :: propagate_writes rest (anchor_value uv v heh)))).
  { eapply sublist_NoDup; [exact Hnd |].
    cbn [map fst]. apply sublist_skip. apply propagate_writes_sublist. }
  specialize (Hread Hnd' Hin).
  pose proof Hread as Hhead. apply Forall_cons in Hhead.
  destruct Hhead as [Hhead _]. cbn [fst snd] in Hhead.
  assert (Hfix : fix_irregular (is_boundary_v m v) (transition_v m tf_ v)
                                (anchor_value uv v heh)
                  = anchor_value uv v heh)
    by (unfold anchor_value; apply fix_irregular_idempotent).
  rewrite Hhead, Hfix. exact Hread.
Qed.

Lemma consistent_at_frame (uv uv' : list Q) (v : VH) :
  Forall (fun h => uv_point uv' h = uv_point uv h) (cvih m v) ->
  consistent_at uv v -> consistent_at uv' v.
Proof.
  intros Hsame. unfold consistent_at.
  destruct (cvih m v) as [| heh rest] eqn:Hc; [trivial |].
  cbv zeta. intros Hcons.
  pose proof Hsame as Hhead. apply Forall_cons in Hhead.
  destruct Hhead as [Hhead Hrest]. rewrite Hhead.
  set (p := fix_irregular (is_boundary_v m v) (transition_v m tf_ v)
                          (uv_point uv heh)) in *.
  assert (Hw : Forall (fun w => uv_point uv' (fst w) = uv_point uv (fst w))
                      ((heh, p) :: propagate_writes rest p)).
  { constructor; [exact Hhead |].
    now apply (propagate_writes_handles
                 (fun h => uv_point uv' h = uv_point uv h)). }
  rewrite Forall_forall in Hw, Hcons. apply Forall_forall. intros w Hin.
  rewrite (Hw w Hin). now apply Hcons.
Qed.

(** The incoming halfedges of the vertices [vs], vertex by vertex. *)
Fixpoint all_incoming (vs : list VH) : list HEH :=
  match vs with
  | [] => []
  | v :: vs' => cvih m v ++ all_incoming vs'
  end.

Lemma all_incoming_elem (vs : list VH) (v : VH) (h : HEH) :
  v ∈ vs -> h ∈ cvih m v -> h ∈ all_incoming vs.
Proof.
  induction vs as [| v' vs IH]; intros Hv Hh; [inversion Hv |].
  cbn [all_incoming]. apply elem_of_app.
  apply elem_of_cons in Hv. destruct Hv as [-> | Hv]; [now left |].
  right. now apply IH.
Qed.

Lemma all_incoming_Forall (P : HEH -> Prop) (vs : list VH) (v : VH) :
  Forall P (all_incoming vs) -> v ∈ vs -> Forall P (cvih m v).
Proof.
  intros Hall Hv. apply Forall_forall. intros h Hh.
  rewrite Forall_forall in Hall. apply Hall.
  now apply (all_incoming_elem vs v).
Qed.

(** The loop over the vertices [vs]. *)
Definition truncate_vertices (vs : list VH) (uv : list Q) : list Q :=
  fold_left (truncate_vertex pow2_scale clear_bits m tf_) vs uv.

Lemma length_truncate_vertices (vs : list VH) :
  forall uv,
    Forall (in_range (length uv)) (all_incoming vs) ->
    length (truncate_vertices vs uv) = length uv.
Proof.
  induction vs as [| v vs IH]; intros uv Hr; [reflexivity |].
  cbn [all_incoming] in Hr. apply Forall_app in Hr. destruct Hr as [Hv Hvs].
  cbn [truncate_vertices fold_left]. fold (truncate_vertices vs).
  rewrite IH; rewrite length_truncate_vertex by assumption;
    [reflexivity | assumption].
Qed.

Lemma truncate_vertices_frame (vs : list VH) (h : HEH) :
  0 <= h -> h ∉ all_incoming vs ->
  forall uv,
    Forall (in_range (length uv)) (all_incoming vs) ->
    uv_point (truncate_vertices vs uv) h = uv_point uv h.
Proof.
  intros Hh. induction vs as [| v vs IH]; intros Hnot uv Hr; [reflexivity |].
  cbn [all_incoming] in Hr, Hnot.
  apply Forall_app in Hr. destruct Hr as [Hv Hvs].
  rewrite elem_of_app in Hnot.
  cbn [truncate_vertices fold_left]. fold (truncate_vertices vs).
  rewrite IH.
  - apply truncate_vertex_frame; [assumption | assumption | tauto].
  - tauto.
  - now rewrite length_truncate_vertex.
Qed.

(** After the loop over the vertices, the coordinates around every vertex
    are what its loop body would write again. *)
Lemma truncate_vertices_consistent (vs : list VH) :
  forall uv,
    NoDup (all_incoming vs) ->
    Forall (in_range (length uv)) (all_incoming vs) ->
    Forall (consistent_at (truncate_vertices vs uv)) vs.
Proof.
  induction vs as [| v vs IH]; intros uv Hnd Hr; [constructor |].
  cbn [all_incoming] in Hr, Hnd.
  apply Forall_app in Hr. destruct Hr as [Hv Hvs].
  apply NoDup_app in Hnd. destruct Hnd as (Hndv & Hdisj & Hndvs).
  cbn [truncate_vertices fold_left]. fold (truncate_vertices vs).
  set (uv1 := truncate_vertex pow2_scale clear_bits m tf_ uv v).
  assert (Hlen : length uv1 = length uv)
    by (now apply length_truncate_vertex).
  constructor.
  - apply (consistent_at_frame uv1).
    + apply Forall_forall. intros h Hh.
      rewrite Forall_forall in Hv. destruct (Hv h Hh) as [Hh0 _].
      apply truncate_vertices_frame;
        [exact Hh0 | now apply Hdisj | now rewrite Hlen].
    + now apply truncate_vertex_consistent.
  - apply IH; [exact Hndvs | now rewrite Hlen].
Qed.

Lemma truncate_vertices_fixed (vs : list VH) (uv : list Q) :
  Forall (fun v => truncate_vertex pow2_scale clear_bits m tf_ uv v = uv) vs ->
  truncate_vertices vs uv = uv.
Proof.
  induction 1 as [| v vs Hv _ IH]; [reflexivity |].
  cbn [truncate_vertices fold_left]. fold (truncate_vertices vs).
  now rewrite Hv.
Qed.

End TruncationTwice.

Lemma length_snap_axis (uv : list Q) (heh0 heh1 : HEH) (i : Z) :
  length (snap_axis uv heh0 heh1 i) = length uv.
Proof.
  unfold snap_axis. repeat destruct (Qlt_le_dec _ _); try reflexivity.
  now rewrite !length_uv_set.
Qed.

Lemma length_boundary_snap (m : TriMesh) (uv : list Q) :
  length (boundary_snap m uv) = length uv.
Proof.
  unfold boundary_snap. destruct (has_edge_status m); [| reflexivity].
  generalize (mesh_edges m). intros es. revert uv.
  induction es as [| e es IH]; intros uv; [reflexivity |].
  cbn [fold_left]. rewrite IH. unfold snap_edge.
  destruct (is_boundary_e m e); [| reflexivity].
  destruct (edge_selected m e || edge_feature m e); [| reflexivity].
  now rewrite !length_snap_axis.
Qed.

(** *** Claim C9 *)

(** **** The two rounding places, as binary64 computes them *)

(** The [double] nearest to the integer [z] (exact below [2^53]). *)
Definition Z_to_double (z : Z) : PrimFloat.float :=
  match z with
  | Z0 => PrimFloat.zero
  | Zpos _ => PrimFloat.of_uint63 (Uint63.of_Z z)
  | Zneg q => PrimFloat.opp (PrimFloat.of_uint63 (Uint63.of_Z (Zpos q)))
  end.

(** The [double] of a rational whose numerator and denominator are below
    [2^53]: the correctly rounded quotient, which is the rational itself
    when that is a [double]. *)
Definition Q_to_double (x : Q) : PrimFloat.float :=
  PrimFloat.div (Z_to_double (Qnum x)) (Z_to_double (Zpos (Qden x))).

(** The rational value of a finite [double], in lowest terms. *)
Definition double_to_Q (f : PrimFloat.float) : Q :=
  match FloatOps.Prim2SF f with
  | SpecFloat.S754_finite sgn mnt e =>
      let n := if sgn then Zneg mnt else Zpos mnt in
      Qred (if 0 <=? e then inject_Z (n * 2 ^ e)
            else n # (2 ^ Z.to_pos (- e)))
  | _ => 0%Q
  end.

(** [x += s; x -= s;] on [double]s, in round-to-nearest-even. *)
Definition ieee_clear_bits (s x : Q) : Q :=
  double_to_Q (PrimFloat.sub (PrimFloat.add (Q_to_double x) (Q_to_double s))
                             (Q_to_double s)).

(** The real number [2^(ceil(log2 x) + 1)] for [x >= 1], which
    [pow(2.0, std::ceil(log(x) / log(2.0)) + 1)] computes unless [x] is
    within the rounding error of [log] of a power of two. *)
Definition pow2_exact (x : Q) : Q :=
  inject_Z (2 ^ (Z.log2_up (Qceiling x) + 1)).

(** **** A square of two triangles

    Vertices [0..3]; faces [0 = (0,1,2)] and [1 = (0,2,3)]; edge [e] has the
    halfedges [2e] and [2e+1]: [0: 0->1], [2: 1->2], [4: 2->0] around face
    [0], [5: 0->2], [6: 2->3], [8: 3->0] around face [1], and the boundary
    halfedges [1: 1->0], [3: 2->1], [7: 3->2], [9: 0->3].  Only edge [2] is
    interior.  The incoming halfedges of a vertex start, as in OpenMesh,
    with the opposite of its outgoing boundary halfedge. *)
Definition square_mesh : TriMesh :=
  {| mesh_edges := [0; 1; 2; 3; 4];
     mesh_vertices := [0; 1; 2; 3];
     mesh_faces := [0; 1];
     has_edge_status := false;
     edge_selected := fun _ => false;
     edge_feature := fun _ => false;
     is_boundary_e := fun e => negb (e =? 2);
     is_boundary_h := fun h => (h =? 1) || (h =? 3) || (h =? 7) || (h =? 9);
     is_boundary_v := fun _ => true;
     halfedge_handle_e := fun e i => 2 * e + i;
     halfedge_handle_f := fun f => if f =? 0 then 0 else 5;
     halfedge_handle_v := fun v => nth (Z.to_nat v) [9; 1; 3; 7] (-1);
     opposite_halfedge_handle := fun h => if Z.even h then h + 1 else h - 1;
     next_halfedge_handle :=
       fun h => nth (Z.to_nat h) [2; 9; 4; 1; 0; 6; 8; 3; 5; 7] (-1);
     prev_halfedge_handle :=
       fun h => nth (Z.to_nat h) [4; 3; 0; 7; 2; 8; 5; 9; 6; 1] (-1);
     to_vertex_handle :=
       fun h => nth (Z.to_nat h) [1; 0; 2; 1; 0; 2; 3; 2; 0; 3] (-1);
     face_handle :=
       fun h => nth (Z.to_nat h) [0; -1; 0; -1; 0; 1; 1; -1; 1; -1] (-1);
     edge_handle := fun h => h / 2;
     cvih := fun v => nth (Z.to_nat v) [[8; 4; 1]; [0; 3]; [2; 5; 7]; [6; 9]] []
  |}.

(** The table of the square: crossing edge [2] from face [0] to face [1]
    subtracts [12] from [u]. *)
Definition square_tf : list TF.t :=
  [TF.mk 0 0 0; TF.mk 0 0 0; TF.mk 0 (-12) 0; TF.mk 0 0 0; TF.mk 0 0 0].

(** The table is the one that [extract_transition_functions] builds from
    the coordinates below: on edge [2] the rotation is [0] and the
    translation is [ROUND_QME] of [r0 - l0], the difference of the two
    copies of vertex [0]. *)
Example square_tf_extracted :
  extract_transition_functions
    [mkEdgeInput true 0 (fun _ => (0, 0));
     mkEdgeInput true 0 (fun _ => (0, 0));
     mkEdgeInput false 0
       (fun _ => (ROUND_QME ((510173395288065 # 70368744177664) - (151 # 8)),
                  ROUND_QME (0 - 0)));
     mkEdgeInput true 0 (fun _ => (0, 0));
     mkEdgeInput true 0 (fun _ => (0, 0))]
  = square_tf.
Proof. reflexivity. Qed.

(** Coordinates for the square with [x] as the [u] of vertex [0] in face
    [1] (the anchor of vertex [0]).  Vertex [0] is at [u = 18.875] in face
    [0], vertex [2] at [(20, 1)] in face [0] and [(8, 1)] in face [1]. *)
Definition square_uv (x : Q) : list Q :=
  [39 # 2; -1;  0; 0;  20; 1;  0; 0;  151 # 8; 0;
   8; 1;  7; 1;  0; 0;  x; 0;  0; 0]%Q.

(** [7.25 + 2^-46] *)
Definition noisy_anchor : Q := 510173395288065 # 70368744177664.

(** The anchor of vertex [0] survives the first run, in which the scale of
    vertex [0] is [64]; the first run moves vertex [0] in face [0] to
    [19.25 + 2^-46], the scale of the second run is [128], and the second
    run rounds the anchor to [7.25]. *)
Lemma consistent_truncation_not_idempotent :
  ~ Forall2 Qeq
      (consistent_truncation pow2_exact ieee_clear_bits square_mesh square_tf
         (consistent_truncation pow2_exact ieee_clear_bits square_mesh
                                square_tf (square_uv noisy_anchor)))
      (consistent_truncation pow2_exact ieee_clear_bits square_mesh square_tf
                             (square_uv noisy_anchor)).
Proof.
  intros H.
  apply (Forall2_lookup_lr _ _ _ 16%nat (29 # 4)%Q noisy_anchor) in H.
  - vm_compute in H. discriminate H.
  - vm_compute. reflexivity.
  - vm_compute. reflexivity.
Qed.

(** C9, as the code has it.  A second run of [consistent_truncation]
    returns its input, the output of the first run, provided the second run
    finds nothing to round there: its boundary snap changes nothing, and
    for every vertex adding and subtracting the scale, which the second run
    computes from the coordinates that the first run propagated, leaves the
    anchor unchanged.  The incoming halfedges of the vertices are taken to
    be distinct and inside the vector.  (Without the proviso the claim
    fails in binary64, as on the square above.) *)
Theorem consistent_truncation_twice
        (pow2_scale : Q -> Q) (clear_bits : Q -> Q -> Q)
        (m : TriMesh) (tf_ : list TF.t) (uv : list Q) :
  NoDup (all_incoming m (mesh_vertices m)) ->
  Forall (in_range (length uv)) (all_incoming m (mesh_vertices m)) ->
  boundary_snap m (consistent_truncation pow2_scale clear_bits m tf_ uv)
  = consistent_truncation pow2_scale clear_bits m tf_ uv ->
  Forall (anchor_stable pow2_scale clear_bits m tf_
            (consistent_truncation pow2_scale clear_bits m tf_ uv))
         (mesh_vertices m) ->
  consistent_truncation pow2_scale clear_bits m tf_
    (consistent_truncation pow2_scale clear_bits m tf_ uv)
  = consistent_truncation pow2_scale clear_bits m tf_ uv.
Proof.
  intros Hnd Hr Hsnap Hstable.
  set (uv1 := consistent_truncation pow2_scale clear_bits m tf_ uv) in *.
  assert (Hr0 : Forall (in_range (length (boundary_snap m uv)))
                       (all_incoming m (mesh_vertices m)))
    by (now rewrite length_boundary_snap).
  assert (Hlen : length uv1 = length uv).
  { subst uv1. unfold consistent_truncation.
    fold (truncate_vertices pow2_scale clear_bits m tf_ (mesh_vertices m)
                            (boundary_snap m uv)).
    rewrite length_truncate_vertices by exact Hr0.
    apply length_boundary_snap. }
  assert (Hcons : Forall (consistent_at m tf_ uv1) (mesh_vertices m)).
  { subst uv1. unfold consistent_truncation.
    apply (truncate_vertices_consistent pow2_scale clear_bits m tf_);
      assumption. }
  unfold consistent_truncation at 1. rewrite Hsnap.
  apply (truncate_vertices_fixed pow2_scale clear_bits m tf_).
  apply Forall_forall. intros v Hv.
  rewrite Forall_forall in Hcons, Hstable.
  apply truncate_vertex_stable.
  - rewrite Hlen. now apply (all_incoming_Forall m _ (mesh_vertices m)).
  - now apply Hcons.
  - now apply Hstable.
Qed.

(** On the square, with the anchor of vertex [0] at [7.25], the second run
    has nothing to round. *)
Lemma consistent_truncation_twice_witness :
  consistent_truncation pow2_exact ieee_clear_bits square_mesh square_tf
    (consistent_truncation pow2_exact ieee_clear_bits square_mesh square_tf
                           (square_uv (29 # 4)))
  = consistent_truncation pow2_exact ieee_clear_bits square_mesh square_tf
                          (square_uv (29 # 4)).
Proof.
  apply consistent_truncation_twice.
  - apply (bool_decide_unpack _). vm_compute. exact I.
  - repeat constructor; vm_compute; congruence.
  - reflexivity.
  - repeat constructor; vm_compute; reflexivity.
Defined.

(** ** The boundary snap in the result of [consistent_truncation] *)



Section SnapSurvives.

Variable pow2_scale : Q -> Q.
Variable clear_bits : Q -> Q -> Q.
Variable m : TriMesh.
Variable tf_ : list TF.t.







End SnapSurvives.

(** *** Claim C6 *)






(** The mesh [m] with edge status, and the edges [selected] flagged
    selected. *)
Definition select_edges (m : TriMesh) (selected : EH -> bool) : TriMesh :=
  {| mesh_edges := mesh_edges m;
     mesh_vertices := mesh_vertices m;
     mesh_faces := mesh_faces m;
     has_edge_status := true;
     edge_selected := selected;
     edge_feature := edge_feature m;
     is_boundary_e := is_boundary_e m;
     is_boundary_h := is_boundary_h m;
     is_boundary_v := is_boundary_v m;
     halfedge_handle_e := halfedge_handle_e m;
     halfedge_handle_f := halfedge_handle_f m;
     halfedge_handle_v := halfedge_handle_v m;
     opposite_halfedge_handle := opposite_halfedge_handle m;
     next_halfedge_handle := next_halfedge_handle m;
     prev_halfedge_handle := prev_halfedge_handle m;
     to_vertex_handle := to_vertex_handle m;
     face_handle := face_handle m;
     edge_handle := edge_handle m;
     cvih := cvih m |}.

(** [3.0002] as a [double]: [2e-4] above [3], up to rounding. *)
Definition double_3_0002 : Q := 6755849801018481 # 2251799813685248.

(** Coordinates for the square.  On the boundary edge [4], with halfedges
    [8] (the first incoming halfedge of vertex [0]) and [9] (a boundary
    halfedge into vertex [3]), the [u] are [7 + 2^-15] and [7 - 2^-14], and
    the [v] are [3.0002] and [3]. *)
Definition snap_uv : list Q :=
  [39 # 2; -1;  0; 0;  20; 1;  0; 0;  19; 3;
   8; 1;  7; 1;  0; 0;  229377 # 32768; double_3_0002;  114687 # 16384; 3]%Q.


(** The same run, evaluated: the snap loop changes the two [u] of edge [4]
    only, and the loop over the vertices then rounds the [v] of halfedge
    [8] at the scale [64] of vertex [0]. *)
Example boundary_snap_square_run :
  let m := select_edges square_mesh (fun e => e =? 4) in
  boundary_snap m snap_uv
  = [39 # 2; -1;  0; 0;  20; 1;  0; 0;  19; 3;
     8; 1;  7; 1;  0; 0;  7; double_3_0002;  7; 3]%Q /\
  uv_point (consistent_truncation pow2_exact ieee_clear_bits m square_tf
                                  snap_uv) 8
  = (7, 52780076570457 # 17592186044416)%Q.
Proof. vm_compute. split; reflexivity. Qed.

(** ** The rounding macro *)

Lemma ROUND_QME_nonneg (x : Q) :
  (0 <= x)%Q -> ROUND_QME x = Qfloor (x + (1 # 2)).
Proof.
  intros Hx. unfold ROUND_QME, Qtrunc.
  destruct (Qlt_le_dec x 0) as [Hlt | _]; [lra |].
  destruct (Qlt_le_dec (x + (1 # 2)) 0) as [Hlt | _]; [lra | reflexivity].
Qed.

Lemma ROUND_QME_neg (x : Q) :
  (x < 0)%Q -> ROUND_QME x = Qceiling (x - (1 # 2)).
Proof.
  intros Hx. unfold ROUND_QME, Qtrunc.
  destruct (Qlt_le_dec x 0) as [_ | Hle]; [| lra].
  destruct (Qlt_le_dec (x - (1 # 2)) 0) as [_ | Hle]; [reflexivity | lra].
Qed.

Lemma ROUND_QME_bounds (x : Q) :
  (x - (1 # 2) <= inject_Z (ROUND_QME x) <= x + (1 # 2))%Q.
Proof.
  destruct (Qlt_le_dec x 0) as [Hlt | Hle].
  - rewrite (ROUND_QME_neg x Hlt).
    pose proof (Qle_ceiling (x - (1 # 2))) as H1.
    pose proof (Qceiling_lt (x - (1 # 2))) as H2.
    unfold Z.sub in H2. rewrite inject_Z_plus, inject_Z_opp in H2.
    change (inject_Z 1) with 1%Q in H2.
    split; lra.
  - rewrite (ROUND_QME_nonneg x Hle).
    pose proof (Qfloor_le (x + (1 # 2))) as H1.
    pose proof (Qlt_floor (x + (1 # 2))) as H2.
    rewrite inject_Z_plus in H2. change (inject_Z 1) with 1%Q in H2.
    split; lra.
Qed.

Lemma ROUND_QME_opp (x : Q) : ROUND_QME (- x) = - ROUND_QME x.
Proof.
  destruct (Qlt_le_dec x 0) as [Hlt | Hle].
  - rewrite (ROUND_QME_neg x Hlt), (ROUND_QME_nonneg (- x)) by lra.
    unfold Qceiling. rewrite Z.opp_involutive.
    apply Qfloor_comp. lra.
  - destruct (Qlt_le_dec 0 x) as [Hpos | Hzero].
    + rewrite (ROUND_QME_nonneg x Hle), (ROUND_QME_neg (- x)) by lra.
      unfold Qceiling. f_equal. apply Qfloor_comp. lra.
    + assert (Hx : (x == 0)%Q) by lra.
      rewrite (ROUND_QME_near x 0), (ROUND_QME_near (- x) 0); [reflexivity | |].
      * apply Qabs_Qlt_condition. change (inject_Z 0) with 0%Q. split; lra.
      * apply Qabs_Qlt_condition. change (inject_Z 0) with 0%Q. split; lra.
Qed.

Lemma ROUND_QME_monotone (x y : Q) :
  (x <= y)%Q -> ROUND_QME x <= ROUND_QME y.
Proof.
  intros Hxy.
  destruct (Qlt_le_dec x 0) as [Hx | Hx], (Qlt_le_dec y 0) as [Hy | Hy].
  - rewrite (ROUND_QME_neg x Hx), (ROUND_QME_neg y Hy).
    apply Qceiling_resp_le. lra.
  - rewrite (ROUND_QME_neg x Hx), (ROUND_QME_nonneg y Hy).
    transitivity 0.
    + change 0 with (Qceiling 0). apply Qceiling_resp_le. lra.
    + change 0 with (Qfloor 0). apply Qfloor_resp_le. lra.
  - lra.
  - rewrite (ROUND_QME_nonneg x Hx), (ROUND_QME_nonneg y Hy).
    apply Qfloor_resp_le. lra.
Qed.

(** X1.  [ROUND_QME] is a rounding that is symmetric about zero and sends
    half-way cases away from zero: negating the argument negates the
    result, the result grows with the argument, an argument is left in
    place exactly when it is an integer, and [k + 1/2] goes to [k + 1] for
    [k >= 0] and to [k] for [k < 0].  (Arguments are within the range of
    [int], as everywhere in the source.) *)
Theorem ROUND_QME_symmetric_rounding (x : Q) :
  ROUND_QME (- x) = - ROUND_QME x /\
  (forall y : Q, (x <= y)%Q -> ROUND_QME x <= ROUND_QME y) /\
  ((x == inject_Z (ROUND_QME x))%Q <-> exists k : Z, (x == inject_Z k)%Q) /\
  (forall k : Z,
      (x == inject_Z k + (1 # 2))%Q ->
      ROUND_QME x = if k <? 0 then k else k + 1).
Proof.
  split; [| split; [| split]].
  - apply ROUND_QME_opp.
  - intros y. apply ROUND_QME_monotone.
  - split.
    + intros Hx. now exists (ROUND_QME x).
    + intros [k Hk]. rewrite (ROUND_QME_near x k); [exact Hk |].
      apply Qabs_Qlt_condition. split; lra.
  - intros k Hk. destruct (k <? 0) eqn:Hneg.
    + apply Z.ltb_lt in Hneg.
      assert (Hle : (inject_Z k <= inject_Z (-1))%Q)
        by (rewrite <- Zle_Qle; lia).
      change (inject_Z (-1)) with (-1)%Q in Hle.
      rewrite (ROUND_QME_neg x) by lra.
      assert (E : (x - (1 # 2) == inject_Z k)%Q) by lra.
      rewrite (Qceiling_comp _ _ E). apply Qceiling_Z.
    + apply Z.ltb_ge in Hneg.
      assert (Hle : (inject_Z 0 <= inject_Z k)%Q)
        by (rewrite <- Zle_Qle; lia).
      change (inject_Z 0) with 0%Q in Hle.
      rewrite (ROUND_QME_nonneg x) by lra.
      assert (E : (x + (1 # 2) == inject_Z (k + 1))%Q).
      { rewrite inject_Z_plus. change (inject_Z 1) with 1%Q. lra. }
      rewrite (Qfloor_comp _ _ E). apply Qfloor_Z.
Qed.

(** ** [getParametrizationStats] *)

(** The five counters of [getParametrizationStats]. *)
Record ParametrizationStats : Type := mkStats {
  faces_needle : Z;
  faces_cap : Z;
  faces_degen_point : Z;
  faces_positive : Z;
  faces_negative : Z
}.

(** The body of the loop over the faces. *)
Definition count_face (m : TriMesh) (uv : list Q) (st : ParametrizationStats)
           (fh : FH) : ParametrizationStats :=
  let t := face_triangle m uv fh in
  let p0 := tri0 t in
  let p1 := tri1 t in
  let p2 := tri2 t in
  let ori := tri_orientation t in
  if negb (ORIENTATION_eqb ori ORI_ZERO) then
    if ORIENTATION_eqb ori ORI_POSITIVE then
      mkStats (faces_needle st) (faces_cap st) (faces_degen_point st)
              (faces_positive st + 1) (faces_negative st)
    else
      mkStats (faces_needle st) (faces_cap st) (faces_degen_point st)
              (faces_positive st) (faces_negative st + 1)
  else if Peqb p0 p1 && Peqb p1 p2 then
    mkStats (faces_needle st) (faces_cap st) (faces_degen_point st + 1)
            (faces_positive st) (faces_negative st)
  else if Peqb p0 p1 || Peqb p1 p2 || Peqb p2 p0 then
    mkStats (faces_needle st + 1) (faces_cap st) (faces_degen_point st)
            (faces_positive st) (faces_negative st)
  else
    mkStats (faces_needle st) (faces_cap st + 1) (faces_degen_point st)
            (faces_positive st) (faces_negative st).

(** [getParametrizationStats]: the coordinate vector as the call leaves it
    (it is passed by reference and truncated), and the counters that are
    printed.  [es], [pow2_scale] and [clear_bits] are the inputs of
    [extract_transition_functions] and [consistent_truncation]. *)
Definition getParametrizationStats (pow2_scale : Q -> Q)
           (clear_bits : Q -> Q -> Q) (m : TriMesh) (es : list EdgeInput)
           (uv : list Q) : list Q * ParametrizationStats :=
  let tf_ := extract_transition_functions es in
  let uv := consistent_truncation pow2_scale clear_bits m tf_ uv in
  (uv, fold_left (count_face m uv) (mesh_faces m) (mkStats 0 0 0 0 0)).

(** The number of faces of a list that pass a test. *)
Definition count_faces (P : FH -> bool) (fs : list FH) : Z :=
  Z.of_nat (length (filter (fun fh => P fh = true) fs)).

Lemma count_faces_nil (P : FH -> bool) : count_faces P [] = 0.
Proof. reflexivity. Qed.

Lemma count_faces_cons (P : FH -> bool) (fh : FH) (fs : list FH) :
  count_faces P (fh :: fs) = (if P fh then 1 else 0) + count_faces P fs.
Proof.
  unfold count_faces. destruct (P fh) eqn:E.
  - rewrite filter_cons_True by exact E. cbn [length]. lia.
  - rewrite filter_cons_False by (rewrite E; discriminate). lia.
Qed.

Lemma count_face_fold (m : TriMesh) (uv : list Q) (fs : list FH) :
  forall st : ParametrizationStats,
    let st' := fold_left (count_face m uv) fs st in
    let ori fh := triangleUvOrientation m uv fh in
    faces_positive st' =
      faces_positive st
      + count_faces (fun fh => ORIENTATION_eqb (ori fh) ORI_POSITIVE) fs /\
    faces_negative st' =
      faces_negative st
      + count_faces (fun fh => ORIENTATION_eqb (ori fh) ORI_NEGATIVE) fs /\
    faces_needle st' + faces_cap st' + faces_degen_point st' =
      faces_needle st + faces_cap st + faces_degen_point st
      + count_faces (fun fh => ORIENTATION_eqb (ori fh) ORI_ZERO) fs /\
    faces_degen_point st' =
      faces_degen_point st
      + count_faces
          (fun fh =>
             let t := face_triangle m uv fh in
             Peqb (tri0 t) (tri1 t) && Peqb (tri1 t) (tri2 t)) fs.
Proof.
  induction fs as [| fh fs IH]; intros st; cbn zeta.
  - cbn [fold_left]. rewrite !count_faces_nil. repeat split; lia.
  - cbn [fold_left]. rewrite !count_faces_cons.
    destruct (IH (count_face m uv st fh)) as (Hp & Hn & Hz & Hd).
    cbn zeta in Hp, Hn, Hz, Hd. rewrite Hp, Hn, Hz, Hd. clear IH Hp Hn Hz Hd.
    unfold count_face, triangleUvOrientation. cbv beta zeta.
    set (t := face_triangle m uv fh).
    assert (Hcol : Peqb (tri0 t) (tri1 t) && Peqb (tri1 t) (tri2 t) = true ->
                   tri_orientation t = ORI_ZERO).
    { intros Hc. apply andb_true_iff in Hc. destruct Hc as [H01 H12].
      unfold Peqb in H01, H12.
      apply andb_true_iff in H01. destruct H01 as [Hx1 Hy1].
      apply andb_true_iff in H12. destruct H12 as [Hx2 Hy2].
      apply Qeq_bool_iff in Hx1, Hy1, Hx2, Hy2.
      unfold tri_orientation, orient2d.
      apply sign_of_zero. unfold det3. nra. }
    destruct (Peqb (tri0 t) (tri1 t) && Peqb (tri1 t) (tri2 t)) eqn:Hpt.
    + rewrite (Hcol eq_refl). cbn. repeat split; lia.
    + destruct (Peqb (tri0 t) (tri1 t) || Peqb (tri1 t) (tri2 t)
                || Peqb (tri2 t) (tri0 t));
        destruct (tri_orientation t) eqn:Ho; cbn; repeat split; lia.
Qed.

(** X2.  The five counters of [getParametrizationStats] partition the
    faces: together they count every face once; "positive" and "negative"
    count the faces of that orientation in the truncated parametrization,
    the three others share the faces of zero orientation, and "points"
    counts the faces whose three corners coincide. *)
Theorem getParametrizationStats_partition (pow2_scale : Q -> Q)
        (clear_bits : Q -> Q -> Q) (m : TriMesh) (es : list EdgeInput)
        (uv : list Q) :
  let '(uv', st) := getParametrizationStats pow2_scale clear_bits m es uv in
  let ori fh := triangleUvOrientation m uv' fh in
  faces_positive st + faces_negative st + faces_needle st + faces_cap st
  + faces_degen_point st = Z.of_nat (length (mesh_faces m)) /\
  faces_positive st =
    count_faces (fun fh => ORIENTATION_eqb (ori fh) ORI_POSITIVE)
                (mesh_faces m) /\
  faces_negative st =
    count_faces (fun fh => ORIENTATION_eqb (ori fh) ORI_NEGATIVE)
                (mesh_faces m) /\
  faces_needle st + faces_cap st + faces_degen_point st =
    count_faces (fun fh => ORIENTATION_eqb (ori fh) ORI_ZERO) (mesh_faces m) /\
  faces_degen_point st =
    count_faces
      (fun fh =>
         let t := face_triangle m uv' fh in
         Peqb (tri0 t) (tri1 t) && Peqb (tri1 t) (tri2 t)) (mesh_faces m) /\
  uv' = consistent_truncation pow2_scale clear_bits m
                              (extract_transition_functions es) uv.
Proof.
  unfold getParametrizationStats.
  set (uv' := consistent_truncation _ _ _ _ _).
  destruct (count_face_fold m uv' (mesh_faces m) (mkStats 0 0 0 0 0))
    as (Hp & Hn & Hz & Hd).
  cbn zeta in Hp, Hn, Hz, Hd. cbn [faces_positive faces_negative faces_needle
    faces_cap faces_degen_point] in Hp, Hn, Hz, Hd.
  repeat split; try assumption; try lia.
  assert (Hall : forall fs : list FH,
    count_faces (fun fh => ORIENTATION_eqb (triangleUvOrientation m uv' fh)
                                           ORI_POSITIVE) fs
    + count_faces (fun fh => ORIENTATION_eqb (triangleUvOrientation m uv' fh)
                                             ORI_NEGATIVE) fs
    + count_faces (fun fh => ORIENTATION_eqb (triangleUvOrientation m uv' fh)
                                             ORI_ZERO) fs
    = Z.of_nat (length fs)).
  { induction fs as [| fh fs IH]; [reflexivity |].
    rewrite !count_faces_cons. cbn [length].
    destruct (triangleUvOrientation m uv' fh); cbn; lia. }
  specialize (Hall (mesh_faces m)). lia.
Qed.

(** ** Local edge construction at an edge *)

(** [a.dot(b)] and [a - b] on [Vector_2]. *)
Definition pdot (a b : Point_2) : Q := (fst a * fst b + snd a * snd b)%Q.
Definition psub (a b : Point_2) : Point_2 := (fst a - fst b, snd a - snd b)%Q.

(** [x > 0] on [double]. *)
Definition Qpositive (x : Q) : bool := if Qlt_le_dec 0 x then true else false.

(** [std::rotate(v.begin() + first, v.begin() + middle, v.end())] *)
Definition rotate_from {A : Type} (first middle : nat) (l : list A) : list A :=
  take first l ++ drop middle l ++ take (middle - first) (drop first l).

(** [std::reverse(v.begin() + first, v.end())] *)
Definition reverse_from {A : Type} (first : nat) (l : list A) : list A :=
  take first l ++ rev (drop first l).

(** The body of the loop "add directions of face one": the state is
    [_gv.local_edges] and [middleEl]. *)
Definition face_one_step (fh fh_opp : FH) (ori : ORIENTATION)
           (p0 p1 uv : Point_2) (st : list LocalEdgeInfo * nat)
           (direction : Point_2) : list LocalEdgeInfo * nat :=
  let '(les, middleEl) := st in
  let to_uv := padd uv direction in
  let path_ori := tri_orientation (mkTriangle p0 p1 to_uv) in
  if ORIENTATION_eqb path_ori ori then
    (les ++ [new_LEI fh uv to_uv], middleEl)
  else if ORIENTATION_eqb path_ori ORI_ZERO then
    if Qpositive (pdot direction (psub p1 p0)) || negb (is_valid fh_opp) then
      (les ++ [new_LEI fh uv to_uv], middleEl)
    else (les, length les)
  else (les, length les).

(** The block "add directions of face one". *)
Definition add_directions_face_one (fh fh_opp : FH) (ori : ORIENTATION)
           (p0 p1 uv : Point_2) (les : list LocalEdgeInfo)
  : list LocalEdgeInfo :=
  let '(les, middleEl) :=
    fold_left (face_one_step fh fh_opp ori p0 p1 uv)
              cartesian_orientations_ (les, O) in
  let les :=
    if negb (middleEl =? 0)%nat && (middleEl <? length les)%nat
    then rotate_from 0 middleEl les else les in
  match ori with
  | ORI_NEGATIVE => reverse_from 0 les
  | _ => les
  end.

(** The body of the loop "add directions of face two". *)
Definition face_two_step (fh_opp : FH) (ori_opp : ORIENTATION) (tf : TF.t)
           (p0 p1 uv uv_opp : Point_2) (st : list LocalEdgeInfo * nat)
           (direction : Point_2) : list LocalEdgeInfo * nat :=
  let '(les, middleEl) := st in
  let to_uv := TF.transform_point tf (padd uv direction) in
  let trans_direction := psub to_uv uv_opp in
  let path_ori := tri_orientation (mkTriangle p0 p1 to_uv) in
  if ORIENTATION_eqb path_ori ori_opp
     || (ORIENTATION_eqb path_ori ORI_ZERO
         && Qpositive (pdot trans_direction (psub p1 p0)))
  then (les ++ [new_LEI fh_opp uv_opp to_uv], middleEl)
  else (les, length les).

(** The block "add directions of face two", entered when [fh_opp] is
    valid. *)
Definition add_directions_face_two (fh_opp : FH) (ori_opp : ORIENTATION)
           (tf : TF.t) (p0 p1 uv uv_opp : Point_2) (les : list LocalEdgeInfo)
  : list LocalEdgeInfo :=
  let le_ofs := length les in
  let '(les, middleEl) :=
    fold_left (face_two_step fh_opp ori_opp tf p0 p1 uv uv_opp)
              cartesian_orientations_ (les, O) in
  let les :=
    if (le_ofs <? middleEl)%nat && (middleEl <? length les)%nat
    then rotate_from le_ofs middleEl les else les in
  match ori_opp with
  | ORI_NEGATIVE => reverse_from le_ofs les
  | _ => les
  end.

(** [construct_local_edge_information_edge] *)
Definition construct_local_edge_information_edge (m : TriMesh)
           (tf_ : list TF.t) (uv_coords : list Q) (gv : GridVertex)
  : GridVertex :=
  let gv := set_local_edges gv [] in
  if is_valid (gv_heh gv) && negb (is_boundary_h m (gv_heh gv)) then
    let heh := gv_heh gv in
    let heh_opp := opposite_halfedge_handle m heh in
    let gv :=
      if is_boundary_e m (edge_handle m heh) then set_is_boundary gv true
      else gv in
    let fh := face_handle m heh in
    let ori := triangleUvOrientation m uv_coords fh in
    let fh_opp :=
      if negb (is_boundary_h m heh_opp) then face_handle m heh_opp else -1 in
    let ori_opp :=
      if negb (is_boundary_h m heh_opp)
      then triangleUvOrientation m uv_coords fh_opp else ORI_ZERO in
    let uv := position_uv gv in
    let tf := transition_h m tf_ heh in
    let uv_opp := TF.transform_point tf uv in
    let les :=
      add_directions_face_one fh fh_opp ori
        (uv_point uv_coords (prev_halfedge_handle m heh))
        (uv_point uv_coords heh) uv (local_edges gv) in
    let les :=
      if is_valid fh_opp then
        add_directions_face_two fh_opp ori_opp tf
          (uv_point uv_coords (prev_halfedge_handle m heh_opp))
          (uv_point uv_coords heh_opp) uv uv_opp les
      else les in
    set_local_edges gv les
  else gv.


(** *** The shape of the local edges at an edge *)

(** The test that decides whether a direction of face one is kept. *)
Definition keep_one (fh_opp : FH) (ori : ORIENTATION) (p0 p1 uv : Point_2)
           (direction : Point_2) : bool :=
  let path_ori := tri_orientation (mkTriangle p0 p1 (padd uv direction)) in
  ORIENTATION_eqb path_ori ori
  || (ORIENTATION_eqb path_ori ORI_ZERO
      && (Qpositive (pdot direction (psub p1 p0)) || negb (is_valid fh_opp))).

(** The test that decides whether a direction of face two is kept. *)
Definition keep_two (ori_opp : ORIENTATION) (tf : TF.t)
           (p0 p1 uv uv_opp : Point_2) (direction : Point_2) : bool :=
  let to_uv := TF.transform_point tf (padd uv direction) in
  let path_ori := tri_orientation (mkTriangle p0 p1 to_uv) in
  ORIENTATION_eqb path_ori ori_opp
  || (ORIENTATION_eqb path_ori ORI_ZERO
      && Qpositive (pdot (psub to_uv uv_opp) (psub p1 p0))).

(** Both blocks are instances of one selection: keep the directions that
    pass a test, remember where the sequence was interrupted last, rotate
    and reverse what was appended. *)
Definition select_step (keep : Point_2 -> bool)
           (mk : Point_2 -> LocalEdgeInfo) (st : list LocalEdgeInfo * nat)
           (direction : Point_2) : list LocalEdgeInfo * nat :=
  if keep direction then (fst st ++ [mk direction], snd st)
  else (fst st, length (fst st)).

Definition select_directions (keep : Point_2 -> bool)
           (mk : Point_2 -> LocalEdgeInfo) (negative : bool)
           (les : list LocalEdgeInfo) : list LocalEdgeInfo :=
  let le_ofs := length les in
  let '(les, middleEl) :=
    fold_left (select_step keep mk) cartesian_orientations_ (les, O) in
  let les :=
    if (le_ofs <? middleEl)%nat && (middleEl <? length les)%nat
    then rotate_from le_ofs middleEl les else les in
  if negative then reverse_from le_ofs les else les.

Definition is_negative (ori : ORIENTATION) : bool :=
  ORIENTATION_eqb ori ORI_NEGATIVE.

Lemma face_one_step_select (fh fh_opp : FH) (ori : ORIENTATION)
      (p0 p1 uv : Point_2) (st : list LocalEdgeInfo * nat) (d : Point_2) :
  face_one_step fh fh_opp ori p0 p1 uv st d
  = select_step (keep_one fh_opp ori p0 p1 uv)
                (fun d => new_LEI fh uv (padd uv d)) st d.
Proof.
  destruct st as [les mid]. unfold face_one_step, select_step, keep_one.
  cbn [fst snd].
  destruct (ORIENTATION_eqb _ ori); [reflexivity |].
  destruct (ORIENTATION_eqb _ ORI_ZERO); [| reflexivity].
  cbn [orb andb]. now destruct (_ || _).
Qed.

Lemma face_two_step_select (fh_opp : FH) (ori_opp : ORIENTATION) (tf : TF.t)
      (p0 p1 uv uv_opp : Point_2) (st : list LocalEdgeInfo * nat)
      (d : Point_2) :
  face_two_step fh_opp ori_opp tf p0 p1 uv uv_opp st d
  = select_step (keep_two ori_opp tf p0 p1 uv uv_opp)
                (fun d => new_LEI fh_opp uv_opp
                                  (TF.transform_point tf (padd uv d))) st d.
Proof.
  destruct st as [les mid]. unfold face_two_step, select_step, keep_two.
  cbn [fst snd]. now destruct (_ || _).
Qed.

Lemma fold_left_ext_step {A B : Type} (f g : A -> B -> A) (l : list B) :
  (forall a b, f a b = g a b) ->
  forall a, fold_left f l a = fold_left g l a.
Proof.
  intros Hfg. induction l as [| b l IH]; intros a; [reflexivity |].
  cbn. rewrite Hfg. apply IH.
Qed.

Lemma add_directions_face_one_select (fh fh_opp : FH) (ori : ORIENTATION)
      (p0 p1 uv : Point_2) :
  add_directions_face_one fh fh_opp ori p0 p1 uv []
  = select_directions (keep_one fh_opp ori p0 p1 uv)
                      (fun d => new_LEI fh uv (padd uv d))
                      (is_negative ori) [].
Proof.
  unfold add_directions_face_one, select_directions.
  rewrite (fold_left_ext_step _ _ _ (face_one_step_select fh fh_opp ori p0 p1 uv)).
  destruct (fold_left _ _ _) as [les mid]. cbn [length].
  assert (Hz : ((0 <? mid)%nat = negb (mid =? 0)%nat)) by now destruct mid.
  rewrite Hz. unfold reverse_from. cbn [take drop app].
  now destruct ori.
Qed.

Lemma add_directions_face_two_select (fh_opp : FH) (ori_opp : ORIENTATION)
      (tf : TF.t) (p0 p1 uv uv_opp : Point_2) (les : list LocalEdgeInfo) :
  add_directions_face_two fh_opp ori_opp tf p0 p1 uv uv_opp les
  = select_directions (keep_two ori_opp tf p0 p1 uv uv_opp)
                      (fun d => new_LEI fh_opp uv_opp
                                        (TF.transform_point tf (padd uv d)))
                      (is_negative ori_opp) les.
Proof.
  unfold add_directions_face_two, select_directions.
  rewrite (fold_left_ext_step _ _ _
             (face_two_step_select fh_opp ori_opp tf p0 p1 uv uv_opp)).
  destruct (fold_left _ _ _) as [les' mid].
  now destruct ori_opp.
Qed.

(** What is appended does not depend on what the vector holds already. *)
Lemma select_fold_cons (keep : Point_2 -> bool)
      (mk : Point_2 -> LocalEdgeInfo) (x : LocalEdgeInfo)
      (ds : list Point_2) :
  forall (les : list LocalEdgeInfo) (mid mid' : nat),
    (mid' = S mid \/ (mid' = O /\ mid = O)) ->
    exists les1 mid1 mid1',
      fold_left (select_step keep mk) ds (les, mid) = (les1, mid1) /\
      fold_left (select_step keep mk) ds (x :: les, mid') = (x :: les1, mid1') /\
      (mid1' = S mid1 \/ (mid1' = O /\ mid1 = O)).
Proof.
  induction ds as [| d ds IH]; intros les mid mid' Hm.
  - exists les, mid, mid'. now repeat split.
  - cbn [fold_left]. unfold select_step at 2 4. cbn [fst snd].
    destruct (keep d).
    + apply (IH (les ++ [mk d]) mid mid' Hm).
    + apply (IH les (length les) (S (length les))). now left.
Qed.

Lemma select_directions_cons (keep : Point_2 -> bool)
      (mk : Point_2 -> LocalEdgeInfo) (negative : bool) (x : LocalEdgeInfo)
      (les : list LocalEdgeInfo) :
  select_directions keep mk negative (x :: les)
  = x :: select_directions keep mk negative les.
Proof.
  unfold select_directions.
  destruct (select_fold_cons keep mk x cartesian_orientations_ les O O)
    as (les1 & mid1 & mid1' & -> & -> & Hm); [now right |].
  cbn [length].
  destruct Hm as [-> | [-> ->]].
  - change (S (length les) <? S mid1)%nat with (length les <? mid1)%nat.
    change (S mid1 <? S (length les1))%nat with (mid1 <? length les1)%nat.
    unfold rotate_from, reverse_from. cbn [take drop app Nat.sub].
    destruct (_ && _), negative; reflexivity.
  - unfold reverse_from. cbn [take drop app]. 
    replace (length les <? 0)%nat with false
      by (symmetry; apply Nat.ltb_ge; lia).
    cbn [andb]. destruct negative; reflexivity.
Qed.

Lemma select_directions_app (keep : Point_2 -> bool)
      (mk : Point_2 -> LocalEdgeInfo) (negative : bool)
      (les : list LocalEdgeInfo) :
  select_directions keep mk negative les
  = les ++ select_directions keep mk negative [].
Proof.
  induction les as [| x les IH]; [reflexivity |].
  rewrite select_directions_cons, IH. reflexivity.
Qed.

(** The directions kept, given the outcome of the test for each of the
    four directions. *)
Definition kept_directions (b0 b1 b2 b3 : bool) : list Point_2 :=
  match b0, b1, b2, b3 with
  | true, false, false, true => [(0, -1); (1, 0)]
  | false, true, false, true => [(0, -1); (0, 1)]
  | true, true, false, true => [(0, -1); (1, 0); (0, 1)]
  | true, false, true, true => [(-1, 0); (0, -1); (1, 0)]
  | _, _, _, _ =>
      (if b0 then [(1, 0)] else []) ++ (if b1 then [(0, 1)] else [])
      ++ (if b2 then [(-1, 0)] else []) ++ (if b3 then [(0, -1)] else [])
  end%Q.

Lemma select_directions_kept (keep : Point_2 -> bool)
      (mk : Point_2 -> LocalEdgeInfo) (negative : bool) :
  select_directions keep mk negative []
  = map mk
        ((if negative then @rev Point_2 else id)
           (kept_directions (keep (1, 0)%Q) (keep (0, 1)%Q)
                            (keep (-1, 0)%Q) (keep (0, -1)%Q))).
Proof.
  unfold select_directions, cartesian_orientations_. cbn [fold_left length].
  unfold select_step. cbn [fst snd].
  destruct (keep (1, 0)%Q), (keep (0, 1)%Q), (keep (-1, 0)%Q),
    (keep (0, -1)%Q), negative; reflexivity.
Qed.


Lemma sign_of_comp (a b : Q) : (a == b)%Q -> sign_of a = sign_of b.
Proof.
  intros E. unfold sign_of.
  destruct (Qlt_le_dec 0 a), (Qlt_le_dec 0 b); try reflexivity; try lra.
  destruct (Qlt_le_dec a 0), (Qlt_le_dec b 0); try reflexivity; lra.
Qed.

Lemma Qpositive_true (x : Q) : (0 < x)%Q -> Qpositive x = true.
Proof. intros H. unfold Qpositive. destruct (Qlt_le_dec 0 x); [reflexivity | lra]. Qed.

Lemma Qpositive_false (x : Q) : (x <= 0)%Q -> Qpositive x = false.
Proof. intros H. unfold Qpositive. destruct (Qlt_le_dec 0 x); [lra | reflexivity]. Qed.

(** The outcome of the orientation test of a direction [d] at a point [uv]
    of the line through [p0] and [p1]: the sign of the cross product of
    the edge vector with [d]. *)
Lemma path_orientation_on_line (p0 p1 uv d : Point_2) :
  (det3 p0 p1 uv == 0)%Q ->
  tri_orientation (mkTriangle p0 p1 (padd uv d))
  = sign_of ((fst p1 - fst p0) * snd d - (snd p1 - snd p0) * fst d).
Proof.
  intros Hline. unfold tri_orientation, orient2d. cbn [tri0 tri1 tri2].
  apply sign_of_comp.
  assert (E : (det3 p0 p1 (padd uv d)
               == det3 p0 p1 uv
                  + ((fst p1 - fst p0) * snd d - (snd p1 - snd p0) * fst d))%Q)
    by (unfold det3, padd; cbn [fst snd]; ring).
  rewrite E, Hline. ring.
Qed.

(** [n] consecutive entries of [cartesian_orientations_], counter-clockwise
    from entry [s]. *)
Definition ccw_run (s n : nat) : list Point_2 :=
  take n (drop s (cartesian_orientations_ ++ cartesian_orientations_)).

(** The order in which a face of orientation [ori] lists them. *)
Definition oriented (ori : ORIENTATION) (ds : list Point_2) : list Point_2 :=
  match ori with ORI_NEGATIVE => rev ds | _ => ds end.

(** [p0] and [p1] agree in one coordinate. *)
Definition axis_parallel (p0 p1 : Point_2) : bool :=
  Qeq_bool (fst p0) (fst p1) || Qeq_bool (snd p0) (snd p1).

Ltac resolve_sign :=
  repeat match goal with
  | |- context [sign_of ?c] =>
      first [ rewrite (proj2 (sign_of_pos c)) by lra
            | rewrite (proj2 (sign_of_neg c)) by lra
            | rewrite (proj2 (sign_of_zero c)) by lra ]
  | |- context [Qpositive ?c] =>
      first [ rewrite (Qpositive_true c) by lra
            | rewrite (Qpositive_false c) by lra ]
  end.

Ltac resolve_Qeq_bool :=
  repeat match goal with
  | |- context [Qeq_bool ?a ?b] =>
      first [ rewrite (proj2 (Qeq_bool_iff a b)) by lra
            | replace (Qeq_bool a b) with false
                by (symmetry; apply not_true_is_false;
                    rewrite Qeq_bool_iff; lra) ]
  end.

Lemma add_directions_face_one_run (fh fh_opp : FH) (ori : ORIENTATION)
      (p0 p1 uv : Point_2) :
  (det3 p0 p1 uv == 0)%Q ->
  ~ Peq p0 p1 ->
  ori <> ORI_ZERO ->
  exists s : nat,
    (s < 4)%nat /\
    add_directions_face_one fh fh_opp ori p0 p1 uv []
    = map (fun d => new_LEI fh uv (padd uv d))
          (oriented ori
             (ccw_run s (if axis_parallel p0 p1 && negb (is_valid fh_opp)
                         then 3 else 2))).
Proof.
  intros Hline Hne Hori.
  rewrite add_directions_face_one_select, select_directions_kept.
  unfold keep_one. rewrite !(path_orientation_on_line p0 p1 uv _ Hline).
  unfold pdot, psub, axis_parallel. cbn [fst snd].
  assert (Hcases :
    ((fst p0 < fst p1)%Q \/ (fst p0 == fst p1)%Q \/ (fst p1 < fst p0)%Q) /\
    ((snd p0 < snd p1)%Q \/ (snd p0 == snd p1)%Q \/ (snd p1 < snd p0)%Q)).
  { split.
    - destruct (Q_dec (fst p0) (fst p1)) as [[H | H] | H]; auto.
    - destruct (Q_dec (snd p0) (snd p1)) as [[H | H] | H]; auto. }
  destruct Hcases as [[Hx | [Hx | Hx]] [Hy | [Hy | Hy]]];
    try (exfalso; apply Hne; split; assumption);
    resolve_sign; resolve_Qeq_bool;
    destruct ori; try congruence; destruct (is_valid fh_opp);
    cbn [ORIENTATION_eqb orb andb negb kept_directions is_negative app];
    unfold oriented, ccw_run, cartesian_orientations_;
    first [ exists 0%nat; split; [lia | reflexivity]
          | exists 1%nat; split; [lia | reflexivity]
          | exists 2%nat; split; [lia | reflexivity]
          | exists 3%nat; split; [lia | reflexivity] ].
Qed.


Lemma Qpositive_comp (a b : Q) : (a == b)%Q -> Qpositive a = Qpositive b.
Proof.
  intros E. unfold Qpositive.
  destruct (Qlt_le_dec 0 a), (Qlt_le_dec 0 b); try reflexivity; lra.
Qed.

(** A transition function moves the end of a direction by the rotated
    direction. *)
Lemma transform_point_padd (tf : TF.t) (uv d : Point_2) :
  Peq (TF.transform_point tf (padd uv d))
      (padd (TF.transform_point tf uv) (TF.rotQ (TF.r tf) d)).
Proof.
  destruct uv as [ux uy], d as [dx dy].
  unfold TF.transform_point, TF.rotQ, padd, Peq. cbn [fst snd].
  mod4 (TF.r tf); rewrite Hm; cbn [fst snd]; split; ring.
Qed.

Lemma det3_comp_r (a b p q : Point_2) :
  Peq p q -> (det3 a b p == det3 a b q)%Q.
Proof. intros [Hx Hy]. unfold det3. now rewrite Hx, Hy. Qed.

Lemma keep_two_on_line (ori_opp : ORIENTATION) (tf : TF.t)
      (p0 p1 uv d : Point_2) :
  (det3 p0 p1 (TF.transform_point tf uv) == 0)%Q ->
  keep_two ori_opp tf p0 p1 uv (TF.transform_point tf uv) d
  = let rd := TF.rotQ (TF.r tf) d in
    let c := ((fst p1 - fst p0) * snd rd - (snd p1 - snd p0) * fst rd)%Q in
    ORIENTATION_eqb (sign_of c) ori_opp
    || (ORIENTATION_eqb (sign_of c) ORI_ZERO
        && Qpositive (fst rd * (fst p1 - fst p0) + snd rd * (snd p1 - snd p0))).
Proof.
  intros Hline. unfold keep_two. cbv zeta.
  pose proof (transform_point_padd tf uv d) as Hp.
  set (to_uv := TF.transform_point tf (padd uv d)) in *.
  set (uv_opp := TF.transform_point tf uv) in *.
  set (rd := TF.rotQ (TF.r tf) d) in *.
  assert (Ho : tri_orientation (mkTriangle p0 p1 to_uv)
               = sign_of ((fst p1 - fst p0) * snd rd - (snd p1 - snd p0) * fst rd)).
  { rewrite <- (path_orientation_on_line p0 p1 uv_opp rd Hline).
    unfold tri_orientation, orient2d. cbn [tri0 tri1 tri2].
    apply sign_of_comp, det3_comp_r, Hp. }
  rewrite Ho.
  assert (Hd : Qpositive (pdot (psub to_uv uv_opp) (psub p1 p0))
               = Qpositive (fst rd * (fst p1 - fst p0)
                            + snd rd * (snd p1 - snd p0))).
  { apply Qpositive_comp. destruct Hp as [Hx Hy].
    unfold pdot, psub, padd in *. cbn [fst snd] in *. rewrite Hx, Hy. ring. }
  rewrite Hd. reflexivity.
Qed.

Lemma add_directions_face_two_run (fh_opp : FH) (ori_opp : ORIENTATION)
      (tf : TF.t) (p0 p1 uv : Point_2) (les : list LocalEdgeInfo) :
  (det3 p0 p1 (TF.transform_point tf uv) == 0)%Q ->
  ~ Peq p0 p1 ->
  ori_opp <> ORI_ZERO ->
  exists s : nat,
    (s < 4)%nat /\
    add_directions_face_two fh_opp ori_opp tf p0 p1 uv
                            (TF.transform_point tf uv) les
    = les ++ map (fun d => new_LEI fh_opp (TF.transform_point tf uv)
                                   (TF.transform_point tf (padd uv d)))
                 (oriented ori_opp (ccw_run s 2)).
Proof.
  intros Hline Hne Hori.
  rewrite add_directions_face_two_select, select_directions_app,
    select_directions_kept.
  rewrite !(keep_two_on_line ori_opp tf p0 p1 uv _ Hline).
  cbv zeta. unfold TF.rotQ.
  assert (Hcases :
    ((fst p0 < fst p1)%Q \/ (fst p0 == fst p1)%Q \/ (fst p1 < fst p0)%Q) /\
    ((snd p0 < snd p1)%Q \/ (snd p0 == snd p1)%Q \/ (snd p1 < snd p0)%Q)).
  { split.
    - destruct (Q_dec (fst p0) (fst p1)) as [[H | H] | H]; auto.
    - destruct (Q_dec (snd p0) (snd p1)) as [[H | H] | H]; auto. }
  mod4 (TF.r tf); rewrite Hm; cbn [fst snd];
  destruct Hcases as [[Hx | [Hx | Hx]] [Hy | [Hy | Hy]]];
    try (exfalso; apply Hne; split; assumption);
    resolve_sign;
    destruct ori_opp; try congruence;
    cbn [ORIENTATION_eqb orb andb negb kept_directions is_negative app];
    unfold oriented, ccw_run, cartesian_orientations_;
    first [ exists 0%nat; split; [lia | reflexivity]
          | exists 1%nat; split; [lia | reflexivity]
          | exists 2%nat; split; [lia | reflexivity]
          | exists 3%nat; split; [lia | reflexivity] ].
Qed.


Lemma length_ccw_run (s n : nat) :
  (s < 4)%nat -> (n <= 4)%nat -> length (ccw_run s n) = n.
Proof.
  intros Hs Hn. unfold ccw_run. rewrite length_take, length_drop.
  cbn [cartesian_orientations_ app length]. lia.
Qed.

Lemma length_oriented (ori : ORIENTATION) (ds : list Point_2) :
  length (oriented ori ds) = length ds.
Proof. destruct ori; cbn; [apply length_rev | reflexivity | reflexivity]. Qed.

(** The list that [construct_local_edge_information_edge] builds. *)
Lemma edge_local_edges_shape (m : TriMesh) (tf_ : list TF.t)
      (uv_coords : list Q) (gv : GridVertex) :
  let heh := gv_heh gv in
  let heh_opp := opposite_halfedge_handle m heh in
  let fh := face_handle m heh in
  let fh_opp := face_handle m heh_opp in
  let ori := triangleUvOrientation m uv_coords fh in
  let ori_opp := triangleUvOrientation m uv_coords fh_opp in
  let p0 := uv_point uv_coords (prev_halfedge_handle m heh) in
  let p1 := uv_point uv_coords heh in
  let q0 := uv_point uv_coords (prev_halfedge_handle m heh_opp) in
  let q1 := uv_point uv_coords heh_opp in
  let uv := position_uv gv in
  let tf := transition_h m tf_ heh in
  let uv_opp := TF.transform_point tf uv in
  let n := if is_boundary_h m heh_opp && axis_parallel p0 p1
           then 3%nat else 2%nat in
  is_valid heh = true ->
  is_boundary_h m heh = false ->
  (det3 p0 p1 uv == 0)%Q ->
  ~ Peq p0 p1 ->
  ori <> ORI_ZERO ->
  (is_boundary_h m heh_opp = false ->
   is_valid fh_opp = true /\ (det3 q0 q1 uv_opp == 0)%Q /\
   ~ Peq q0 q1 /\ ori_opp <> ORI_ZERO) ->
  exists s s' : nat,
    (s < 4)%nat /\ (s' < 4)%nat /\
    local_edges (construct_local_edge_information_edge m tf_ uv_coords gv)
    = map (fun d => new_LEI fh uv (padd uv d)) (oriented ori (ccw_run s n))
      ++ (if is_boundary_h m heh_opp then []
          else map (fun d => new_LEI fh_opp uv_opp
                                     (TF.transform_point tf (padd uv d)))
                   (oriented ori_opp (ccw_run s' 2))).
Proof.
  intros heh heh_opp fh fh_opp ori ori_opp p0 p1 q0 q1 uv tf uv_opp n
         Hvalid Hnb Hline Hne Hori Hopp.
  unfold construct_local_edge_information_edge.
  cbn [set_local_edges gv_heh position_uv local_edges].
  fold heh. rewrite Hvalid, Hnb. cbn [andb negb].
  fold heh_opp fh. fold ori.
  assert (Hflag : forall b : bool,
    position_uv (if b then set_is_boundary (set_local_edges gv []) true
                 else set_local_edges gv []) = uv
    /\ local_edges (if b then set_is_boundary (set_local_edges gv []) true
                    else set_local_edges gv []) = [])
    by (intros []; split; reflexivity).
  destruct (Hflag (is_boundary_e m (edge_handle m heh))) as [Hpos Hles].
  rewrite Hpos, Hles. clear Hflag Hpos Hles.
  fold tf p0 p1 q0 q1 uv_opp.
  destruct (is_boundary_h m heh_opp) eqn:Hb; cbn [negb].
  - change (is_valid (-1)) with false. cbn iota.
    destruct (add_directions_face_one_run fh (-1) ori p0 p1 uv Hline Hne Hori)
      as (s & Hs & Hone).
    change (is_valid (-1)) with false in Hone. cbn [negb] in Hone.
    rewrite andb_true_r in Hone.
    exists s, 0%nat. split; [exact Hs | split; [lia |]].
    cbn [local_edges set_local_edges].
    subst n. cbn [andb]. rewrite Hone, app_nil_r. reflexivity.
  - destruct (Hopp eq_refl) as (Hv & Hline2 & Hne2 & Hori2).
    fold fh_opp. rewrite Hv. fold ori_opp.
    destruct (add_directions_face_one_run fh fh_opp ori p0 p1 uv Hline Hne Hori)
      as (s & Hs & Hone).
    rewrite Hv in Hone. cbn [negb] in Hone. rewrite andb_false_r in Hone.
    rewrite Hone.
    destruct (add_directions_face_two_run fh_opp ori_opp tf q0 q1 uv
                (map (fun d => new_LEI fh uv (padd uv d))
                     (oriented ori (ccw_run s 2))) Hline2 Hne2 Hori2)
      as (s' & Hs' & Htwo).
    fold uv_opp in Htwo. rewrite Htwo.
    exists s, s'. split; [exact Hs | split; [exact Hs' |]].
    cbn [local_edges set_local_edges]. reflexivity.
Qed.

Lemma length_edge_shape (ori ori_opp : ORIENTATION) (s s' n : nat)
      (b : bool) (mk1 mk2 : Point_2 -> LocalEdgeInfo) :
  (s < 4)%nat -> (s' < 4)%nat -> (n <= 4)%nat ->
  length (map mk1 (oriented ori (ccw_run s n))
          ++ (if b then [] else map mk2 (oriented ori_opp (ccw_run s' 2))))
  = (if b then n else n + 2)%nat.
Proof.
  intros Hs Hs' Hn.
  rewrite length_app, length_map, length_oriented, length_ccw_run by lia.
  destruct b; cbn [length]; [lia |].
  now rewrite length_map, length_oriented, length_ccw_run by lia.
Qed.

(** X3.  The local edges of a grid vertex on an edge.  When the grid vertex
    lies on the parameter line of its edge in the chart of each incident
    face, the edge is not collapsed there and the faces are not degenerate,
    [construct_local_edge_information_edge] lists first the directions into
    the face of the halfedge and then those into the opposite face, each
    block being consecutive entries of [cartesian_orientations_] in
    counter-clockwise order (clockwise for a face of negative orientation).
    An interior edge gets two directions per face, four in all; a boundary
    edge gets two, or three when it is parallel to an axis.  The boundary
    tag is set exactly for a boundary edge. *)
Theorem edge_gvertex_local_edges (m : TriMesh) (tf_ : list TF.t)
        (uv_coords : list Q) (gv : GridVertex) :
  let heh := gv_heh gv in
  let heh_opp := opposite_halfedge_handle m heh in
  let fh := face_handle m heh in
  let fh_opp := face_handle m heh_opp in
  let ori := triangleUvOrientation m uv_coords fh in
  let ori_opp := triangleUvOrientation m uv_coords fh_opp in
  let p0 := uv_point uv_coords (prev_halfedge_handle m heh) in
  let p1 := uv_point uv_coords heh in
  let q0 := uv_point uv_coords (prev_halfedge_handle m heh_opp) in
  let q1 := uv_point uv_coords heh_opp in
  let uv := position_uv gv in
  let tf := transition_h m tf_ heh in
  let uv_opp := TF.transform_point tf uv in
  let n := if is_boundary_h m heh_opp && axis_parallel p0 p1
           then 3%nat else 2%nat in
  is_valid heh = true ->
  is_boundary_h m heh = false ->
  (det3 p0 p1 uv == 0)%Q ->
  ~ Peq p0 p1 ->
  ori <> ORI_ZERO ->
  (is_boundary_h m heh_opp = false ->
   is_valid fh_opp = true /\ (det3 q0 q1 uv_opp == 0)%Q /\
   ~ Peq q0 q1 /\ ori_opp <> ORI_ZERO) ->
  let gv' := construct_local_edge_information_edge m tf_ uv_coords gv in
  (exists s s' : nat,
     (s < 4)%nat /\ (s' < 4)%nat /\
     local_edges gv'
     = map (fun d => new_LEI fh uv (padd uv d)) (oriented ori (ccw_run s n))
       ++ (if is_boundary_h m heh_opp then []
           else map (fun d => new_LEI fh_opp uv_opp
                                      (TF.transform_point tf (padd uv d)))
                    (oriented ori_opp (ccw_run s' 2)))) /\
  length (local_edges gv')
  = (if is_boundary_h m heh_opp then n else 4%nat) /\
  is_boundary gv' = is_boundary gv || is_boundary_e m (edge_handle m heh).
Proof.
  intros heh heh_opp fh fh_opp ori ori_opp p0 p1 q0 q1 uv tf uv_opp n
         Hvalid Hnb Hline Hne Hori Hopp gv'.
  pose proof (edge_local_edges_shape m tf_ uv_coords gv Hvalid Hnb Hline Hne
                Hori Hopp) as Hshape.
  cbv zeta in Hshape. fold heh heh_opp fh fh_opp ori ori_opp p0 p1 uv tf in Hshape.
  fold uv_opp n gv' in Hshape.
  split; [exact Hshape | split].
  - destruct Hshape as (s & s' & Hs & Hs' & ->).
    rewrite length_edge_shape; [| exact Hs | exact Hs' |].
    + subst n. destruct (is_boundary_h m heh_opp); reflexivity.
    + subst n. destruct (_ && _); lia.
  - subst gv'. unfold construct_local_edge_information_edge.
    cbn [set_local_edges gv_heh]. fold heh. rewrite Hvalid, Hnb.
    cbn [andb negb].
    destruct (is_boundary_e m (edge_handle m heh));
      cbn [set_local_edges set_is_boundary is_boundary];
      [now rewrite orb_true_r | now rewrite orb_false_r].
Qed.

(** A square of side [2] cut along the diagonal from vertex [0] to vertex
    [2], as [square_mesh]; both triangles share one chart. *)
Definition diagonal_uv : list Q :=
  [2; 0;  0; 0;  2; 2;  0; 0;  0; 0;  2; 2;  0; 2;  0; 0;  0; 0;  0; 0]%Q.

(** The lattice point in the middle of the diagonal. *)
Definition diagonal_gvertex : GridVertex :=
  mkGV OnEdge 4 (1, 1)%Q (0, 0, 0)%Q false 0 [].

Lemma edge_gvertex_local_edges_witness :
  length (local_edges
            (construct_local_edge_information_edge
               square_mesh [] diagonal_uv diagonal_gvertex)) = 4%nat /\
  is_boundary (construct_local_edge_information_edge
                 square_mesh [] diagonal_uv diagonal_gvertex) = false.
Proof.
  refine ((fun H => conj (proj1 (proj2 H)) (proj2 (proj2 H)))
            (edge_gvertex_local_edges square_mesh [] diagonal_uv
               diagonal_gvertex _ _ _ _ _ _)).
  - reflexivity.
  - reflexivity.
  - reflexivity.
  - intros [Hx _]. vm_compute in Hx. discriminate.
  - vm_compute. discriminate.
  - intros _. split; [reflexivity |]. split; [reflexivity |]. split.
    + intros [Hx _]. vm_compute in Hx. discriminate.
    + vm_compute. discriminate.
Defined.

(** ** Step 5 of [extract]: [generate_vertices], the edges *)

(** The loops of "extract vertices within edges" over the integer bounding
    box of the segment [p0 p1]: the lattice points at which a grid vertex
    is pushed, in the order of the pushes.  Two values of the source are
    computed in floating point with rounding and are inputs here:
    [x_range_larger] is the outcome of
    [bb.xmax() - bb.xmin() >= bb.ymax() - bb.ymin()], and [candidate] gives,
    for the value of the loop variable, the other coordinate
    [ROUND_QME(p0[1] + alpha*(p1[1]-p0[1]))] (in the second loop
    [ROUND_QME(p0[0] + alpha*(p1[0]-p0[0]))]). *)
Definition edge_lattice_points (x_range_larger : bool) (candidate : Z -> Z)
           (p0 p1 : Point_2) : list (Z * Z) :=
  let bb_xmin := Qmin (fst p0) (fst p1) in
  let bb_xmax := Qmax (fst p0) (fst p1) in
  let bb_ymin := Qmin (snd p0) (snd p1) in
  let bb_ymax := Qmax (snd p0) (snd p1) in
  let x_min := Qceiling bb_xmin in
  let x_max := Qfloor bb_xmax in
  let y_min := Qceiling bb_ymin in
  let y_max := Qfloor bb_ymax in
  if x_range_larger then
    let x_min := if Qeq_bool (inject_Z x_min) bb_xmin then x_min + 1 else x_min in
    let x_max := if Qeq_bool (inject_Z x_max) bb_xmax then x_max - 1 else x_max in
    flat_map
      (fun x =>
         let y := candidate x in
         if (y_min <=? y) && (y <=? y_max) then
           if segment_has_onb p0 p1 (lattice_point x y) then [(x, y)] else []
         else [])
      (int_range x_min x_max)
  else
    let y_min := if Qeq_bool (inject_Z y_min) bb_ymin then y_min + 1 else y_min in
    let y_max := if Qeq_bool (inject_Z y_max) bb_ymax then y_max - 1 else y_max in
    flat_map
      (fun y =>
         let x := candidate y in
         if (x_min <=? x) && (x <=? x_max) then
           if segment_has_onb p0 p1 (lattice_point x y) then [(x, y)] else []
         else [])
      (int_range y_min y_max).

(** The body of the loop "extract vertices within edges" for an edge whose
    halfedge [heh0 = edge_to_halfedge_[eh.idx()]] is valid: the value
    stored in [edge_valid_[eh.idx()]] and the grid vertices appended to
    [gvertices_].  [p3d x y] stands for the 3D point computed from the
    mapping [M]. *)
Definition edge_grid_vertices (m : TriMesh) (tf_ : list TF.t) (uv : list Q)
           (x_range_larger : bool) (candidate : Z -> Z)
           (p3d : Z -> Z -> Q * Q * Q) (heh0 : HEH) : bool * list GridVertex :=
  let heh1 := prev_halfedge_handle m heh0 in
  let p0 := uv_point uv heh0 in
  let p1 := uv_point uv heh1 in
  if negb (Peqb p0 p1) then
    (true,
     map (fun xy =>
            construct_local_edge_information_edge m tf_ uv
              (mkGV OnEdge heh0 (lattice_point (fst xy) (snd xy))
                    (p3d (fst xy) (snd xy)) false 0 []))
         (edge_lattice_points x_range_larger candidate p0 p1))
  else (false, []).

(** *** What the edge loop finds *)

Lemma Qle_dec_bool_true (x y : Q) : Qle_dec_bool x y = true <-> (x <= y)%Q.
Proof.
  unfold Qle_dec_bool. destruct (Qlt_le_dec y x); split; try discriminate;
    try reflexivity; try tauto; lra.
Qed.

Lemma segment_has_onb_true (a b p : Point_2) :
  segment_has_onb a b p = true <-> segment_has_on a b p.
Proof.
  unfold segment_has_onb, segment_has_on, orient2d.
  rewrite !andb_true_iff, !Qle_dec_bool_true, ORIENTATION_eqb_eq, sign_of_zero.
  tauto.
Qed.

Lemma NoDup_int_range (lo hi : Z) : NoDup (int_range lo hi).
Proof.
  unfold int_range. apply NoDup_fmap_2; [| apply NoDup_seq].
  intros a b Hab. lia.
Qed.

Lemma NoDup_flat_map_single {A B : Type} (f : A -> list B) (h : A -> B)
      (l : list A) :
  (forall a, f a = [] \/ f a = [h a]) ->
  (forall a b, h a = h b -> a = b) ->
  NoDup l -> NoDup (flat_map f l).
Proof.
  intros Hf Hh. induction 1 as [| a l Hnin Hnd IH]; cbn; [constructor |].
  destruct (Hf a) as [-> | ->]; [exact IH |]. cbn.
  constructor; [| exact IH].
  rewrite list_elem_of_In, in_flat_map. intros (b & Hb & Hin).
  destruct (Hf b) as [E | E]; rewrite E in Hin; [destruct Hin |].
  destruct Hin as [Hin | []]. apply Hh in Hin. subst b.
  apply Hnin. now apply list_elem_of_In.
Qed.

(** The loop bounds leave out the two ends of the range of the scanned
    coordinate. *)
Lemma open_range (lo hi : Q) (k : Z) :
  (if Qeq_bool (inject_Z (Qceiling lo)) lo then Qceiling lo + 1
   else Qceiling lo) <= k ->
  k <= (if Qeq_bool (inject_Z (Qfloor hi)) hi then Qfloor hi - 1
        else Qfloor hi) ->
  (lo < inject_Z k < hi)%Q.
Proof.
  intros Hlo Hhi. split.
  - pose proof (Qle_ceiling lo) as Hc.
    destruct (Qeq_bool (inject_Z (Qceiling lo)) lo) eqn:E.
    + apply Qeq_bool_iff in E.
      assert (H1 : (inject_Z (Qceiling lo + 1) <= inject_Z k)%Q)
        by now rewrite <- Zle_Qle.
      rewrite inject_Z_plus in H1. change (inject_Z 1) with 1%Q in H1. lra.
    + apply Qeq_bool_neq in E.
      assert (H1 : (inject_Z (Qceiling lo) <= inject_Z k)%Q)
        by now rewrite <- Zle_Qle.
      destruct (Qlt_le_dec lo (inject_Z k)) as [Hlt | Hle]; [exact Hlt |].
      exfalso. apply E. lra.
  - pose proof (Qfloor_le hi) as Hf.
    destruct (Qeq_bool (inject_Z (Qfloor hi)) hi) eqn:E.
    + apply Qeq_bool_iff in E.
      assert (H1 : (inject_Z k <= inject_Z (Qfloor hi + - 1))%Q)
        by (rewrite <- Zle_Qle; lia).
      rewrite inject_Z_plus in H1. change (inject_Z (-1)) with (-1)%Q in H1.
      lra.
    + apply Qeq_bool_neq in E.
      assert (H1 : (inject_Z k <= inject_Z (Qfloor hi))%Q)
        by now rewrite <- Zle_Qle.
      destruct (Qlt_le_dec (inject_Z k) hi) as [Hlt | Hle]; [exact Hlt |].
      exfalso. apply E. lra.
Qed.

Lemma open_range_inv (lo hi : Q) (k : Z) :
  (lo < inject_Z k < hi)%Q ->
  (if Qeq_bool (inject_Z (Qceiling lo)) lo then Qceiling lo + 1
   else Qceiling lo) <= k <=
  (if Qeq_bool (inject_Z (Qfloor hi)) hi then Qfloor hi - 1 else Qfloor hi).
Proof.
  intros [Hlo Hhi].
  assert (Hc : Qceiling lo <= k).
  { rewrite <- (Qceiling_Z k). apply Qceiling_resp_le. lra. }
  assert (Hf : k <= Qfloor hi).
  { rewrite <- (Qfloor_Z k) at 1. apply Qfloor_resp_le. lra. }
  split.
  - destruct (Qeq_bool (inject_Z (Qceiling lo)) lo) eqn:E; [| exact Hc].
    apply Qeq_bool_iff in E.
    assert (Hne : Qceiling lo <> k).
    { intros <-. lra. }
    lia.
  - destruct (Qeq_bool (inject_Z (Qfloor hi)) hi) eqn:E; [| exact Hf].
    apply Qeq_bool_iff in E.
    assert (Hne : Qfloor hi <> k).
    { intros <-. lra. }
    lia.
Qed.

Lemma closed_range_inv (lo hi : Q) (k : Z) :
  (lo <= inject_Z k <= hi)%Q -> Qceiling lo <= k <= Qfloor hi.
Proof.
  intros [Hlo Hhi]. split.
  - rewrite <- (Qceiling_Z k). now apply Qceiling_resp_le.
  - rewrite <- (Qfloor_Z k) at 1. now apply Qfloor_resp_le.
Qed.

Lemma strictly_between_not_end (a b x : Q) :
  (Qmin a b < x < Qmax a b)%Q -> ~ (x == a)%Q /\ ~ (x == b)%Q.
Proof.
  intros [Hlo Hhi].
  destruct (Q.min_spec a b) as [[_ Hm] | [_ Hm]],
           (Q.max_spec a b) as [[_ HM] | [_ HM]];
    rewrite Hm in Hlo; rewrite HM in Hhi; split; intros E; lra.
Qed.

Lemma In_edge_lattice_points (x_range_larger : bool) (candidate : Z -> Z)
      (p0 p1 : Point_2) (x y : Z) :
  In (x, y) (edge_lattice_points x_range_larger candidate p0 p1) <->
  segment_has_on p0 p1 (lattice_point x y) /\
  if x_range_larger
  then (Qmin (fst p0) (fst p1) < inject_Z x < Qmax (fst p0) (fst p1))%Q
       /\ candidate x = y
  else (Qmin (snd p0) (snd p1) < inject_Z y < Qmax (snd p0) (snd p1))%Q
       /\ candidate y = x.
Proof.
  unfold edge_lattice_points. cbv zeta.
  destruct x_range_larger; rewrite in_flat_map; split.
  - intros (x' & Hx' & Hin). apply In_int_range in Hx'.
    destruct (_ && _); [| destruct Hin].
    destruct (segment_has_onb _ _ _) eqn:Hon; [| destruct Hin].
    destruct Hin as [Hin | []]. injection Hin as -> <-.
    apply segment_has_onb_true in Hon.
    split; [exact Hon |]. split; [| reflexivity].
    apply open_range; lia.
  - intros (Hon & Hx & <-). exists x. split.
    + apply In_int_range. now apply open_range_inv.
    + destruct Hon as (Hdet & _ & Hy).
      apply closed_range_inv in Hy as Hy'. cbn [lattice_point snd] in Hy'.
      replace ((_ <=? candidate x) && (candidate x <=? _)) with true
        by (symmetry; apply andb_true_iff; split; apply Z.leb_le; lia).
      rewrite (proj2 (segment_has_onb_true p0 p1 _));
        [now left |].
      split; [exact Hdet |]. split; [| exact Hy].
      cbn [lattice_point fst]. lra.
  - intros (y' & Hy' & Hin). apply In_int_range in Hy'.
    destruct (_ && _); [| destruct Hin].
    destruct (segment_has_onb _ _ _) eqn:Hon; [| destruct Hin].
    destruct Hin as [Hin | []]. injection Hin as <- ->.
    apply segment_has_onb_true in Hon.
    split; [exact Hon |]. split; [| reflexivity].
    apply open_range; lia.
  - intros (Hon & Hy & <-). exists y. split.
    + apply In_int_range. now apply open_range_inv.
    + destruct Hon as (Hdet & Hx & _).
      apply closed_range_inv in Hx as Hx'. cbn [lattice_point fst] in Hx'.
      replace ((_ <=? candidate y) && (candidate y <=? _)) with true
        by (symmetry; apply andb_true_iff; split; apply Z.leb_le; lia).
      rewrite (proj2 (segment_has_onb_true p0 p1 _));
        [now left |].
      split; [exact Hdet |]. split; [exact Hx |].
      cbn [lattice_point snd]. lra.
Qed.

Lemma NoDup_edge_lattice_points (x_range_larger : bool) (candidate : Z -> Z)
      (p0 p1 : Point_2) :
  NoDup (edge_lattice_points x_range_larger candidate p0 p1).
Proof.
  unfold edge_lattice_points. cbv zeta. destruct x_range_larger.
  - apply (NoDup_flat_map_single _ (fun x => (x, candidate x))).
    + intros x. destruct (_ && _); [| now left].
      destruct (segment_has_onb _ _ _); [now right | now left].
    + intros a b E. now injection E.
    + apply NoDup_int_range.
  - apply (NoDup_flat_map_single _ (fun y => (candidate y, y))).
    + intros y. destruct (_ && _); [| now left].
      destruct (segment_has_onb _ _ _); [now right | now left].
    + intros a b E. now injection E.
    + apply NoDup_int_range.
Qed.

Lemma edge_lattice_points_on_segment (x_range_larger : bool)
      (candidate : Z -> Z) (p0 p1 : Point_2) (x y : Z) :
  In (x, y) (edge_lattice_points x_range_larger candidate p0 p1) ->
  let p := lattice_point x y in
  segment_has_on p0 p1 p /\ ~ Peq p p0 /\ ~ Peq p p1.
Proof.
  intros Hin. apply In_edge_lattice_points in Hin. destruct Hin as [Hon Hopen].
  split; [exact Hon |].
  destruct x_range_larger; destruct Hopen as [Hopen _];
    apply strictly_between_not_end in Hopen; destruct Hopen as [H0 H1];
    split; intros [Ex Ey]; cbn [lattice_point fst snd] in Ex, Ey; tauto.
Qed.

(** On a segment that is not parallel to the other axis, a point that has
    the coordinate of an end point is that end point. *)
Lemma on_segment_end (a0 a1 b0 b1 x y : Q) :
  ((a1 - a0) * (y - b0) - (b1 - b0) * (x - a0) == 0)%Q ->
  ~ (a0 == a1)%Q -> (x == a0)%Q -> (y == b0)%Q.
Proof.
  intros Hdet Hne Hx.
  assert (H0 : ((a1 - a0) * (y - b0) == 0)%Q) by (rewrite Hx in Hdet; lra).
  apply Qmult_integral in H0. destruct H0 as [H0 | H0]; [| lra].
  exfalso. apply Hne. lra.
Qed.

Lemma segment_interior (p0 p1 p : Point_2) :
  segment_has_on p0 p1 p -> ~ Peq p p0 -> ~ Peq p p1 ->
  (~ (fst p0 == fst p1)%Q ->
   (Qmin (fst p0) (fst p1) < fst p < Qmax (fst p0) (fst p1))%Q) /\
  (~ (snd p0 == snd p1)%Q ->
   (Qmin (snd p0) (snd p1) < snd p < Qmax (snd p0) (snd p1))%Q).
Proof.
  intros (Hdet & Hx & Hy) Hn0 Hn1. unfold det3 in Hdet.
  set (A := ((fst p1 - fst p0) * (snd p - snd p0)
             - (snd p1 - snd p0) * (fst p - fst p0))%Q) in Hdet.
  assert (Hdet' : ((fst p0 - fst p1) * (snd p - snd p1)
                   - (snd p0 - snd p1) * (fst p - fst p1) == 0)%Q).
  { transitivity (- A)%Q; [unfold A; ring | rewrite Hdet; reflexivity]. }
  assert (Hdety : ((snd p1 - snd p0) * (fst p - fst p0)
                   - (fst p1 - fst p0) * (snd p - snd p0) == 0)%Q).
  { transitivity (- A)%Q; [unfold A; ring | rewrite Hdet; reflexivity]. }
  assert (Hdety' : ((snd p0 - snd p1) * (fst p - fst p1)
                    - (fst p0 - fst p1) * (snd p - snd p1) == 0)%Q).
  { transitivity A; [unfold A; ring | exact Hdet]. }
  unfold A in Hdet. clear A.
  split; intros Hne.
  - assert (Ha : ~ (fst p == fst p0)%Q).
    { intros E. apply Hn0. split; [exact E |].
      exact (on_segment_end _ _ _ _ _ _ Hdet Hne E). }
    assert (Hb : ~ (fst p == fst p1)%Q).
    { intros E. apply Hn1. split; [exact E |].
      apply (on_segment_end _ _ _ _ _ _ Hdet'); [| exact E].
      intros E'. apply Hne. lra. }
    destruct (Q.min_spec (fst p0) (fst p1)) as [[_ Hm] | [_ Hm]],
             (Q.max_spec (fst p0) (fst p1)) as [[_ HM] | [_ HM]];
      rewrite Hm, HM in *; split;
      match goal with
      | |- (?a < ?b)%Q =>
          destruct (Qlt_le_dec a b) as [Hlt | Hle]; [exact Hlt | exfalso]
      end; first [apply Ha; lra | apply Hb; lra].
  - assert (Ha : ~ (snd p == snd p0)%Q).
    { intros E. apply Hn0. split; [| exact E].
      exact (on_segment_end _ _ _ _ _ _ Hdety Hne E). }
    assert (Hb : ~ (snd p == snd p1)%Q).
    { intros E. apply Hn1. split; [| exact E].
      apply (on_segment_end _ _ _ _ _ _ Hdety'); [| exact E].
      intros E'. apply Hne. lra. }
    destruct (Q.min_spec (snd p0) (snd p1)) as [[_ Hm] | [_ Hm]],
             (Q.max_spec (snd p0) (snd p1)) as [[_ HM] | [_ HM]];
      rewrite Hm, HM in *; split;
      match goal with
      | |- (?a < ?b)%Q =>
          destruct (Qlt_le_dec a b) as [Hlt | Hle]; [exact Hlt | exfalso]
      end; first [apply Ha; lra | apply Hb; lra].
Qed.

Lemma construct_local_edge_information_edge_fields (m : TriMesh)
      (tf_ : list TF.t) (uv : list Q) (gv : GridVertex) :
  let gv' := construct_local_edge_information_edge m tf_ uv gv in
  gv_type gv' = gv_type gv /\ gv_heh gv' = gv_heh gv /\
  position_uv gv' = position_uv gv /\ position_3d gv' = position_3d gv.
Proof.
  unfold construct_local_edge_information_edge. cbv zeta.
  cbn [set_local_edges gv_heh].
  destruct (_ && _); [| now cbn].
  destruct (is_boundary_e m _); now cbn.
Qed.

(** The grid vertices that the loop body creates on the edge of [heh0]. *)
Definition edge_gvertices_of (m : TriMesh) (tf_ : list TF.t) (uv : list Q)
           (x_range_larger : bool) (candidate : Z -> Z)
           (p3d : Z -> Z -> Q * Q * Q) (heh0 : HEH) : list GridVertex :=
  snd (edge_grid_vertices m tf_ uv x_range_larger candidate p3d heh0).

Lemma In_edge_gvertices_of (m : TriMesh) (tf_ : list TF.t) (uv : list Q)
      (x_range_larger : bool) (candidate : Z -> Z)
      (p3d : Z -> Z -> Q * Q * Q) (heh0 : HEH) (gv : GridVertex) :
  In gv (edge_gvertices_of m tf_ uv x_range_larger candidate p3d heh0) <->
  Peqb (uv_point uv heh0) (uv_point uv (prev_halfedge_handle m heh0)) = false /\
  exists x y,
    In (x, y) (edge_lattice_points x_range_larger candidate (uv_point uv heh0)
                 (uv_point uv (prev_halfedge_handle m heh0))) /\
    gv = construct_local_edge_information_edge m tf_ uv
           (mkGV OnEdge heh0 (lattice_point x y) (p3d x y) false 0 []).
Proof.
  unfold edge_gvertices_of, edge_grid_vertices. cbv zeta.
  destruct (Peqb _ _); cbn [negb snd].
  - split; [intros [] | intros [? _]; discriminate].
  - rewrite in_map_iff. split.
    + intros ([x y] & <- & Hin). split; [reflexivity |]. now exists x, y.
    + intros (_ & x & y & Hin & ->). now exists (x, y).
Qed.

(** X4.  Whatever the floating-point parts (the choice of the scanned axis
    and the candidate for the other coordinate) return, the edge loop of
    [generate_vertices] marks an edge as valid exactly when its two
    parameter end points differ, creates no grid vertex on an invalid edge,
    and every grid vertex it creates is of type [OnEdge], carries the
    halfedge of the edge, sits at a lattice point of the parameter segment
    that is neither of its end points; no lattice point is used twice. *)
Theorem edge_grid_vertices_sound (m : TriMesh) (tf_ : list TF.t)
        (uv : list Q) (x_range_larger : bool) (candidate : Z -> Z)
        (p3d : Z -> Z -> Q * Q * Q) (heh0 : HEH) :
  let p0 := uv_point uv heh0 in
  let p1 := uv_point uv (prev_halfedge_handle m heh0) in
  let '(valid, gvs) :=
    edge_grid_vertices m tf_ uv x_range_larger candidate p3d heh0 in
  valid = negb (Peqb p0 p1) /\
  (valid = false -> gvs = []) /\
  Forall (fun gv =>
            gv_type gv = OnEdge /\ gv_heh gv = heh0 /\
            (exists x y, position_uv gv = lattice_point x y) /\
            segment_has_on p0 p1 (position_uv gv) /\
            ~ Peq (position_uv gv) p0 /\ ~ Peq (position_uv gv) p1) gvs /\
  NoDup (map position_uv gvs).
Proof.
  intros p0 p1.
  pose proof (In_edge_gvertices_of m tf_ uv x_range_larger candidate p3d heh0)
    as Hin.
  unfold edge_gvertices_of in Hin.
  assert (Hnd : NoDup (map position_uv
    (snd (edge_grid_vertices m tf_ uv x_range_larger candidate p3d heh0)))).
  { unfold edge_grid_vertices. cbv zeta. fold p0 p1.
    destruct (Peqb p0 p1); cbn [negb snd]; [constructor |].
    rewrite map_map.
    rewrite (map_ext _ (fun xy => lattice_point (fst xy) (snd xy))).
    - apply NoDup_fmap_2; [| apply NoDup_edge_lattice_points].
      intros [a b] [c d] E. unfold lattice_point, inject_Z in E.
      cbn [fst snd] in E. congruence.
    - intros xy.
      apply (construct_local_edge_information_edge_fields m tf_ uv). }
  unfold edge_grid_vertices in *. cbv zeta in *. fold p0 p1 in Hin, Hnd |- *.
  destruct (Peqb p0 p1) eqn:Hdeg; cbn [negb snd] in *.
  - repeat split; [constructor | constructor].
  - split; [reflexivity |]. split; [discriminate |]. split; [| exact Hnd].
    apply Forall_forall. intros gv Hgv. apply list_elem_of_In in Hgv.
    apply Hin in Hgv. destruct Hgv as (_ & x & y & Hxy & ->).
    destruct (construct_local_edge_information_edge_fields m tf_ uv
                (mkGV OnEdge heh0 (lattice_point x y) (p3d x y) false 0 []))
      as (Ht & Hh & Hp & _).
    rewrite Ht, Hh, Hp. cbn [gv_type gv_heh position_uv].
    split; [reflexivity |]. split; [reflexivity |].
    split; [now exists x, y |].
    exact (edge_lattice_points_on_segment _ _ _ _ _ _ Hxy).
Qed.

(** X5.  The edge loop misses no lattice point: when the scanned axis is
    one along which the segment has extent and the candidate computed for
    a scanned value is the exact coordinate wherever the segment passes
    through a lattice point there, every lattice point of the segment
    other than its two end points carries a grid vertex of the edge. *)
Theorem edge_grid_vertices_complete (m : TriMesh) (tf_ : list TF.t)
        (uv : list Q) (x_range_larger : bool) (candidate : Z -> Z)
        (p3d : Z -> Z -> Q * Q * Q) (heh0 : HEH) (x y : Z) :
  let p0 := uv_point uv heh0 in
  let p1 := uv_point uv (prev_halfedge_handle m heh0) in
  (if x_range_larger then ~ (fst p0 == fst p1)%Q else ~ (snd p0 == snd p1)%Q) ->
  (forall x' y' : Z,
      segment_has_on p0 p1 (lattice_point x' y') ->
      if x_range_larger then candidate x' = y' else candidate y' = x') ->
  segment_has_on p0 p1 (lattice_point x y) ->
  ~ Peq (lattice_point x y) p0 ->
  ~ Peq (lattice_point x y) p1 ->
  exists gv,
    In gv (snd (edge_grid_vertices m tf_ uv x_range_larger candidate p3d heh0))
    /\ position_uv gv = lattice_point x y
    /\ gv_type gv = OnEdge /\ gv_heh gv = heh0.
Proof.
  intros p0 p1 Hext Hcand Hon Hn0 Hn1.
  exists (construct_local_edge_information_edge m tf_ uv
            (mkGV OnEdge heh0 (lattice_point x y) (p3d x y) false 0 [])).
  destruct (construct_local_edge_information_edge_fields m tf_ uv
              (mkGV OnEdge heh0 (lattice_point x y) (p3d x y) false 0 []))
    as (Ht & Hh & Hp & _).
  split; [| now rewrite Ht, Hh, Hp].
  apply (In_edge_gvertices_of m tf_ uv x_range_larger candidate p3d heh0).
  fold p0 p1. split.
  - apply not_true_is_false. intros E. unfold Peqb in E.
    apply andb_true_iff in E. destruct E as [Ex Ey].
    apply Qeq_bool_iff in Ex, Ey.
    destruct x_range_larger; apply Hext; assumption.
  - exists x, y. split; [| reflexivity].
    apply In_edge_lattice_points. split; [exact Hon |].
    destruct (segment_interior p0 p1 _ Hon Hn0 Hn1) as [Hx Hy].
    specialize (Hcand x y Hon).
    destruct x_range_larger; (split; [| exact Hcand]).
    + exact (Hx Hext).
    + exact (Hy Hext).
Qed.

Lemma edge_grid_vertices_complete_witness :
  exists gv,
    In gv (snd (edge_grid_vertices square_mesh [] diagonal_uv true
                  (fun x => x) (fun _ _ => (0, 0, 0)%Q) 4))
    /\ position_uv gv = lattice_point 1 1
    /\ gv_type gv = OnEdge /\ gv_heh gv = 4.
Proof.
  apply (edge_grid_vertices_complete square_mesh [] diagonal_uv true
           (fun x => x) (fun _ _ => (0, 0, 0)%Q) 4 1 1).
  - intros E. vm_compute in E. discriminate.
  - intros x' y' (Hdet & _ & _).
    change (det3 (0, 0)%Q (2, 2)%Q (lattice_point x' y') == 0)%Q in Hdet.
    unfold det3, lattice_point in Hdet. cbn [fst snd] in Hdet.
    symmetry. apply inject_Z_injective. lra.
  - repeat split; vm_compute; congruence.
  - intros [E _]. vm_compute in E. discriminate.
  - intros [E _]. vm_compute in E. discriminate.
Defined.


(** *** Grid vertices on an edge and their local edges *)

Lemma det3_swap (a b p : Point_2) : (det3 b a p == - det3 a b p)%Q.
Proof. unfold det3. ring. Qed.

Lemma det3_comp (a a' b b' p p' : Point_2) :
  Peq a a' -> Peq b b' -> Peq p p' -> (det3 a b p == det3 a' b' p')%Q.
Proof.
  intros [Ha1 Ha2] [Hb1 Hb2] [Hp1 Hp2]. unfold det3.
  now rewrite Ha1, Ha2, Hb1, Hb2, Hp1, Hp2.
Qed.

(** A transition function is a rigid motion: it keeps signed areas. *)
Lemma det3_transform (tf : TF.t) (a b c : Point_2) :
  (det3 (TF.transform_point tf a) (TF.transform_point tf b)
        (TF.transform_point tf c) == det3 a b c)%Q.
Proof.
  destruct a as [ax ay], b as [bx by_], c as [cx cy].
  unfold TF.transform_point, TF.rotQ, det3.
  mod4 (TF.r tf); rewrite Hm; cbn [fst snd]; ring.
Qed.

Lemma transform_point_inj (tf : TF.t) (a b : Point_2) :
  Peq (TF.transform_point tf a) (TF.transform_point tf b) -> Peq a b.
Proof.
  destruct a as [ax ay], b as [bx by_].
  unfold TF.transform_point, TF.rotQ, Peq.
  mod4 (TF.r tf); rewrite Hm; cbn [fst snd]; intros [H1 H2]; split; lra.
Qed.

Lemma Peq_sym (p q : Point_2) : Peq p q -> Peq q p.
Proof. intros [H1 H2]. split; symmetry; assumption. Qed.

Lemma Peq_trans (p q r : Point_2) : Peq p q -> Peq q r -> Peq p r.
Proof. intros [H1 H2] [H3 H4]. split; etransitivity; eassumption. Qed.

Lemma Peq_refl (p : Point_2) : Peq p p.
Proof. split; reflexivity. Qed.

(** X6.  The number of local edges of the grid vertices on an edge.  When
    the face of the halfedge is not degenerate and, for an interior edge,
    the chart of the opposite face shows the two end points at the images
    of their positions under the transition function of the edge and the
    opposite face is not degenerate either, every grid vertex that the
    edge loop creates has four local edges; on a boundary edge it has two,
    or three when the edge is parallel to an axis. *)
Theorem edge_grid_vertices_valence (m : TriMesh) (tf_ : list TF.t)
        (uv : list Q) (x_range_larger : bool) (candidate : Z -> Z)
        (p3d : Z -> Z -> Q * Q * Q) (heh0 : HEH) :
  let heh_opp := opposite_halfedge_handle m heh0 in
  let fh := face_handle m heh0 in
  let fh_opp := face_handle m heh_opp in
  let p_to := uv_point uv heh0 in
  let p_from := uv_point uv (prev_halfedge_handle m heh0) in
  let q_from := uv_point uv heh_opp in
  let q_to := uv_point uv (prev_halfedge_handle m heh_opp) in
  let tf := transition_h m tf_ heh0 in
  is_valid heh0 = true ->
  is_boundary_h m heh0 = false ->
  triangleUvOrientation m uv fh <> ORI_ZERO ->
  (is_boundary_h m heh_opp = false ->
   is_valid fh_opp = true /\
   Peq (TF.transform_point tf p_from) q_from /\
   Peq (TF.transform_point tf p_to) q_to /\
   triangleUvOrientation m uv fh_opp <> ORI_ZERO) ->
  Forall (fun gv =>
            length (local_edges gv)
            = if is_boundary_h m heh_opp
              then if axis_parallel p_from p_to then 3%nat else 2%nat
              else 4%nat)
         (snd (edge_grid_vertices m tf_ uv x_range_larger candidate p3d heh0)).
Proof.
  intros heh_opp fh fh_opp p_to p_from q_from q_to tf Hvalid Hnb Hori Hopp.
  apply Forall_forall. intros gv Hgv. apply list_elem_of_In in Hgv.
  apply (In_edge_gvertices_of m tf_ uv x_range_larger candidate p3d heh0)
    in Hgv.
  fold p_to p_from in Hgv. destruct Hgv as (Hdeg & x & y & Hxy & ->).
  destruct (edge_lattice_points_on_segment _ _ _ _ _ _ Hxy)
    as ((Hdet & _ & _) & _ & _).
  assert (Hne : ~ Peq p_from p_to).
  { intros [E1 E2]. apply not_true_iff_false in Hdeg. apply Hdeg.
    unfold Peqb. apply andb_true_iff.
    split; apply Qeq_bool_iff; symmetry; assumption. }
  assert (Hline : (det3 p_from p_to (lattice_point x y) == 0)%Q).
  { rewrite det3_swap, Hdet. reflexivity. }
  set (gv0 := mkGV OnEdge heh0 (lattice_point x y) (p3d x y) false 0 []).
  destruct (edge_local_edges_shape m tf_ uv gv0) as (s & s' & Hs & Hs' & Hles);
    cbn [gv0 gv_heh position_uv]; try assumption.
  - intros Hb. destruct (Hopp Hb) as (Hv & Hfrom & Hto & Hori2).
    fold heh_opp fh_opp q_from q_to tf.
    split; [exact Hv |]. split; [| split; [| exact Hori2]].
    + rewrite (det3_comp q_to _ q_from _ _ _ (Peq_sym _ _ Hto)
                 (Peq_sym _ _ Hfrom) (Peq_refl _)).
      rewrite det3_transform, det3_swap, Hline. reflexivity.
    + intros E. apply Hne. apply (transform_point_inj tf).
      apply (Peq_trans _ _ _ Hfrom). apply Peq_sym.
      apply (Peq_trans _ _ _ Hto). exact E.
  - cbn [gv0 gv_heh position_uv] in Hles. fold heh_opp p_from p_to in Hles.
    rewrite Hles, length_edge_shape; [| exact Hs | exact Hs' |].
    + destruct (is_boundary_h m heh_opp); reflexivity.
    + destruct (_ && _); lia.
Qed.

Lemma edge_grid_vertices_valence_witness :
  Forall (fun gv => length (local_edges gv) = 4%nat)
         (snd (edge_grid_vertices square_mesh [] diagonal_uv true
                 (fun x => x) (fun _ _ => (0, 0, 0)%Q) 4)).
Proof.
  apply (edge_grid_vertices_valence square_mesh [] diagonal_uv true
           (fun x => x) (fun _ _ => (0, 0, 0)%Q) 4).
  - reflexivity.
  - reflexivity.
  - vm_compute. discriminate.
  - intros _. split; [reflexivity |].
    split; [split; reflexivity |]. split; [split; reflexivity |].
    vm_compute. discriminate.
Defined.

(** ** More on the face assembler *)

(** *** [getNextConnectedLeiWithHE] *)

Lemma lei_pos_lt (g : GridVertex) (i : Z) :
  local_edges g <> [] -> (lei_pos g i < length (local_edges g))%nat.
Proof.
  intros Hne. unfold lei_pos.
  assert (0 < Z.of_nat (length (local_edges g))).
  { destruct (local_edges g); [congruence | cbn [length]; lia]. }
  pose proof (Z.mod_pos_bound i (Z.of_nat (length (local_edges g)))). lia.
Qed.

Lemma lei_pos_full_turn (g : GridVertex) (i d : Z) :
  lei_pos g (i + Z.of_nat (length (local_edges g)) * d) = lei_pos g i.
Proof.
  unfold lei_pos. destruct (local_edges g) as [| l ls] eqn:E.
  - cbn [length]. change (Z.of_nat 0) with 0.
    now rewrite Z.mul_0_l, Z.add_0_r.
  - f_equal. rewrite Z.mul_comm. apply Z.mod_add. cbn [length]. lia.
Qed.

(** The slot at which the stepping of [getNextConnectedLeiWithHE] stops. *)
Definition stops_at (g : GridVertex) (last : nat) (pos : nat) : bool :=
  (pos =? last)%nat
  || match local_edges g !! pos with
     | Some lei => isConnected lei && negb (halfedgeIndex lei =? -1)
     | None => false
     end.

Lemma next_connected_pos_total (g : GridVertex) (last : nat) (d : Z) :
  local_edges g <> [] ->
  forall (k fuel : nat) (o : Z),
    (k <= fuel)%nat ->
    lei_pos g (o + Z.of_nat k * d) = last ->
    exists j : nat,
      (j <= k)%nat /\
      next_connected_pos fuel g last o d = Some (lei_pos g (o + Z.of_nat j * d)) /\
      stops_at g last (lei_pos g (o + Z.of_nat j * d)) = true /\
      forall i : nat, (i < j)%nat ->
        stops_at g last (lei_pos g (o + Z.of_nat i * d)) = false.
Proof.
  intros Hne. induction k as [| k IH]; intros fuel o Hk Hlast.
  - exists 0%nat. rewrite Z.mul_0_l, Z.add_0_r in *.
    split; [lia |]. unfold stops_at.
    destruct fuel; cbn [next_connected_pos]; rewrite Hlast, Nat.eqb_refl;
      (split; [reflexivity | split; [reflexivity | intros i Hi; lia]]).
  - destruct fuel as [| fuel]; [lia |].
    destruct (stops_at g last (lei_pos g o)) eqn:Hstop.
    + exists 0%nat. rewrite Z.mul_0_l, Z.add_0_r.
      split; [lia |]. split; [| split; [exact Hstop | intros i Hi; lia]].
      cbn [next_connected_pos]. unfold stops_at in Hstop.
      destruct (lei_pos g o =? last)%nat; [reflexivity |].
      cbn [orb] in Hstop.
      destruct (local_edges g !! lei_pos g o) as [lei |]; [| discriminate].
      now rewrite Hstop.
    + destruct (IH fuel (o + d)) as (j & Hj & Hres & Hstopj & Hmin); [lia | |].
      { rewrite <- Hlast. f_equal. lia. }
      exists (S j).
      replace (o + Z.of_nat (S j) * d) with (o + d + Z.of_nat j * d) by lia.
      split; [lia |]. split; [| split; [exact Hstopj |]].
      * cbn [next_connected_pos]. unfold stops_at in Hstop.
        apply orb_false_iff in Hstop. destruct Hstop as [Hnl Hnc].
        rewrite Hnl.
        destruct (local_edges g !! lei_pos g o) as [lei |] eqn:Hl.
        -- rewrite Hnc. exact Hres.
        -- exfalso. apply lookup_ge_None in Hl.
           pose proof (lei_pos_lt g o Hne). lia.
      * intros i Hi. destruct i as [| i].
        -- now rewrite Z.mul_0_l, Z.add_0_r.
        -- replace (o + Z.of_nat (S i) * d) with (o + d + Z.of_nat i * d)
             by lia.
           apply Hmin. lia.
Qed.

(** X7.  [getNextConnectedLeiWithHE] always returns a local edge info of
    the grid vertex it is asked about (never a null pointer): stepping by
    [direction] from [orientation_idx], it returns the first slot that is
    connected and has a halfedge, and if it is back at the slot of
    [orientation_idx] before it found one, it returns that slot, connected
    or not. *)
Theorem getNextConnectedLeiWithHE_finds (gvs : list GridVertex) (c : nat)
        (g : GridVertex) (orientation_idx direction : Z) :
  gvs !! c = Some g ->
  local_edges g <> [] ->
  let last := lei_pos g orientation_idx in
  let slot k := lei_pos g (orientation_idx + Z.of_nat k * direction) in
  exists k : nat,
    (1 <= k <= length (local_edges g))%nat /\
    getNextConnectedLeiWithHE gvs (Connected c) orientation_idx direction
    = Some (c, slot k) /\
    is_Some (local_edges g !! slot k) /\
    stops_at g last (slot k) = true /\
    forall i : nat, (1 <= i < k)%nat -> stops_at g last (slot i) = false.
Proof.
  intros Hg Hne last slot.
  destruct (next_connected_pos_total g last direction Hne
              (length (local_edges g) - 1) (length (local_edges g))
              (orientation_idx + direction))
    as (j & Hj & Hres & Hstop & Hmin); [lia | |].
  { subst last. rewrite <- (lei_pos_full_turn g orientation_idx direction).
    f_equal.
    assert (0 < length (local_edges g))%nat
      by (destruct (local_edges g); [congruence | cbn; lia]).
    replace (Z.of_nat (length (local_edges g) - 1))
      with (Z.of_nat (length (local_edges g)) - 1) by lia.
    ring. }
  assert (Hslot : forall i : nat,
    lei_pos g (orientation_idx + direction + Z.of_nat i * direction)
    = slot (S i)).
  { intros i. unfold slot. f_equal. lia. }
  rewrite Hslot in Hres, Hstop.
  exists (S j). split.
  - assert (0 < length (local_edges g))%nat
      by (destruct (local_edges g); [congruence | cbn; lia]).
    lia.
  - split; [| split; [| split; [exact Hstop |]]].
    + unfold getNextConnectedLeiWithHE. rewrite Hg. cbn [mbind option_bind].
      unfold local_edge.
      destruct (local_edges g !! lei_pos g orientation_idx) eqn:Hl.
      * cbn [mbind option_bind]. fold last. rewrite Hres. reflexivity.
      * exfalso. apply lookup_ge_None in Hl.
        pose proof (lei_pos_lt g orientation_idx Hne). lia.
    + apply lookup_lt_is_Some. apply lei_pos_lt, Hne.
    + intros i Hi. destruct i as [| i]; [lia |].
      rewrite <- Hslot. apply Hmin. lia.
Qed.

Lemma getNextConnectedLeiWithHE_finds_witness :
  exists k : nat,
    (1 <= k <= 2)%nat /\
    getNextConnectedLeiWithHE quad_corners (Connected 0) 0 1
    = Some (0%nat, lei_pos (corner 1 3) (0 + Z.of_nat k * 1)) /\
    is_Some (local_edges (corner 1 3)
               !! lei_pos (corner 1 3) (0 + Z.of_nat k * 1)) /\
    stops_at (corner 1 3) (lei_pos (corner 1 3) 0)
             (lei_pos (corner 1 3) (0 + Z.of_nat k * 1)) = true /\
    forall i : nat, (1 <= i < k)%nat ->
      stops_at (corner 1 3) (lei_pos (corner 1 3) 0)
               (lei_pos (corner 1 3) (0 + Z.of_nat i * 1)) = false.
Proof.
  apply (getNextConnectedLeiWithHE_finds quad_corners 0 (corner 1 3) 0 1).
  - reflexivity.
  - discriminate.
Defined.


(** *** What [add_face] writes into [gvertices_] *)

(** A grid vertex with the halfedge indices of its local edges forgotten. *)
Definition forget_halfedges (g : GridVertex) : GridVertex :=
  set_local_edges g (map (fun l => set_halfedgeIndex l (-1)) (local_edges g)).

Lemma map_alter_absorb {A B : Type} (f : A -> B) (g : A -> A) (i : nat)
      (l : list A) :
  (forall x, f (g x) = f x) -> map f (alter g i l) = map f l.
Proof.
  intros Hfg. revert i. induction l as [| x l IH]; intros [| i]; cbn;
    try reflexivity.
  - now rewrite Hfg.
  - f_equal. apply IH.
Qed.

Lemma forget_halfedges_update_lei (gvs : list GridVertex) (r : LeiRef)
      (h : HEH) :
  map forget_halfedges (update_lei gvs r (fun l => set_halfedgeIndex l h))
  = map forget_halfedges gvs.
Proof.
  unfold update_lei. apply map_alter_absorb. intros g.
  unfold forget_halfedges. cbn [set_local_edges local_edges gv_type gv_heh
    position_uv position_3d is_boundary missing_leis].
  f_equal. apply map_alter_absorb. intros l. reflexivity.
Qed.

Lemma get_lei_map (f : LocalEdgeInfo -> LocalEdgeInfo)
      (gvs : list GridVertex) (r : LeiRef) :
  get_lei (map (fun g => set_local_edges g (map f (local_edges g))) gvs) r
  = f <$> get_lei gvs r.
Proof.
  unfold get_lei. rewrite list_lookup_fmap.
  destruct (gvs !! fst r) as [g |]; [| reflexivity].
  cbn [fmap option_fmap option_map set_local_edges local_edges].
  apply list_lookup_fmap.
Qed.

Section AddFaceFrame.

Context {M : Type} `{PolyMeshOps M}.

Lemma new_halfedge_frame (qmesh : M) (gvs : list GridVertex) (r : LeiRef)
      (lei : LocalEdgeInfo) (qmesh' : M) (gvs' : list GridVertex) (h : HEH) :
  new_halfedge qmesh gvs r lei = Some (qmesh', gvs', h) ->
  map forget_halfedges gvs' = map forget_halfedges gvs.
Proof.
  unfold new_halfedge.
  destruct (peer_ref gvs _ _) as [opp |]; cbn [mbind option_bind];
    [| discriminate].
  destruct (get_lei gvs opp) as [ol |]; cbn [mbind option_bind];
    [| discriminate].
  destruct (vertex_of (connected_to_idx ol)) as [from_vh |];
    cbn [mbind option_bind]; [| discriminate].
  destruct (vertex_of (connected_to_idx lei)) as [to_vh |];
    cbn [mbind option_bind]; [| discriminate].
  destruct (pm_new_edge qmesh from_vh to_vh) as [q1 heh0].
  set (gvs2 := update_lei (update_lei gvs r _) opp _).
  destruct (get_lei gvs2 r) as [l2 |]; cbn [mbind option_bind];
    [| discriminate].
  destruct (opposite_neighbours gvs2 l2) as [[n p] |];
    cbn [mbind option_bind]; [| discriminate].
  destruct (get_lei gvs2 n); cbn [mbind option_bind]; [| discriminate].
  destruct (get_lei gvs2 p); cbn [mbind option_bind]; [| discriminate].
  intros E. injection E as _ <- _. subst gvs2.
  now rewrite !forget_halfedges_update_lei.
Qed.

Lemma add_halfedges_frame (newFh : FH) (leis : list LeiRef) :
  forall (first : bool) (qmesh : M) (gvs : list GridVertex) (qmesh' : M)
         (gvs' : list GridVertex),
    add_halfedges newFh first (qmesh, gvs) leis = Some (qmesh', gvs') ->
    map forget_halfedges gvs' = map forget_halfedges gvs.
Proof.
  induction leis as [| r leis IH]; intros first qmesh gvs qmesh' gvs'.
  - cbn. intros E. now injection E as _ <-.
  - cbn [add_halfedges]. unfold add_halfedge at 1.
    destruct (get_lei gvs r) as [lei |]; cbn [mbind option_bind];
      [| discriminate].
    destruct (halfedgeIndex lei =? -1).
    + destruct (new_halfedge qmesh gvs r lei) as [[[q1 gvs1] h] |] eqn:Hn;
        cbn [mbind option_bind]; [| discriminate].
      intros E. apply IH in E. rewrite E.
      exact (new_halfedge_frame _ _ _ _ _ _ _ Hn).
    + cbn [mbind option_bind]. intros E. now apply IH in E.
Qed.

Lemma add_face_frame (qmesh : M) (gvs : list GridVertex)
      (leis : list LeiRef) (fh : FH) (qmesh' : M) (gvs' : list GridVertex) :
  add_face qmesh gvs leis = Returned fh qmesh' gvs' ->
  map forget_halfedges gvs' = map forget_halfedges gvs.
Proof.
  unfold add_face.
  destruct (manifold_check qmesh gvs leis) as [[|] |]; [| | discriminate].
  2:{ intros E. now injection E as _ _ <-. }
  destruct (pm_new_face qmesh) as [q1 newFh].
  destruct (add_halfedges newFh true (q1, gvs) leis) as [[q2 gvs2] |] eqn:Ha;
    cbn [mbind option_bind]; [| discriminate].
  destruct (r ← head leis; get_lei gvs2 r); cbn [mbind option_bind];
    [| discriminate].
  destruct (r ← last leis; get_lei gvs2 r); cbn [mbind option_bind];
    [| discriminate].
  destruct (link_halfedges _ _ _ _ _); cbn [mbind option_bind];
    [| discriminate].
  destruct (adjust_vertices _ _ _); cbn [mbind option_bind]; [| discriminate].
  intros E. injection E as _ _ <-.
  exact (add_halfedges_frame _ _ _ _ _ _ _ Ha).
Qed.

(** X8.  Whatever the outcome of [add_face], the only fields of
    [gvertices_] it writes are halfedge indices of local edge infos: the
    vector keeps its grid vertices, their local edges and every connection,
    orientation index and construction mark. *)
Theorem add_face_only_sets_halfedges (qmesh : M) (gvs : list GridVertex)
        (leis : list LeiRef) :
  match add_face qmesh gvs leis with
  | Returned _ _ gvs' =>
      map forget_halfedges gvs' = map forget_halfedges gvs /\
      length gvs' = length gvs /\
      forall r,
        (fun l => (connected_to_idx l, orientation_idx l, face_constructed l))
          <$> get_lei gvs' r
        = (fun l => (connected_to_idx l, orientation_idx l, face_constructed l))
            <$> get_lei gvs r
  | AddFaceUndefined => True
  end.
Proof.
  destruct (add_face qmesh gvs leis) as [fh q' gvs' |] eqn:Hadd; [| exact I].
  apply add_face_frame in Hadd. split; [exact Hadd |]. split.
  - apply (f_equal length) in Hadd. now rewrite !length_map in Hadd.
  - intros r.
    pose proof (get_lei_map (fun l => set_halfedgeIndex l (-1)) gvs r) as H1.
    pose proof (get_lei_map (fun l => set_halfedgeIndex l (-1)) gvs' r) as H2.
    change (map (fun g => set_local_edges g
                   (map (fun l => set_halfedgeIndex l (-1)) (local_edges g))))
      with (map forget_halfedges) in H1, H2.
    rewrite Hadd, H1 in H2.
    destruct (get_lei gvs r) as [l |], (get_lei gvs' r) as [l' |];
      cbn in H2 |- *; try discriminate; [| reflexivity].
    injection H2 as H2. f_equal.
    destruct l, l'; cbn in *; congruence.
Qed.

End AddFaceFrame.

(** *** The marks of the cycle walk *)

Lemma walk_loop_marks (fuel : nat) :
  forall (i : nat) (gvs : list GridVertex) (vhs : list nat)
         (out : list LeiRef) (cur : ConnIdx) (ori : Z),
    let '(gvs', outcome) := walk_loop fuel i gvs vhs out cur ori in
    exists marked : list LeiRef,
      NoDup marked /\
      (forall r, In r marked ->
         exists l, get_lei gvs r = Some l /\ face_constructed l = false /\
                   get_lei gvs' r = Some (set_face_constructed l true)) /\
      (forall r, ~ In r marked -> get_lei gvs' r = get_lei gvs r) /\
      length gvs' = length gvs /\
      (forall vhs' out', outcome = AddFace vhs' out' -> out' = out ++ marked) /\
      (outcome <> WalkUndefined ->
       forall c g lei,
         cur = Connected c ->
         (c =? i)%nat && negb (length vhs =? 0)%nat = false ->
         (0 < fuel)%nat ->
         gvs !! c = Some g ->
         local_edges g !! lei_pos g ori = Some lei ->
         face_constructed lei = false ->
         In (c, lei_pos g ori) marked).
Proof.
  induction fuel as [| fuel IH]; intros i gvs vhs out cur ori.
  - cbn [walk_loop]. exists []. split; [constructor |].
    split; [intros r [] |]. split; [reflexivity |]. split; [reflexivity |].
    split; [discriminate |]. intros _ c g lei _ _ Hf. lia.
  - cbn [walk_loop].
    assert (Hstop : forall outcome : WalkOutcome,
      (forall vhs' out', outcome = AddFace vhs' out' -> out' = out) ->
      (outcome <> WalkUndefined ->
       forall c g lei,
         cur = Connected c ->
         (c =? i)%nat && negb (length vhs =? 0)%nat = false ->
         gvs !! c = Some g ->
         local_edges g !! lei_pos g ori = Some lei ->
         face_constructed lei = false -> False) ->
      exists marked : list LeiRef,
        NoDup marked /\
        (forall r, In r marked ->
           exists l, get_lei gvs r = Some l /\ face_constructed l = false /\
                     get_lei gvs r = Some (set_face_constructed l true)) /\
        (forall r, ~ In r marked -> get_lei gvs r = get_lei gvs r) /\
        length gvs = length gvs /\
        (forall vhs' out', outcome = AddFace vhs' out' -> out' = out ++ marked) /\
        (outcome <> WalkUndefined ->
         forall c g lei,
           cur = Connected c ->
           (c =? i)%nat && negb (length vhs =? 0)%nat = false ->
           (0 < S fuel)%nat ->
           gvs !! c = Some g ->
           local_edges g !! lei_pos g ori = Some lei ->
           face_constructed lei = false ->
           In (c, lei_pos g ori) marked)).
    { intros outcome Hout Hno. exists []. split; [constructor |].
      split; [intros r [] |]. split; [reflexivity |]. split; [reflexivity |].
      split.
      - intros vhs' out' E. rewrite app_nil_r. eauto.
      - intros Hu c g lei Hc Hb _ Hg Hl Hf. exfalso. eauto. }
    destruct cur as [s | c].
    { apply Hstop; [discriminate |]. intros _ c g lei Hc. discriminate. }
    destruct ((c =? i)%nat && negb (length vhs =? 0)%nat) eqn:Hback.
    { destruct (2 <? length vhs)%nat.
      - apply Hstop.
        + intros vhs' out' E. now injection E as _ <-.
        + intros _ c' g lei Hc Hb. injection Hc as <-. congruence.
      - apply Hstop; [discriminate |].
        intros _ c' g lei Hc Hb. injection Hc as <-. congruence. }
    destruct (gvs !! c) as [g |] eqn:Hg.
    2:{ apply Hstop; [discriminate |]. intros Hu. congruence. }
    destruct (local_edges g !! lei_pos g ori) as [lei |] eqn:Hl.
    2:{ apply Hstop; [discriminate |]. intros Hu. congruence. }
    destruct (face_constructed lei) eqn:Hf.
    { apply Hstop; [discriminate |].
      intros _ c' g' lei' Hc Hb Hg' Hl' Hf'. injection Hc as <-.
      rewrite Hg in Hg'. injection Hg' as <-. rewrite Hl in Hl'.
      injection Hl' as <-. congruence. }
    set (r0 := (c, lei_pos g ori)).
    set (gvs1 := update_lei gvs r0 (fun l => set_face_constructed l true)).
    specialize (IH i gvs1 (vhs ++ [c]) (out ++ [r0]) (connected_to_idx lei)
                   (orientation_idx lei - 1)).
    destruct (walk_loop fuel i gvs1 _ _ _ _) as [gvs' outcome].
    destruct IH as (marked & Hnd & Hin & Hout & Hlen & Hadd & _).
    assert (Hget0 : get_lei gvs r0 = Some lei).
    { unfold get_lei, r0. cbn [fst snd]. now rewrite Hg. }
    assert (Hget1 : get_lei gvs1 r0 = Some (set_face_constructed lei true)).
    { unfold gvs1. rewrite get_lei_update_lei, Hget0.
      case_decide; [reflexivity | congruence]. }
    assert (Hnotin : ~ In r0 marked).
    { intros Hr. destruct (Hin r0 Hr) as (l & Hl1 & Hfl & _).
      rewrite Hget1 in Hl1. injection Hl1 as <-. discriminate. }
    exists (r0 :: marked). split; [| split; [| split; [| split; [| split]]]].
    + constructor; [now rewrite list_elem_of_In | exact Hnd].
    + intros r [<- | Hr].
      * exists lei. split; [exact Hget0 |]. split; [exact Hf |].
        rewrite (Hout r0 Hnotin). exact Hget1.
      * destruct (Hin r Hr) as (l & Hl1 & Hfl & Hl2).
        exists l. split; [| split; [exact Hfl | exact Hl2]].
        unfold gvs1 in Hl1. rewrite get_lei_update_lei in Hl1.
        case_decide; [subst r; contradiction | exact Hl1].
    + intros r Hr. rewrite Hout by (intros Hr'; apply Hr; now right).
      unfold gvs1. rewrite get_lei_update_lei.
      case_decide; [| reflexivity].
      exfalso. apply Hr. left. congruence.
    + rewrite Hlen. unfold gvs1, update_lei. apply length_alter.
    + intros vhs' out' E. rewrite (Hadd _ _ E), <- app_assoc. reflexivity.
    + intros _ c' g' lei' Hc _ _ Hg' _ _. injection Hc as <-.
      rewrite Hg in Hg'. injection Hg' as <-. now left.
Qed.

(** X9.  The cycle walk marks exactly the local edge infos it collects,
    each of them once and none that was marked before: the local edge
    infos handed to [add_face] are pairwise distinct, were not part of any
    face, and are marked as constructed afterwards, while every other local
    edge info is left as it was.  The marks stay when the walk ends
    without a face, and the local edge info the walk starts from is always
    among the marked ones. *)
Theorem walk_cycle_marks (gvs : list GridVertex) (i j : nat) :
  let '(gvs', outcome) := walk_cycle gvs i j in
  exists marked : list LeiRef,
    NoDup marked /\
    (forall r, In r marked ->
       exists l, get_lei gvs r = Some l /\ face_constructed l = false /\
                 get_lei gvs' r = Some (set_face_constructed l true)) /\
    (forall r, ~ In r marked -> get_lei gvs' r = get_lei gvs r) /\
    length gvs' = length gvs /\
    (forall vhs out, outcome = AddFace vhs out -> out = marked) /\
    (outcome <> WalkUndefined ->
     forall lei, get_lei gvs (i, j) = Some lei ->
                 face_constructed lei = false -> In (i, j) marked).
Proof.
  unfold walk_cycle.
  pose proof (walk_loop_marks 100 i gvs [] [] (Connected i) (Z.of_nat j)) as H.
  destruct (walk_loop 100 i gvs [] [] (Connected i) (Z.of_nat j))
    as [gvs' outcome].
  destruct H as (marked & Hnd & Hin & Hout & Hlen & Hadd & Hstart).
  exists marked. split; [exact Hnd |]. split; [exact Hin |].
  split; [exact Hout |]. split; [exact Hlen |]. split.
  - intros vhs out E. exact (Hadd _ _ E).
  - intros Hu lei Hget Hf. unfold get_lei in Hget. cbn [fst snd] in Hget.
    destruct (gvs !! i) as [g |] eqn:Hg; [| discriminate].
    assert (Hpos : lei_pos g (Z.of_nat j) = j).
    { unfold lei_pos. apply lookup_lt_Some in Hget.
      rewrite Z.mod_small by lia. lia. }
    replace (i, j) with (i, lei_pos g (Z.of_nat j)) by now rewrite Hpos.
    apply (Hstart Hu i g lei); try reflexivity; try lia.
    + cbn [length]. now rewrite Nat.eqb_refl, andb_false_r.
    + exact Hg.
    + now rewrite Hpos.
    + exact Hf.
Qed.


(** *** The two loops of [generate_faces_and_store_quadmesh] *)

Section FacePass.

Context {M : Type} `{PolyMeshOps M}.

(** The halfedge property [heLocalUvProp] of the output mesh. *)
Variable U : Type.

(** The block that follows a successful [add_face] ("advance iterator to
    first vertex in list", "transfer halfedge param info onto newly created
    face's halfedges"): it writes [heLocalUvProp] for the halfedges of the
    new face, reads the meshes and [gvertices_] without changing them, and
    may throw, which is [None]. *)
Variable transfer :
  M -> FH -> list nat -> list LeiRef -> list GridVertex -> U -> option U.

(** The body of the two loops for local edge [j] of grid vertex [i]; no
    result where the source is undefined or throws. *)
Definition start_face (st : M * list GridVertex * U) (i j : nat)
  : option (M * list GridVertex * U) :=
  let '(qmesh, gvs, uvs) := st in
  g ← gvs !! i;
  lei ← local_edges g !! j;
  if face_constructed lei then Some st
  else
    let '(gvs, outcome) := walk_cycle gvs i j in
    match outcome with
    | WalkUndefined => None
    | NoFace => Some (qmesh, gvs, uvs)
    | AddFace face_vhs outgoing_he_info =>
        match add_face qmesh gvs outgoing_he_info with
        | AddFaceUndefined => None
        | Returned fh qmesh gvs =>
            if negb (is_valid fh) then Some (qmesh, gvs, uvs)
            else
              uvs ← transfer qmesh fh face_vhs outgoing_he_info gvs uvs;
              Some (qmesh, gvs, uvs)
        end
    end.

(** The loop over the local edges of grid vertex [i]. *)
Fixpoint start_faces_at (st : M * list GridVertex * U) (i : nat)
         (js : list nat) : option (M * list GridVertex * U) :=
  match js with
  | [] => Some st
  | j :: js' => st ← start_face st i j; start_faces_at st i js'
  end.

(** The loop over the grid vertices. *)
Fixpoint start_faces (st : M * list GridVertex * U) (idxs : list nat)
  : option (M * list GridVertex * U) :=
  match idxs with
  | [] => Some st
  | i :: idxs' =>
      g ← snd (fst st) !! i;
      st ← start_faces_at st i (seq 0 (length (local_edges g)));
      start_faces st idxs'
  end.

(** The two loops that assemble the faces. *)
Definition assemble_faces (qmesh : M) (gvs : list GridVertex) (uvs : U)
  : option (M * list GridVertex * U) :=
  start_faces (qmesh, gvs, uvs) (seq 0 (length gvs)).

End FacePass.

(** A grid vertex with what the face assembler writes forgotten: the
    halfedge indices and the construction marks of its local edges. *)
Definition forget_assembly (g : GridVertex) : GridVertex :=
  set_local_edges g
    (map (fun l => set_face_constructed (set_halfedgeIndex l (-1)) false)
         (local_edges g)).

Definition constructed_at (gvs : list GridVertex) (r : LeiRef) : Prop :=
  exists l, get_lei gvs r = Some l /\ face_constructed l = true.

Lemma forget_assembly_update_mark (gvs : list GridVertex) (r : LeiRef)
      (b : bool) :
  map forget_assembly (update_lei gvs r (fun l => set_face_constructed l b))
  = map forget_assembly gvs.
Proof.
  unfold update_lei. apply map_alter_absorb. intros g.
  unfold forget_assembly. cbn [set_local_edges local_edges gv_type gv_heh
    position_uv position_3d is_boundary missing_leis].
  f_equal. apply map_alter_absorb. intros l. reflexivity.
Qed.

Lemma walk_loop_frame (fuel : nat) :
  forall (i : nat) (gvs : list GridVertex) (vhs : list nat)
         (out : list LeiRef) (cur : ConnIdx) (ori : Z),
    map forget_assembly (fst (walk_loop fuel i gvs vhs out cur ori))
    = map forget_assembly gvs.
Proof.
  induction fuel as [| fuel IH]; intros i gvs vhs out cur ori;
    [reflexivity |].
  cbn [walk_loop]. destruct cur as [s | c]; [reflexivity |].
  destruct (_ && _). { now destruct (2 <? length vhs)%nat. }
  destruct (gvs !! c) as [g |]; [| reflexivity].
  destruct (local_edges g !! _) as [lei |]; [| reflexivity].
  destruct (face_constructed lei); [reflexivity |].
  rewrite IH. apply forget_assembly_update_mark.
Qed.

Lemma forget_halfedges_assembly (gvs gvs' : list GridVertex) :
  map forget_halfedges gvs' = map forget_halfedges gvs ->
  map forget_assembly gvs' = map forget_assembly gvs.
Proof.
  intros E.
  assert (Hfa : forall g, forget_assembly g = forget_assembly (forget_halfedges g)).
  { intros g. unfold forget_assembly, forget_halfedges.
    cbn [set_local_edges local_edges gv_type gv_heh position_uv position_3d
         is_boundary missing_leis].
    f_equal. rewrite map_map. reflexivity. }
  rewrite (map_ext _ _ Hfa gvs), (map_ext _ _ Hfa gvs').
  rewrite <- !(map_map forget_halfedges forget_assembly). now rewrite E.
Qed.

Lemma forget_halfedges_constructed (gvs gvs' : list GridVertex) (r : LeiRef) :
  map forget_halfedges gvs' = map forget_halfedges gvs ->
  constructed_at gvs r -> constructed_at gvs' r.
Proof.
  intros E (l & Hl & Hf).
  pose proof (get_lei_map (fun l => set_halfedgeIndex l (-1)) gvs r) as H1.
  pose proof (get_lei_map (fun l => set_halfedgeIndex l (-1)) gvs' r) as H2.
  fold forget_halfedges in H1, H2.
  change (fun g => set_local_edges g
            (map (fun l => set_halfedgeIndex l (-1)) (local_edges g)))
    with forget_halfedges in H1, H2.
  rewrite E, H1, Hl in H2.
  destruct (get_lei gvs' r) as [l' |] eqn:Hl'; [| discriminate].
  exists l'. split; [exact Hl' |]. cbn in H2. injection H2 as H2.
  rewrite <- Hf. now destruct l, l'; cbn in *; congruence.
Qed.

Lemma forget_assembly_get_lei (gvs gvs' : list GridVertex) (r : LeiRef) :
  map forget_assembly gvs' = map forget_assembly gvs ->
  is_Some (get_lei gvs' r) -> is_Some (get_lei gvs r).
Proof.
  intros E [l' Hl'].
  pose proof (get_lei_map
    (fun l => set_face_constructed (set_halfedgeIndex l (-1)) false) gvs r) as H1.
  pose proof (get_lei_map
    (fun l => set_face_constructed (set_halfedgeIndex l (-1)) false) gvs' r) as H2.
  change (fun g => set_local_edges g
            (map (fun l => set_face_constructed (set_halfedgeIndex l (-1)) false)
                 (local_edges g)))
    with forget_assembly in H1, H2.
  rewrite E, H1, Hl' in H2.
  destruct (get_lei gvs r); [eauto | discriminate].
Qed.

Section FacePassMarks.

Context {M : Type} `{PolyMeshOps M}.
Variable U : Type.
Variable transfer :
  M -> FH -> list nat -> list LeiRef -> list GridVertex -> U -> option U.

Lemma start_face_marks (qmesh : M) (gvs : list GridVertex) (uvs : U)
      (i j : nat) (qmesh' : M) (gvs' : list GridVertex) (uvs' : U) :
  start_face U transfer (qmesh, gvs, uvs) i j = Some (qmesh', gvs', uvs') ->
  map forget_assembly gvs' = map forget_assembly gvs /\
  (forall r, constructed_at gvs r -> constructed_at gvs' r) /\
  constructed_at gvs' (i, j).
Proof.
  unfold start_face.
  destruct (gvs !! i) as [g |] eqn:Hg; cbn [mbind option_bind];
    [| discriminate].
  destruct (local_edges g !! j) as [lei |] eqn:Hl; cbn [mbind option_bind];
    [| discriminate].
  assert (Hget : get_lei gvs (i, j) = Some lei).
  { unfold get_lei. cbn [fst snd]. now rewrite Hg. }
  destruct (face_constructed lei) eqn:Hf.
  { intros E. injection E as <- <- <-. split; [reflexivity |].
    split; [auto |]. now exists lei. }
  pose proof (walk_loop_marks 100 i gvs [] [] (Connected i) (Z.of_nat j))
    as Hw.
  pose proof (walk_loop_frame 100 i gvs [] [] (Connected i) (Z.of_nat j))
    as Hframe.
  fold (walk_cycle gvs i j) in Hframe, Hw.
  destruct (walk_cycle gvs i j) as [gvs1 outcome]. cbn [fst] in Hframe.
  destruct Hw as (marked & Hnd & Hin & Hout & Hlen & Hadd & Hstart0).
  assert (Hpos : lei_pos g (Z.of_nat j) = j).
  { unfold lei_pos. apply lookup_lt_Some in Hl.
    rewrite Z.mod_small by lia. lia. }
  assert (Hstart : outcome <> WalkUndefined -> In (i, j) marked).
  { intros Hu.
    replace (i, j) with (i, lei_pos g (Z.of_nat j)) by now rewrite Hpos.
    apply (Hstart0 Hu i g lei); try reflexivity; try lia.
    - cbn [length]. now rewrite Nat.eqb_refl, andb_false_r.
    - exact Hg.
    - now rewrite Hpos.
    - exact Hf. }
  assert (Hmono : forall r, constructed_at gvs r -> constructed_at gvs1 r).
  { intros r (l & Hl1 & Hf1).
    destruct (decide (r ∈ marked)) as [Hr | Hr]; rewrite list_elem_of_In in Hr.
    - destruct (Hin r Hr) as (l0 & Hl0 & _ & Hl0').
      exists (set_face_constructed l0 true). now split.
    - exists l. rewrite (Hout r Hr). now split. }
  assert (Hhere : outcome <> WalkUndefined -> constructed_at gvs1 (i, j)).
  { intros Hu. destruct (Hin (i, j) (Hstart Hu)) as (l0 & _ & _ & Hl0').
    exists (set_face_constructed l0 true). now split. }
  destruct outcome as [vhs out | |]; [| | discriminate].
  - destruct (add_face qmesh gvs1 out) as [fh q2 gvs2 |] eqn:Hadd';
      [| discriminate].
    apply add_face_frame in Hadd'.
    assert (Hres : map forget_assembly gvs2 = map forget_assembly gvs /\
                   (forall r, constructed_at gvs r -> constructed_at gvs2 r) /\
                   constructed_at gvs2 (i, j)).
    { split; [| split].
      - rewrite (forget_halfedges_assembly _ _ Hadd'). exact Hframe.
      - intros r Hr. apply (forget_halfedges_constructed gvs1 gvs2 r Hadd').
        now apply Hmono.
      - apply (forget_halfedges_constructed gvs1 gvs2 _ Hadd').
        apply Hhere. discriminate. }
    destruct (negb (is_valid fh)).
    + intros E. injection E as <- <- <-. exact Hres.
    + destruct (transfer q2 fh vhs out gvs2 uvs); cbn [mbind option_bind];
        [| discriminate].
      intros E. injection E as <- <- <-. exact Hres.
  - intros E. injection E as <- <- <-.
    split; [exact Hframe |]. split; [exact Hmono |].
    apply Hhere. discriminate.
Qed.

Lemma start_faces_at_marks (i : nat) (js : list nat) :
  forall (qmesh : M) (gvs : list GridVertex) (uvs : U) (qmesh' : M)
         (gvs' : list GridVertex) (uvs' : U),
    start_faces_at U transfer (qmesh, gvs, uvs) i js
    = Some (qmesh', gvs', uvs') ->
    map forget_assembly gvs' = map forget_assembly gvs /\
    (forall r, constructed_at gvs r -> constructed_at gvs' r) /\
    (forall j, In j js -> constructed_at gvs' (i, j)).
Proof.
  induction js as [| j js IH]; intros qmesh gvs uvs qmesh' gvs' uvs'.
  - cbn. intros E. injection E as <- <- <-.
    split; [reflexivity |]. split; [auto |]. intros j [].
  - cbn [start_faces_at].
    destruct (start_face U transfer (qmesh, gvs, uvs) i j)
      as [[[q1 gvs1] u1] |] eqn:Hs; cbn [mbind option_bind]; [| discriminate].
    intros E. apply IH in E. destruct E as (Hfr & Hmono & Hjs).
    apply start_face_marks in Hs. destruct Hs as (Hfr1 & Hmono1 & Hj).
    split; [now rewrite Hfr |]. split; [auto |].
    intros j' [<- | Hj']; auto.
Qed.

Lemma start_faces_marks (idxs : list nat) :
  forall (qmesh : M) (gvs : list GridVertex) (uvs : U) (qmesh' : M)
         (gvs' : list GridVertex) (uvs' : U),
    start_faces U transfer (qmesh, gvs, uvs) idxs
    = Some (qmesh', gvs', uvs') ->
    map forget_assembly gvs' = map forget_assembly gvs /\
    (forall r, constructed_at gvs r -> constructed_at gvs' r) /\
    (forall i j, In i idxs -> is_Some (get_lei gvs (i, j)) ->
                 constructed_at gvs' (i, j)).
Proof.
  induction idxs as [| i idxs IH]; intros qmesh gvs uvs qmesh' gvs' uvs'.
  - cbn. intros E. injection E as <- <- <-.
    split; [reflexivity |]. split; [auto |]. intros i j [].
  - cbn [start_faces fst snd].
    destruct (gvs !! i) as [g |] eqn:Hg; cbn [mbind option_bind];
      [| discriminate].
    destruct (start_faces_at U transfer (qmesh, gvs, uvs) i _)
      as [[[q1 gvs1] u1] |] eqn:Hs; cbn [mbind option_bind]; [| discriminate].
    intros E. apply IH in E. destruct E as (Hfr & Hmono & Hrest).
    apply start_faces_at_marks in Hs. destruct Hs as (Hfr1 & Hmono1 & Hjs).
    split; [now rewrite Hfr |]. split; [auto |].
    intros i' j [<- | Hi'] Hsome.
    + apply Hmono, Hjs. apply in_seq.
      destruct Hsome as [l Hl]. unfold get_lei in Hl. cbn [fst snd] in Hl.
      rewrite Hg in Hl. apply lookup_lt_Some in Hl. lia.
    + apply Hrest; [exact Hi' |].
      apply (forget_assembly_get_lei gvs1 gvs). { now rewrite Hfr1. }
      exact Hsome.
Qed.

(** X10.  After the two loops of [generate_faces_and_store_quadmesh] every
    local edge info of every grid vertex is marked as constructed, so each
    was the start of a walk or was collected by one; and the loops write
    nothing into [gvertices_] but these marks and halfedge indices. *)
Theorem assemble_faces_consumes_all (qmesh : M) (gvs : list GridVertex)
        (uvs : U) :
  match assemble_faces U transfer qmesh gvs uvs with
  | Some (_, gvs', _) =>
      map forget_assembly gvs' = map forget_assembly gvs /\
      forall r l, get_lei gvs' r = Some l -> face_constructed l = true
  | None => True
  end.
Proof.
  unfold assemble_faces.
  destruct (start_faces U transfer (qmesh, gvs, uvs) (seq 0 (length gvs)))
    as [[[q' gvs'] u'] |] eqn:Hs; [| exact I].
  apply start_faces_marks in Hs. destruct Hs as (Hfr & _ & Hall).
  split; [exact Hfr |]. intros [i j] l Hl.
  assert (Hsome : is_Some (get_lei gvs (i, j))).
  { apply (forget_assembly_get_lei gvs gvs'); [now rewrite Hfr | eauto]. }
  destruct (Hall i j) as (l' & Hl' & Hf'); [| exact Hsome |].
  - apply in_seq. destruct Hsome as [l0 Hl0]. unfold get_lei in Hl0.
    cbn [fst snd] in Hl0. destruct (gvs !! i) eqn:Hg; [| discriminate].
    apply lookup_lt_Some in Hg. lia.
  - congruence.
Qed.

End FacePassMarks.

(** The loops on the four corners of a quad, with a container that only
    records the face of each halfedge: both faces of the closed surface are
    created and all eight local edge infos are marked. *)
Example assemble_faces_run :
  match assemble_faces unit (fun _ _ _ _ _ u => Some u) ([] : list FH)
                       quad_corners tt with
  | Some (qmesh', gvs', _) =>
      length qmesh' = 8%nat /\
      map (fun g => map face_constructed (local_edges g)) gvs'
      = [[true; true]; [true; true]; [true; true]; [true; true]]
  | None => False
  end.
Proof. vm_compute. split; reflexivity. Qed.

(** ** More on the tracer and the connector *)

(** *** What [find_path] hands to [find_local_connection] *)

Lemma transform_point_comp (f : TF.t) (p q : Point_2) :
  Peq p q -> Peq (TF.transform_point f p) (TF.transform_point f q).
Proof.
  destruct p as [px py], q as [qx qy]. intros [Hx Hy]. cbn [fst snd] in Hx, Hy.
  unfold TF.transform_point, TF.rotQ, Peq.
  mod4 (TF.r f); rewrite Hm; cbn [fst snd]; split; lra.
Qed.

Lemma transform_point_identity (p : Point_2) :
  Peq (TF.transform_point TF.IDENTITY p) p.
Proof.
  destruct p as [x y].
  unfold TF.transform_point, TF.rotQ, Peq, TF.IDENTITY, TF.identity.
  cbn [TF.r TF.tu TF.tv]. change (0 mod 4) with 0. cbn [fst snd].
  change (inject_Z 0) with 0%Q. split; ring.
Qed.

(** The product of transition functions acts as their composition. *)
Lemma transform_point_mul (a b : TF.t) (p : Point_2) :
  Peq (TF.transform_point (a ** b) p)
      (TF.transform_point a (TF.transform_point b p)).
Proof.
  destruct p as [x y]. rewrite mul_unfold.
  unfold TF.transform_point, TF.rotQ, TF.rotZ, Peq. cbn [TF.r TF.tu TF.tv].
  rewrite Z.mod_mod by lia. rewrite (Z.add_mod (TF.r a) (TF.r b) 4) by lia.
  mod4 (TF.r a); mod4 (TF.r b); rewrite Hm, Hm0;
    repeat match goal with
    | |- context [(?u + ?v) mod 4] =>
        let w := eval vm_compute in ((u + v) mod 4) in
        change ((u + v) mod 4) with w
    end;
    cbn [fst snd]; rewrite ?inject_Z_plus, ?inject_Z_opp; split; ring.
Qed.

Section FindPathInvariant.

Variable m : TriMesh.
Variable uv : list Q.
Variable edge_valid_ : list bool.
Variable tf_ : list TF.t.
Variable find_local_connection :
  Point_2 -> Point_2 -> Point_2 -> Triangle_2 -> HEH -> HEH -> HEH ->
  BOUNDEDNESS -> TF.t -> FindPathResult.

(** The local edge info whose path is traced, and whether its start
    triangle has negative orientation. *)
Variable lei : LocalEdgeInfo.
Variable inverted0 : bool.

(** How the points that travel with the walk relate to the local edge
    info, for the accumulated transition [acc]: [uv_original_from] is the
    image of its start point, and [uv_from] and [uv_to] are the images of
    its start point and of its intended end point, exchanged exactly when
    [inverted] differs from [inverted0]. *)
Definition travels_with (p_from p_original_from p_to : Point_2)
           (acc : TF.t) (inverted : bool) : Prop :=
  Peq p_original_from (TF.transform_point acc (uv_from lei)) /\
  if eqb inverted inverted0
  then Peq p_from (TF.transform_point acc (uv_from lei)) /\
       Peq p_to (TF.transform_point acc (uv_intended_to lei))
  else Peq p_from (TF.transform_point acc (uv_intended_to lei)) /\
       Peq p_to (TF.transform_point acc (uv_from lei)).

(** The arguments of a call of [find_local_connection]. *)
Definition call_in_chart (p_from p_original_from p_to : Point_2)
           (tri : Triangle_2) (heh0 heh1 heh2 : HEH) (bs : BOUNDEDNESS)
           (acc : TF.t) : Prop :=
  heh1 = next_halfedge_handle m heh0 /\
  heh2 = next_halfedge_handle m heh1 /\
  tri = mkTriangle (uv_point uv heh0) (uv_point uv heh1) (uv_point uv heh2) /\
  bs = boundedness tri p_to /\
  bs <> BND_ON_UNBOUNDED_SIDE /\
  travels_with p_from p_original_from p_to acc
               (ORIENTATION_eqb (tri_orientation tri) ORI_NEGATIVE).

Variable P : FindPathResult -> Prop.
Hypothesis P_signal : forall s : Sentinel, P (FPR_Signal s).
Hypothesis P_call :
  forall p_from p_original_from p_to tri heh0 heh1 heh2 bs acc,
    call_in_chart p_from p_original_from p_to tri heh0 heh1 heh2 bs acc ->
    P (find_local_connection p_from p_original_from p_to tri
                             heh0 heh1 heh2 bs acc).

Definition state_travels (st : WalkState) : Prop :=
  travels_with (ws_uv_from st) (ws_uv_original_from st) (ws_uv_to st)
               (ws_accumulated_tf st) (ws_inverted st).

Lemma cross_edge_travels (st : WalkState) (heh : HEH) :
  state_travels st ->
  match cross_edge m edge_valid_ tf_ st heh with
  | inl result => P result
  | inr st' => state_travels st'
  end.
Proof.
  intros [Ho Hft]. unfold cross_edge.
  destruct (negb (edge_valid m edge_valid_ heh)); [apply P_signal |].
  unfold state_travels, travels_with.
  cbn [ws_uv_from ws_uv_original_from ws_uv_to ws_accumulated_tf ws_inverted].
  set (tf := transition_h m tf_ heh).
  assert (Hstep : forall p q : Point_2,
    Peq p (TF.transform_point (ws_accumulated_tf st) q) ->
    Peq (TF.transform_point tf p)
        (TF.transform_point (tf ** ws_accumulated_tf st) q)).
  { intros p q Hpq. apply Peq_sym.
    apply (Peq_trans _ _ _ (transform_point_mul _ _ _)).
    apply transform_point_comp, Peq_sym, Hpq. }
  split; [now apply Hstep |].
  destruct (eqb (ws_inverted st) inverted0); destruct Hft as [H1 H2];
    split; now apply Hstep.
Qed.

Lemma walk_body_travels (st : WalkState) :
  state_travels st ->
  match walk_body m uv edge_valid_ tf_ find_local_connection st with
  | inl result => P result
  | inr st' => state_travels st'
  end.
Proof.
  intros [Ho Hft]. unfold walk_body.
  destruct (is_boundary_h m (ws_cur_heh st)); [apply P_signal |].
  cbv zeta.
  set (heh0 := ws_cur_heh st).
  set (heh1 := next_halfedge_handle m heh0).
  set (heh2 := next_halfedge_handle m heh1).
  set (tri := mkTriangle (uv_point uv heh0) (uv_point uv heh1)
                         (uv_point uv heh2)).
  destruct (_ && _); [apply P_signal |].
  set (cur := ORIENTATION_eqb (tri_orientation tri) ORI_NEGATIVE).
  set (swap := negb (eqb cur (ws_inverted st))).
  set (uv_from' := if swap then ws_uv_to st else ws_uv_from st).
  set (uv_to' := if swap then ws_uv_from st else ws_uv_to st).
  assert (Hst : travels_with uv_from' (ws_uv_original_from st) uv_to'
                             (ws_accumulated_tf st) cur).
  { split; [exact Ho |]. subst uv_from' uv_to' swap.
    destruct cur, (ws_inverted st), inverted0; cbn in *; tauto. }
  destruct (boundedness tri uv_to') eqn:Hbs.
  - apply P_call. unfold call_in_chart. fold tri cur.
    repeat split; try reflexivity; try (symmetry; exact Hbs);
      try discriminate; apply Hst.
  - apply P_call. unfold call_in_chart. fold tri cur.
    repeat split; try reflexivity; try (symmetry; exact Hbs);
      try discriminate; apply Hst.
  - destruct (pick_exit _ _ _ _ _ _ _ _) as [heh_upd |]; [| apply P_signal].
    destruct (negb (is_valid heh_upd)); [apply P_signal |].
    apply cross_edge_travels. exact Hst.
Qed.

Lemma main_walking_loop_travels (fuel : nat) :
  forall st : WalkState,
    state_travels st ->
    P (main_walking_loop m uv edge_valid_ tf_ find_local_connection fuel st).
Proof.
  induction fuel as [| fuel IH]; intros st Hst; [apply P_signal |].
  cbn [main_walking_loop].
  pose proof (walk_body_travels st Hst) as Hb.
  destruct (walk_body _ _ _ _ _ st) as [result | st']; [exact Hb |].
  now apply IH.
Qed.

End FindPathInvariant.

(** X11.  Every result of [find_path] is a signal, the error, or the
    result of a call of [find_local_connection] whose arguments are
    related to the traced local edge info as follows: the accumulated
    transition maps its start point to [uv_original_from]; it maps its
    start point and its intended end point to [uv_from] and [uv_to], the
    two being exchanged exactly when the triangle of the call and the start
    triangle differ in having negative orientation; the triangle is the
    parameter triangle of the three halfedges passed, and the end point is
    not outside of it.  (Stated for an arbitrary property [P] of results.) *)
Theorem find_path_calls_in_chart (m : TriMesh) (uv : list Q)
        (edge_valid_ : list bool) (tf_ : list TF.t)
        (find_local_connection :
           Point_2 -> Point_2 -> Point_2 -> Triangle_2 -> HEH -> HEH -> HEH ->
           BOUNDEDNESS -> TF.t -> FindPathResult)
        (gv : GridVertex) (lei : LocalEdgeInfo)
        (P : FindPathResult -> Prop) :
  let inverted0 :=
    ORIENTATION_eqb (triangleUvOrientation m uv (fh_from lei)) ORI_NEGATIVE in
  (forall s : Sentinel, P (FPR_Signal s)) ->
  (forall p_from p_original_from p_to tri heh0 heh1 heh2 bs acc,
      call_in_chart m uv lei inverted0 p_from p_original_from p_to tri
                    heh0 heh1 heh2 bs acc ->
      P (find_local_connection p_from p_original_from p_to tri
                               heh0 heh1 heh2 bs acc)) ->
  P (find_path m uv edge_valid_ tf_ find_local_connection gv lei).
Proof.
  intros inverted0 Hsig Hcall. unfold find_path. cbv zeta.
  set (heh0 := halfedge_handle_f m (fh_from lei)).
  set (heh1 := next_halfedge_handle m heh0).
  set (heh2 := next_halfedge_handle m heh1).
  set (tri := mkTriangle (uv_point uv heh0) (uv_point uv heh1)
                         (uv_point uv heh2)).
  assert (Hinv : ORIENTATION_eqb (tri_orientation tri) ORI_NEGATIVE = inverted0)
    by reflexivity.
  assert (Hst : travels_with lei inverted0 (uv_from lei) (uv_from lei)
                             (uv_intended_to lei) TF.IDENTITY inverted0).
  { unfold travels_with. rewrite eqb_reflx.
    repeat split; apply Peq_sym, transform_point_identity. }
  destruct (boundedness tri (uv_intended_to lei)) eqn:Hbs.
  - apply Hcall. unfold call_in_chart. fold tri. rewrite Hinv.
    repeat split; try reflexivity; try (symmetry; exact Hbs);
      try discriminate; apply Hst.
  - apply Hcall. unfold call_in_chart. fold tri. rewrite Hinv.
    repeat split; try reflexivity; try (symmetry; exact Hbs);
      try discriminate; apply Hst.
  - destruct (first_exit _ _ _ _ _ _ _ _ _ _ _) as [cur_heh |];
      [| apply Hsig].
    destruct (negb (is_valid cur_heh)); [apply Hsig |].
    pose proof (cross_edge_travels m edge_valid_ tf_ lei inverted0 P Hsig
                  (mkWalkState cur_heh (uv_from lei) (uv_from lei)
                               (uv_intended_to lei) TF.IDENTITY
                               (ORIENTATION_eqb (tri_orientation tri)
                                                ORI_NEGATIVE))
                  cur_heh) as Hc.
    rewrite Hinv in Hc. specialize (Hc Hst). rewrite Hinv.
    destruct (cross_edge _ _ _ _ _) as [result | st]; [exact Hc |].
    apply (main_walking_loop_travels m uv edge_valid_ tf_
             find_local_connection lei inverted0 P Hsig Hcall).
    exact Hc.
Qed.

(** A tracer stub that answers every call with a connection to grid vertex
    [0] and passes on the points and the transition it was given. *)
Definition echo_connection (p_from p_original_from p_to : Point_2)
           (tri : Triangle_2) (heh0 heh1 heh2 : HEH) (bs : BOUNDEDNESS)
           (acc : TF.t) : FindPathResult :=
  mkFPR (Connected 0) 0 p_original_from p_to acc.

Lemma find_path_calls_in_chart_witness :
  match fpr_connected_to_idx
          (find_path square_mesh diagonal_uv [true; true; true; true; true] []
                     echo_connection diagonal_gvertex
                     (new_LEI 0 (1, 1)%Q (2, 1)%Q)) with
  | Reserved _ => True
  | Connected _ =>
      Peq (fpr_uv_from
             (find_path square_mesh diagonal_uv [true; true; true; true; true]
                        [] echo_connection diagonal_gvertex
                        (new_LEI 0 (1, 1)%Q (2, 1)%Q)))
          (TF.transform_point
             (fpr_accumulated_tf
                (find_path square_mesh diagonal_uv
                           [true; true; true; true; true] [] echo_connection
                           diagonal_gvertex (new_LEI 0 (1, 1)%Q (2, 1)%Q)))
             (1, 1)%Q)
  end.
Proof.
  apply (find_path_calls_in_chart square_mesh diagonal_uv
           [true; true; true; true; true] [] echo_connection diagonal_gvertex
           (new_LEI 0 (1, 1)%Q (2, 1)%Q)
           (fun r => match fpr_connected_to_idx r with
                     | Reserved _ => True
                     | Connected _ =>
                         Peq (fpr_uv_from r)
                             (TF.transform_point (fpr_accumulated_tf r)
                                                 (1, 1)%Q)
                     end)).
  - intros s. exact I.
  - intros p_from p_original_from p_to tri heh0 heh1 heh2 bs acc Hcall.
    cbn [echo_connection fpr_connected_to_idx fpr_uv_from fpr_accumulated_tf].
    apply Hcall.
Defined.


(** *** What the connector writes into [gvertices_] *)

(** A local edge info with its connection forgotten, and a grid vertex with
    the connections of its local edges and its boundary tag forgotten. *)
Definition forget_connection (l : LocalEdgeInfo) : LocalEdgeInfo :=
  mkLEI (fh_from l) (uv_from l) (uv_intended_to l) (0, 0)%Q
        (Reserved LECI_Unconnected) 0 TF.IDENTITY
        (halfedgeIndex l) (face_constructed l).

Definition forget_connections (g : GridVertex) : GridVertex :=
  mkGV (gv_type g) (gv_heh g) (position_uv g) (position_3d g) false
       (missing_leis g) (map forget_connection (local_edges g)).

(** A grid vertex that holds a local edge info traced into the boundary of
    the input mesh is tagged as boundary. *)
Definition boundary_tagged (g : GridVertex) : Prop :=
  (exists l, In l (local_edges g) /\
             connected_to_idx l = Reserved LECI_Traced_Into_Boundary) ->
  is_boundary g = true.

(** What a step of the connector keeps. *)
Record connector_keeps (gvs gvs' : list GridVertex) : Prop := {
  keeps_frame : map forget_connections gvs' = map forget_connections gvs;
  keeps_connected :
    forall r l, get_lei gvs r = Some l -> isConnected l = true ->
                get_lei gvs' r = Some l;
  keeps_tag :
    forall i g, gvs !! i = Some g -> is_boundary g = true ->
                exists g', gvs' !! i = Some g' /\ is_boundary g' = true;
  keeps_tagged :
    Forall boundary_tagged gvs -> Forall boundary_tagged gvs'
}.

Lemma connector_keeps_refl (gvs : list GridVertex) : connector_keeps gvs gvs.
Proof. split; eauto. Qed.

Lemma connector_keeps_trans (a b c : list GridVertex) :
  connector_keeps a b -> connector_keeps b c -> connector_keeps a c.
Proof.
  intros [F1 C1 T1 A1] [F2 C2 T2 A2]. split.
  - now rewrite F2.
  - intros r l Hl Hc. apply C2; [now apply C1 | exact Hc].
  - intros i g Hg Hb. destruct (T1 i g Hg Hb) as (g1 & Hg1 & Hb1). eauto.
  - auto.
Qed.

Lemma In_alter {A : Type} (f : A -> A) (p : nat) (ls : list A) (x : A) :
  In x (alter f p ls) -> In x ls \/ exists y, ls !! p = Some y /\ x = f y.
Proof.
  revert p. induction ls as [| a ls IH]; intros p Hin; [destruct Hin |].
  destruct p as [| p]; cbn in Hin.
  - destruct Hin as [<- | Hin]; [right; now exists a | left; now right].
  - destruct Hin as [<- | Hin]; [left; now left |].
    destruct (IH p Hin) as [H | (y & Hy & ->)]; [left; now right |].
    right. now exists y.
Qed.

Lemma Forall_alter_intro {A : Type} (P : A -> Prop) (f : A -> A) (i : nat)
      (l : list A) :
  Forall P l -> (forall x, l !! i = Some x -> P x -> P (f x)) ->
  Forall P (alter f i l).
Proof.
  intros Hall Hf. apply Forall_forall. intros x Hx.
  apply list_elem_of_lookup_1 in Hx. destruct Hx as [k Hk].
  destruct (decide (k = i)) as [-> | Hne].
  - rewrite list_lookup_alter_eq in Hk.
    destruct (l !! i) as [y |] eqn:Hy; [| discriminate].
    cbn in Hk. injection Hk as <-. apply Hf; [reflexivity |].
    rewrite Forall_forall in Hall. apply Hall.
    now apply (list_elem_of_lookup_2 _ i).
  - rewrite list_lookup_alter_ne in Hk by congruence.
    rewrite Forall_forall in Hall. apply Hall.
    now apply (list_elem_of_lookup_2 _ k).
Qed.

(** A write into a local edge info that is not connected, with a value
    that is not the boundary signal. *)
Lemma connector_keeps_update (gvs : list GridVertex) (r : LeiRef)
      (f : LocalEdgeInfo -> LocalEdgeInfo) :
  (forall l, get_lei gvs r = Some l -> isConnected l = false) ->
  (forall l, forget_connection (f l) = forget_connection l) ->
  (forall l, connected_to_idx (f l) <> Reserved LECI_Traced_Into_Boundary) ->
  connector_keeps gvs (update_lei gvs r f).
Proof.
  intros Hfree Hfr Hsig. split.
  - unfold update_lei. apply map_alter_absorb. intros g.
    unfold forget_connections. cbn [set_local_edges local_edges gv_type gv_heh
      position_uv position_3d is_boundary missing_leis].
    f_equal. now apply map_alter_absorb.
  - intros r' l Hl Hc. rewrite get_lei_update_lei. case_decide; [| exact Hl].
    subst r'. rewrite (Hfree l Hl) in Hc. discriminate.
  - intros i g Hg Hb. unfold update_lei.
    destruct (decide (i = fst r)) as [-> | Hne].
    + rewrite list_lookup_alter_eq, Hg. cbn. eauto.
    + rewrite list_lookup_alter_ne by congruence. eauto.
  - intros Hall. unfold update_lei. apply Forall_alter_intro; [exact Hall |].
    intros g _ Hg (l & Hin & Hl). cbn [set_local_edges local_edges] in Hin.
    cbn [set_local_edges is_boundary].
    apply In_alter in Hin. destruct Hin as [Hin | (y & _ & ->)].
    + apply Hg. eauto.
    + now apply Hsig in Hl.
Qed.

(** The write of a tracer result into an unconnected local edge info,
    followed by the boundary tag when the result is the boundary signal. *)
Lemma connector_keeps_target (gvs : list GridVertex) (i j : nat)
      (target : FindPathResult) :
  (forall l, get_lei gvs (i, j) = Some l -> isConnected l = false) ->
  connector_keeps gvs
    (match fpr_connected_to_idx target with
     | Reserved LECI_Traced_Into_Boundary =>
         alter (fun g => set_is_boundary g true) i
               (update_lei gvs (i, j) (applyToLocalEdgeInfo target))
     | _ => update_lei gvs (i, j) (applyToLocalEdgeInfo target)
     end).
Proof.
  intros Hfree.
  assert (Hplain :
    fpr_connected_to_idx target <> Reserved LECI_Traced_Into_Boundary ->
    connector_keeps gvs (update_lei gvs (i, j) (applyToLocalEdgeInfo target))).
  { intros Hn. apply connector_keeps_update; [exact Hfree | reflexivity |].
    intros l. exact Hn. }
  destruct (fpr_connected_to_idx target) as [[| | | |] | c] eqn:Ht;
    try (apply Hplain; discriminate).
  clear Hplain. split.
  - rewrite map_alter_absorb by reflexivity.
    unfold update_lei. apply map_alter_absorb. intros g.
    unfold forget_connections. cbn [set_local_edges local_edges gv_type gv_heh
      position_uv position_3d is_boundary missing_leis].
    f_equal. now apply map_alter_absorb.
  - intros r' l Hl Hc. unfold get_lei.
    destruct (decide (fst r' = i)) as [E | Hne].
    + rewrite E, list_lookup_alter_eq.
      pose proof (get_lei_update_lei gvs r' (i, j) (applyToLocalEdgeInfo target))
        as Hu.
      unfold get_lei in Hu at 1. rewrite E in Hu.
      destruct (update_lei gvs (i, j) _ !! i) as [g1 |]; cbn.
      * rewrite Hu. case_decide; [| exact Hl].
        subst r'. rewrite (Hfree l Hl) in Hc. discriminate.
      * rewrite Hl in Hu. now case_decide.
    + rewrite list_lookup_alter_ne by congruence.
      fold (get_lei (update_lei gvs (i, j) (applyToLocalEdgeInfo target)) r').
      rewrite get_lei_update_lei. case_decide; [| exact Hl].
      subst r'. now contradiction Hne.
  - intros k g Hg Hb.
    assert (Hk : exists g1, update_lei gvs (i, j) (applyToLocalEdgeInfo target)
                              !! k = Some g1 /\ is_boundary g1 = true).
    { unfold update_lei. cbn [fst snd].
      destruct (decide (k = i)) as [-> | Hne].
      - rewrite list_lookup_alter_eq, Hg. cbn. eauto.
      - rewrite list_lookup_alter_ne by congruence. eauto. }
    destruct Hk as (g1 & Hg1 & Hb1).
    destruct (decide (k = i)) as [-> | Hne].
    + rewrite list_lookup_alter_eq, Hg1. cbn. eauto.
    + rewrite list_lookup_alter_ne by congruence. eauto.
  - intros Hall. apply Forall_forall. intros g Hg.
    apply list_elem_of_lookup_1 in Hg. destruct Hg as [k Hk].
    destruct (decide (k = i)) as [-> | Hne].
    + rewrite list_lookup_alter_eq in Hk.
      destruct (update_lei gvs (i, j) _ !! i) as [g1 |]; [| discriminate].
      cbn in Hk. injection Hk as <-. intros _. reflexivity.
    + rewrite list_lookup_alter_ne in Hk by congruence.
      unfold update_lei in Hk. cbn [fst snd] in Hk.
      rewrite list_lookup_alter_ne in Hk by congruence.
      rewrite Forall_forall in Hall. apply Hall.
      now apply (list_elem_of_lookup_2 _ k).
Qed.

Lemma alter_twice {A : Type} (f g : A -> A) (i : nat) (l : list A) :
  alter g i (alter f i l) = alter (fun x => g (f x)) i l.
Proof.
  revert i. induction l as [| x l IH]; intros [| i]; cbn; try reflexivity.
  f_equal. apply IH.
Qed.

Lemma alter_pointwise {A : Type} (f g : A -> A) (i : nat) (l : list A) :
  (forall x, f x = g x) -> alter f i l = alter g i l.
Proof.
  intros Hfg. revert i. induction l as [| x l IH]; intros [| i]; cbn;
    try reflexivity.
  - now rewrite Hfg.
  - f_equal. apply IH.
Qed.

Lemma update_lei_twice (gvs : list GridVertex) (r : LeiRef)
      (f g : LocalEdgeInfo -> LocalEdgeInfo) :
  update_lei (update_lei gvs r f) r g = update_lei gvs r (fun l => g (f l)).
Proof.
  unfold update_lei. rewrite alter_twice. apply alter_pointwise.
  intros x. cbn [set_local_edges local_edges]. now rewrite alter_twice.
Qed.

Section ConnectorKeeps.

Variable m : TriMesh.
Variable tf_ : list TF.t.
Variable is_signal : Sentinel -> bool.
Variable trace : list GridVertex -> GridVertex -> LocalEdgeInfo -> FindPathResult.

Lemma connect_lei_keeps (gvs : list GridVertex) (i j : nat)
      (gvs' : list GridVertex) :
  connect_lei m tf_ is_signal trace gvs i j = Some gvs' ->
  connector_keeps gvs gvs'.
Proof.
  unfold connect_lei.
  destruct (gvs !! i) as [gv_i |] eqn:Hgi; cbn [mbind option_bind];
    [| discriminate].
  destruct (local_edges gv_i !! j) as [lei |] eqn:Hl; cbn [mbind option_bind];
    [| discriminate].
  assert (Hget : get_lei gvs (i, j) = Some lei).
  { unfold get_lei. cbn [fst snd]. now rewrite Hgi. }
  destruct (isUnconnected lei && is_valid (fh_from lei)) eqn:Hun.
  2:{ intros E. injection E as <-. apply connector_keeps_refl. }
  apply andb_true_iff in Hun. destruct Hun as [Hun _].
  set (target := trace gvs gv_i lei).
  set (gvs1 := match fpr_connected_to_idx target with
               | Reserved LECI_Traced_Into_Boundary =>
                   alter (fun g => set_is_boundary g true) i
                         (update_lei gvs (i, j) (applyToLocalEdgeInfo target))
               | _ => update_lei gvs (i, j) (applyToLocalEdgeInfo target)
               end).
  assert (H1 : connector_keeps gvs gvs1).
  { apply connector_keeps_target. intros l Hl'. rewrite Hget in Hl'.
    injection Hl' as <-. now apply isUnconnected_not_connected. }
  destruct (fpr_connected_to_idx target) as [s | c] eqn:Ht.
  { intros E. injection E as <-. exact H1. }
  destruct (fpr_orientation_idx target <? 0); [discriminate |].
  set (o := Z.to_nat (fpr_orientation_idx target)).
  destruct (gvs1 !! c) as [gv_c |] eqn:Hgc; cbn [mbind option_bind];
    [| discriminate].
  destruct (local_edges gv_c !! o) as [peer |] eqn:Hp; cbn [mbind option_bind];
    [| discriminate].
  assert (Hpeer : get_lei gvs1 (c, o) = Some peer).
  { unfold get_lei. cbn [fst snd]. now rewrite Hgc. }
  destruct (isUnconnectedOrSignal is_signal peer) eqn:Hus.
  - destruct (gvs1 !! i) as [gv_i1 |]; cbn [mbind option_bind];
      [| discriminate].
    destruct (local_edges gv_i1 !! j) as [lei1 |]; cbn [mbind option_bind];
      [| discriminate].
    destruct (to_canonical m tf_ gv_c (fh_from peer)) as [a |];
      cbn [mbind option_bind]; [| discriminate].
    destruct (to_canonical m tf_ gv_i1 (fh_from lei1)) as [b |];
      cbn [mbind option_bind]; [| discriminate].
    intros E. injection E as <-.
    apply (connector_keeps_trans _ _ _ H1).
    apply connector_keeps_update.
    + intros l Hl'. rewrite Hpeer in Hl'. injection Hl' as <-.
      now apply (isUnconnectedOrSignal_not_connected is_signal).
    + reflexivity.
    + discriminate.
  - intros E. injection E as <-. subst gvs1. rewrite update_lei_twice.
    apply connector_keeps_update.
    + intros l Hl'. rewrite Hget in Hl'. injection Hl' as <-.
      now apply isUnconnected_not_connected.
    + reflexivity.
    + discriminate.
Qed.

Lemma connect_leis_keeps (i : nat) (js : list nat) :
  forall gvs gvs' : list GridVertex,
    connect_leis m tf_ is_signal trace gvs i js = Some gvs' ->
    connector_keeps gvs gvs'.
Proof.
  induction js as [| j js IH]; intros gvs gvs'.
  - cbn. intros E. injection E as <-. apply connector_keeps_refl.
  - cbn [connect_leis].
    destruct (connect_lei m tf_ is_signal trace gvs i j) as [gvs1 |] eqn:H1;
      cbn [mbind option_bind]; [| discriminate].
    intros E. apply (connector_keeps_trans _ gvs1).
    + now apply connect_lei_keeps in H1.
    + now apply IH.
Qed.

Lemma connect_gvertices_keeps (idxs : list nat) :
  forall gvs gvs' : list GridVertex,
    connect_gvertices m tf_ is_signal trace gvs idxs = Some gvs' ->
    connector_keeps gvs gvs'.
Proof.
  induction idxs as [| i idxs IH]; intros gvs gvs'.
  - cbn. intros E. injection E as <-. apply connector_keeps_refl.
  - cbn [connect_gvertices].
    destruct (gvs !! i) as [gv |]; cbn [mbind option_bind]; [| discriminate].
    destruct (connect_leis m tf_ is_signal trace gvs i _) as [gvs1 |] eqn:H1;
      cbn [mbind option_bind]; [| discriminate].
    intros E. apply (connector_keeps_trans _ gvs1).
    + now apply connect_leis_keeps in H1.
    + now apply IH.
Qed.

(** X12.  [generate_connections] never changes a connection that exists:
    a local edge info that is connected when the connector starts is the
    same when it ends.  The connector adds or removes no grid vertex and no
    local edge, writes only the connection fields of local edge infos
    ([connected_to_idx], [orientation_idx], [uv_to], [accumulated_tf]) and
    the boundary tag, and never clears a boundary tag. *)
Theorem generate_connections_keeps (gvs : list GridVertex) :
  match generate_connections m tf_ is_signal trace gvs with
  | Some gvs' =>
      map forget_connections gvs' = map forget_connections gvs /\
      (forall r l, get_lei gvs r = Some l -> isConnected l = true ->
                   get_lei gvs' r = Some l) /\
      (forall i g, gvs !! i = Some g -> is_boundary g = true ->
                   exists g', gvs' !! i = Some g' /\ is_boundary g' = true)
  | None => True
  end.
Proof.
  unfold generate_connections.
  destruct (connect_gvertices m tf_ is_signal trace gvs _) as [gvs' |] eqn:Hc;
    [| exact I].
  apply connect_gvertices_keeps in Hc. destruct Hc as [F C T _].
  now repeat split.
Qed.

(** X13.  A grid vertex from which a path was traced into the boundary of
    the input mesh is tagged as boundary: if this holds before
    [generate_connections] (as it does when no local edge info is connected
    yet), every grid vertex that holds a local edge info with the value
    [LECI_Traced_Into_Boundary] afterwards has [is_boundary] set. *)
Theorem generate_connections_tags_boundary (gvs : list GridVertex) :
  Forall boundary_tagged gvs ->
  match generate_connections m tf_ is_signal trace gvs with
  | Some gvs' => Forall boundary_tagged gvs'
  | None => True
  end.
Proof.
  intros Hall. unfold generate_connections.
  destruct (connect_gvertices m tf_ is_signal trace gvs _) as [gvs' |] eqn:Hc;
    [| exact I].
  apply connect_gvertices_keeps in Hc. now apply Hc.
Qed.

End ConnectorKeeps.

(** A tracer that reports the boundary for every path. *)
Definition boundary_everywhere (gvs : list GridVertex) (gv : GridVertex)
           (lei : LocalEdgeInfo) : FindPathResult :=
  FPR_Signal LECI_Traced_Into_Boundary.

Lemma generate_connections_tags_boundary_witness :
  match generate_connections square_mesh [] (fun _ => false)
                             boundary_everywhere [regular_gvertex] with
  | Some gvs' => Forall boundary_tagged gvs'
  | None => True
  end.
Proof.
  apply (generate_connections_tags_boundary square_mesh [] (fun _ => false)
           boundary_everywhere [regular_gvertex]).
  constructor; [| constructor].
  intros (l & Hin & Hl). cbn in Hin.
  destruct Hin as [<- | [<- | [<- | [<- | []]]]]; discriminate.
Defined.

(** On that input every path ends at the boundary and the grid vertex is
    tagged. *)
Example generate_connections_boundary_run :
  exists gvs',
    generate_connections square_mesh [] (fun _ => false)
                         boundary_everywhere [regular_gvertex] = Some gvs' /\
    map is_boundary gvs' = [true] /\
    map (fun g => map connected_to_idx (local_edges g)) gvs'
    = [[Reserved LECI_Traced_Into_Boundary; Reserved LECI_Traced_Into_Boundary;
        Reserved LECI_Traced_Into_Boundary; Reserved LECI_Traced_Into_Boundary]].
Proof. eexists. split; [vm_compute; reflexivity |]. split; reflexivity. Qed.


(** *** [find_local_connection] and its two helpers *)

Section FindLocalConnection.

Variable m : TriMesh.
Variable uv : list Q.
Variable tf_ : list TF.t.

(** [gvertices_] and the tables [face_gvertices_], [edge_gvertices_] and
    [vertex_gvertices_], indexed by the index of the handle. *)
Variable gvs : list GridVertex.
Variable face_gvertices_ : list (list nat).
Variable edge_gvertices_ : list (list nat).
Variable vertex_gvertices_ : list (list nat).

(** Declared in a header that is not part of the sources: the index of a
    direction among the local edges of a grid vertex inside a face
    ([ori_to_idx], [ori_to_idx_inverse]), and [reverseApply], which
    rewrites the two points of a result. *)
Variable ori_to_idx : Point_2 -> Z.
Variable ori_to_idx_inverse : Point_2 -> Z.
Variable reverseApply : Point_2 -> Point_2 -> TF.t -> Point_2 * Point_2.

(** [FindPathResult(gvidx, ori_idx, from, to, accumulated_tf)] after
    [reverseApply(from, to, accumulated_tf)]. *)
Definition connection_result (vidx : nat) (j : Z) (from to : Point_2)
           (acc : TF.t) : FindPathResult :=
  let '(from, to) := reverseApply from to acc in
  mkFPR (Connected vidx) j from to acc.

(** A row of a table; reading outside the table is undefined. *)
Definition table_row (t : list (list nat)) (h : Z) : option (list nat) :=
  if h <? 0 then None else t !! Z.to_nat h.

(** The loops "for all grid vertices of the row, for all their local
    edges": the first pair that passes [test], [Some None] when there is
    none, and no result when an index of the row is outside
    [gvertices_]. *)
Fixpoint scan_gvertices (test : GridVertex -> LocalEdgeInfo -> bool)
         (row : list nat) : option (option (nat * nat)) :=
  match row with
  | [] => Some None
  | vidx :: row' =>
      g ← gvs !! vidx;
      match find_index (test g) (local_edges g) with
      | Some j => Some (Some (vidx, j))
      | None => scan_gvertices test row'
      end
  end.

(** The test of [find_local_connection_at_edge]. *)
Definition edge_lei_matches (fh fh_opp : FH)
           (p_from p_to uv_from_opp uv_to_opp : Point_2)
           (l : LocalEdgeInfo) : bool :=
  ((fh_from l =? fh) && Peqb (uv_from l) p_to
   && Peqb (uv_intended_to l) p_from)
  || ((fh_from l =? fh_opp) && Peqb (uv_from l) uv_to_opp
      && Peqb (uv_intended_to l) uv_from_opp).

(** [find_local_connection_at_edge] *)
Definition find_local_connection_at_edge
           (p_from p_original_from p_to : Point_2) (heh : HEH) (acc : TF.t)
  : option FindPathResult :=
  let eh := edge_handle m heh in
  let fh := face_handle m heh in
  let heh_opp := opposite_halfedge_handle m heh in
  let fh_opp :=
    if negb (is_boundary_h m heh_opp) then face_handle m heh_opp else -1 in
  let cross_edge_tf := transition_h m tf_ heh in
  let uv_from_opp := TF.transform_point cross_edge_tf p_from in
  let uv_original_from_opp := p_original_from in
  let uv_to_opp := TF.transform_point cross_edge_tf p_to in
  row ← table_row edge_gvertices_ eh;
  found ← scan_gvertices
            (fun _ => edge_lei_matches fh fh_opp p_from p_to
                                       uv_from_opp uv_to_opp) row;
  match found with
  | Some (vidx, j) =>
      g ← gvs !! vidx;
      if face_handle m (gv_heh g) =? fh then
        Some (connection_result vidx (Z.of_nat j) p_original_from p_to acc)
      else
        Some (connection_result vidx (Z.of_nat j) uv_original_from_opp
                                uv_to_opp (cross_edge_tf ** acc))
  | None => Some FPR_Error
  end.

(** A candidate of [find_local_connection_at_vertex]: an entry of the
    vectors [fh], [tfs], [uv_from], [uv_original_from] and [uv_to]. *)
Record Candidate : Type := mkCandidate {
  cand_fh : FH;
  cand_tf : TF.t;
  cand_uv_from : Point_2;
  cand_uv_original_from : Point_2;
  cand_uv_to : Point_2
}.

Definition transformed_candidate (fh : FH) (tf : TF.t)
           (p_from p_original_from p_to : Point_2) : Candidate :=
  mkCandidate fh tf (TF.transform_point tf p_from)
              (TF.transform_point tf p_original_from)
              (TF.transform_point tf p_to).

(** Modelled from the spec: [is_collinear] of the kernel (header not in the
    sources) is the exact test for zero orientation. *)
Definition is_collinear (a b c : Point_2) : bool :=
  ORIENTATION_eqb (orient2d a b c) ORI_COLLINEAR.

(** "create candidate set" *)
Definition vertex_candidates (p_from p_original_from p_to : Point_2)
           (heh : HEH) (tri : Triangle_2) : list Candidate :=
  [mkCandidate (face_handle m heh) TF.IDENTITY p_from p_original_from p_to]
  ++ (if is_collinear p_from p_to (tri2 tri) then
        let opp_heh := opposite_halfedge_handle m heh in
        if negb (is_boundary_h m opp_heh) then
          [transformed_candidate (face_handle m opp_heh)
                                 (transition_h m tf_ heh)
                                 p_from p_original_from p_to]
        else []
      else [])
  ++ (if is_collinear p_from p_to (tri1 tri) then
        let nheh := next_halfedge_handle m heh in
        let opp_nheh := opposite_halfedge_handle m nheh in
        if negb (is_boundary_h m opp_nheh) then
          [transformed_candidate (face_handle m opp_nheh)
                                 (transition_h m tf_ nheh)
                                 p_from p_original_from p_to]
        else []
      else []).

(** The test of the innermost loop. *)
Definition candidate_matches (l : LocalEdgeInfo) (c : Candidate) : bool :=
  (cand_fh c =? fh_from l) && Peqb (cand_uv_from c) (uv_intended_to l)
  && Peqb (cand_uv_to c) (uv_from l).

(** [find_local_connection_at_vertex] *)
Definition find_local_connection_at_vertex
           (p_from p_original_from p_to : Point_2) (heh : HEH)
           (tri : Triangle_2) (acc : TF.t) : option FindPathResult :=
  let vh := to_vertex_handle m heh in
  let cands := vertex_candidates p_from p_original_from p_to heh tri in
  row ← table_row vertex_gvertices_ vh;
  found ← scan_gvertices
            (fun _ l => existsb (candidate_matches l) cands) row;
  match found with
  | Some (vidx, j) =>
      g ← gvs !! vidx;
      l ← local_edges g !! j;
      c ← List.find (candidate_matches l) cands;
      intra_gv_trans ←
        intra_gv_transition m tf_ (cand_fh c) (face_handle m (gv_heh g)) g true;
      Some (connection_result vidx (Z.of_nat j)
              (TF.transform_point intra_gv_trans (cand_uv_original_from c))
              (TF.transform_point intra_gv_trans (cand_uv_to c))
              (intra_gv_trans ** cand_tf c ** acc))
  | None => Some FPR_Error
  end.

(** The loop of the branch "strictly inside triangle": the first grid
    vertex of the row whose local edge [ori_idx] leads from [p_to] to
    [p_from]; no result when an index is outside [gvertices_] or a grid
    vertex has no local edge [ori_idx]. *)
Fixpoint scan_face (ori_idx : nat) (p_from p_to : Point_2) (row : list nat)
  : option (option nat) :=
  match row with
  | [] => Some None
  | gvidx :: row' =>
      g ← gvs !! gvidx;
      l ← local_edges g !! ori_idx;
      if Peqb (uv_intended_to l) p_from && Peqb (uv_from l) p_to
      then Some (Some gvidx)
      else scan_face ori_idx p_from p_to row'
  end.

(** The branch "strictly inside triangle" of [find_local_connection]. *)
Definition find_in_face (p_from p_original_from p_to : Point_2) (heh0 : HEH)
           (acc : TF.t) : option FindPathResult :=
  let fh := face_handle m heh0 in
  let face_ori := triangleUvOrientation m uv fh in
  let dir := psub p_from p_to in
  let ori_idx :=
    match face_ori with
    | ORI_NEGATIVE => ori_to_idx_inverse dir
    | _ => ori_to_idx dir
    end in
  row ← table_row face_gvertices_ fh;
  if ori_idx <? 0 then
    match row with [] => Some FPR_Error | _ => None end
  else
    found ← scan_face (Z.to_nat ori_idx) p_from p_to row;
    match found with
    | Some gvidx =>
        Some (connection_result gvidx ori_idx p_original_from p_to acc)
    | None => Some FPR_Error
    end.

(** [find_local_connection]; the coordinate vector and the tables are those
    of the section. *)
Definition find_local_connection (p_from p_original_from p_to : Point_2)
           (tri : Triangle_2) (heh0 heh1 heh2 : HEH) (bs : BOUNDEDNESS)
           (acc : TF.t) : option FindPathResult :=
  if ORIENTATION_eqb (tri_orientation tri) ORI_ZERO
  then Some (FPR_Signal LECI_Traced_Into_Degeneracy)
  else
    match bs with
    | BND_ON_BOUNDED_SIDE => find_in_face p_from p_original_from p_to heh0 acc
    | _ =>
        if Peqb p_to (tri0 tri) then
          find_local_connection_at_vertex p_from p_original_from p_to heh0
                                          tri acc
        else if Peqb p_to (tri1 tri) then
          find_local_connection_at_vertex
            p_from p_original_from p_to heh1
            (mkTriangle (tri1 tri) (tri2 tri) (tri0 tri)) acc
        else if Peqb p_to (tri2 tri) then
          find_local_connection_at_vertex
            p_from p_original_from p_to heh2
            (mkTriangle (tri2 tri) (tri0 tri) (tri1 tri)) acc
        else if segment_has_onb (tri2 tri) (tri0 tri) p_to then
          find_local_connection_at_edge p_from p_original_from p_to heh0 acc
        else if segment_has_onb (tri0 tri) (tri1 tri) p_to then
          find_local_connection_at_edge p_from p_original_from p_to heh1 acc
        else if segment_has_onb (tri1 tri) (tri2 tri) p_to then
          find_local_connection_at_edge p_from p_original_from p_to heh2 acc
        else Some FPR_Error
    end.

(** *** What the searches return *)

Lemma find_index_Some {A : Type} (P : A -> bool) (l : list A) (j : nat) :
  find_index P l = Some j ->
  exists x, l !! j = Some x /\ P x = true /\
            forall i y, (i < j)%nat -> l !! i = Some y -> P y = false.
Proof.
  revert j. induction l as [| a l IH]; intros j; cbn [find_index];
    [discriminate |].
  destruct (P a) eqn:Ha.
  - intros E. injection E as <-. exists a. split; [reflexivity |].
    split; [exact Ha |]. intros i y Hi. lia.
  - destruct (find_index P l) as [k |]; cbn; [| discriminate].
    intros E. injection E as <-.
    destruct (IH k eq_refl) as (x & Hx & Hp & Hmin).
    exists x. split; [exact Hx |]. split; [exact Hp |].
    intros [| i] y Hi Hy; cbn in Hy.
    + injection Hy as <-. exact Ha.
    + apply (Hmin i); [lia | exact Hy].
Qed.

Lemma find_index_None {A : Type} (P : A -> bool) (l : list A) :
  find_index P l = None -> forall x, In x l -> P x = false.
Proof.
  induction l as [| a l IH]; cbn [find_index]; intros E x Hx; [destruct Hx |].
  destruct (P a) eqn:Ha; [discriminate |].
  destruct (find_index P l); [discriminate |].
  destruct Hx as [<- | Hx]; [exact Ha | now apply IH].
Qed.

(** No grid vertex of the row has a local edge that passes the test. *)
Definition none_matches (test : GridVertex -> LocalEdgeInfo -> bool)
           (row : list nat) : Prop :=
  forall vidx, In vidx row ->
    exists g, gvs !! vidx = Some g /\
              forall l, In l (local_edges g) -> test g l = false.

Lemma scan_gvertices_spec (test : GridVertex -> LocalEdgeInfo -> bool)
      (row : list nat) :
  match scan_gvertices test row with
  | Some (Some (vidx, j)) =>
      exists before after g l,
        row = before ++ vidx :: after /\
        none_matches test before /\
        gvs !! vidx = Some g /\ local_edges g !! j = Some l /\
        test g l = true /\
        forall i y, (i < j)%nat -> local_edges g !! i = Some y ->
                    test g y = false
  | Some None => none_matches test row
  | None => True
  end.
Proof.
  induction row as [| vidx row IH]; cbn [scan_gvertices].
  - intros v [].
  - destruct (gvs !! vidx) as [g |] eqn:Hg; cbn [mbind option_bind];
      [| exact I].
    destruct (find_index (test g) (local_edges g)) as [j |] eqn:Hf.
    + destruct (find_index_Some _ _ _ Hf) as (l & Hl & Ht & Hmin).
      exists [], row, g, l. split; [reflexivity |].
      split; [intros v [] |]. now repeat split.
    + destruct (scan_gvertices test row) as [[[v j] |] |]; [| | exact I].
      * destruct IH as (before & after & g' & l & -> & Hnone & Hg' & Hl & Ht
                        & Hmin).
        exists (vidx :: before), after, g', l. split; [reflexivity |].
        split; [| now repeat split].
        intros v' [<- | Hv']; [| now apply Hnone].
        exists g. split; [exact Hg |]. now apply find_index_None.
      * intros v' [<- | Hv']; [| now apply IH].
        exists g. split; [exact Hg |]. now apply find_index_None.
Qed.

Lemma connection_result_fields (vidx : nat) (j : Z) (from to : Point_2)
      (acc : TF.t) :
  fpr_connected_to_idx (connection_result vidx j from to acc) = Connected vidx
  /\ fpr_orientation_idx (connection_result vidx j from to acc) = j
  /\ fpr_accumulated_tf (connection_result vidx j from to acc) = acc.
Proof. unfold connection_result. now destruct (reverseApply from to acc). Qed.

(** X14.  [find_local_connection_at_edge] returns the first match of its
    search or the error: a connected result names a grid vertex registered
    on the edge of the halfedge and a local edge of it that starts in the
    end point of the path and is intended to end in its start point (in the
    chart of the face of the halfedge or in that of the opposite face), no
    earlier grid vertex of the row and no earlier local edge of that grid
    vertex being such a one; the accumulated transition is passed on when
    the grid vertex is stored with the face of the halfedge and composed
    with the transition of the edge otherwise.  The result is the tracing
    error exactly when no registered grid vertex has such a local edge. *)
Theorem find_local_connection_at_edge_spec
        (p_from p_original_from p_to : Point_2) (heh : HEH) (acc : TF.t) :
  let fh := face_handle m heh in
  let heh_opp := opposite_halfedge_handle m heh in
  let fh_opp :=
    if negb (is_boundary_h m heh_opp) then face_handle m heh_opp else -1 in
  let cross_edge_tf := transition_h m tf_ heh in
  let test (_ : GridVertex) :=
    edge_lei_matches fh fh_opp p_from p_to
                     (TF.transform_point cross_edge_tf p_from)
                     (TF.transform_point cross_edge_tf p_to) in
  match find_local_connection_at_edge p_from p_original_from p_to heh acc with
  | Some r =>
      exists row,
        table_row edge_gvertices_ (edge_handle m heh) = Some row /\
        match fpr_connected_to_idx r with
        | Connected vidx =>
            exists before after g l j,
              row = before ++ vidx :: after /\
              none_matches test before /\
              gvs !! vidx = Some g /\
              fpr_orientation_idx r = Z.of_nat j /\
              local_edges g !! j = Some l /\
              test g l = true /\
              (forall i y, (i < j)%nat -> local_edges g !! i = Some y ->
                           test g y = false) /\
              fpr_accumulated_tf r
              = if face_handle m (gv_heh g) =? fh then acc
                else cross_edge_tf ** acc
        | Reserved s => s = LECI_Tracing_Error /\ none_matches test row
        end
  | None => True
  end.
Proof.
  intros fh heh_opp fh_opp cross_edge_tf test.
  unfold find_local_connection_at_edge. cbv zeta.
  fold fh heh_opp. fold fh_opp. fold cross_edge_tf.
  destruct (table_row edge_gvertices_ (edge_handle m heh)) as [row |];
    cbn [mbind option_bind]; [| exact I].
  pose proof (scan_gvertices_spec test row) as Hscan. fold test.
  destruct (scan_gvertices test row) as [[[vidx j] |] |];
    cbn [mbind option_bind]; [| | exact I].
  - destruct Hscan as (before & after & g & l & Hrow & Hnone & Hg & Hl & Ht
                       & Hmin).
    rewrite Hg. cbn [mbind option_bind].
    destruct (face_handle m (gv_heh g) =? fh) eqn:Hfh.
    + exists row. split; [reflexivity |].
      destruct (connection_result_fields vidx (Z.of_nat j) p_original_from
                  p_to acc) as (-> & -> & ->).
      exists before, after, g, l, j. rewrite Hfh. now repeat split.
    + exists row. split; [reflexivity |].
      destruct (connection_result_fields vidx (Z.of_nat j) p_original_from
                  (TF.transform_point cross_edge_tf p_to)
                  (cross_edge_tf ** acc)) as (-> & -> & ->).
      exists before, after, g, l, j. rewrite Hfh. now repeat split.
  - exists row. split; [reflexivity |]. cbn. split; [reflexivity | exact Hscan].
Qed.

Lemma existsb_find {A : Type} (P : A -> bool) (l : list A) :
  existsb P l = true ->
  exists x, List.find P l = Some x /\ In x l /\ P x = true.
Proof.
  induction l as [| a l IH]; cbn; [discriminate |].
  destruct (P a) eqn:Ha.
  - intros _. exists a. split; [reflexivity |]. split; [now left | exact Ha].
  - cbn. intros H. destruct (IH H) as (x & Hx & Hin & Hp).
    exists x. split; [exact Hx |]. split; [now right | exact Hp].
Qed.

(** X15.  [find_local_connection_at_vertex] returns the first match of its
    search or the error: a connected result names a grid vertex registered
    at the vertex at the head of the halfedge and a local edge of it that,
    in the chart of one of the candidate faces (the face of the halfedge
    and, when the path runs along an edge of that face, the face across
    that edge), starts in the end point of the path and is intended to end
    in its start point; the accumulated transition of the result is the
    transition inside the grid vertex times the transition into the
    candidate face times the one passed in.  The result is the tracing
    error exactly when no registered grid vertex has such a local edge. *)
Theorem find_local_connection_at_vertex_spec
        (p_from p_original_from p_to : Point_2) (heh : HEH)
        (tri : Triangle_2) (acc : TF.t) :
  let cands := vertex_candidates p_from p_original_from p_to heh tri in
  let test (_ : GridVertex) (l : LocalEdgeInfo) :=
    existsb (candidate_matches l) cands in
  match find_local_connection_at_vertex p_from p_original_from p_to heh tri
                                        acc with
  | Some r =>
      exists row,
        table_row vertex_gvertices_ (to_vertex_handle m heh) = Some row /\
        match fpr_connected_to_idx r with
        | Connected vidx =>
            exists before after g l j c intra_gv_trans,
              row = before ++ vidx :: after /\
              none_matches test before /\
              gvs !! vidx = Some g /\
              fpr_orientation_idx r = Z.of_nat j /\
              local_edges g !! j = Some l /\
              In c cands /\ candidate_matches l c = true /\
              intra_gv_transition m tf_ (cand_fh c)
                                  (face_handle m (gv_heh g)) g true
              = Some intra_gv_trans /\
              fpr_accumulated_tf r = intra_gv_trans ** cand_tf c ** acc
        | Reserved s => s = LECI_Tracing_Error /\ none_matches test row
        end
  | None => True
  end.
Proof.
  intros cands test. unfold find_local_connection_at_vertex. cbv zeta.
  fold cands.
  destruct (table_row vertex_gvertices_ (to_vertex_handle m heh)) as [row |];
    cbn [mbind option_bind]; [| exact I].
  pose proof (scan_gvertices_spec test row) as Hscan. fold test.
  destruct (scan_gvertices test row) as [[[vidx j] |] |];
    cbn [mbind option_bind]; [| | exact I].
  - destruct Hscan as (before & after & g & l & Hrow & Hnone & Hg & Hl & Ht
                       & Hmin).
    rewrite Hg. cbn [mbind option_bind]. rewrite Hl. cbn [mbind option_bind].
    destruct (existsb_find _ _ Ht) as (c & Hfind & Hin & Hc).
    rewrite Hfind. cbn [mbind option_bind].
    destruct (intra_gv_transition m tf_ (cand_fh c) _ g true)
      as [intra |] eqn:Hintra; cbn [mbind option_bind]; [| exact I].
    exists row. split; [reflexivity |].
    destruct (connection_result_fields vidx (Z.of_nat j)
                (TF.transform_point intra (cand_uv_original_from c))
                (TF.transform_point intra (cand_uv_to c))
                (intra ** cand_tf c ** acc)) as (-> & -> & ->).
    exists before, after, g, l, j, c, intra. now repeat split.
  - exists row. split; [reflexivity |]. cbn. split; [reflexivity | exact Hscan].
Qed.

Lemma scan_face_spec (ori_idx : nat) (p_from p_to : Point_2)
      (row : list nat) :
  let test (g : GridVertex) :=
    match local_edges g !! ori_idx with
    | Some l => Peqb (uv_intended_to l) p_from && Peqb (uv_from l) p_to
    | None => false
    end in
  match scan_face ori_idx p_from p_to row with
  | Some (Some gvidx) =>
      exists before after g,
        row = before ++ gvidx :: after /\
        (forall v, In v before -> exists gb, gvs !! v = Some gb /\
                                              test gb = false) /\
        gvs !! gvidx = Some g /\ test g = true
  | Some None =>
      forall v, In v row -> exists gb, gvs !! v = Some gb /\ test gb = false
  | None => True
  end.
Proof.
  intros test. induction row as [| v row IH]; cbn [scan_face].
  - intros v [].
  - destruct (gvs !! v) as [g |] eqn:Hg; cbn [mbind option_bind]; [| exact I].
    destruct (local_edges g !! ori_idx) as [l |] eqn:Hl;
      cbn [mbind option_bind]; [| exact I].
    destruct (Peqb (uv_intended_to l) p_from && Peqb (uv_from l) p_to) eqn:Ht.
    + exists [], row, g. split; [reflexivity |]. split; [intros v' [] |].
      split; [exact Hg |]. unfold test. now rewrite Hl.
    + assert (Hv : exists gb, gvs !! v = Some gb /\ test gb = false).
      { exists g. split; [exact Hg |]. unfold test. now rewrite Hl. }
      destruct (scan_face ori_idx p_from p_to row) as [[gvidx |] |];
        [| | exact I].
      * destruct IH as (before & after & g' & -> & Hbefore & Hg' & Ht').
        exists (v :: before), after, g'. split; [reflexivity |].
        split; [| now split].
        intros v' [<- | Hv']; [exact Hv | now apply Hbefore].
      * intros v' [<- | Hv']; [exact Hv | now apply IH].
Qed.

(** X16.  [find_local_connection] answers a degenerate triangle with the
    degeneracy signal.  For an end point strictly inside a triangle that is
    not degenerate, the local edge index of the answer is the one computed
    from the direction of the path ([ori_to_idx], or [ori_to_idx_inverse]
    in a face of negative orientation): a connected result names the first
    grid vertex registered in the face whose local edge of that index
    starts in the end point of the path and is intended to end in its start
    point, and passes the accumulated transition on unchanged; the result
    is the tracing error exactly when the face has no such grid vertex. *)
Theorem find_local_connection_in_face
        (p_from p_original_from p_to : Point_2) (tri : Triangle_2)
        (heh0 heh1 heh2 : HEH) (bs : BOUNDEDNESS) (acc : TF.t) :
  let fh := face_handle m heh0 in
  let dir := psub p_from p_to in
  let ori_idx :=
    match triangleUvOrientation m uv fh with
    | ORI_NEGATIVE => ori_to_idx_inverse dir
    | _ => ori_to_idx dir
    end in
  let test (g : GridVertex) :=
    match local_edges g !! Z.to_nat ori_idx with
    | Some l => Peqb (uv_intended_to l) p_from && Peqb (uv_from l) p_to
    | None => false
    end in
  let result :=
    find_local_connection p_from p_original_from p_to tri heh0 heh1 heh2 bs
                          acc in
  (tri_orientation tri = ORI_ZERO ->
   result = Some (FPR_Signal LECI_Traced_Into_Degeneracy)) /\
  (tri_orientation tri <> ORI_ZERO -> bs = BND_ON_BOUNDED_SIDE ->
   match result with
   | Some r =>
       exists row,
         table_row face_gvertices_ fh = Some row /\
         match fpr_connected_to_idx r with
         | Connected gvidx =>
             exists before after g,
               row = before ++ gvidx :: after /\
               (forall v, In v before ->
                          exists gb, gvs !! v = Some gb /\ test gb = false) /\
               gvs !! gvidx = Some g /\ test g = true /\
               0 <= ori_idx /\
               fpr_orientation_idx r = ori_idx /\
               fpr_accumulated_tf r = acc
         | Reserved s =>
             s = LECI_Tracing_Error /\
             (0 <= ori_idx ->
              forall v, In v row ->
                        exists gb, gvs !! v = Some gb /\ test gb = false)
         end
   | None => True
   end).
Proof.
  intros fh dir ori_idx test result. subst result.
  unfold find_local_connection. split.
  - intros ->. reflexivity.
  - intros Hnd ->.
    destruct (ORIENTATION_eqb (tri_orientation tri) ORI_ZERO) eqn:Hz.
    { apply ORIENTATION_eqb_eq in Hz. contradiction. }
    unfold find_in_face. cbv zeta. fold fh dir. fold ori_idx.
    destruct (table_row face_gvertices_ fh) as [row |];
      cbn [mbind option_bind]; [| exact I].
    destruct (ori_idx <? 0) eqn:Hneg.
    + destruct row as [| v row]; [| exact I].
      exists []. split; [reflexivity |]. cbn. split; [reflexivity |].
      intros _ v [].
    + apply Z.ltb_ge in Hneg.
      pose proof (scan_face_spec (Z.to_nat ori_idx) p_from p_to row) as Hscan.
      cbv zeta in Hscan. fold test in Hscan.
      destruct (scan_face (Z.to_nat ori_idx) p_from p_to row)
        as [[gvidx |] |]; cbn [mbind option_bind]; [| | exact I].
      * destruct Hscan as (before & after & g & Hrow & Hbefore & Hg & Ht).
        exists row. split; [reflexivity |].
        destruct (connection_result_fields gvidx ori_idx p_original_from
                    p_to acc) as (-> & -> & ->).
        exists before, after, g. now repeat split.
      * exists row. split; [reflexivity |]. cbn. split; [reflexivity |].
        intros _. exact Hscan.
Qed.

End FindLocalConnection.

(** The grid vertex in the middle of the diagonal of the square, with its
    four local edges, registered on the diagonal edge. *)
Definition diagonal_gvertices : list GridVertex :=
  [construct_local_edge_information_edge square_mesh [] diagonal_uv
                                         diagonal_gvertex].

(** The path that arrives at the grid vertex from the lattice point
    [(2, 1)] through face [0] finds its local edge [1], the one that points
    to [(2, 1)]. *)
Example find_local_connection_at_edge_run :
  exists r,
    find_local_connection_at_edge square_mesh [] diagonal_gvertices
                                  [[]; []; [0%nat]; []; []]
                                  (fun from to _ => (from, to))
                                  (2, 1)%Q (2, 1)%Q (1, 1)%Q 4 TF.IDENTITY
    = Some r /\
    fpr_connected_to_idx r = Connected 0 /\ fpr_orientation_idx r = 1.
Proof. eexists. split; [vm_compute; reflexivity |]. split; reflexivity. Qed.

(** ** More on consistent truncation *)

(** *** The boundary snap applied twice *)

(** A coordinate within [1e-4] of its rounding, and a coordinate that is
    its rounding. *)
Definition near_rounding (x : Q) : Prop :=
  (Qabs (x - inject_Z (ROUND_QME x)) < snap_eps)%Q.

Definition is_rounded (x : Q) : Prop := x = inject_Z (ROUND_QME x).

Lemma is_rounded_inject_Z (n : Z) : is_rounded (inject_Z n).
Proof. unfold is_rounded. now rewrite ROUND_QME_inject_Z. Qed.

Lemma near_rounding_inject_Z (n : Z) : near_rounding (inject_Z n).
Proof.
  unfold near_rounding. rewrite ROUND_QME_inject_Z.
  apply Qabs_Qlt_condition. pose proof (proj1 snap_eps_bounds). split; lra.
Qed.

(** [uv'] is [uv] with some coordinates that were near their rounding
    replaced by it. *)
Definition snapped (uv uv' : list Q) : Prop :=
  length uv' = length uv /\
  forall k : Z,
    uv_at uv' k = uv_at uv k \/
    (near_rounding (uv_at uv k) /\
     uv_at uv' k = inject_Z (ROUND_QME (uv_at uv k))).

Lemma snapped_refl (uv : list Q) : snapped uv uv.
Proof. split; [reflexivity | intros k; now left]. Qed.

Lemma snapped_trans (a b c : list Q) : snapped a b -> snapped b c -> snapped a c.
Proof.
  intros [L1 H1] [L2 H2]. split; [congruence |]. intros k.
  destruct (H2 k) as [E2 | [N2 E2]], (H1 k) as [E1 | [N1 E1]].
  - left. congruence.
  - right. split; [exact N1 | congruence].
  - right. rewrite E1 in N2, E2. now split.
  - right. split; [exact N1 |]. rewrite E2, E1. now rewrite ROUND_QME_inject_Z.
Qed.

Lemma snapped_near (uv uv' : list Q) (k : Z) :
  snapped uv uv' -> (near_rounding (uv_at uv' k) <-> near_rounding (uv_at uv k)).
Proof.
  intros [_ H]. destruct (H k) as [E | [N E]]; rewrite E; [reflexivity |].
  split; [intros _; exact N | intros _; apply near_rounding_inject_Z].
Qed.

Lemma snapped_rounded (uv uv' : list Q) (k : Z) :
  snapped uv uv' -> is_rounded (uv_at uv k) -> uv_at uv' k = uv_at uv k.
Proof.
  intros [_ H] Hr. destruct (H k) as [E | [_ E]]; [exact E |].
  rewrite E. symmetry. exact Hr.
Qed.

Lemma uv_at_uv_set (uv : list Q) (k j : Z) (x : Q) :
  uv_at (uv_set uv k x) j
  = if decide (Z.to_nat j = Z.to_nat k /\ (Z.to_nat k < length uv)%nat)
    then x else uv_at uv j.
Proof.
  unfold uv_at, uv_set. case_decide as Hc.
  - destruct Hc as [-> Hlt]. now rewrite list_lookup_insert_eq.
  - destruct (decide (Z.to_nat j = Z.to_nat k)) as [E | Hne].
    + rewrite E. assert (Hge : (length uv <= Z.to_nat k)%nat) by lia.
      rewrite list_insert_ge by exact Hge. reflexivity.
    + rewrite list_lookup_insert_ne by congruence. reflexivity.
Qed.

Lemma uv_set_rounded (uv : list Q) (k : Z) :
  is_rounded (uv_at uv k) ->
  uv_set uv k (inject_Z (ROUND_QME (uv_at uv k))) = uv.
Proof.
  intros Hr. rewrite <- Hr. unfold uv_set, uv_at.
  destruct (uv !! Z.to_nat k) as [x |] eqn:Hx.
  - cbn. now apply list_insert_id.
  - apply list_insert_ge. now apply lookup_ge_None.
Qed.

(** One round of the loop over the two coordinates snaps. *)
Lemma snap_axis_snapped (uv : list Q) (h0 h1 : HEH) (i : Z) :
  snapped uv (snap_axis uv h0 h1 i).
Proof.
  split; [apply snap_axis_length |]. intros k. unfold snap_axis.
  destruct (Qlt_le_dec _ snap_eps) as [Ha | _]; [| now left].
  destruct (Qlt_le_dec _ snap_eps) as [Hb | _]; [| now left].
  set (a := uv_at uv (2 * h0 + i)) in *.
  set (uv1 := uv_set uv (2 * h0 + i) (inject_Z (ROUND_QME a))).
  rewrite (uv_at_uv_set uv1). case_decide as Hc1.
  - destruct Hc1 as [E1 Hl1]. right.
    unfold uv1 at 1. rewrite (uv_at_uv_set uv). case_decide as Hc0.
    + rewrite ROUND_QME_inject_Z.
      assert (Ek : uv_at uv k = a).
      { unfold a, uv_at. destruct Hc0 as [E0 _]. now rewrite E1, E0. }
      rewrite Ek. now split.
    + assert (Ek : uv_at uv k = uv_at uv (2 * h1 + i)).
      { unfold uv_at. now rewrite E1. }
      rewrite Ek. now split.
  - unfold uv1. rewrite (uv_at_uv_set uv). case_decide as Hc0; [| now left].
    right. assert (Ek : uv_at uv k = a).
    { unfold a, uv_at. destruct Hc0 as [E0 _]. now rewrite E0. }
    rewrite Ek. now split.
Qed.

(** A round leaves the vector as it is when the test fails or when both
    coordinates are rounded already. *)
Lemma snap_axis_fixed (uv : list Q) (h0 h1 : HEH) (i : Z) :
  ~ (near_rounding (uv_at uv (2 * h0 + i)) /\
     near_rounding (uv_at uv (2 * h1 + i)))
  \/ (is_rounded (uv_at uv (2 * h0 + i)) /\
      is_rounded (uv_at uv (2 * h1 + i))) ->
  snap_axis uv h0 h1 i = uv.
Proof.
  intros H. unfold snap_axis.
  destruct (Qlt_le_dec _ snap_eps) as [Ha | Ha].
  2:{ reflexivity. }
  destruct (Qlt_le_dec _ snap_eps) as [Hb | Hb].
  2:{ reflexivity. }
  destruct H as [H | [R0 R1]]; [exfalso; apply H; now split |].
  rewrite (uv_set_rounded uv _ R0). apply uv_set_rounded. exact R1.
Qed.

(** After a round whose test succeeded both coordinates are rounded. *)
Lemma snap_axis_settles (uv : list Q) (h0 h1 : HEH) (i : Z) :
  near_rounding (uv_at uv (2 * h0 + i)) ->
  near_rounding (uv_at uv (2 * h1 + i)) ->
  is_rounded (uv_at (snap_axis uv h0 h1 i) (2 * h0 + i)) /\
  is_rounded (uv_at (snap_axis uv h0 h1 i) (2 * h1 + i)).
Proof.
  intros Ha Hb. unfold snap_axis.
  destruct (Qlt_le_dec _ snap_eps) as [_ | Hc];
    [| unfold near_rounding in Ha; lra].
  destruct (Qlt_le_dec _ snap_eps) as [_ | Hc];
    [| unfold near_rounding in Hb; lra].
  set (a := uv_at uv (2 * h0 + i)) in *.
  set (uv1 := uv_set uv (2 * h0 + i) (inject_Z (ROUND_QME a))).
  assert (Hout : forall k, (length uv <= Z.to_nat k)%nat ->
                           forall l, length l = length uv ->
                                     is_rounded (uv_at l k)).
  { intros k Hk l Hl. unfold uv_at. rewrite lookup_ge_None_2 by lia.
    apply (is_rounded_inject_Z 0). }
  split.
  - rewrite (uv_at_uv_set uv1). case_decide as Hc1.
    + apply is_rounded_inject_Z.
    + unfold uv1. rewrite (uv_at_uv_set uv). case_decide as Hc0.
      * apply is_rounded_inject_Z.
      * apply Hout; [lia | reflexivity].
  - rewrite (uv_at_uv_set uv1). case_decide as Hc1.
    + apply is_rounded_inject_Z.
    + apply Hout; [| apply length_uv_set].
      unfold uv1 in Hc1. rewrite length_uv_set in Hc1. lia.
Qed.

(** A later state of the vector is left as it is by the round. *)
Lemma snap_axis_later (uv w : list Q) (h0 h1 : HEH) (i : Z) :
  snapped (snap_axis uv h0 h1 i) w -> snap_axis w h0 h1 i = w.
Proof.
  intros Hw. apply snap_axis_fixed.
  destruct (Qlt_le_dec (Qabs (uv_at uv (2 * h0 + i)
                              - inject_Z (ROUND_QME (uv_at uv (2 * h0 + i)))))
                       snap_eps) as [Ha | Ha];
  [destruct (Qlt_le_dec (Qabs (uv_at uv (2 * h1 + i)
                               - inject_Z (ROUND_QME (uv_at uv (2 * h1 + i)))))
                        snap_eps) as [Hb | Hb] |].
  - right. destruct (snap_axis_settles uv h0 h1 i Ha Hb) as [R0 R1].
    rewrite (snapped_rounded _ _ _ Hw R0), (snapped_rounded _ _ _ Hw R1).
    now split.
  - left. intros [_ Hn].
    apply (snapped_near _ _ _ Hw) in Hn.
    apply (snapped_near _ _ _ (snap_axis_snapped uv h0 h1 i)) in Hn.
    unfold near_rounding in Hn. lra.
  - left. intros [Hn _].
    apply (snapped_near _ _ _ Hw) in Hn.
    apply (snapped_near _ _ _ (snap_axis_snapped uv h0 h1 i)) in Hn.
    unfold near_rounding in Hn. lra.
Qed.

Lemma snap_edge_snapped (m : TriMesh) (uv : list Q) (e : EH) :
  snapped uv (snap_edge m uv e).
Proof.
  unfold snap_edge. destruct (is_boundary_e m e); [| apply snapped_refl].
  destruct (_ || _); [| apply snapped_refl].
  eapply snapped_trans; apply snap_axis_snapped.
Qed.

Lemma snap_edge_later (m : TriMesh) (uv w : list Q) (e : EH) :
  snapped (snap_edge m uv e) w -> snap_edge m w e = w.
Proof.
  unfold snap_edge. destruct (is_boundary_e m e); [| reflexivity].
  destruct (_ || _); [| reflexivity]. intros Hw.
  set (h0 := halfedge_handle_e m e 0) in *.
  set (h1 := halfedge_handle_e m e 1) in *.
  assert (H0 : snap_axis w h0 h1 0 = w).
  { apply (snap_axis_later uv).
    eapply snapped_trans; [apply snap_axis_snapped | exact Hw]. }
  rewrite H0. apply (snap_axis_later (snap_axis uv h0 h1 0)). exact Hw.
Qed.

Lemma fold_snap_edge_snapped (m : TriMesh) (es : list EH) :
  forall uv, snapped uv (fold_left (snap_edge m) es uv).
Proof.
  induction es as [| e es IH]; intros uv; [apply snapped_refl |].
  cbn [fold_left].
  eapply snapped_trans; [apply snap_edge_snapped | apply IH].
Qed.

Lemma fold_snap_edge_fixed (m : TriMesh) (es : list EH) (w : list Q) :
  (forall e, In e es -> snap_edge m w e = w) ->
  fold_left (snap_edge m) es w = w.
Proof.
  induction es as [| e es IH]; intros H; [reflexivity |].
  cbn [fold_left]. rewrite (H e) by now left. apply IH.
  intros e' He'. apply H. now right.
Qed.

Lemma fold_snap_edge_later (m : TriMesh) (es : list EH) :
  forall uv w,
    snapped (fold_left (snap_edge m) es uv) w ->
    forall e, In e es -> snap_edge m w e = w.
Proof.
  induction es as [| e0 es IH]; intros uv w Hw e He; [destruct He |].
  cbn [fold_left] in Hw. destruct He as [<- | He].
  - apply (snap_edge_later m uv).
    eapply snapped_trans; [apply fold_snap_edge_snapped | exact Hw].
  - exact (IH _ _ Hw e He).
Qed.

(** X17.  The boundary phase of [consistent_truncation] is idempotent:
    applied to its own result it changes nothing, on any mesh and any
    coordinate vector.  Coordinates are only ever replaced by their own
    rounding, and only where they are within [1e-4] of it. *)
Theorem boundary_snap_idempotent (m : TriMesh) (uv : list Q) :
  boundary_snap m (boundary_snap m uv) = boundary_snap m uv /\
  snapped uv (boundary_snap m uv).
Proof.
  unfold boundary_snap. destruct (has_edge_status m).
  - split; [| apply fold_snap_edge_snapped].
    apply fold_snap_edge_fixed.
    apply (fold_snap_edge_later m (mesh_edges m) uv). apply snapped_refl.
  - split; [reflexivity | apply snapped_refl].
Qed.


(** *** The one-rings after consistent truncation *)







(** ** [generate_vertices] as a whole *)

(** *** Local edge construction at a vertex *)

(** Modelled from the spec: [orient2d] of two vectors (kernel, header not
    in the sources) is the sign of their cross product. *)
Definition orient2d_vectors (a b : Point_2) : ORIENTATION :=
  sign_of (fst a * snd b - snd a * fst b).

(** The body of the loop "test for outgoing edges" in the sector of one
    face: the state is [leis_per_face] and [middleEl]. *)
Definition sector_step (fh : FH) (uv0 uv1 uv2 : Point_2)
           (orientation : ORIENTATION) (is_left_opp_boundary : bool)
           (st : list LocalEdgeInfo * nat) (direction : Point_2)
  : list LocalEdgeInfo * nat :=
  let '(leis_per_face, middleEl) := st in
  let sector_left := psub uv2 uv0 in
  let sector_right := psub uv1 uv0 in
  let ori1 := orient2d_vectors sector_right direction in
  let ori2 := orient2d_vectors direction sector_left in
  let pushed :=
    (leis_per_face ++ [new_LEI fh uv0 (padd uv0 direction)], middleEl) in
  if is_left_opp_boundary && ORIENTATION_eqb ori2 ORI_COLLINEAR
     && Qpositive (pdot direction (psub uv2 uv0)) then pushed
  else if ORIENTATION_eqb ori1 ORI_COLLINEAR
          && Qpositive (pdot (psub uv1 uv0) direction) then pushed
  else if ORIENTATION_eqb ori1 orientation && ORIENTATION_eqb ori2 orientation
  then pushed
  else (leis_per_face, length leis_per_face).

(** The local edge infos contributed by the face of the incoming halfedge
    [heh]: [leis_per_face] as it is copied to [_gv.local_edges]. *)
Definition sector_leis (m : TriMesh) (uv : list Q) (heh : HEH)
  : list LocalEdgeInfo :=
  let heh1 := next_halfedge_handle m heh in
  let heh2 := next_halfedge_handle m heh1 in
  let uv0 := uv_point uv heh in
  let uv1 := uv_point uv heh1 in
  let uv2 := uv_point uv heh2 in
  let orientation := tri_orientation (mkTriangle uv0 uv1 uv2) in
  let is_left_opp_boundary :=
    is_boundary_h m (opposite_halfedge_handle m heh) in
  let fh := face_handle m heh in
  let '(leis_per_face, middleEl) :=
    fold_left (sector_step fh uv0 uv1 uv2 orientation is_left_opp_boundary)
              cartesian_orientations_ ([], O) in
  let leis_per_face :=
    if negb (middleEl =? 0)%nat && (middleEl <? length leis_per_face)%nat
    then rotate_from 0 middleEl leis_per_face else leis_per_face in
  match orientation with
  | ORI_NEGATIVE => reverse_from 0 leis_per_face
  | _ => leis_per_face
  end.

(** Modelled from the spec: the incoming halfedges are walked in
    counter-clockwise order, by decrementing the circulator of the mesh
    ([for (vih_it = vih_iter(vh); vih_it.is_valid(); --vih_it)]): the
    first incoming halfedge, then the others backwards. *)
Definition cvih_ccw (m : TriMesh) (vh : VH) : list HEH :=
  match cvih m vh with
  | [] => []
  | h :: rest => h :: rev rest
  end.

(** [construct_local_edge_information_vertex]; [ninetyJump] is
    [pos_angleSum / M_PI_2], which the source computes in floating point
    with [std::acos]. *)
Definition construct_local_edge_information_vertex (m : TriMesh)
           (uv : list Q) (external_valences : option (list Z))
           (ninetyJump : Q) (gv : GridVertex) : GridVertex :=
  let gv := set_local_edges gv [] in
  if is_valid (gv_heh gv) && negb (is_boundary_h m (gv_heh gv)) then
    let vh := to_vertex_handle m (gv_heh gv) in
    let gv := if is_boundary_v m vh then set_is_boundary gv true else gv in
    let leis :=
      flat_map (fun heh => if is_boundary_h m heh then []
                           else sector_leis m uv heh)
               (cvih_ccw m vh) in
    assign_missing_leis external_valences vh ninetyJump
                        (set_local_edges gv leis)
  else gv.

(** *** The three loops and the tables *)

(** The floating-point parts of [generate_vertices], per face, edge or
    vertex: the 3D points ([applyMapping], the mapping [M] of an edge, the
    embedding of a vertex), the two inputs of the edge loop and
    [ninetyJump]. *)
Record VertexInputs : Type := mkVertexInputs {
  face_p3d : FH -> Z -> Z -> Q * Q * Q;
  edge_x_range_larger : EH -> bool;
  edge_candidate : EH -> Z -> Z;
  edge_p3d : EH -> Z -> Z -> Q * Q * Q;
  vertex_p3d : VH -> Q * Q * Q;
  vertex_ninetyJump : VH -> Q
}.

(** "1. Generate unique assignment" *)
Definition vertex_to_halfedge_ (m : TriMesh) (vh : VH) : HEH :=
  match cvih m vh with
  | [] => -1
  | h :: _ => h
  end.

Definition edge_to_halfedge_ (m : TriMesh) (eh : EH) : HEH :=
  let heh0 := halfedge_handle_e m eh 0 in
  let heh1 := halfedge_handle_e m eh 1 in
  if negb (is_boundary_h m heh0) then heh0 else heh1.

(** [gvertices_] with one of the tables [face_gvertices_],
    [edge_gvertices_], [vertex_gvertices_]. *)
Definition Registry : Type := (list GridVertex * list (list nat))%type.

(** The pushes of one round of a loop: the grid vertices [new] go to the
    end of [gvertices_], their indices to the end of row [h] of the
    table.  (A row outside the table is undefined in the source; the write
    is dropped.) *)
Definition register (st : Registry) (h : Z) (new : list GridVertex)
  : Registry :=
  let '(gvs, table) := st in
  (gvs ++ new,
   if h <? 0 then table
   else alter (fun row => row ++ seq (length gvs) (length new))
              (Z.to_nat h) table).

(** A loop over handles whose round for [h] pushes the grid vertices
    [round h]. *)
Definition register_loop (round : Z -> list GridVertex) (hs : list Z)
           (st : Registry) : Registry :=
  fold_left (fun st h => register st h (round h)) hs st.

(** The grid vertices of the rounds of the three loops. *)
Definition face_round (m : TriMesh) (uv : list Q) (inp : VertexInputs)
           (fh : FH) : list GridVertex :=
  face_grid_vertices m uv (face_p3d inp fh) fh.

(** The round of an edge: nothing when the edge is skipped, else the value
    for [edge_valid_] and the grid vertices. *)
Definition edge_round (m : TriMesh) (tf_ : list TF.t) (uv : list Q)
           (inp : VertexInputs) (eh : EH) : option (bool * list GridVertex) :=
  let heh0 := edge_to_halfedge_ m eh in
  if negb (is_valid heh0) then None
  else Some (edge_grid_vertices m tf_ uv (edge_x_range_larger inp eh)
                                (edge_candidate inp eh) (edge_p3d inp eh) heh0).

Definition vertex_round (m : TriMesh) (uv : list Q)
           (external_valences : option (list Z)) (inp : VertexInputs)
           (vh : VH) : list GridVertex :=
  let heh := vertex_to_halfedge_ m vh in
  if negb (is_valid heh) then []
  else
    let p := uv_point uv heh in
    if Qeq_bool (fst p) (inject_Z (ROUND_QME (fst p)))
       && Qeq_bool (snd p) (inject_Z (ROUND_QME (snd p)))
    then
      [construct_local_edge_information_vertex m uv external_valences
         (vertex_ninetyJump inp vh)
         (mkGV OnVertex heh p (vertex_p3d inp vh) false 0 [])]
    else [].

(** [v.resize(n)] on a vector of flags: cut, or filled up with [false]. *)
Definition resize_flags (n : nat) (v : list bool) : list bool :=
  take n v ++ replicate (n - length v) false.

(** The round of the edge loop on [gvertices_], [edge_gvertices_] and
    [edge_valid_]. *)
Definition edge_step (m : TriMesh) (tf_ : list TF.t) (uv : list Q)
           (inp : VertexInputs) (st : Registry * list bool) (eh : EH)
  : Registry * list bool :=
  match edge_round m tf_ uv inp eh with
  | None => st
  | Some (flag, new) =>
      (register (fst st) eh new,
       if eh <? 0 then snd st else <[Z.to_nat eh := flag]> (snd st))
  end.

(** What [generate_vertices] leaves in the members of the extractor. *)
Record Generated : Type := mkGenerated {
  gen_gvertices : list GridVertex;
  gen_face_gvertices : list (list nat);
  gen_edge_valid : list bool;
  gen_edge_gvertices : list (list nat);
  gen_vertex_gvertices : list (list nat)
}.

(** [generate_vertices].  [n_faces], [n_edges] and [n_vertices] are the
    sizes to which the tables are resized, [edge_valid_before] is
    [edge_valid_] as the call finds it. *)
Definition generate_vertices (m : TriMesh) (tf_ : list TF.t) (uv : list Q)
           (external_valences : option (list Z)) (inp : VertexInputs)
           (n_faces n_edges n_vertices : nat) (edge_valid_before : list bool)
  : Generated :=
  let faces :=
    register_loop (face_round m uv inp) (mesh_faces m)
                  ([], replicate n_faces []) in
  let edges :=
    fold_left (edge_step m tf_ uv inp) (mesh_edges m)
              ((fst faces, replicate n_edges []),
               resize_flags n_edges edge_valid_before) in
  let vertices :=
    register_loop (vertex_round m uv external_valences inp) (mesh_vertices m)
                  (fst (fst edges), replicate n_vertices []) in
  mkGenerated (fst vertices) (snd faces) (snd edges) (snd (fst edges))
              (snd vertices).

(** *** The tables index the grid vertices *)

Lemma register_nil (st : Registry) (h : Z) : register st h [] = st.
Proof.
  destruct st as [gvs table]. unfold register. rewrite app_nil_r.
  f_equal. destruct (h <? 0); [reflexivity |].
  apply list_alter_id. intros row. cbn. apply app_nil_r.
Qed.

Lemma register_loop_gvertices (round : Z -> list GridVertex) (hs : list Z)
      (st : Registry) :
  fst (register_loop round hs st) = fst st ++ flat_map round hs.
Proof.
  revert st. induction hs as [| h hs IH]; intros [gvs table]; cbn.
  - now rewrite app_nil_r.
  - unfold register_loop in IH. rewrite IH. cbn. now rewrite <- app_assoc.
Qed.

Lemma register_loop_length (round : Z -> list GridVertex) (hs : list Z)
      (st : Registry) :
  length (snd (register_loop round hs st)) = length (snd st).
Proof.
  revert st. induction hs as [| h hs IH]; intros [gvs table]; cbn;
    [reflexivity |].
  unfold register_loop in IH. rewrite IH. cbn.
  destruct (h <? 0); [reflexivity | apply length_alter].
Qed.

(** The edge loop, seen from [gvertices_] and [edge_gvertices_]. *)
Definition edge_new (m : TriMesh) (tf_ : list TF.t) (uv : list Q)
           (inp : VertexInputs) (eh : EH) : list GridVertex :=
  match edge_round m tf_ uv inp eh with
  | None => []
  | Some (_, new) => new
  end.

Lemma edge_loop_registry (m : TriMesh) (tf_ : list TF.t) (uv : list Q)
      (inp : VertexInputs) (hs : list EH) (st : Registry * list bool) :
  fst (fold_left (edge_step m tf_ uv inp) hs st)
  = register_loop (edge_new m tf_ uv inp) hs (fst st).
Proof.
  revert st. induction hs as [| h hs IH]; intros st; cbn; [reflexivity |].
  rewrite IH. unfold register_loop. f_equal.
  unfold edge_step, edge_new.
  destruct (edge_round m tf_ uv inp h) as [[flag new] |]; cbn;
    [reflexivity | now rewrite register_nil].
Qed.

Section Indexed.
Variable P : Z -> GridVertex -> Prop.

(** Every index in a row of the table is the index of a grid vertex, and
    that grid vertex is as [P] says for the handle of the row. *)
Definition indexed (st : Registry) : Prop :=
  forall (h : Z) (row : list nat) (i : nat),
    table_row (snd st) h = Some row -> In i row ->
    exists g, fst st !! i = Some g /\ P h g.

Lemma indexed_empty (gvs : list GridVertex) (n : nat) :
  indexed (gvs, replicate n []).
Proof.
  intros h row i Hrow Hi. unfold table_row in Hrow. cbn in Hrow.
  destruct (h <? 0); [discriminate |].
  apply lookup_replicate in Hrow. destruct Hrow as [-> _]. destruct Hi.
Qed.

Lemma indexed_grow (gvs more : list GridVertex) (table : list (list nat)) :
  indexed (gvs, table) -> indexed (gvs ++ more, table).
Proof.
  intros H h row i Hrow Hi. destruct (H h row i Hrow Hi) as (g & Hg & HP).
  exists g. split; [| exact HP]. cbn in *. now apply lookup_app_l_Some.
Qed.

Lemma register_indexed (st : Registry) (h : Z) (new : list GridVertex) :
  (forall g, In g new -> P h g) ->
  indexed st -> indexed (register st h new).
Proof.
  destruct st as [gvs table]. intros Hnew H h' row i Hrow Hi.
  unfold register in *. cbn [fst snd] in *.
  unfold table_row in Hrow.
  destruct (h' <? 0) eqn:Hh'; [discriminate |].
  assert (Hold : forall row0, table !! Z.to_nat h' = Some row0 ->
                              In i row0 ->
                              exists g, (gvs ++ new) !! i = Some g /\ P h' g).
  { intros row0 Hrow0 Hi0.
    apply (indexed_grow gvs new table H h' row0 i); [| exact Hi0].
    unfold table_row. cbn. now rewrite Hh'. }
  destruct (h <? 0) eqn:Hh; [now apply (Hold row) |].
  destruct (decide (Z.to_nat h = Z.to_nat h')) as [E | NE].
  - assert (h = h') by lia. subst h'.
    rewrite list_lookup_alter_eq in Hrow.
    destruct (table !! Z.to_nat h) as [row0 |] eqn:Hrow0; [| discriminate].
    cbn in Hrow. injection Hrow as <-.
    apply in_app_or in Hi. destruct Hi as [Hi | Hi];
      [now apply (Hold row0) |].
    apply in_seq in Hi.
    destruct (lookup_lt_is_Some_2 new (i - length gvs)) as [g Hg]; [lia |].
    exists g. split.
    + rewrite lookup_app_r by lia. exact Hg.
    + apply Hnew. apply list_elem_of_In. now apply list_elem_of_lookup_2 in Hg.
  - rewrite list_lookup_alter_ne in Hrow by exact NE. now apply (Hold row).
Qed.

Lemma register_loop_indexed (round : Z -> list GridVertex) (hs : list Z)
      (st : Registry) :
  (forall h g, In g (round h) -> P h g) ->
  indexed st -> indexed (register_loop round hs st).
Proof.
  intros Hround. revert st. induction hs as [| h hs IH]; intros st H;
    [exact H |].
  cbn. apply IH. apply register_indexed; [apply Hround | exact H].
Qed.
End Indexed.

(** The local edge construction leaves the rest of a grid vertex alone. *)
Lemma construct_local_edge_information_face_fields (m : TriMesh)
      (uv : list Q) (gv : GridVertex) :
  let gv' := construct_local_edge_information_face m uv gv in
  gv_type gv' = gv_type gv /\ gv_heh gv' = gv_heh gv /\
  position_uv gv' = position_uv gv.
Proof.
  unfold construct_local_edge_information_face. cbv zeta.
  cbn [set_local_edges gv_heh].
  destruct (_ && _); [| now cbn].
  destruct (triangleUvOrientation _ _ _); now cbn.
Qed.

Lemma construct_local_edge_information_vertex_fields (m : TriMesh)
      (uv : list Q) (external_valences : option (list Z)) (ninetyJump : Q)
      (gv : GridVertex) :
  let gv' :=
    construct_local_edge_information_vertex m uv external_valences
                                            ninetyJump gv in
  gv_type gv' = gv_type gv /\ gv_heh gv' = gv_heh gv /\
  position_uv gv' = position_uv gv.
Proof.
  unfold construct_local_edge_information_vertex, assign_missing_leis.
  cbv zeta. cbn [set_local_edges gv_heh].
  destruct (_ && _); [| now cbn].
  destruct (is_boundary_v _ _); cbn; [now repeat split |].
  destruct (is_boundary gv); now cbn.
Qed.

(** What the rounds push. *)
Definition face_gvertex (m : TriMesh) (fh : Z) (g : GridVertex) : Prop :=
  gv_type g = OnFace /\ gv_heh g = halfedge_handle_f m fh.

Definition edge_gvertex (m : TriMesh) (eh : Z) (g : GridVertex) : Prop :=
  gv_type g = OnEdge /\ gv_heh g = edge_to_halfedge_ m eh /\
  is_valid (gv_heh g) = true.

Definition vertex_gvertex (m : TriMesh) (uv : list Q) (vh : Z)
           (g : GridVertex) : Prop :=
  gv_type g = OnVertex /\ gv_heh g = vertex_to_halfedge_ m vh /\
  is_valid (gv_heh g) = true /\
  position_uv g = uv_point uv (gv_heh g) /\
  (fst (position_uv g) == inject_Z (ROUND_QME (fst (position_uv g))))%Q /\
  (snd (position_uv g) == inject_Z (ROUND_QME (snd (position_uv g))))%Q.

Lemma face_round_pushes (m : TriMesh) (uv : list Q) (inp : VertexInputs)
      (fh : FH) (g : GridVertex) :
  In g (face_round m uv inp fh) -> face_gvertex m fh g.
Proof.
  unfold face_round, face_grid_vertices. cbv zeta. intros Hg.
  apply in_map_iff in Hg. destruct Hg as (xy & <- & _).
  destruct (construct_local_edge_information_face_fields m uv
              (mkGV OnFace (halfedge_handle_f m fh)
                    (lattice_point (fst xy) (snd xy))
                    (face_p3d inp fh (fst xy) (snd xy)) false 0 []))
    as (Ht & Hh & _).
  split; [now rewrite Ht | now rewrite Hh].
Qed.

Lemma edge_new_pushes (m : TriMesh) (tf_ : list TF.t) (uv : list Q)
      (inp : VertexInputs) (eh : EH) (g : GridVertex) :
  In g (edge_new m tf_ uv inp eh) -> edge_gvertex m eh g.
Proof.
  unfold edge_new, edge_round. cbv zeta.
  destruct (is_valid (edge_to_halfedge_ m eh)) eqn:Hv; cbn [negb];
    [| intros []].
  unfold edge_grid_vertices. cbv zeta.
  destruct (negb _); [| intros []].
  intros Hg. apply in_map_iff in Hg. destruct Hg as (xy & <- & _).
  destruct (construct_local_edge_information_edge_fields m tf_ uv
              (mkGV OnEdge (edge_to_halfedge_ m eh)
                    (lattice_point (fst xy) (snd xy))
                    (edge_p3d inp eh (fst xy) (snd xy)) false 0 []))
    as (Ht & Hh & _).
  unfold edge_gvertex. rewrite Ht, Hh. cbn. now rewrite Hv.
Qed.

Lemma vertex_round_pushes (m : TriMesh) (uv : list Q)
      (external_valences : option (list Z)) (inp : VertexInputs) (vh : VH)
      (g : GridVertex) :
  In g (vertex_round m uv external_valences inp vh) ->
  vertex_gvertex m uv vh g.
Proof.
  unfold vertex_round. cbv zeta.
  destruct (is_valid (vertex_to_halfedge_ m vh)) eqn:Hv; cbn [negb];
    [| intros []].
  destruct (_ && _) eqn:Hint; [| intros []].
  intros [<- | []].
  apply andb_true_iff in Hint. destruct Hint as [Hx Hy].
  apply Qeq_bool_iff in Hx, Hy.
  destruct (construct_local_edge_information_vertex_fields m uv
              external_valences (vertex_ninetyJump inp vh)
              (mkGV OnVertex (vertex_to_halfedge_ m vh)
                    (uv_point uv (vertex_to_halfedge_ m vh))
                    (vertex_p3d inp vh) false 0 []))
    as (Ht & Hh & Hp).
  unfold vertex_gvertex. rewrite Ht, Hh, Hp. cbn.
  repeat split; assumption.
Qed.

(** X19. After [generate_vertices] every index stored in a row of
    [face_gvertices_], [edge_gvertices_] or [vertex_gvertices_] is the
    index of a grid vertex of [gvertices_], and that grid vertex is of the
    type of the table and sits on the halfedge chosen for the face, edge or
    vertex of the row; a grid vertex of [vertex_gvertices_] lies at the
    parameter point of that halfedge, whose two coordinates are
    integers. *)
Theorem generate_vertices_tables_sound (m : TriMesh) (tf_ : list TF.t)
        (uv : list Q) (external_valences : option (list Z))
        (inp : VertexInputs) (n_faces n_edges n_vertices : nat)
        (edge_valid_before : list bool) :
  let gen :=
    generate_vertices m tf_ uv external_valences inp n_faces n_edges
                      n_vertices edge_valid_before in
  indexed (face_gvertex m) (gen_gvertices gen, gen_face_gvertices gen) /\
  indexed (edge_gvertex m) (gen_gvertices gen, gen_edge_gvertices gen) /\
  indexed (vertex_gvertex m uv)
          (gen_gvertices gen, gen_vertex_gvertices gen).
Proof.
  cbv zeta. unfold generate_vertices. cbv zeta.
  cbn [gen_gvertices gen_face_gvertices gen_edge_gvertices
       gen_vertex_gvertices].
  rewrite !edge_loop_registry. cbn [fst snd].
  set (faces := register_loop (face_round m uv inp) (mesh_faces m) _).
  set (edges := register_loop (edge_new m tf_ uv inp) (mesh_edges m) _).
  set (vertices := register_loop (vertex_round _ _ _ _) (mesh_vertices m) _).
  assert (Hf : indexed (face_gvertex m) faces).
  { apply register_loop_indexed; [apply face_round_pushes |].
    apply indexed_empty. }
  assert (He : indexed (edge_gvertex m) edges).
  { apply register_loop_indexed; [apply edge_new_pushes |].
    apply indexed_empty. }
  assert (Hv : indexed (vertex_gvertex m uv) vertices).
  { apply register_loop_indexed; [apply vertex_round_pushes |].
    apply indexed_empty. }
  assert (Ee : fst edges = fst faces ++
                           flat_map (edge_new m tf_ uv inp) (mesh_edges m)).
  { unfold edges. now rewrite register_loop_gvertices. }
  assert (Ev : fst vertices
               = fst edges ++
                 flat_map (vertex_round m uv external_valences inp)
                          (mesh_vertices m)).
  { unfold vertices. now rewrite register_loop_gvertices. }
  split; [| split].
  - rewrite Ev, Ee. apply indexed_grow, indexed_grow.
    now destruct faces.
  - rewrite Ev. apply indexed_grow. now destruct edges.
  - now destruct vertices.
Qed.

(** *** Every grid vertex is in one row *)

(** The row of a handle, empty where the table has none. *)
Definition row_of (t : list (list nat)) (h : Z) : list nat :=
  default [] (table_row t h).

(** The handles index a table of [n] rows. *)
Definition handles_in (n : nat) (hs : list Z) : Prop :=
  Forall (fun h => 0 <= h < Z.of_nat n) hs.

Lemma register_row_other (st : Registry) (h k : Z) (new : list GridVertex) :
  k <> h -> row_of (snd (register st h new)) k = row_of (snd st) k.
Proof.
  destruct st as [gvs t]. intros Hk. unfold register, row_of, table_row.
  cbn [snd]. destruct (k <? 0) eqn:Ek; [reflexivity |].
  destruct (h <? 0) eqn:Eh; [reflexivity |].
  rewrite list_lookup_alter_ne by lia. reflexivity.
Qed.

Lemma register_row_self (gvs : list GridVertex) (t : list (list nat)) (h : Z)
      (new : list GridVertex) :
  0 <= h < Z.of_nat (length t) ->
  row_of (snd (register (gvs, t) h new)) h
  = row_of t h ++ seq (length gvs) (length new).
Proof.
  intros Hh. unfold register, row_of, table_row. cbn [snd].
  destruct (h <? 0) eqn:Eh; [lia |].
  rewrite list_lookup_alter_eq.
  destruct (lookup_lt_is_Some_2 t (Z.to_nat h)) as [row Hrow]; [lia |].
  now rewrite Hrow.
Qed.

Lemma register_loop_row_other (round : Z -> list GridVertex) (hs : list Z)
      (st : Registry) (k : Z) :
  ~ In k hs ->
  row_of (snd (register_loop round hs st)) k = row_of (snd st) k.
Proof.
  revert st. induction hs as [| h hs IH]; intros st Hk; [reflexivity |].
  cbn. unfold register_loop in IH. rewrite IH by (intros ?; apply Hk; now right).
  apply register_row_other. intros ->. apply Hk. now left.
Qed.

Lemma register_loop_rows (round : Z -> list GridVertex) (hs : list Z)
      (gvs : list GridVertex) (t : list (list nat)) :
  NoDup hs -> handles_in (length t) hs ->
  (forall h, In h hs -> row_of t h = []) ->
  flat_map (row_of (snd (register_loop round hs (gvs, t)))) hs
  = seq (length gvs) (length (flat_map round hs)).
Proof.
  revert gvs t. induction hs as [| h hs IH]; intros gvs t Hnd Hin Hempty;
    [reflexivity |].
  apply NoDup_cons in Hnd. destruct Hnd as [Hh Hnd].
  rewrite list_elem_of_In in Hh.
  apply Forall_cons in Hin. destruct Hin as [Hr Hin].
  cbn [flat_map]. rewrite length_app, seq_app.
  change (register_loop round (h :: hs) (gvs, t))
    with (register_loop round hs (register (gvs, t) h (round h))).
  f_equal.
  - rewrite register_loop_row_other by exact Hh.
    rewrite register_row_self by exact Hr.
    rewrite Hempty by now left. reflexivity.
  - unfold register at 1. cbn [fst snd].
    destruct (h <? 0) eqn:Eh; [lia |].
    rewrite IH.
    + now rewrite length_app.
    + exact Hnd.
    + unfold handles_in. now rewrite length_alter.
    + intros h' Hh'.
      assert (Hne : h' <> h) by (intros ->; contradiction).
      pose proof (register_row_other (gvs, t) h h' (round h) Hne) as E.
      unfold register in E. cbn [snd] in E. rewrite Eh in E.
      rewrite E. apply Hempty. now right.
Qed.

Lemma row_of_empty (n : nat) (h : Z) : row_of (replicate n []) h = [].
Proof.
  unfold row_of, table_row. destruct (h <? 0); [reflexivity |].
  destruct (replicate n [] !! Z.to_nat h) as [row |] eqn:E; [| reflexivity].
  apply lookup_replicate in E. now destruct E as [-> _].
Qed.

(** X20. When the faces, edges and vertices of the mesh are listed once
    each and their handles index the tables, the rows of
    [face_gvertices_], of [edge_gvertices_] and of [vertex_gvertices_],
    read in the order of the three loops, list the indices
    [0 .. gvertices_.size()-1] in increasing order: every grid vertex is
    in exactly one row of one table.  The tables have the sizes they were
    resized to. *)
Theorem generate_vertices_tables_partition (m : TriMesh) (tf_ : list TF.t)
        (uv : list Q) (external_valences : option (list Z))
        (inp : VertexInputs) (n_faces n_edges n_vertices : nat)
        (edge_valid_before : list bool) :
  NoDup (mesh_faces m) -> NoDup (mesh_edges m) -> NoDup (mesh_vertices m) ->
  handles_in n_faces (mesh_faces m) ->
  handles_in n_edges (mesh_edges m) ->
  handles_in n_vertices (mesh_vertices m) ->
  let gen :=
    generate_vertices m tf_ uv external_valences inp n_faces n_edges
                      n_vertices edge_valid_before in
  flat_map (row_of (gen_face_gvertices gen)) (mesh_faces m)
  ++ flat_map (row_of (gen_edge_gvertices gen)) (mesh_edges m)
  ++ flat_map (row_of (gen_vertex_gvertices gen)) (mesh_vertices m)
  = seq 0 (length (gen_gvertices gen)) /\
  length (gen_face_gvertices gen) = n_faces /\
  length (gen_edge_gvertices gen) = n_edges /\
  length (gen_vertex_gvertices gen) = n_vertices.
Proof.
  intros Hndf Hnde Hndv Hf He Hv. cbv zeta. unfold generate_vertices.
  cbv zeta.
  cbn [gen_gvertices gen_face_gvertices gen_edge_gvertices
       gen_vertex_gvertices].
  rewrite !edge_loop_registry. cbn [fst snd].
  rewrite !register_loop_length, !register_loop_gvertices. cbn [fst snd].
  rewrite !length_replicate. split; [| now repeat split].
  rewrite !register_loop_rows;
    try assumption;
    try (now rewrite length_replicate);
    try (intros; apply row_of_empty).
  rewrite !length_app. cbn [length app]. rewrite Nat.add_0_l.
  rewrite <- !seq_app. f_equal. lia.
Qed.

(** The inputs of the edge loop on [square_mesh] with [diagonal_uv]: the
    parameter square [0,2] x [0,2], cut along its diagonal. *)
Definition diagonal_inputs : VertexInputs :=
  {| face_p3d := fun _ _ _ => (0, 0, 0)%Q;
     edge_x_range_larger := fun eh => negb ((eh =? 1) || (eh =? 4));
     edge_candidate :=
       fun eh t => if eh =? 2 then t
                   else if (eh =? 1) || (eh =? 3) then 2 else 0;
     edge_p3d := fun _ _ _ => (0, 0, 0)%Q;
     vertex_p3d := fun _ => (0, 0, 0)%Q;
     vertex_ninetyJump := fun _ => 1%Q |}.

Lemma generate_vertices_tables_partition_witness :
  let gen :=
    generate_vertices square_mesh [] diagonal_uv None diagonal_inputs
                      2 5 4 [] in
  flat_map (row_of (gen_face_gvertices gen)) (mesh_faces square_mesh)
  ++ flat_map (row_of (gen_edge_gvertices gen)) (mesh_edges square_mesh)
  ++ flat_map (row_of (gen_vertex_gvertices gen)) (mesh_vertices square_mesh)
  = seq 0 (length (gen_gvertices gen)) /\
  length (gen_face_gvertices gen) = 2%nat /\
  length (gen_edge_gvertices gen) = 5%nat /\
  length (gen_vertex_gvertices gen) = 4%nat.
Proof.
  apply (generate_vertices_tables_partition square_mesh [] diagonal_uv None
           diagonal_inputs 2 5 4 []).
  - apply (bool_decide_unpack _). vm_compute. exact I.
  - apply (bool_decide_unpack _). vm_compute. exact I.
  - apply (bool_decide_unpack _). vm_compute. exact I.
  - repeat constructor; vm_compute; congruence.
  - repeat constructor; vm_compute; congruence.
  - repeat constructor; vm_compute; congruence.
Defined.

(** On the cut square the loops find no grid vertex in a face, one on each
    edge and one on each vertex. *)
Example generate_vertices_run :
  let gen :=
    generate_vertices square_mesh [] diagonal_uv None diagonal_inputs
                      2 5 4 [] in
  map (fun g => (gv_type g, gv_heh g, position_uv g)) (gen_gvertices gen)
  = [(OnEdge, 0, (1, 0)%Q); (OnEdge, 2, (2, 1)%Q); (OnEdge, 4, (1, 1)%Q);
     (OnEdge, 6, (1, 2)%Q); (OnEdge, 8, (0, 1)%Q);
     (OnVertex, 8, (0, 0)%Q); (OnVertex, 0, (2, 0)%Q);
     (OnVertex, 2, (2, 2)%Q); (OnVertex, 6, (0, 2)%Q)] /\
  gen_edge_gvertices gen = [[0]; [1]; [2]; [3]; [4]]%nat /\
  gen_vertex_gvertices gen = [[5]; [6]; [7]; [8]]%nat /\
  gen_edge_valid gen = [true; true; true; true; true].
Proof. vm_compute. repeat split. Qed.

(** *** [edge_valid_] *)

(** The segment of an edge in the parameter domain, between the ends of
    its chosen halfedge, is degenerate. *)
Definition edge_degenerate (m : TriMesh) (uv : list Q) (eh : EH) : bool :=
  let heh0 := edge_to_halfedge_ m eh in
  Peqb (uv_point uv heh0) (uv_point uv (prev_halfedge_handle m heh0)).

(** The edges whose round writes [edge_valid_]. *)
Definition edge_visited (m : TriMesh) (eh : EH) : Prop :=
  In eh (mesh_edges m) /\ is_valid (edge_to_halfedge_ m eh) = true.

Lemma edge_round_flag (m : TriMesh) (tf_ : list TF.t) (uv : list Q)
      (inp : VertexInputs) (eh : EH) :
  is_valid (edge_to_halfedge_ m eh) = true ->
  exists new,
    edge_round m tf_ uv inp eh = Some (negb (edge_degenerate m uv eh), new).
Proof.
  intros Hv. unfold edge_round, edge_grid_vertices, edge_degenerate.
  cbv zeta. rewrite Hv. cbn [negb].
  destruct (Peqb _ _); cbn [negb]; eexists; reflexivity.
Qed.

Lemma edge_round_skip (m : TriMesh) (tf_ : list TF.t) (uv : list Q)
      (inp : VertexInputs) (eh : EH) :
  is_valid (edge_to_halfedge_ m eh) = false ->
  edge_round m tf_ uv inp eh = None.
Proof. intros Hv. unfold edge_round. cbv zeta. now rewrite Hv. Qed.

Lemma edge_loop_flags_length (m : TriMesh) (tf_ : list TF.t) (uv : list Q)
      (inp : VertexInputs) (hs : list EH) (st : Registry * list bool) :
  length (snd (fold_left (edge_step m tf_ uv inp) hs st)) = length (snd st).
Proof.
  revert st. induction hs as [| h hs IH]; intros st; [reflexivity |].
  cbn. rewrite IH. unfold edge_step.
  destruct (edge_round m tf_ uv inp h) as [[flag new] |]; [| reflexivity].
  cbn. destruct (h <? 0); [reflexivity | apply length_insert].
Qed.

Lemma edge_loop_flags_other (m : TriMesh) (tf_ : list TF.t) (uv : list Q)
      (inp : VertexInputs) (hs : list EH) (st : Registry * list bool)
      (i : nat) :
  (forall eh, In eh hs -> is_valid (edge_to_halfedge_ m eh) = true ->
              0 <= eh -> Z.to_nat eh <> i) ->
  snd (fold_left (edge_step m tf_ uv inp) hs st) !! i = snd st !! i.
Proof.
  revert st. induction hs as [| h hs IH]; intros st Hi; [reflexivity |].
  cbn. rewrite IH by (intros eh Heh; apply Hi; now right).
  unfold edge_step.
  destruct (is_valid (edge_to_halfedge_ m h)) eqn:Hv.
  - destruct (edge_round_flag m tf_ uv inp h Hv) as [new ->]. cbn.
    destruct (h <? 0) eqn:Eh; [reflexivity |].
    apply list_lookup_insert_ne. apply Hi; [now left | exact Hv | lia].
  - now rewrite (edge_round_skip m tf_ uv inp h Hv).
Qed.

Lemma edge_loop_flags_visited (m : TriMesh) (tf_ : list TF.t) (uv : list Q)
      (inp : VertexInputs) (hs : list EH) (st : Registry * list bool)
      (eh : EH) :
  In eh hs -> is_valid (edge_to_halfedge_ m eh) = true ->
  0 <= eh < Z.of_nat (length (snd st)) ->
  snd (fold_left (edge_step m tf_ uv inp) hs st) !! Z.to_nat eh
  = Some (negb (edge_degenerate m uv eh)).
Proof.
  revert st. induction hs as [| h hs IH]; intros st Hin Hv Hr; [destruct Hin |].
  cbn [fold_left].
  destruct (in_dec Z.eq_dec eh hs) as [Hlater | Hlast].
  - apply IH; [exact Hlater | exact Hv |].
    unfold edge_step.
    destruct (edge_round m tf_ uv inp h) as [[flag new] |]; [| exact Hr].
    cbn. destruct (h <? 0); [exact Hr | now rewrite length_insert].
  - destruct Hin as [-> | Hin]; [| contradiction].
    rewrite edge_loop_flags_other.
    + unfold edge_step.
      destruct (edge_round_flag m tf_ uv inp eh Hv) as [new ->]. cbn.
      destruct (eh <? 0) eqn:Eh; [lia |].
      apply list_lookup_insert_eq. lia.
    + intros eh' Hin' _ Hpos E. apply Hlast.
      replace eh with eh' by lia. exact Hin'.
Qed.

Lemma length_resize_flags (n : nat) (v : list bool) :
  length (resize_flags n v) = n.
Proof.
  unfold resize_flags. rewrite length_app, length_take, length_replicate. lia.
Qed.

(** X21. [generate_vertices] sets [edge_valid_] to "the parameter segment
    of the edge is not degenerate" for every edge of the mesh that has a
    valid halfedge; every other entry is what the vector held before the
    call (or [false] where the vector has grown). *)
Theorem generate_vertices_edge_valid (m : TriMesh) (tf_ : list TF.t)
        (uv : list Q) (external_valences : option (list Z))
        (inp : VertexInputs) (n_faces n_edges n_vertices : nat)
        (edge_valid_before : list bool) :
  let gen :=
    generate_vertices m tf_ uv external_valences inp n_faces n_edges
                      n_vertices edge_valid_before in
  length (gen_edge_valid gen) = n_edges /\
  (forall eh, edge_visited m eh -> 0 <= eh < Z.of_nat n_edges ->
              gen_edge_valid gen !! Z.to_nat eh
              = Some (negb (edge_degenerate m uv eh))) /\
  (forall eh, 0 <= eh -> ~ edge_visited m eh ->
              gen_edge_valid gen !! Z.to_nat eh
              = resize_flags n_edges edge_valid_before !! Z.to_nat eh) /\
  (forall i, (i < n_edges)%nat ->
             resize_flags n_edges edge_valid_before !! i
             = Some (default false (edge_valid_before !! i))).
Proof.
  cbv zeta. unfold generate_vertices. cbv zeta. cbn [gen_edge_valid].
  split; [| split; [| split]].
  - rewrite edge_loop_flags_length. cbn [snd]. apply length_resize_flags.
  - intros eh [Hin Hv] Hr. apply edge_loop_flags_visited; [exact Hin | exact Hv |].
    cbn [snd]. now rewrite length_resize_flags.
  - intros eh Hpos Hnot. apply edge_loop_flags_other.
    intros eh' Hin' Hv' Hpos' E. apply Hnot.
    replace eh with eh' by lia. now split.
  - intros i Hi. unfold resize_flags.
    destruct (decide (i < length edge_valid_before)%nat) as [Hlt | Hge].
    + rewrite lookup_app_l by (rewrite length_take; lia).
      rewrite lookup_take_lt by lia.
      destruct (lookup_lt_is_Some_2 edge_valid_before i Hlt) as [b ->].
      reflexivity.
    + rewrite lookup_app_r by (rewrite length_take; lia).
      rewrite (lookup_ge_None_2 edge_valid_before i) by lia.
      cbn. apply lookup_replicate_2. rewrite length_take. lia.
Qed.

(** *** The searches on the tables of [generate_vertices] *)

Lemma scan_gvertices_in_range (gvs : list GridVertex)
      (test : GridVertex -> LocalEdgeInfo -> bool) (row : list nat) :
  (forall vidx, In vidx row -> (vidx < length gvs)%nat) ->
  exists found,
    scan_gvertices gvs test row = Some found /\
    forall vidx j, found = Some (vidx, j) -> In vidx row.
Proof.
  induction row as [| vidx row IH]; intros Hrow; cbn [scan_gvertices].
  - exists None. split; [reflexivity | discriminate].
  - destruct (lookup_lt_is_Some_2 gvs vidx) as [g Hg];
      [apply Hrow; now left |].
    rewrite Hg. cbn [mbind option_bind].
    destruct (find_index (test g) (local_edges g)) as [j |].
    + exists (Some (vidx, j)). split; [reflexivity |].
      intros v j' E. injection E as <- <-. now left.
    + destruct IH as (found & Hscan & Hin);
        [intros v Hv; apply Hrow; now right |].
      exists found. split; [exact Hscan |].
      intros v j' E. right. exact (Hin v j' E).
Qed.

Lemma generate_vertices_edge_rows (m : TriMesh) (tf_ : list TF.t)
      (uv : list Q) (external_valences : option (list Z))
      (inp : VertexInputs) (n_faces n_edges n_vertices : nat)
      (edge_valid_before : list bool) (eh : EH) (row : list nat) :
  let gen :=
    generate_vertices m tf_ uv external_valences inp n_faces n_edges
                      n_vertices edge_valid_before in
  table_row (gen_edge_gvertices gen) eh = Some row ->
  forall vidx, In vidx row -> (vidx < length (gen_gvertices gen))%nat.
Proof.
  cbv zeta. unfold generate_vertices. cbv zeta.
  cbn [gen_gvertices gen_edge_gvertices].
  rewrite !edge_loop_registry. cbn [fst snd].
  rewrite (register_loop_gvertices (vertex_round _ _ _ _)). cbn [fst].
  set (edges := register_loop (edge_new m tf_ uv inp) (mesh_edges m) _).
  assert (He : indexed (fun _ _ => True) edges).
  { apply register_loop_indexed; [trivial | apply indexed_empty]. }
  intros Hrow vidx Hin.
  destruct (He eh row vidx Hrow Hin) as (g & Hg & _).
  apply lookup_lt_Some in Hg. rewrite length_app. lia.
Qed.

(** X22. Run on the table [edge_gvertices_] that [generate_vertices] has
    filled and on a [gvertices_] that still has the number of grid vertices
    generated, [find_local_connection_at_edge] reads nothing outside the
    table or outside [gvertices_]: for every halfedge whose edge indexes
    the table it returns a result, a connection or the error. *)
Theorem find_local_connection_at_edge_in_range (m : TriMesh)
        (tf_ : list TF.t) (uv : list Q) (external_valences : option (list Z))
        (inp : VertexInputs) (n_faces n_edges n_vertices : nat)
        (edge_valid_before : list bool) (gvs : list GridVertex)
        (reverseApply : Point_2 -> Point_2 -> TF.t -> Point_2 * Point_2)
        (p_from p_original_from p_to : Point_2) (heh : HEH) (acc : TF.t) :
  let gen :=
    generate_vertices m tf_ uv external_valences inp n_faces n_edges
                      n_vertices edge_valid_before in
  length gvs = length (gen_gvertices gen) ->
  0 <= edge_handle m heh < Z.of_nat n_edges ->
  exists r,
    find_local_connection_at_edge m tf_ gvs (gen_edge_gvertices gen)
      reverseApply p_from p_original_from p_to heh acc = Some r /\
    (r = FPR_Error \/
     exists vidx, fpr_connected_to_idx r = Connected vidx /\
                  In vidx (row_of (gen_edge_gvertices gen)
                                  (edge_handle m heh))).
Proof.
  cbv zeta. intros Hlen Hr.
  pose proof (generate_vertices_edge_rows m tf_ uv external_valences inp
                n_faces n_edges n_vertices edge_valid_before
                (edge_handle m heh)) as Hrows.
  cbv zeta in Hrows.
  set (gen := generate_vertices m tf_ uv external_valences inp n_faces
                                n_edges n_vertices edge_valid_before) in *.
  assert (Ht : length (gen_edge_gvertices gen) = n_edges).
  { unfold gen, generate_vertices. cbv zeta. cbn [gen_edge_gvertices].
    rewrite edge_loop_registry, register_loop_length. cbn [fst snd].
    apply length_replicate. }
  destruct (lookup_lt_is_Some_2 (gen_edge_gvertices gen)
              (Z.to_nat (edge_handle m heh))) as [row Hrow]; [lia |].
  assert (Htr : table_row (gen_edge_gvertices gen) (edge_handle m heh)
                = Some row).
  { unfold table_row. destruct (edge_handle m heh <? 0) eqn:E; [lia |].
    exact Hrow. }
  unfold find_local_connection_at_edge. cbv zeta. unfold row_of.
  rewrite Htr. cbn [mbind option_bind default].
  match goal with
  | |- context [scan_gvertices gvs ?t row] =>
      destruct (scan_gvertices_in_range gvs t row) as (found & -> & Hin)
  end.
  { intros vidx Hv. rewrite Hlen. exact (Hrows row Htr vidx Hv). }
  cbn [mbind option_bind].
  destruct found as [[vidx j] |]; [| exists FPR_Error; split; [reflexivity | now left]].
  pose proof (Hin vidx j eq_refl) as Hv.
  destruct (lookup_lt_is_Some_2 gvs vidx) as [g Hg];
    [rewrite Hlen; exact (Hrows row Htr vidx Hv) |].
  rewrite Hg. cbn [mbind option_bind].
  destruct (face_handle m (gv_heh g) =? face_handle m heh);
    eexists; (split; [reflexivity |]); right; exists vidx;
    (split; [apply connection_result_fields | exact Hv]).
Qed.

Lemma find_local_connection_at_edge_in_range_witness :
  let gen :=
    generate_vertices square_mesh [] diagonal_uv None diagonal_inputs
                      2 5 4 [] in
  exists r,
    find_local_connection_at_edge square_mesh [] (gen_gvertices gen)
      (gen_edge_gvertices gen) (fun a b _ => (a, b))
      (2, 1)%Q (2, 1)%Q (1, 1)%Q 4 TF.identity = Some r /\
    (r = FPR_Error \/
     exists vidx, fpr_connected_to_idx r = Connected vidx /\
                  In vidx (row_of (gen_edge_gvertices gen)
                                  (edge_handle square_mesh 4))).
Proof.
  apply (find_local_connection_at_edge_in_range square_mesh [] diagonal_uv
           None diagonal_inputs 2 5 4 []).
  - reflexivity.
  - vm_compute. split; congruence.
Defined.

(** On the cut square a path that arrives at the diagonal in [(1, 1)] from
    the right finds the grid vertex of the diagonal. *)
Example find_local_connection_at_edge_generated_run :
  let gen :=
    generate_vertices square_mesh [] diagonal_uv None diagonal_inputs
                      2 5 4 [] in
  fpr_connected_to_idx
    <$> find_local_connection_at_edge square_mesh [] (gen_gvertices gen)
          (gen_edge_gvertices gen) (fun a b _ => (a, b))
          (2, 1)%Q (2, 1)%Q (1, 1)%Q 4 TF.identity
  = Some (Connected 2).
Proof. vm_compute. reflexivity. Qed.

(** *** What the repair leaves alone *)

(** A grid vertex without its local edges. *)
Definition frame_of (g : GridVertex)
  : GridVertexType * HEH * Point_2 * (Q * Q * Q) * bool * Z :=
  (gv_type g, gv_heh g, position_uv g, position_3d g, is_boundary g,
   missing_leis g).

(** [gvs'] has the grid vertices of [gvs], each with the same fields and
    at least as many local edges. *)
Definition only_grown (gvs gvs' : list GridVertex) : Prop :=
  length gvs' = length gvs /\
  forall g gv, gvs !! g = Some gv ->
    exists gv', gvs' !! g = Some gv' /\ frame_of gv' = frame_of gv /\
                (length (local_edges gv) <= length (local_edges gv'))%nat.

Lemma only_grown_refl (gvs : list GridVertex) : only_grown gvs gvs.
Proof. split; [reflexivity |]. intros g gv Hg. now exists gv. Qed.

Lemma only_grown_trans (g1 g2 g3 : list GridVertex) :
  only_grown g1 g2 -> only_grown g2 g3 -> only_grown g1 g3.
Proof.
  intros [L1 H1] [L2 H2]. split; [congruence |].
  intros g gv Hg. destruct (H1 g gv Hg) as (gv2 & Hg2 & F2 & Le2).
  destruct (H2 g gv2 Hg2) as (gv3 & Hg3 & F3 & Le3).
  exists gv3. split; [exact Hg3 |]. split; [congruence | lia].
Qed.

Lemma only_grown_alter (gvs : list GridVertex) (i : nat)
      (f : GridVertex -> GridVertex) :
  (forall gv, frame_of (f gv) = frame_of gv /\
              (length (local_edges gv) <= length (local_edges (f gv)))%nat) ->
  only_grown gvs (alter f i gvs).
Proof.
  intros Hf. split; [apply length_alter |]. intros g gv Hg.
  destruct (decide (g = i)) as [-> | Hne].
  - exists (f gv). rewrite list_lookup_alter_eq, Hg.
    split; [reflexivity | apply Hf].
  - exists gv. rewrite list_lookup_alter_ne by congruence. now split.
Qed.

Lemma only_grown_update_lei (gvs : list GridVertex) (r : LeiRef)
      (f : LocalEdgeInfo -> LocalEdgeInfo) :
  only_grown gvs (update_lei gvs r f).
Proof.
  apply only_grown_alter. intros gv. split; [reflexivity |].
  cbn. now rewrite length_alter.
Qed.

Lemma only_grown_insert_lei (gvs : list GridVertex) (g k : nat)
      (x : LocalEdgeInfo) :
  only_grown gvs (insert_lei gvs g k x).
Proof.
  apply only_grown_alter. intros gv. split; [reflexivity |].
  cbn. unfold insert_at. rewrite length_app. cbn [length].
  rewrite length_take, length_drop. lia.
Qed.

Lemma only_grown_increment (poss : list nat) :
  forall (gvs gvs' : list GridVertex) (g : nat),
    increment_opposite_connected_to_idx gvs g poss = Some gvs' ->
    only_grown gvs gvs'.
Proof.
  induction poss as [| pos poss IH]; intros gvs gvs' g;
    cbn [increment_opposite_connected_to_idx].
  - intros [= <-]. apply only_grown_refl.
  - destruct (increment_opposite_at gvs g pos) as [gvs1 |] eqn:H1;
      cbn [mbind option_bind]; [| discriminate].
    intros H2. apply (only_grown_trans gvs gvs1 gvs'); [| exact (IH _ _ _ H2)].
    unfold increment_opposite_at in H1.
    destruct (get_lei gvs (g, pos)) as [first |]; cbn [mbind option_bind] in H1;
      [| discriminate].
    destruct (connected_to_idx first) as [sn | c].
    + injection H1 as <-. apply only_grown_refl.
    + destruct (gvs !! c) as [gv_c |]; cbn [mbind option_bind] in H1;
        [| discriminate].
      destruct (local_edge gv_c (orientation_idx first));
        cbn [mbind option_bind] in H1; [| discriminate].
      injection H1 as <-. apply only_grown_update_lei.
Qed.

Section RepairOnlyAdds.

Variable m : TriMesh.
Variable tf_ : list TF.t.

Lemma only_grown_insert_connection (gvs gvs' : list GridVertex) (s p n : nat)
      (q : Z) (current_outgoing : LeiRef) (acc_tf : TF.t) :
  insert_connection m tf_ gvs s p n q current_outgoing acc_tf = Some gvs' ->
  only_grown gvs gvs'.
Proof.
  intros Hins.
  destruct (insert_connection_inv m tf_ gvs gvs' s p n q current_outgoing
              acc_tf Hins)
    as (gv_s & gv_n & start_lei & nin & gvs1 & gvs2 & newS & newN & f1 & f2
        & _ & _ & _ & _ & Hi1 & Hi2 & ->).
  eapply only_grown_trans; [exact (only_grown_increment _ _ _ _ Hi1) |].
  eapply only_grown_trans; [exact (only_grown_increment _ _ _ _ Hi2) |].
  eapply only_grown_trans; [apply only_grown_insert_lei |].
  eapply only_grown_trans; [apply only_grown_insert_lei |].
  eapply only_grown_trans; apply only_grown_update_lei.
Qed.

Lemma only_grown_repair_walk (fuel : nat) :
  forall (s p : nat) (pivot_uv : Point_2) (gvs : list GridVertex)
         (acc_tf : TF.t) (current_outgoing : LeiRef) (edgeCreated : bool)
         (gvs' : list GridVertex),
    repair_walk m tf_ fuel s p pivot_uv gvs acc_tf current_outgoing edgeCreated
    = Some gvs' ->
    only_grown gvs gvs'.
Proof.
  induction fuel as [| fuel IH];
    intros s p pivot_uv gvs acc_tf current_outgoing edgeCreated gvs';
    cbn [repair_walk]; [discriminate |].
  destruct (get_lei gvs current_outgoing) as [cur |];
    cbn [mbind option_bind]; [| discriminate].
  destruct (connected_to_idx cur) as [sn | n].
  { intros [= <-]. apply only_grown_refl. }
  destruct (gvs !! n) as [next_gv |]; cbn [mbind option_bind];
    [| discriminate].
  destruct (local_edges next_gv !! lei_pos next_gv (orientation_idx cur))
    as [next_incoming_lei |]; cbn [mbind option_bind]; [| discriminate].
  destruct (local_edges next_gv !! lei_pos next_gv (orientation_idx cur - 1))
    as [next_outgoing_lei |]; cbn [mbind option_bind]; [| discriminate].
  destruct (intra_gv_transition m tf_ (fh_from next_incoming_lei)
              (fh_from next_outgoing_lei) next_gv _) as [t1 |];
    cbn [mbind option_bind]; [| discriminate].
  destruct (to_canonical m tf_ next_gv (fh_from next_incoming_lei))
    as [t2 |]; cbn [mbind option_bind]; [| discriminate].
  destruct (_ && notConnected next_gv s).
  - destruct (insert_connection _ _ _ _ _ _ _ _ _) as [gvs1 |] eqn:Hins;
      cbn [mbind option_bind]; [| discriminate].
    pose proof (only_grown_insert_connection _ _ _ _ _ _ _ _ Hins) as H1.
    destruct (gvs1 !! n) as [next_gv1 |]; cbn [mbind option_bind];
      [| discriminate].
    destruct (n =? s)%nat; [intros [= <-]; exact H1 |].
    intros Hw. exact (only_grown_trans _ _ _ H1 (IH _ _ _ _ _ _ _ _ Hw)).
  - cbn [mbind option_bind].
    destruct (n =? s)%nat; [intros [= <-]; apply only_grown_refl |].
    apply IH.
Qed.

Lemma only_grown_repair_leis (fuel : nat) :
  forall (gvs : list GridVertex) (s p : nat) (gvs' : list GridVertex),
    repair_leis m tf_ fuel gvs s p = Some gvs' -> only_grown gvs gvs'.
Proof.
  induction fuel as [| fuel IH]; intros gvs s p gvs';
    cbn [repair_leis]; [discriminate |].
  destruct (gvs !! s) as [gv_s |]; cbn [mbind option_bind]; [| discriminate].
  destruct (local_edges gv_s !! p) as [start_lei |];
    [| intros [= <-]; apply only_grown_refl].
  destruct (repair_walk _ _ _ _ _ _ _ _ _ _) as [gvs1 |] eqn:Hwalk;
    cbn [mbind option_bind]; [| discriminate].
  intros Hl. eapply only_grown_trans;
    [exact (only_grown_repair_walk _ _ _ _ _ _ _ _ _ Hwalk)
    | exact (IH _ _ _ _ Hl)].
Qed.

Lemma only_grown_repair_gvertices (fuel : nat) (idxs : list nat) :
  forall (gvs gvs' : list GridVertex),
    repair_gvertices m tf_ fuel gvs idxs = Some gvs' -> only_grown gvs gvs'.
Proof.
  induction idxs as [| s idxs IH]; intros gvs gvs';
    cbn [repair_gvertices]; [intros [= <-]; apply only_grown_refl |].
  destruct (gvs !! s) as [gv_s |]; cbn [mbind option_bind]; [| discriminate].
  destruct (missing_leis gv_s =? 0); cbn [mbind option_bind]; [apply IH |].
  destruct (repair_leis _ _ _ _ _ _) as [gvs1 |] eqn:Hleis;
    cbn [mbind option_bind]; [| discriminate].
  intros Hr. eapply only_grown_trans;
    [exact (only_grown_repair_leis _ _ _ _ _ Hleis) | exact (IH _ _ Hr)].
Qed.

Lemma repair_gvertices_complete (fuel : nat) (gvs : list GridVertex)
      (idxs : list nat) :
  Forall (fun gv => missing_leis gv = 0) gvs ->
  Forall (fun s => (s < length gvs)%nat) idxs ->
  repair_gvertices m tf_ fuel gvs idxs = Some gvs.
Proof.
  intros Hall. induction idxs as [| s idxs IH]; intros Hidx; [reflexivity |].
  apply Forall_cons in Hidx. destruct Hidx as [Hs Hidx].
  cbn [repair_gvertices].
  destruct (lookup_lt_is_Some_2 gvs s Hs) as [gv_s Hgv]. rewrite Hgv.
  cbn [mbind option_bind].
  rewrite (proj1 (Forall_lookup _ _) Hall s gv_s Hgv). cbn.
  exact (IH Hidx).
Qed.

(** X23. The repair only adds local edges.  Whenever
    [try_connect_incomplete_gvertices] returns, [gvertices_] has the same
    grid vertices as before, each with its type, halfedge, positions and
    boundary tag and with at least the local edges it had; [missing_leis]
    is never written, so it is not counted down when a local edge is
    inserted.  When no grid vertex misses a local edge the repair returns
    and changes nothing. *)
Theorem try_connect_incomplete_gvertices_only_adds (fuel : nat)
        (gvs : list GridVertex) :
  match try_connect_incomplete_gvertices m tf_ fuel gvs with
  | Some gvs' => only_grown gvs gvs'
  | None => True
  end /\
  (Forall (fun gv => missing_leis gv = 0) gvs ->
   try_connect_incomplete_gvertices m tf_ fuel gvs = Some gvs).
Proof.
  unfold try_connect_incomplete_gvertices. split.
  - destruct (repair_gvertices m tf_ fuel gvs (seq 0 (length gvs)))
      as [gvs' |] eqn:Hrun; [| exact I].
    exact (only_grown_repair_gvertices _ _ _ _ Hrun).
  - intros Hall. apply repair_gvertices_complete; [exact Hall |].
    apply Forall_forall. intros s Hs. apply list_elem_of_In, in_seq in Hs. lia.
Qed.

End RepairOnlyAdds.

(** On the open fan the repair inserts one local edge at each end of the
    path; [missing_leis] stays [1] everywhere. *)
Example try_connect_incomplete_gvertices_run :
  map (fun g => (length (local_edges g), missing_leis g)) open_fan
  = [(2%nat, 1); (2%nat, 1); (2%nat, 1)] /\
  map (fun g => (length (local_edges g), missing_leis g))
    <$> try_connect_incomplete_gvertices looping_mesh [] 10 open_fan
  = Some [(3%nat, 1); (2%nat, 1); (3%nat, 1)].
Proof. split; vm_compute; reflexivity. Qed.

(** *** One local edge per walk *)

(** The number of local edges of every grid vertex. *)
Definition lei_counts (gvs : list GridVertex) : list nat :=
  map (fun g => length (local_edges g)) gvs.

Lemma lei_counts_alter (gvs : list GridVertex) (i : nat)
      (f : GridVertex -> GridVertex) (h : nat -> nat) :
  (forall g, length (local_edges (f g)) = h (length (local_edges g))) ->
  lei_counts (alter f i gvs) = alter h i (lei_counts gvs).
Proof.
  intros Hf. unfold lei_counts. revert i.
  induction gvs as [| g gvs IH]; intros [| i]; cbn; try reflexivity.
  - now rewrite Hf.
  - f_equal. apply IH.
Qed.

Lemma lei_counts_update_lei (gvs : list GridVertex) (r : LeiRef)
      (f : LocalEdgeInfo -> LocalEdgeInfo) :
  lei_counts (update_lei gvs r f) = lei_counts gvs.
Proof.
  unfold update_lei. rewrite (lei_counts_alter _ _ _ id).
  - apply list_alter_id. reflexivity.
  - intros g. cbn. apply length_alter.
Qed.

Lemma lei_counts_insert_lei (gvs : list GridVertex) (g k : nat)
      (x : LocalEdgeInfo) :
  lei_counts (insert_lei gvs g k x) = alter S g (lei_counts gvs).
Proof.
  unfold insert_lei. apply lei_counts_alter. intros gv. cbn.
  unfold insert_at. rewrite length_app. cbn [length].
  rewrite length_take, length_drop. lia.
Qed.

Lemma lei_counts_increment (poss : list nat) :
  forall (gvs gvs' : list GridVertex) (g : nat),
    increment_opposite_connected_to_idx gvs g poss = Some gvs' ->
    lei_counts gvs' = lei_counts gvs.
Proof.
  induction poss as [| pos poss IH]; intros gvs gvs' g;
    cbn [increment_opposite_connected_to_idx].
  - now intros [= <-].
  - destruct (increment_opposite_at gvs g pos) as [gvs1 |] eqn:H1;
      cbn [mbind option_bind]; [| discriminate].
    intros H2. rewrite (IH _ _ _ H2).
    unfold increment_opposite_at in H1.
    destruct (get_lei gvs (g, pos)) as [first |]; cbn [mbind option_bind] in H1;
      [| discriminate].
    destruct (connected_to_idx first) as [sn | c]; [now injection H1 as <- |].
    destruct (gvs !! c) as [gv_c |]; cbn [mbind option_bind] in H1;
      [| discriminate].
    destruct (local_edge gv_c (orientation_idx first));
      cbn [mbind option_bind] in H1; [| discriminate].
    injection H1 as <-. apply lei_counts_update_lei.
Qed.

Section RepairOneEdge.

Variable m : TriMesh.
Variable tf_ : list TF.t.

Lemma lei_counts_insert_connection (gvs gvs' : list GridVertex) (s p n : nat)
      (q : Z) (current_outgoing : LeiRef) (acc_tf : TF.t) :
  insert_connection m tf_ gvs s p n q current_outgoing acc_tf = Some gvs' ->
  (s < length gvs)%nat /\ (n < length gvs)%nat /\
  lei_counts gvs' = alter S n (alter S s (lei_counts gvs)).
Proof.
  intros Hins.
  destruct (insert_connection_inv m tf_ gvs gvs' s p n q current_outgoing
              acc_tf Hins)
    as (gv_s & gv_n & start_lei & nin & gvs1 & gvs2 & newS & newN & f1 & f2
        & Hs & Hn & _ & _ & Hi1 & Hi2 & ->).
  split; [exact (lookup_lt_Some _ _ _ Hs) |].
  split; [exact (lookup_lt_Some _ _ _ Hn) |].
  rewrite !lei_counts_update_lei, !lei_counts_insert_lei.
  now rewrite (lei_counts_increment _ _ _ _ Hi2),
              (lei_counts_increment _ _ _ _ Hi1).
Qed.

(** The outcome of a walk: nothing inserted, or one local edge more at the
    start grid vertex [s] and at one other grid vertex. *)
Definition one_edge_added (s : nat) (gvs gvs' : list GridVertex) : Prop :=
  exists n, n <> s /\ (s < length gvs)%nat /\ (n < length gvs)%nat /\
            lei_counts gvs' = alter S n (alter S s (lei_counts gvs)).

Lemma repair_walk_counts (fuel : nat) :
  forall (s p : nat) (pivot_uv : Point_2) (gvs : list GridVertex)
         (acc_tf : TF.t) (current_outgoing : LeiRef) (edgeCreated : bool)
         (gvs' : list GridVertex),
    repair_walk m tf_ fuel s p pivot_uv gvs acc_tf current_outgoing edgeCreated
    = Some gvs' ->
    lei_counts gvs' = lei_counts gvs \/
    (edgeCreated = false /\ one_edge_added s gvs gvs').
Proof.
  induction fuel as [| fuel IH];
    intros s p pivot_uv gvs acc_tf current_outgoing edgeCreated gvs';
    cbn [repair_walk]; [discriminate |].
  destruct (get_lei gvs current_outgoing) as [cur |];
    cbn [mbind option_bind]; [| discriminate].
  destruct (connected_to_idx cur) as [sn | n].
  { intros [= <-]. now left. }
  destruct (gvs !! n) as [next_gv |]; cbn [mbind option_bind];
    [| discriminate].
  destruct (local_edges next_gv !! lei_pos next_gv (orientation_idx cur))
    as [next_incoming_lei |]; cbn [mbind option_bind]; [| discriminate].
  destruct (local_edges next_gv !! lei_pos next_gv (orientation_idx cur - 1))
    as [next_outgoing_lei |]; cbn [mbind option_bind]; [| discriminate].
  destruct (intra_gv_transition m tf_ (fh_from next_incoming_lei)
              (fh_from next_outgoing_lei) next_gv _) as [t1 |];
    cbn [mbind option_bind]; [| discriminate].
  destruct (to_canonical m tf_ next_gv (fh_from next_incoming_lei))
    as [t2 |]; cbn [mbind option_bind]; [| discriminate].
  destruct (_ && notConnected next_gv s) eqn:Hcond.
  - apply andb_true_iff in Hcond. destruct Hcond as [Hcond _].
    apply andb_true_iff in Hcond. destruct Hcond as [Hcond Hne].
    apply andb_true_iff in Hcond. destruct Hcond as [Hflag _].
    apply negb_true_iff in Hflag. apply negb_true_iff, Nat.eqb_neq in Hne.
    destruct (insert_connection _ _ _ _ _ _ _ _ _) as [gvs1 |] eqn:Hins;
      cbn [mbind option_bind]; [| discriminate].
    destruct (lei_counts_insert_connection _ _ _ _ _ _ _ _ Hins)
      as (Hs & Hn & Hcounts).
    assert (Hadded : one_edge_added s gvs gvs1) by now exists n.
    destruct (gvs1 !! n) as [next_gv1 |]; cbn [mbind option_bind];
      [| discriminate].
    destruct (n =? s)%nat; [intros [= <-]; now right |].
    intros Hw. right. split; [exact Hflag |].
    destruct (IH _ _ _ _ _ _ _ _ Hw) as [E | [F _]]; [| discriminate F].
    destruct Hadded as (n' & H1 & H2 & H3 & H4).
    exists n'. now rewrite E.
  - cbn [mbind option_bind].
    destruct (n =? s)%nat; [intros [= <-]; now left |].
    apply IH.
Qed.

(** X24. A walk of the repair inserts at most one connection: whenever the
    walk that [try_connect_incomplete_gvertices] starts at local edge [p]
    of grid vertex [s] returns, either every grid vertex has the number of
    local edges it had, or the start grid vertex and exactly one other grid
    vertex have one local edge more each and the others as many as
    before. *)
Theorem repair_walk_one_edge (fuel : nat) (s p : nat) (pivot_uv : Point_2)
        (gvs : list GridVertex) :
  match repair_walk m tf_ fuel s p pivot_uv gvs TF.IDENTITY (s, p) false with
  | Some gvs' =>
      length gvs' = length gvs /\
      (lei_counts gvs' = lei_counts gvs \/ one_edge_added s gvs gvs')
  | None => True
  end.
Proof.
  destruct (repair_walk m tf_ fuel s p pivot_uv gvs TF.IDENTITY (s, p) false)
    as [gvs' |] eqn:Hw; [| exact I].
  pose proof (repair_walk_counts _ _ _ _ _ _ _ _ _ Hw) as Hc.
  split.
  - assert (E : length (lei_counts gvs') = length (lei_counts gvs)).
    { destruct Hc as [-> | [_ (n & _ & _ & _ & ->)]]; [reflexivity |].
      now rewrite !length_alter. }
    unfold lei_counts in E. now rewrite !length_map in E.
  - destruct Hc as [E | [_ H]]; [now left | now right].
Qed.

End RepairOneEdge.

(** The walk from local edge [0] of grid vertex [0] of the open fan inserts
    a local edge at the grid vertices [0] and [2]. *)
Example repair_walk_run :
  lei_counts
    <$> repair_walk looping_mesh [] 10 0 0 (0, 0)%Q open_fan TF.IDENTITY
                    (0, 0)%nat false
  = Some (alter S 2%nat (alter S 0%nat (lei_counts open_fan))).
Proof. vm_compute. reflexivity. Qed.

(** *** [intra_gv_transition] at a grid vertex on an edge *)

(** The halfedge [h] and its opposite are the two halfedges of one edge. *)
Definition halfedges_paired (m : TriMesh) (h : HEH) : Prop :=
  let o := opposite_halfedge_handle m h in
  let e := edge_handle m h in
  edge_handle m o = e /\ o <> h /\
  (h = halfedge_handle_e m e 0 \/ o = halfedge_handle_e m e 0).

Lemma mul_identity_absorb_l (a b : TF.t) : (TF.IDENTITY ** a) ** b = a ** b.
Proof.
  rewrite <- mul_assoc. apply mul_identity_l, wf_mul.
Qed.

Lemma mul_identity_absorb_r (a b : TF.t) : a ** (TF.IDENTITY ** b) = a ** b.
Proof.
  rewrite !mul_unfold; cbn [TF.IDENTITY TF.identity TF.r TF.tu TF.tv].
  rewrite rotZ_0, Z.add_0_l, Zplus_mod_idemp_r. cbn [fst snd].
  rewrite !Z.add_0_r. reflexivity.
Qed.

Lemma transition_h_paired (m : TriMesh) (tf_ : list TF.t) (h : HEH) :
  halfedges_paired m h ->
  transition_h m tf_ (opposite_halfedge_handle m h) ** transition_h m tf_ h
  = TF.identity /\
  transition_h m tf_ h ** transition_h m tf_ (opposite_halfedge_handle m h)
  = TF.identity.
Proof.
  unfold halfedges_paired. cbv zeta. intros (He & Hne & Hzero).
  unfold transition_h. rewrite He.
  set (e := edge_handle m h) in *.
  set (o := opposite_halfedge_handle m h) in *.
  set (f := default TF.identity (tf_ !! Z.to_nat e)).
  destruct Hzero as [E | E].
  - rewrite <- E. rewrite Z.eqb_refl.
    destruct (o =? h) eqn:Eo; [apply Z.eqb_eq in Eo; contradiction |].
    split; [apply mul_inverse_l | apply mul_inverse_r].
  - rewrite <- E. rewrite Z.eqb_refl.
    destruct (h =? o) eqn:Eo; [apply Z.eqb_eq in Eo; congruence |].
    split; [apply mul_inverse_r | apply mul_inverse_l].
Qed.

(** X25. At a grid vertex on an edge whose halfedge and opposite halfedge
    belong to two different faces, [intra_gv_transition] between the two
    faces is the transition function of the halfedge that lies in the face
    it starts from; going there and back composes to the identity, and the
    transition from either face to itself is the identity whether or not
    [returnIdentityIfSameFh] is set.  Started from any other face it throws,
    unless the flag is set and the target is that same face. *)
Theorem intra_gv_transition_at_edge (m : TriMesh) (tf_ : list TF.t)
        (gv : GridVertex) (b : bool) :
  let h := gv_heh gv in
  let o := opposite_halfedge_handle m h in
  let f1 := face_handle m h in
  let f2 := face_handle m o in
  gv_type gv = OnEdge -> halfedges_paired m h -> f1 <> f2 ->
  intra_gv_transition m tf_ f1 f2 gv b
  = Some (TF.IDENTITY ** transition_h m tf_ h) /\
  intra_gv_transition m tf_ f2 f1 gv b
  = Some (TF.IDENTITY ** transition_h m tf_ o) /\
  (TF.IDENTITY ** transition_h m tf_ o) ** (TF.IDENTITY ** transition_h m tf_ h)
  = TF.identity /\
  (TF.IDENTITY ** transition_h m tf_ h) ** (TF.IDENTITY ** transition_h m tf_ o)
  = TF.identity /\
  intra_gv_transition m tf_ f1 f1 gv b = Some TF.identity /\
  intra_gv_transition m tf_ f2 f2 gv b = Some TF.identity /\
  (forall f f', f <> f1 -> f <> f2 ->
                intra_gv_transition m tf_ f f' gv b
                = if b && (f =? f') then Some TF.identity else None).
Proof.
  cbv zeta. intros Ht Hp Hf.
  destruct (transition_h_paired m tf_ (gv_heh gv) Hp) as [Hoh Hho].
  set (h := gv_heh gv) in *.
  set (o := opposite_halfedge_handle m h) in *.
  assert (E12 : (face_handle m h =? face_handle m o) = false)
    by now apply Z.eqb_neq.
  assert (E21 : (face_handle m o =? face_handle m h) = false)
    by (apply Z.eqb_neq; congruence).
  unfold intra_gv_transition. rewrite Ht. fold h o.
  rewrite !Z.eqb_refl, E12, E21, !andb_false_r, !andb_true_r.
  repeat split.
  - now rewrite mul_identity_absorb_l, mul_identity_absorb_r.
  - now rewrite mul_identity_absorb_l, mul_identity_absorb_r.
  - destruct b; [reflexivity | now rewrite Hoh].
  - destruct b; [reflexivity | now rewrite Hho].
  - intros f f' H1 H2.
    destruct (b && (f =? f')); [reflexivity |].
    destruct (face_handle m h =? f) eqn:E1;
      [apply Z.eqb_eq in E1; congruence |].
    destruct (face_handle m o =? f) eqn:E2;
      [apply Z.eqb_eq in E2; congruence |].
    reflexivity.
Qed.

Lemma intra_gv_transition_at_edge_witness :
  intra_gv_transition square_mesh square_tf 0 1 diagonal_gvertex false
  = Some (TF.IDENTITY ** transition_h square_mesh square_tf 4) /\
  intra_gv_transition square_mesh square_tf 1 0 diagonal_gvertex false
  = Some (TF.IDENTITY ** transition_h square_mesh square_tf 5) /\
  (TF.IDENTITY ** transition_h square_mesh square_tf 5)
  ** (TF.IDENTITY ** transition_h square_mesh square_tf 4) = TF.identity /\
  (TF.IDENTITY ** transition_h square_mesh square_tf 4)
  ** (TF.IDENTITY ** transition_h square_mesh square_tf 5) = TF.identity /\
  intra_gv_transition square_mesh square_tf 0 0 diagonal_gvertex false
  = Some TF.identity /\
  intra_gv_transition square_mesh square_tf 1 1 diagonal_gvertex false
  = Some TF.identity /\
  (forall f f', f <> 0 -> f <> 1 ->
                intra_gv_transition square_mesh square_tf f f'
                                    diagonal_gvertex false
                = if false && (f =? f') then Some TF.identity else None).
Proof.
  apply (intra_gv_transition_at_edge square_mesh square_tf diagonal_gvertex
           false).
  - reflexivity.
  - split; [vm_compute; reflexivity |].
    split; [vm_compute; congruence | left; vm_compute; reflexivity].
  - vm_compute. congruence.
Defined.

(** *** [intra_gv_transition] around a vertex *)

(** [r] is [ring], read from another starting point. *)
Definition rotation_of {A : Type} (ring r : list A) : Prop :=
  exists front back, ring = front ++ back /\ r = back ++ front.

Lemma rotation_of_shift {A : Type} (ring x y : list A) :
  rotation_of ring (x ++ y) -> rotation_of ring (y ++ x).
Proof.
  intros (front & back & -> & E). symmetry in E.
  apply app_eq_app in E. destruct E as [l [[-> ->] | [-> ->]]].
  - exists (front ++ x), l. now rewrite <- !app_assoc.
  - exists l, (y ++ back). now rewrite <- !app_assoc.
Qed.

Section AroundVertex.

Variable m : TriMesh.
Variable tf_ : list TF.t.

(** The product that the [do ... while] of [intra_gv_transition] builds
    while the circulator passes the halfedges [hs]. *)
Definition turn (hs : list HEH) (result : TF.t) : TF.t :=
  fold_left
    (fun result h => transition_h m tf_ (next_halfedge_handle m h) ** result)
    hs result.

Lemma turn_mul (hs : list HEH) (result : TF.t) :
  hs <> [] -> turn hs result = turn hs TF.IDENTITY ** result.
Proof.
  revert result. induction hs as [| h hs IH]; intros result Hne;
    [contradiction |].
  cbn [turn fold_left]. fold (turn hs).
  destruct hs as [| h' hs].
  - cbn [turn fold_left].
    now rewrite <- mul_assoc, mul_identity_absorb_r.
  - rewrite (IH (_ ** result)) by discriminate.
    rewrite (IH (_ ** TF.IDENTITY)) by discriminate.
    now rewrite <- !mul_assoc, mul_identity_absorb_r.
Qed.

Lemma turn_app (hs1 hs2 : list HEH) :
  hs2 <> [] ->
  turn (hs1 ++ hs2) TF.IDENTITY
  = turn hs2 TF.IDENTITY ** turn hs1 TF.IDENTITY.
Proof.
  intros Hne. unfold turn at 1. rewrite fold_left_app.
  fold (turn hs1 TF.IDENTITY). fold (turn hs2 (turn hs1 TF.IDENTITY)).
  now apply turn_mul.
Qed.

Lemma circulate_to_arc (to_fh : FH) (arc : list HEH) :
  forall (cur h1 : HEH) (tail : list HEH) (result : TF.t),
    (forall h, In h arc -> face_handle m h <> to_fh) ->
    face_handle m h1 = to_fh ->
    circulate_to m tf_ to_fh cur (arc ++ h1 :: tail) result
    = Some (turn (cur :: arc) result).
Proof.
  induction arc as [| h arc IH]; intros cur h1 tail result Harc Hh1;
    cbn [app circulate_to].
  - rewrite Hh1, Z.eqb_refl. reflexivity.
  - destruct (face_handle m h =? to_fh) eqn:E.
    + apply Z.eqb_eq in E. exfalso. apply (Harc h); [now left | exact E].
    + rewrite (IH h h1 tail); [reflexivity | | exact Hh1].
      intros h' Hh'. apply Harc. now right.
Qed.

Lemma find_index_first {A : Type} (P : A -> bool) (front : list A) (x : A)
      (back : list A) :
  (forall y, In y front -> P y = false) -> P x = true ->
  find_index P (front ++ x :: back) = Some (length front).
Proof.
  intros Hfront Hx. induction front as [| a front IH]; cbn [app find_index].
  - now rewrite Hx.
  - rewrite (Hfront a) by now left.
    rewrite IH by (intros y Hy; apply Hfront; now right). reflexivity.
Qed.

(** The faces of the incoming halfedges of the pivot are pairwise
    distinct. *)
Definition distinct_faces (ring : list HEH) : Prop :=
  NoDup (map (face_handle m) ring).

Lemma distinct_faces_rotation (ring r : list HEH) :
  rotation_of ring r -> distinct_faces ring -> distinct_faces r.
Proof.
  intros (front & back & -> & ->). unfold distinct_faces.
  rewrite !map_app. intros H. apply NoDup_app in H.
  destruct H as (Hf & Hfb & Hb). apply NoDup_app.
  split; [exact Hb |]. split; [| exact Hf].
  intros x Hx Hx'. exact (Hfb x Hx' Hx).
Qed.

Lemma distinct_faces_arc (h0 : HEH) (arc : list HEH) (h1 : HEH)
      (tail : list HEH) :
  distinct_faces (h0 :: arc ++ h1 :: tail) ->
  forall h, In h (h0 :: arc) -> face_handle m h <> face_handle m h1.
Proof.
  unfold distinct_faces. intros Hnd h Hin E.
  change (h0 :: arc ++ h1 :: tail) with ((h0 :: arc) ++ h1 :: tail) in Hnd.
  rewrite map_app in Hnd. apply NoDup_app in Hnd.
  destruct Hnd as (_ & Hdisj & _).
  apply (Hdisj (face_handle m h)).
  - apply list_elem_of_In, in_map, Hin.
  - rewrite E. apply list_elem_of_In. now left.
Qed.

(** The circulator of [intra_gv_transition] starts at the halfedge of the
    face it is asked for. *)
Lemma rotation_found (ring : list HEH) (h0 : HEH) (r : list HEH) :
  distinct_faces ring -> rotation_of ring (h0 :: r) ->
  exists k,
    find_index (fun h => face_handle m h =? face_handle m h0) ring = Some k /\
    drop k ring ++ take k ring = h0 :: r.
Proof.
  intros Hnd (front & back & -> & Hr). destruct back as [| b back].
  - cbn [app] in Hr. rewrite app_nil_r. exists O. rewrite <- Hr.
    cbn [find_index]. rewrite Z.eqb_refl. split; [reflexivity |].
    cbn. now rewrite app_nil_r.
  - cbn [app] in Hr. injection Hr as <- Hr. exists (length front). split.
    + apply find_index_first; [| apply Z.eqb_refl].
      intros y Hy. apply Z.eqb_neq. intros Ey.
      unfold distinct_faces in Hnd. rewrite map_app in Hnd.
      apply NoDup_app in Hnd. destruct Hnd as (_ & Hdisj & _).
      apply (Hdisj (face_handle m y)).
      * apply list_elem_of_In, in_map, Hy.
      * rewrite Ey. apply list_elem_of_In. now left.
    + rewrite drop_app_length, take_app_length. cbn [app]. now rewrite Hr.
Qed.

(** From the face of [h0] to the face of [h1], the next one met after the
    halfedges [arc]. *)
Lemma intra_gv_transition_arc (gv : GridVertex) (h0 : HEH) (arc : list HEH)
      (h1 : HEH) (tail : list HEH) (flag : bool) :
  gv_type gv = OnVertex ->
  let ring := cvih m (to_vertex_handle m (gv_heh gv)) in
  distinct_faces ring ->
  rotation_of ring (h0 :: arc ++ h1 :: tail) ->
  intra_gv_transition m tf_ (face_handle m h0) (face_handle m h1) gv flag
  = Some (turn (h0 :: arc) TF.IDENTITY).
Proof.
  cbv zeta. intros Ht Hnd Hrot.
  pose proof (distinct_faces_rotation _ _ Hrot Hnd) as Hnd'.
  pose proof (distinct_faces_arc h0 arc h1 tail Hnd') as Harc.
  unfold intra_gv_transition. rewrite Ht.
  destruct (face_handle m h0 =? face_handle m h1) eqn:E;
    [apply Z.eqb_eq in E; exfalso; apply (Harc h0); [now left | exact E] |].
  rewrite andb_false_r.
  destruct (rotation_found _ _ _ Hnd Hrot) as (k & Hfi & Hrotk). rewrite Hfi. cbn [mbind option_bind].
  rewrite Hrotk.
  rewrite <- app_assoc. cbn [app].
  apply circulate_to_arc; [| reflexivity].
  intros h Hh. apply Harc. now right.
Qed.

(** Once around the vertex, from the face of [h0] back to itself. *)
Lemma intra_gv_transition_full_turn (gv : GridVertex) (h0 : HEH)
      (arc : list HEH) :
  gv_type gv = OnVertex ->
  let ring := cvih m (to_vertex_handle m (gv_heh gv)) in
  distinct_faces ring ->
  rotation_of ring (h0 :: arc) ->
  intra_gv_transition m tf_ (face_handle m h0) (face_handle m h0) gv false
  = Some (turn (h0 :: arc) TF.IDENTITY).
Proof.
  cbv zeta. intros Ht Hnd Hrot.
  pose proof (distinct_faces_rotation _ _ Hrot Hnd) as Hnd'.
  unfold intra_gv_transition. rewrite Ht. cbn [andb].
  destruct (rotation_found _ _ _ Hnd Hrot) as (k & Hfi & Hrotk). rewrite Hfi. cbn [mbind option_bind].
  rewrite Hrotk.
  apply circulate_to_arc; [| reflexivity].
  intros h Hh E. unfold distinct_faces in Hnd'. cbn [map] in Hnd'.
  apply NoDup_cons in Hnd'. destruct Hnd' as [Hnot _]. apply Hnot.
  rewrite <- E. apply list_elem_of_In, in_map, Hh.
Qed.

(** X26. Around a grid vertex on a mesh vertex whose incoming halfedges lie
    in pairwise distinct faces, the transitions of [intra_gv_transition]
    compose along the circulation: if, starting from the face [a], the
    circulator meets the face [b] before the face [c], the transition from
    [a] to [c] is the one from [b] to [c] after the one from [a] to [b];
    and going on from [c] to [a] gives the transition from [a] to itself
    that is returned without [returnIdentityIfSameFh], the full turn around
    the vertex. *)
Theorem intra_gv_transition_composes (gv : GridVertex) (ha hb hc : HEH)
        (l1 l2 l3 : list HEH) (flag : bool) :
  let ring := cvih m (to_vertex_handle m (gv_heh gv)) in
  let a := face_handle m ha in
  let b := face_handle m hb in
  let c := face_handle m hc in
  gv_type gv = OnVertex ->
  distinct_faces ring ->
  rotation_of ring (ha :: l1 ++ hb :: l2 ++ hc :: l3) ->
  exists t_ab t_bc t_ac t_ca t_aa,
    intra_gv_transition m tf_ a b gv flag = Some t_ab /\
    intra_gv_transition m tf_ b c gv flag = Some t_bc /\
    intra_gv_transition m tf_ a c gv flag = Some t_ac /\
    intra_gv_transition m tf_ c a gv flag = Some t_ca /\
    intra_gv_transition m tf_ a a gv false = Some t_aa /\
    t_ac = t_bc ** t_ab /\
    t_aa = t_ca ** t_ac.
Proof.
  cbv zeta. intros Ht Hnd Hrot.
  assert (Hrot_b : rotation_of (cvih m (to_vertex_handle m (gv_heh gv)))
                               (hb :: l2 ++ hc :: l3 ++ ha :: l1)).
  { pose proof (rotation_of_shift _ (ha :: l1) (hb :: l2 ++ hc :: l3) Hrot)
      as H.
    cbn [app] in H. now rewrite <- !app_assoc in H. }
  assert (Hrot_c : rotation_of (cvih m (to_vertex_handle m (gv_heh gv)))
                               (hc :: l3 ++ ha :: l1 ++ hb :: l2)).
  { pose proof (rotation_of_shift
                  (cvih m (to_vertex_handle m (gv_heh gv)))
                  (ha :: l1 ++ hb :: l2) (hc :: l3)) as H.
    cbn [app] in H. rewrite <- !app_assoc in H. cbn [app] in H.
    exact (H Hrot). }
  exists (turn (ha :: l1) TF.IDENTITY), (turn (hb :: l2) TF.IDENTITY),
         (turn (ha :: l1 ++ hb :: l2) TF.IDENTITY),
         (turn (hc :: l3) TF.IDENTITY),
         (turn (ha :: l1 ++ hb :: l2 ++ hc :: l3) TF.IDENTITY).
  split; [exact (intra_gv_transition_arc gv ha l1 hb _ flag Ht Hnd Hrot) |].
  split; [exact (intra_gv_transition_arc gv hb l2 hc _ flag Ht Hnd Hrot_b) |].
  split.
  { pose proof (intra_gv_transition_arc gv ha (l1 ++ hb :: l2) hc l3 flag Ht
                  Hnd) as H.
    cbv zeta in H. rewrite <- app_assoc in H. exact (H Hrot). }
  split; [exact (intra_gv_transition_arc gv hc l3 ha _ flag Ht Hnd Hrot_c) |].
  split; [exact (intra_gv_transition_full_turn gv ha _ Ht Hnd Hrot) |].
  split.
  - change (ha :: l1 ++ hb :: l2) with ((ha :: l1) ++ hb :: l2).
    apply turn_app. discriminate.
  - change (ha :: l1 ++ hb :: l2 ++ hc :: l3)
      with ((ha :: l1) ++ (hb :: l2) ++ hc :: l3).
    rewrite app_assoc. rewrite turn_app by discriminate.
    reflexivity.
Qed.

End AroundVertex.

(** A grid vertex on the vertex of [ring_mesh], and a table whose three
    transitions are a quarter turn each. *)
Definition ring_gvertex : GridVertex :=
  mkGV OnVertex 0 (0, 0)%Q (0, 0, 0)%Q false 0 [].

Definition ring_tf : list TF.t := [TF.mk 1 1 0; TF.mk 1 0 2; TF.mk 1 (-3) 0].

Lemma intra_gv_transition_composes_witness :
  exists t_ab t_bc t_ac t_ca t_aa,
    intra_gv_transition ring_mesh ring_tf 0 1 ring_gvertex false = Some t_ab /\
    intra_gv_transition ring_mesh ring_tf 1 2 ring_gvertex false = Some t_bc /\
    intra_gv_transition ring_mesh ring_tf 0 2 ring_gvertex false = Some t_ac /\
    intra_gv_transition ring_mesh ring_tf 2 0 ring_gvertex false = Some t_ca /\
    intra_gv_transition ring_mesh ring_tf 0 0 ring_gvertex false = Some t_aa /\
    t_ac = t_bc ** t_ab /\
    t_aa = t_ca ** t_ac.
Proof.
  apply (intra_gv_transition_composes ring_mesh ring_tf ring_gvertex 0 1 2
           [] [] [] false).
  - reflexivity.
  - apply (bool_decide_unpack _). vm_compute. exact I.
  - exists [], [0; 1; 2]. split; reflexivity.
Defined.

(** The full turn around the vertex of [ring_mesh] is three quarter
    turns, not the identity. *)
Example intra_gv_transition_full_turn_run :
  intra_gv_transition ring_mesh ring_tf 0 0 ring_gvertex false
  = Some (TF.mk 3 (-6) 0) /\
  intra_gv_transition ring_mesh ring_tf 0 0 ring_gvertex true
  = Some TF.identity.
Proof. split; vm_compute; reflexivity. Qed.

(** *** The local edges of one sector of a vertex *)

Definition opp_sign (s : ORIENTATION) : ORIENTATION :=
  match s with
  | ORI_NEGATIVE => ORI_POSITIVE
  | ORI_ZERO => ORI_ZERO
  | ORI_POSITIVE => ORI_NEGATIVE
  end.

Lemma sign_of_opp (x : Q) : sign_of (- x) = opp_sign (sign_of x).
Proof.
  unfold sign_of.
  destruct (Qlt_le_dec 0 (- x)), (Qlt_le_dec 0 x); cbn; try lra;
    destruct (Qlt_le_dec (- x) 0), (Qlt_le_dec x 0); cbn;
    try reflexivity; lra.
Qed.

Lemma Qpositive_sign (x : Q) :
  Qpositive x = ORIENTATION_eqb (sign_of x) ORI_POSITIVE.
Proof.
  unfold Qpositive, sign_of.
  destruct (Qlt_le_dec 0 x); [reflexivity |].
  now destruct (Qlt_le_dec x 0).
Qed.

(** The three tests of the loop for entry [i] of [cartesian_orientations_],
    from the signs of the coordinates [(a, b)] of [sector_right] and
    [(c, d)] of [sector_left]. *)
Definition sector_keeps (sa sb sc sd ori : ORIENTATION) (bnd : bool) (i : nat)
  : bool :=
  let '(ori1, ori2, dot_left, dot_right) :=
    match i with
    | 0%nat => (opp_sign sb, sd, sc, sa)
    | 1%nat => (sa, opp_sign sc, sd, sb)
    | 2%nat => (sb, opp_sign sd, opp_sign sc, opp_sign sa)
    | _ => (opp_sign sa, sc, opp_sign sd, opp_sign sb)
    end in
  (bnd && ORIENTATION_eqb ori2 ORI_COLLINEAR
   && ORIENTATION_eqb dot_left ORI_POSITIVE)
  || (ORIENTATION_eqb ori1 ORI_COLLINEAR
      && ORIENTATION_eqb dot_right ORI_POSITIVE)
  || (ORIENTATION_eqb ori1 ori && ORIENTATION_eqb ori2 ori).

Lemma sector_step_keeps (fh : FH) (uv0 uv1 uv2 : Point_2)
      (ori : ORIENTATION) (bnd : bool) (st : list LocalEdgeInfo * nat)
      (i : nat) (direction : Point_2) :
  cartesian_orientations_ !! i = Some direction ->
  sector_step fh uv0 uv1 uv2 ori bnd st direction
  = if sector_keeps (sign_of (fst uv1 - fst uv0)) (sign_of (snd uv1 - snd uv0))
                    (sign_of (fst uv2 - fst uv0)) (sign_of (snd uv2 - snd uv0))
                    ori bnd i
    then (fst st ++ [new_LEI fh uv0 (padd uv0 direction)], snd st)
    else (fst st, length (fst st)).
Proof.
  intros Hi. destruct st as [leis middleEl].
  unfold sector_step, sector_keeps, orient2d_vectors, psub, pdot.
  cbn [fst snd].
  set (a := (fst uv1 - fst uv0)%Q). set (b := (snd uv1 - snd uv0)%Q).
  set (c := (fst uv2 - fst uv0)%Q). set (d := (snd uv2 - snd uv0)%Q).
  rewrite !Qpositive_sign.
  destruct i as [| [| [| [| i]]]]; cbn in Hi; try discriminate Hi;
    injection Hi as <-; cbn [fst snd].
  - rewrite (sign_of_comp (a * 0 - b * 1) (- b)) by ring.
    rewrite (sign_of_comp (1 * d - 0 * c) d) by ring.
    rewrite (sign_of_comp (1 * c + 0 * d) c) by ring.
    rewrite (sign_of_comp (a * 1 + b * 0) a) by ring.
    rewrite sign_of_opp.
    repeat (match goal with |- context [if ?x then _ else _] =>
                              destruct x end; cbn [orb andb]); reflexivity.
  - rewrite (sign_of_comp (a * 1 - b * 0) a) by ring.
    rewrite (sign_of_comp (0 * d - 1 * c) (- c)) by ring.
    rewrite (sign_of_comp (0 * c + 1 * d) d) by ring.
    rewrite (sign_of_comp (a * 0 + b * 1) b) by ring.
    rewrite sign_of_opp.
    repeat (match goal with |- context [if ?x then _ else _] =>
                              destruct x end; cbn [orb andb]); reflexivity.
  - rewrite (sign_of_comp (a * 0 - b * -1) b) by ring.
    rewrite (sign_of_comp (-1 * d - 0 * c) (- d)) by ring.
    rewrite (sign_of_comp (-1 * c + 0 * d) (- c)) by ring.
    rewrite (sign_of_comp (a * -1 + b * 0) (- a)) by ring.
    rewrite !sign_of_opp.
    repeat (match goal with |- context [if ?x then _ else _] =>
                              destruct x end; cbn [orb andb]); reflexivity.
  - rewrite (sign_of_comp (a * -1 - b * 0) (- a)) by ring.
    rewrite (sign_of_comp (0 * d - -1 * c) c) by ring.
    rewrite (sign_of_comp (0 * c + -1 * d) (- d)) by ring.
    rewrite (sign_of_comp (a * 0 + b * -1) (- b)) by ring.
    rewrite !sign_of_opp.
    repeat (match goal with |- context [if ?x then _ else _] =>
                              destruct x end; cbn [orb andb]); reflexivity.
Qed.

Definition sign_mul (s t : ORIENTATION) : ORIENTATION :=
  match s, t with
  | ORI_ZERO, _ | _, ORI_ZERO => ORI_ZERO
  | ORI_POSITIVE, ORI_POSITIVE | ORI_NEGATIVE, ORI_NEGATIVE => ORI_POSITIVE
  | _, _ => ORI_NEGATIVE
  end.

(** The signs that a difference [x - y] can have, from the signs of [x]
    and [y]. *)
Definition sign_sub_possible (sx sy s : ORIENTATION) : bool :=
  match sx, sy with
  | ORI_POSITIVE, ORI_POSITIVE | ORI_NEGATIVE, ORI_NEGATIVE => true
  | ORI_ZERO, ORI_ZERO => ORIENTATION_eqb s ORI_ZERO
  | ORI_POSITIVE, _ | ORI_ZERO, ORI_NEGATIVE => ORIENTATION_eqb s ORI_POSITIVE
  | ORI_NEGATIVE, _ | ORI_ZERO, ORI_POSITIVE => ORIENTATION_eqb s ORI_NEGATIVE
  end.

Lemma sign_of_cases (x : Q) :
  (sign_of x = ORI_NEGATIVE /\ x < 0)%Q \/ (sign_of x = ORI_ZERO /\ x == 0)%Q
  \/ (sign_of x = ORI_POSITIVE /\ 0 < x)%Q.
Proof.
  unfold sign_of. destruct (Qlt_le_dec 0 x); [now right; right |].
  destruct (Qlt_le_dec x 0); [now left |]. right; left. split; [reflexivity | lra].
Qed.

Lemma sign_of_mul (x y : Q) :
  sign_of (x * y) = sign_mul (sign_of x) (sign_of y).
Proof.
  destruct (sign_of_cases x) as [[-> Hx] | [[-> Hx] | [-> Hx]]];
    destruct (sign_of_cases y) as [[-> Hy] | [[-> Hy] | [-> Hy]]];
    cbn [sign_mul];
    first [ apply sign_of_pos; nra | apply sign_of_neg; nra
          | apply sign_of_zero; nra ].
Qed.

Lemma sign_of_sub (x y : Q) :
  sign_sub_possible (sign_of x) (sign_of y) (sign_of (x - y)) = true.
Proof.
  destruct (sign_of_cases x) as [[-> Hx] | [[-> Hx] | [-> Hx]]];
    destruct (sign_of_cases y) as [[-> Hy] | [[-> Hy] | [-> Hy]]];
    cbn [sign_sub_possible]; try reflexivity;
    apply ORIENTATION_eqb_eq;
    first [ apply sign_of_pos; lra | apply sign_of_neg; lra
          | apply sign_of_zero; lra ].
Qed.

Ltac solve_run :=
  first
    [ exists 0%nat, 0%nat; split; [lia | split; [lia | reflexivity]]
    | exists 0%nat, 1%nat; split; [lia | split; [lia | reflexivity]]
    | exists 1%nat, 1%nat; split; [lia | split; [lia | reflexivity]]
    | exists 2%nat, 1%nat; split; [lia | split; [lia | reflexivity]]
    | exists 3%nat, 1%nat; split; [lia | split; [lia | reflexivity]]
    | exists 0%nat, 2%nat; split; [lia | split; [lia | reflexivity]]
    | exists 1%nat, 2%nat; split; [lia | split; [lia | reflexivity]]
    | exists 2%nat, 2%nat; split; [lia | split; [lia | reflexivity]]
    | exists 3%nat, 2%nat; split; [lia | split; [lia | reflexivity]] ].

(** The loop of a sector, its rotation and its reversal, on the outcomes
    [keeps] of the tests. *)
Definition sector_select (fh : FH) (uv0 : Point_2) (ori : ORIENTATION)
           (keeps : nat -> bool) : list LocalEdgeInfo :=
  let '(leis_per_face, middleEl) :=
    fold_left
      (fun (st : list LocalEdgeInfo * nat) (id : nat * Point_2) =>
         if keeps (fst id)
         then (fst st ++ [new_LEI fh uv0 (padd uv0 (snd id))], snd st)
         else (fst st, length (fst st)))
      [(0%nat, (1, 0)%Q); (1%nat, (0, 1)%Q); (2%nat, (-1, 0)%Q);
       (3%nat, (0, -1)%Q)] ([], O) in
  let leis_per_face :=
    if negb (middleEl =? 0)%nat && (middleEl <? length leis_per_face)%nat
    then rotate_from 0 middleEl leis_per_face else leis_per_face in
  match ori with
  | ORI_NEGATIVE => reverse_from 0 leis_per_face
  | _ => leis_per_face
  end.

Lemma sector_leis_select (m : TriMesh) (uv : list Q) (heh : HEH) :
  let heh1 := next_halfedge_handle m heh in
  let heh2 := next_halfedge_handle m heh1 in
  let uv0 := uv_point uv heh in
  let uv1 := uv_point uv heh1 in
  let uv2 := uv_point uv heh2 in
  let ori := tri_orientation (mkTriangle uv0 uv1 uv2) in
  sector_leis m uv heh
  = sector_select (face_handle m heh) uv0 ori
      (sector_keeps (sign_of (fst uv1 - fst uv0)) (sign_of (snd uv1 - snd uv0))
                    (sign_of (fst uv2 - fst uv0)) (sign_of (snd uv2 - snd uv0))
                    ori
                    (is_boundary_h m (opposite_halfedge_handle m heh))).
Proof.
  cbv zeta. unfold sector_leis, sector_select. cbv zeta.
  unfold cartesian_orientations_. cbn [fold_left fst snd].
  rewrite (sector_step_keeps _ _ _ _ _ _ ([], O) 0 (1, 0)%Q eq_refl).
  rewrite (sector_step_keeps _ _ _ _ _ _ _ 1 (0, 1)%Q eq_refl).
  rewrite (sector_step_keeps _ _ _ _ _ _ _ 2 (-1, 0)%Q eq_refl).
  rewrite (sector_step_keeps _ _ _ _ _ _ _ 3 (0, -1)%Q eq_refl).
  reflexivity.
Qed.

Lemma sector_select_run (fh : FH) (uv0 : Point_2)
      (sa sb sc sd ori : ORIENTATION) (bnd : bool) :
  sign_sub_possible (sign_mul sa sd) (sign_mul sb sc) ori = true ->
  ori <> ORI_ZERO ->
  exists s n : nat,
    (s < 4)%nat /\ (n <= 2)%nat /\
    sector_select fh uv0 ori (sector_keeps sa sb sc sd ori bnd)
    = map (fun d => new_LEI fh uv0 (padd uv0 d)) (oriented ori (ccw_run s n)).
Proof.
  intros Hposs Hori.
  destruct sa, sb, sc, sd, ori, bnd; cbn in Hposs;
    try discriminate Hposs; try (exfalso; apply Hori; reflexivity);
    solve_run.
Qed.

(** The orientation of the parameter triangle of the face of [heh], read
    from [heh] on. *)
Definition sector_orientation (m : TriMesh) (uv : list Q) (heh : HEH)
  : ORIENTATION :=
  let heh1 := next_halfedge_handle m heh in
  let heh2 := next_halfedge_handle m heh1 in
  tri_orientation
    (mkTriangle (uv_point uv heh) (uv_point uv heh1) (uv_point uv heh2)).

(** [n] consecutive directions from entry [s] on, as local edges of the
    sector of [heh]: they start in the parameter point of [heh] and carry
    its face. *)
Definition sector_block (m : TriMesh) (uv : list Q) (heh : HEH) (s n : nat)
  : list LocalEdgeInfo :=
  map (fun d => new_LEI (face_handle m heh) (uv_point uv heh)
                        (padd (uv_point uv heh) d))
      (oriented (sector_orientation m uv heh) (ccw_run s n)).

Lemma sector_leis_block (m : TriMesh) (uv : list Q) (heh : HEH) :
  sector_orientation m uv heh <> ORI_ZERO ->
  exists s n : nat,
    (s < 4)%nat /\ (n <= 2)%nat /\
    sector_leis m uv heh = sector_block m uv heh s n.
Proof.
  intros Hori. rewrite sector_leis_select. cbv zeta.
  unfold sector_block. fold (sector_orientation m uv heh).
  apply sector_select_run; [| exact Hori].
  unfold sector_orientation, tri_orientation, orient2d, det3.
  cbv zeta. cbn [tri0 tri1 tri2].
  rewrite <- !sign_of_mul. apply sign_of_sub.
Qed.

(** The incoming halfedges whose sectors get local edges. *)
Definition vertex_sectors (m : TriMesh) (vh : VH) : list HEH :=
  List.filter (fun heh => negb (is_boundary_h m heh)) (cvih_ccw m vh).

Lemma sector_blocks (m : TriMesh) (uv : list Q) (hs : list HEH) :
  Forall (fun heh => sector_orientation m uv heh <> ORI_ZERO)
         (List.filter (fun heh => negb (is_boundary_h m heh)) hs) ->
  exists blocks : list (list LocalEdgeInfo),
    flat_map (fun heh => if is_boundary_h m heh then []
                         else sector_leis m uv heh) hs
    = concat blocks /\
    Forall2 (fun heh block =>
               exists s n : nat,
                 (s < 4)%nat /\ (n <= 2)%nat /\
                 block = sector_block m uv heh s n)
            (List.filter (fun heh => negb (is_boundary_h m heh)) hs) blocks.
Proof.
  induction hs as [| h hs IH]; cbn [List.filter flat_map]; intros Hall.
  - exists []. split; [reflexivity | constructor].
  - destruct (is_boundary_h m h); cbn [negb] in *.
    + exact (IH Hall).
    + apply Forall_cons in Hall. destruct Hall as [Hh Hall].
      destruct (IH Hall) as (blocks & E & Hblocks).
      destruct (sector_leis_block m uv h Hh) as (s & n & Hs & Hn & Eh).
      exists (sector_leis m uv h :: blocks). split.
      * cbn [concat]. now rewrite E.
      * constructor; [| exact Hblocks]. now exists s, n.
Qed.

(** X27. The local edges of a grid vertex on a mesh vertex.  When the
    halfedge of the grid vertex is valid and not a boundary halfedge and no
    incident face is degenerate in the parameter domain,
    [construct_local_edge_information_vertex] lists the local edges sector
    by sector, in the order in which the circulator is decremented around
    the vertex and skipping boundary halfedges; the block of a sector
    consists of at most two consecutive entries of
    [cartesian_orientations_], in counter-clockwise order (clockwise for a
    face of negative orientation), as local edges that start in the
    parameter point of the incoming halfedge of the sector and carry its
    face.  The boundary tag is set at a boundary vertex and kept
    otherwise. *)
Theorem vertex_gvertex_local_edges (m : TriMesh) (uv : list Q)
        (external_valences : option (list Z)) (ninetyJump : Q)
        (gv : GridVertex) :
  let vh := to_vertex_handle m (gv_heh gv) in
  let gv' :=
    construct_local_edge_information_vertex m uv external_valences
                                            ninetyJump gv in
  is_valid (gv_heh gv) = true ->
  is_boundary_h m (gv_heh gv) = false ->
  Forall (fun heh => sector_orientation m uv heh <> ORI_ZERO)
         (vertex_sectors m vh) ->
  (exists blocks : list (list LocalEdgeInfo),
     local_edges gv' = concat blocks /\
     Forall2 (fun heh block =>
                exists s n : nat,
                  (s < 4)%nat /\ (n <= 2)%nat /\
                  block = sector_block m uv heh s n)
             (vertex_sectors m vh) blocks) /\
  is_boundary gv' = is_boundary gv || is_boundary_v m vh.
Proof.
  cbv zeta. intros Hv Hb Hall.
  unfold construct_local_edge_information_vertex. cbv zeta.
  cbn [set_local_edges gv_heh]. rewrite Hv, Hb. cbn [andb negb].
  destruct (sector_blocks m uv _ Hall) as (blocks & E & Hblocks).
  unfold assign_missing_leis. cbv zeta.
  split.
  - exists blocks. split; [| exact Hblocks].
    destruct (is_boundary_v m _); cbn; [exact E |].
    destruct (is_boundary gv); cbn; exact E.
  - destruct (is_boundary_v m _); cbn.
    + now rewrite orb_true_r.
    + rewrite orb_false_r. destruct (is_boundary gv) eqn:Eb; cbn; exact Eb.
Qed.

(** The grid vertex on vertex [0] of the cut square, as the vertex loop of
    [generate_vertices] creates it. *)
Definition corner_gvertex : GridVertex :=
  mkGV OnVertex 8 (0, 0)%Q (0, 0, 0)%Q false 0 [].

Lemma vertex_gvertex_local_edges_witness :
  let gv' :=
    construct_local_edge_information_vertex square_mesh diagonal_uv None 1
                                            corner_gvertex in
  (exists blocks : list (list LocalEdgeInfo),
     local_edges gv' = concat blocks /\
     Forall2 (fun heh block =>
                exists s n : nat,
                  (s < 4)%nat /\ (n <= 2)%nat /\
                  block = sector_block square_mesh diagonal_uv heh s n)
             (vertex_sectors square_mesh 0) blocks) /\
  is_boundary gv' = false || true.
Proof.
  apply (vertex_gvertex_local_edges square_mesh diagonal_uv None 1
           corner_gvertex).
  - reflexivity.
  - reflexivity.
  - repeat constructor; vm_compute; discriminate.
Defined.

(** At the corner the sector of the upper face comes first and contributes
    the direction along the boundary edge, the sector of the lower face
    the direction along the other boundary edge. *)
Example construct_local_edge_information_vertex_run :
  map (fun l => (fh_from l, uv_intended_to l))
      (local_edges
         (construct_local_edge_information_vertex square_mesh diagonal_uv
            None 1 corner_gvertex))
  = [(1, (0, 1)%Q); (0, (1, 0)%Q)].
Proof. vm_compute. reflexivity. Qed.

(** *** The transitions of an extracted table *)

Lemma extract_edge_wf (e : EdgeInput) : TF.wf (extract_edge e).
Proof.
  unfold extract_edge, TF.wf. destruct (edge_is_boundary e); cbn; [lia |].
  destruct (raw_t e _) as [a b]. cbn. apply normalize_r_range.
Qed.

Lemma extracted_entry_wf (es : list EdgeInput) (i : nat) :
  TF.wf (default TF.identity (extract_transition_functions es !! i)).
Proof.
  unfold extract_transition_functions.
  change (map extract_edge es) with (extract_edge <$> es).
  rewrite list_lookup_fmap.
  destruct (es !! i) as [e |]; cbn; [apply extract_edge_wf | apply wf_identity].
Qed.

(** X28. With the table that [extract_transition_functions] has built,
    whatever the raw rotations and translations it was built from, the
    transition functions of the two halfedges of an edge are exact inverses
    of each other and have their rotation in [0..3]; for a boundary edge
    both are the identity. *)
Theorem extracted_transitions_inverse (m : TriMesh) (es : list EdgeInput)
        (h : HEH) :
  let tf_ := extract_transition_functions es in
  let o := opposite_halfedge_handle m h in
  halfedges_paired m h ->
  TF.wf (transition_h m tf_ h) /\ TF.wf (transition_h m tf_ o) /\
  transition_h m tf_ o = TF.inverse (transition_h m tf_ h) /\
  transition_h m tf_ h = TF.inverse (transition_h m tf_ o) /\
  (forall e, es !! Z.to_nat (edge_handle m h) = Some e ->
             edge_is_boundary e = true ->
             transition_h m tf_ h = TF.identity /\
             transition_h m tf_ o = TF.identity).
Proof.
  cbv zeta. unfold halfedges_paired. cbv zeta. intros (He & Hne & Hzero).
  unfold transition_h. rewrite He.
  set (e := edge_handle m h) in *.
  set (o := opposite_halfedge_handle m h) in *.
  pose proof (extracted_entry_wf es (Z.to_nat e)) as Hwf.
  set (f := default TF.identity (extract_transition_functions es !! Z.to_nat e))
    in *.
  assert (Hbnd : forall ei, es !! Z.to_nat e = Some ei ->
                            edge_is_boundary ei = true -> f = TF.identity).
  { intros ei Hei Hb. unfold f, extract_transition_functions.
    change (map extract_edge es) with (extract_edge <$> es).
    rewrite list_lookup_fmap, Hei. cbn. unfold extract_edge. now rewrite Hb. }
  destruct Hzero as [E | E]; rewrite <- E, Z.eqb_refl.
  - destruct (o =? h) eqn:Eo; [apply Z.eqb_eq in Eo; contradiction |].
    split; [exact Hwf |]. split; [apply wf_inverse |].
    split; [reflexivity |]. split; [symmetry; now apply inverse_inverse |].
    intros ei Hei Hb. rewrite (Hbnd ei Hei Hb). split; reflexivity.
  - destruct (h =? o) eqn:Eo; [apply Z.eqb_eq in Eo; congruence |].
    split; [apply wf_inverse |]. split; [exact Hwf |].
    split; [symmetry; now apply inverse_inverse |]. split; [reflexivity |].
    intros ei Hei Hb. rewrite (Hbnd ei Hei Hb). split; reflexivity.
Qed.

(** The edges of the square as [extract_transition_functions] reads them:
    only edge [2] is interior, with rotation [0] and translation
    [(-12, 0)]. *)
Definition square_edges : list EdgeInput :=
  [mkEdgeInput true 0 (fun _ => (0, 0));
   mkEdgeInput true 0 (fun _ => (0, 0));
   mkEdgeInput false 0 (fun _ => (-12, 0));
   mkEdgeInput true 0 (fun _ => (0, 0));
   mkEdgeInput true 0 (fun _ => (0, 0))].

Lemma extracted_transitions_inverse_witness :
  let tf_ := extract_transition_functions square_edges in
  TF.wf (transition_h square_mesh tf_ 4) /\
  TF.wf (transition_h square_mesh tf_ 5) /\
  transition_h square_mesh tf_ 5 = TF.inverse (transition_h square_mesh tf_ 4)
  /\
  transition_h square_mesh tf_ 4 = TF.inverse (transition_h square_mesh tf_ 5)
  /\
  (forall e, square_edges !! Z.to_nat (edge_handle square_mesh 4) = Some e ->
             edge_is_boundary e = true ->
             transition_h square_mesh tf_ 4 = TF.identity /\
             transition_h square_mesh tf_ 5 = TF.identity).
Proof.
  apply (extracted_transitions_inverse square_mesh square_edges 4).
  split; [vm_compute; reflexivity |].
  split; [vm_compute; congruence | left; vm_compute; reflexivity].
Defined.
